(** * Peephole passes over a small SSA instruction list

    A shallow embedding of the two pass plugins of the repository:

    - [TestPass]  : src/TestPass.cpp  (header comment: MyPasses.cpp), passes
                    registered as "algebraic-id-pass", "strength-reduction-pass",
                    "multi-instr-pass";
    - [Part000]   : src/unnamed/part_000, passes registered as
                    "algebraic-identity", "strength-reduction",
                    "multi-instruction".

    The LLVM objects the passes manipulate are modelled first (values,
    instructions, blocks, use replacement, erasure, insertion, list iterators),
    then each [run] method is transcribed, then the properties are proved. *)

From Stdlib Require Import ZArith List Bool Lia PeanoNat.
From Stdlib Require String.
Import ListNotations.

Set Implicit Arguments.

(* ------------------------------------------------------------------------- *)
(** ** Outcomes of an execution *)
(* ------------------------------------------------------------------------- *)

(** The C++ code can leave the defined behaviour of the LLVM API in three
    ways; [OutOfFuel] only bounds the loops of the model. *)
Inductive error : Type :=
| DanglingIterator   (* an iterator of an erased list node is advanced or read *)
| SelfReplace        (* replaceAllUsesWith(this): asserts, or never returns *)
| UsesRemain         (* a value is destroyed while it still has uses *)
| OutOfFuel.

Inductive outcome (A : Type) : Type :=
| Ok (a : A)
| Fail (e : error).

Arguments Ok {A} a.
Arguments Fail {A} e.

Definition bind {A B : Type} (m : outcome A) (k : A -> outcome B) : outcome B :=
  match m with
  | Ok a => k a
  | Fail e => Fail e
  end.

Notation "x <- m ;; k" := (bind m (fun x => k))
  (at level 61, m at next level, right associativity).

(* ------------------------------------------------------------------------- *)
(** ** Values and instructions *)
(* ------------------------------------------------------------------------- *)

Module IR.

(** A [Value*] is an integer constant (kept zero-extended, as
    [ConstantInt::getZExtValue] reads it), the poison constant, an opaque
    external value (argument, global, address) or the result of the
    instruction with the given identity. *)
Inductive Value : Type :=
| ConstantInt (v : Z)
| PoisonValue
| Argument (n : nat)
| InstRef (id : nat).

Inductive BinaryOps : Type :=
| Add | Sub | Mul | SDiv | UDiv | Shl | LShr | AShr.

(** The three instruction classes the passes [dyn_cast] to.  [id] stands for
    the address of the instruction object. *)
Inductive Instruction : Type :=
| BinaryOperator (id : nat) (opc : BinaryOps) (op0 op1 : Value)
| StoreInst (id : nat) (val ptr : Value)
| LoadInst (id : nat) (ptr : Value).

Definition BasicBlock : Type := list Instruction.
Definition Function : Type := list BasicBlock.

Definition Value_eqb (a b : Value) : bool :=
  match a, b with
  | ConstantInt x, ConstantInt y => Z.eqb x y
  | PoisonValue, PoisonValue => true
  | Argument x, Argument y => Nat.eqb x y
  | InstRef x, InstRef y => Nat.eqb x y
  | _, _ => false
  end.

Definition getId (ins : Instruction) : nat :=
  match ins with
  | BinaryOperator id _ _ _ => id
  | StoreInst id _ _ => id
  | LoadInst id _ => id
  end.

Definition operand_values (ins : Instruction) : list Value :=
  match ins with
  | BinaryOperator _ _ a b => [a; b]
  | StoreInst _ v p => [v; p]
  | LoadInst _ p => [p]
  end.

Definition mapOperands (g : Value -> Value) (ins : Instruction) : Instruction :=
  match ins with
  | BinaryOperator id opc a b => BinaryOperator id opc (g a) (g b)
  | StoreInst id v p => StoreInst id (g v) (g p)
  | LoadInst id p => LoadInst id (g p)
  end.

Definition ids (bb : BasicBlock) : list nat := map getId bb.
Definition all_ids (f : Function) : list nat := concat (map ids f).
Definition getBlock (f : Function) (b : nat) : BasicBlock := nth b f [].

(** [dyn_cast<Instruction>(V)]: the instruction a value is the result of. *)
Fixpoint find_in_block (bb : BasicBlock) (id : nat) : option Instruction :=
  match bb with
  | [] => None
  | ins :: r => if Nat.eqb (getId ins) id then Some ins else find_in_block r id
  end.

Fixpoint find_inst (f : Function) (id : nat) : option Instruction :=
  match f with
  | [] => None
  | bb :: r =>
      match find_in_block bb id with
      | Some ins => Some ins
      | None => find_inst r id
      end
  end.

(** *** Use lists *)

Definition uses_of (id : nat) (ins : Instruction) : bool :=
  existsb (Value_eqb (InstRef id)) (operand_values ins).

(** [V->use_empty()] *)
Definition use_empty (f : Function) (id : nat) : bool :=
  negb (existsb (existsb (uses_of id)) f).

Definition subst (old : nat) (new : Value) (v : Value) : Value :=
  match v with
  | InstRef i => if Nat.eqb i old then new else v
  | _ => v
  end.

(** [Old->replaceAllUsesWith(New)].  LLVM asserts [New != Old]; without the
    assertion the use list never empties and the call does not return. *)
Definition replaceAllUsesWith (f : Function) (old : nat) (new : Value)
  : outcome Function :=
  if Value_eqb new (InstRef old) then Fail SelfReplace
  else Ok (map (map (mapOperands (subst old new))) f).

Definition remove_id (id : nat) (bb : BasicBlock) : BasicBlock :=
  filter (fun ins => negb (Nat.eqb (getId ins) id)) bb.

(** [I->eraseFromParent()]: unlink and destroy.  Destroying a value that
    still has uses is the invariant violation of the data model. *)
Definition eraseFromParent (f : Function) (id : nat) : outcome Function :=
  if use_empty f id then Ok (map (remove_id id) f) else Fail UsesRemain.

(** Insertion of [N] immediately before the instruction [pos]. *)
Fixpoint insert_before (pos : nat) (N : Instruction) (bb : BasicBlock)
  : BasicBlock :=
  match bb with
  | [] => []
  | ins :: r =>
      if Nat.eqb (getId ins) pos then N :: ins :: r
      else ins :: insert_before pos N r
  end.

Definition insertBefore (f : Function) (pos : nat) (N : Instruction) : Function :=
  map (insert_before pos N) f.

(** [I->setOperand(0, V)] *)
Definition set_operand0 (id : nat) (v : Value) (ins : Instruction) : Instruction :=
  if Nat.eqb (getId ins) id then
    match ins with
    | BinaryOperator i opc _ b => BinaryOperator i opc v b
    | StoreInst i _ p => StoreInst i v p
    | LoadInst i _ => LoadInst i v
    end
  else ins.

Definition setOperand0 (f : Function) (id : nat) (v : Value) : Function :=
  map (map (set_operand0 id v)) f.

(** A new instruction object is distinct from every object in the function. *)
Definition value_bound (v : Value) : nat :=
  match v with
  | InstRef i => i
  | _ => 0
  end.

Definition inst_bound (ins : Instruction) : nat :=
  fold_right Nat.max (getId ins) (map value_bound (operand_values ins)).

Definition block_bound (bb : BasicBlock) : nat :=
  fold_right Nat.max 0 (map inst_bound bb).

Definition freshId (f : Function) : nat :=
  S (fold_right Nat.max 0 (map block_bound f)).

(** *** Constants *)

(** [dyn_cast<ConstantInt>(V)] followed by [C->equalsInt(n)]
    ([isZero], [isOne], [m_ConstantInt<n>] are the cases 0 and 1). *)
Definition equalsInt (v : Value) (n : Z) : bool :=
  match v with
  | ConstantInt c => Z.eqb c n
  | _ => false
  end.

Definition isConstantInt (v : Value) : bool :=
  match v with
  | ConstantInt _ => true
  | _ => false
  end.

(** [isa<Constant>(V)] *)
Definition isConstant (v : Value) : bool :=
  match v with
  | ConstantInt _ | PoisonValue => true
  | _ => false
  end.

(** *** Result of a pass *)
Inductive PreservedAnalyses : Type :=
| PA_none
| PA_all.

End IR.
Export IR.

(* ------------------------------------------------------------------------- *)
(** ** Integer semantics of the instructions *)
(* ------------------------------------------------------------------------- *)

(** Integers of one type [iN], [N = bits], are the numbers [0 .. 2^bits - 1];
    [None] is poison or undefined behaviour (shift by at least the width,
    division by zero, signed overflow of a division). *)
Module Sem.

Local Open Scope Z_scope.

Definition wrap (bits z : Z) : Z := z mod 2 ^ bits.

Definition signed (bits x : Z) : Z :=
  if x <? 2 ^ (bits - 1) then x else x - 2 ^ bits.

Definition eval_binop (bits : Z) (opc : BinaryOps) (x y : Z) : option Z :=
  match opc with
  | Add => Some (wrap bits (x + y))
  | Sub => Some (wrap bits (x - y))
  | Mul => Some (wrap bits (x * y))
  | UDiv => if y =? 0 then None else Some (x / y)
  | SDiv =>
      if y =? 0 then None
      else if (signed bits x =? - 2 ^ (bits - 1)) && (signed bits y =? -1)
           then None
           else Some (wrap bits (Z.quot (signed bits x) (signed bits y)))
  | Shl => if y <? bits then Some (wrap bits (Z.shiftl x y)) else None
  | LShr => if y <? bits then Some (Z.shiftr x y) else None
  | AShr => if y <? bits then Some (wrap bits (Z.shiftr (signed bits x) y))
            else None
  end.

(** What [ConstantFolder] returns for two constant operands. *)
Definition ConstantFold (bits : Z) (opc : BinaryOps) (a b : Value) : Value :=
  match a, b with
  | ConstantInt x, ConstantInt y =>
      match eval_binop bits opc x y with
      | Some z => ConstantInt z
      | None => PoisonValue
      end
  | _, _ => PoisonValue
  end.

(** Straight-line execution of a block: registers hold instruction results,
    memory is addressed by the value a pointer operand evaluates to. *)
Record machine : Type := { regs : list (nat * Z); mem : list (Z * Z) }.

Fixpoint lookup_reg (r : list (nat * Z)) (id : nat) : option Z :=
  match r with
  | [] => None
  | (k, v) :: t => if Nat.eqb k id then Some v else lookup_reg t id
  end.

Fixpoint lookup_mem (m : list (Z * Z)) (a : Z) : option Z :=
  match m with
  | [] => None
  | (k, v) :: t => if k =? a then Some v else lookup_mem t a
  end.

Definition eval_value (bits : Z) (args : nat -> Z) (m : machine) (v : Value)
  : option Z :=
  match v with
  | ConstantInt c => Some (wrap bits c)
  | PoisonValue => None
  | Argument n => Some (wrap bits (args n))
  | InstRef id => lookup_reg (regs m) id
  end.

Definition exec_inst (bits : Z) (args : nat -> Z) (m : machine)
  (ins : Instruction) : option machine :=
  match ins with
  | BinaryOperator id opc a b =>
      match eval_value bits args m a, eval_value bits args m b with
      | Some x, Some y =>
          match eval_binop bits opc x y with
          | Some z => Some {| regs := (id, z) :: regs m; mem := mem m |}
          | None => None
          end
      | _, _ => None
      end
  | StoreInst _ v p =>
      match eval_value bits args m v, eval_value bits args m p with
      | Some x, Some a => Some {| regs := regs m; mem := (a, x) :: mem m |}
      | _, _ => None
      end
  | LoadInst id p =>
      match eval_value bits args m p with
      | Some a =>
          match lookup_mem (mem m) a with
          | Some x => Some {| regs := (id, x) :: regs m; mem := mem m |}
          | None => None
          end
      | None => None
      end
  end.

Fixpoint exec_block (bits : Z) (args : nat -> Z) (bb : BasicBlock) (m : machine)
  : option machine :=
  match bb with
  | [] => Some m
  | ins :: r =>
      match exec_inst bits args m ins with
      | Some m' => exec_block bits args r m'
      | None => None
      end
  end.

(** The value the block computes for the instruction [id]. *)
Definition result_of (bits : Z) (args : nat -> Z) (bb : BasicBlock) (id : nat)
  : option Z :=
  match exec_block bits args bb {| regs := []; mem := [] |} with
  | Some m => lookup_reg (regs m) id
  | None => None
  end.

End Sem.

(* ------------------------------------------------------------------------- *)
(** ** Iteration over the instruction list of a block *)
(* ------------------------------------------------------------------------- *)

Module Iter.

(** An [ilist] iterator is the address of a node, or the end sentinel. *)
Inductive iterator : Type :=
| At (id : nat)
| End.

(** [BB.begin()] *)
Definition begin (bb : BasicBlock) : iterator :=
  match bb with
  | [] => End
  | ins :: _ => At (getId ins)
  end.

(** [*it]: reading through the iterator of a node that left the list is a
    use after free. *)
Definition deref (bb : BasicBlock) (id : nat) : outcome Instruction :=
  match find_in_block bb id with
  | Some ins => Ok ins
  | None => Fail DanglingIterator
  end.

(** [++it] / [std::next(it)]: follows the link of the node in the list as it is
    now. *)
Fixpoint next (bb : BasicBlock) (id : nat) : outcome iterator :=
  match bb with
  | [] => Fail DanglingIterator
  | ins :: r => if Nat.eqb (getId ins) id then Ok (begin r) else next r id
  end.

Section Loops.

Variable St : Type.
Variable fn : St -> Function.

(** [for (auto it = BB.begin(); it != BB.end();) { Instruction *I = &*it++; body }] *)
Fixpoint post_increment_loop
  (body : nat -> iterator -> Instruction -> St -> outcome St)
  (fuel : nat) (b : nat) (it : iterator) (s : St) : outcome St :=
  match it with
  | End => Ok s
  | At id =>
      match fuel with
      | O => Fail OutOfFuel
      | S fuel' =>
          ins <- deref (getBlock (fn s) b) id ;;
          it' <- next (getBlock (fn s) b) id ;;
          s' <- body b it' ins s ;;
          post_increment_loop body fuel' b it' s'
      end
  end.

(** [for (auto &I : BB) { body }]: the iterator is advanced after the body,
    from the node the body was given. *)
Fixpoint range_for_loop
  (body : Instruction -> St -> outcome St)
  (fuel : nat) (b : nat) (it : iterator) (s : St) : outcome St :=
  match it with
  | End => Ok s
  | At id =>
      match fuel with
      | O => Fail OutOfFuel
      | S fuel' =>
          ins <- deref (getBlock (fn s) b) id ;;
          s' <- body ins s ;;
          it' <- next (getBlock (fn s') b) id ;;
          range_for_loop body fuel' b it' s'
      end
  end.

(** [for (auto &BB : F)]: no pass adds or removes a block. *)
Fixpoint for_blocks (inner : nat -> iterator -> St -> outcome St)
  (bs : list nat) (s : St) : outcome St :=
  match bs with
  | [] => Ok s
  | b :: r =>
      s' <- inner b (begin (getBlock (fn s) b)) s ;;
      for_blocks inner r s'
  end.

Definition for_each_block (inner : nat -> iterator -> St -> outcome St) (s : St)
  : outcome St :=
  for_blocks inner (seq 0 (length (fn s))) s.

End Loops.

End Iter.
Export Iter.

(* ------------------------------------------------------------------------- *)
(** ** src/TestPass.cpp *)
(* ------------------------------------------------------------------------- *)

Module TestPass.

(** The local [changed] travels with the function. *)
Definition state : Type := (Function * bool)%type.

Definition report (s : state) : Function * PreservedAnalyses :=
  (fst s, if snd s then PA_none else PA_all).

(** [IRBuilder<> Builder(BinOp); Builder.CreateXxx(L, R)]: the default folder
    returns a constant, and inserts nothing, when both operands are
    constants; otherwise the new instruction goes immediately before
    [BinOp]. *)
Definition IRBuilder_Create (bits : Z) (f : Function) (BinOp : nat)
  (opc : BinaryOps) (L R : Value) : Function * Value :=
  if isConstant L && isConstant R then (f, Sem.ConstantFold bits opc L R)
  else
    let id := freshId f in
    (insertBefore f BinOp (BinaryOperator id opc L R), InstRef id).

Module AlgebraicIdentityPass.

(** Body of the inner loop, lines 51-88.  Every [break] leaves the
    [switch] only. *)
Definition visit (ins : Instruction) (s : state) : outcome state :=
  match ins with
  | BinaryOperator BinOp opc X Y =>
      match opc with
      | Add =>
          if equalsInt Y 0 then
            f1 <- replaceAllUsesWith (fst s) BinOp X ;;
            f2 <- eraseFromParent f1 BinOp ;;
            Ok (f2, true)
          else Ok s
      | Mul =>
          if equalsInt Y 1 then
            f1 <- replaceAllUsesWith (fst s) BinOp X ;;
            f2 <- eraseFromParent f1 BinOp ;;
            Ok (f2, true)
          else Ok s
      | _ => Ok s
      end
  | _ => Ok s
  end.

Definition run (fuel : nat) (F : Function)
  : outcome (Function * PreservedAnalyses) :=
  s <- for_each_block fst (range_for_loop fst visit fuel) (F, false) ;;
  Ok (report s).

End AlgebraicIdentityPass.

Module StrengthReductionPass.

(** Body of the inner loop, lines 122-174. *)
Definition visit (bits : Z) (ins : Instruction) (s : state) : outcome state :=
  match ins with
  | BinaryOperator BinOp opc X C =>
      match opc with
      | Mul =>
          if equalsInt C 15 then
            let '(f1, Shifted) :=
              IRBuilder_Create bits (fst s) BinOp Shl X (ConstantInt 4) in
            let '(f2, NewVal) :=
              IRBuilder_Create bits f1 BinOp Sub Shifted X in
            f3 <- replaceAllUsesWith f2 BinOp NewVal ;;
            f4 <- eraseFromParent f3 BinOp ;;
            Ok (f4, true)
          else Ok s
      | SDiv | UDiv =>
          if equalsInt C 8 then
            let '(f1, Shifted) :=
              IRBuilder_Create bits (fst s) BinOp LShr X (ConstantInt 3) in
            f2 <- replaceAllUsesWith f1 BinOp Shifted ;;
            f3 <- eraseFromParent f2 BinOp ;;
            Ok (f3, true)
          else Ok s
      | _ => Ok s
      end
  | _ => Ok s
  end.

Definition run (bits : Z) (fuel : nat) (F : Function)
  : outcome (Function * PreservedAnalyses) :=
  s <- for_each_block fst
         (post_increment_loop fst (fun _ _ => visit bits) fuel) (F, false) ;;
  Ok (report s).

End StrengthReductionPass.

Module MultiInstructionOptPass.

(** Body of the inner loop, lines 215-241: a [Sub(A, 1)] whose operand [A]
    is defined by an [Add(B, 1)], wherever that definition is. *)
Definition visit (ins : Instruction) (s : state) : outcome state :=
  match ins with
  | BinaryOperator SubOp Sub A C1 =>
      if equalsInt C1 1 then
        match A with
        | InstRef AddOp =>
            match find_inst (fst s) AddOp with
            | Some (BinaryOperator _ Add B C2) =>
                if equalsInt C2 1 then
                  f1 <- replaceAllUsesWith (fst s) SubOp B ;;
                  f2 <- eraseFromParent f1 SubOp ;;
                  Ok (f2, true)
                else Ok s
            | _ => Ok s
            end
        | _ => Ok s
        end
      else Ok s
  | _ => Ok s
  end.

Definition run (fuel : nat) (F : Function)
  : outcome (Function * PreservedAnalyses) :=
  s <- for_each_block fst
         (post_increment_loop fst (fun _ _ => visit) fuel) (F, false) ;;
  Ok (report s).

End MultiInstructionOptPass.

End TestPass.

(* ------------------------------------------------------------------------- *)
(** ** src/unnamed/part_000 *)
(* ------------------------------------------------------------------------- *)

Module Part000.

Definition fn (f : Function) : Function := f.

(** Every [run] of this file ends in [return PreservedAnalyses::none()]. *)
Definition report (f : Function) : Function * PreservedAnalyses := (f, PA_none).

(** [binOp->replaceAllUsesWith(V); binOp->eraseFromParent(); continue;] *)
Definition replace_erase (f : Function) (binOp : nat) (V : Value)
  : outcome Function :=
  f1 <- replaceAllUsesWith f binOp V ;;
  eraseFromParent f1 binOp.

Module AlgebraicIdentityPass.

(** Body of the loop, lines 19-52. *)
Definition visit (ins : Instruction) (f : Function) : outcome Function :=
  match ins with
  | BinaryOperator binOp opc op0 op1 =>
      match opc with
      | Add =>
          if equalsInt op1 0 then replace_erase f binOp op0
          else if equalsInt op0 0 then replace_erase f binOp op1
          else Ok f
      | Mul =>
          if equalsInt op1 1 then replace_erase f binOp op0
          else if equalsInt op0 1 then replace_erase f binOp op1
          else Ok f
      | _ => Ok f
      end
  | _ => Ok f
  end.

Definition run (fuel : nat) (F : Function)
  : outcome (Function * PreservedAnalyses) :=
  f <- for_each_block fn
         (post_increment_loop fn (fun _ _ => visit) fuel) F ;;
  Ok (report f).

End AlgebraicIdentityPass.

Module StrengthReductionPass.

(** Body of the loop, lines 65-94.  [BinaryOperator::CreateXxx(..., binOp)]
    always makes an instruction and links it before [binOp]. *)
Definition visit (ins : Instruction) (f : Function) : outcome Function :=
  match ins with
  | BinaryOperator binOp opc op0 op1 =>
      match opc with
      | Mul =>
          let '(op0, op1) :=
            if equalsInt op0 15 then (op1, op0) else (op0, op1) in
          if equalsInt op1 15 then
            let shiftInst := freshId f in
            let f1 :=
              insertBefore f binOp
                (BinaryOperator shiftInst Shl op0 (ConstantInt 4)) in
            let newInst := freshId f1 in
            let f2 :=
              insertBefore f1 binOp
                (BinaryOperator newInst Sub (InstRef shiftInst) op0) in
            replace_erase f2 binOp (InstRef newInst)
          else Ok f
      | SDiv =>
          if equalsInt op1 8 then
            let shiftInst := freshId f in
            let f1 :=
              insertBefore f binOp
                (BinaryOperator shiftInst AShr op0 (ConstantInt 3)) in
            replace_erase f1 binOp (InstRef shiftInst)
          else Ok f
      | _ => Ok f
      end
  | _ => Ok f
  end.

Definition run (fuel : nat) (F : Function)
  : outcome (Function * PreservedAnalyses) :=
  f <- for_each_block fn
         (post_increment_loop fn (fun _ _ => visit) fuel) F ;;
  Ok (report f).

End StrengthReductionPass.

Module MultiInstructionOptimizationPass.

(** Lines 111-117: the operand that is not the constant 1.  The second
    operand is looked at first, and the first one only when the second is
    no [ConstantInt] at all. *)
Definition base_of_add (op0 op1 : Value) : option Value :=
  if isConstantInt op1 then
    if equalsInt op1 1 then Some op0 else None
  else if isConstantInt op0 then
    if equalsInt op0 1 then Some op1 else None
  else None.

(** Lines 119-148: the look-ahead through [it], [std::next(it)] and
    [std::next(nextIt)]; the only mutation is [setOperand(0, b)]. *)
Definition visit (blk : nat) (it : iterator) (ins : Instruction) (f : Function)
  : outcome Function :=
  match ins with
  | BinaryOperator addInst Add op0 op1 =>
      match base_of_add op0 op1 with
      | None => Ok f
      | Some b =>
          match it with
          | End => Ok f
          | At store_it =>
              store1 <- deref (getBlock f blk) store_it ;;
              match store1 with
              | StoreInst _ val allocaPtr =>
                  if Value_eqb val (InstRef addInst) then
                    nextIt <- next (getBlock f blk) store_it ;;
                    match nextIt with
                    | End => Ok f
                    | At load_it =>
                        load <- deref (getBlock f blk) load_it ;;
                        match load with
                        | LoadInst loadId ptr =>
                            if Value_eqb ptr allocaPtr then
                              nextNextIt <- next (getBlock f blk) load_it ;;
                              match nextNextIt with
                              | End => Ok f
                              | At sub_it =>
                                  subInst <- deref (getBlock f blk) sub_it ;;
                                  match subInst with
                                  | BinaryOperator subId Sub s0 C2 =>
                                      if Value_eqb s0 (InstRef loadId) then
                                        if equalsInt C2 1 then
                                          Ok (setOperand0 f subId b)
                                        else Ok f
                                      else Ok f
                                  | _ => Ok f
                                  end
                              end
                            else Ok f
                        | _ => Ok f
                        end
                    end
                  else Ok f
              | _ => Ok f
              end
          end
      end
  | _ => Ok f
  end.

Definition run (fuel : nat) (F : Function)
  : outcome (Function * PreservedAnalyses) :=
  f <- for_each_block fn (post_increment_loop fn visit fuel) F ;;
  Ok (report f).

End MultiInstructionOptimizationPass.

End Part000.

(* ------------------------------------------------------------------------- *)
(** ** Reasoning about outcomes *)
(* ------------------------------------------------------------------------- *)

Lemma Value_eqb_spec (a b : Value) : reflect (a = b) (Value_eqb a b).
Proof.
  destruct a, b; simpl; try (constructor; congruence).
  - destruct (Z.eqb_spec v v0); constructor; congruence.
  - destruct (Nat.eqb_spec n n0); constructor; congruence.
  - destruct (Nat.eqb_spec id id0); constructor; congruence.
Qed.

Lemma bind_Ok {A B} (m : outcome A) (k : A -> outcome B) (b : B) :
  bind m k = Ok b -> exists a, m = Ok a /\ k a = Ok b.
Proof. destruct m as [a|e]; simpl; [eauto | discriminate]. Qed.

(** Postcondition of a computation: [P] on a result, [Bad] on a failure. *)
Definition post {A} (P : A -> Prop) (Bad : error -> Prop) (m : outcome A) : Prop :=
  match m with
  | Ok a => P a
  | Fail e => Bad e
  end.

Lemma post_bind {A B} (m : outcome A) (k : A -> outcome B)
  (P : A -> Prop) (Q : B -> Prop) (Bad : error -> Prop) :
  post P Bad m -> (forall a, P a -> post Q Bad (k a)) -> post Q Bad (bind m k).
Proof. destruct m; simpl; auto. Qed.

Lemma post_weaken {A} (P Q : A -> Prop) (Bad Bad' : error -> Prop) (m : outcome A) :
  post P Bad m -> (forall a, P a -> Q a) -> (forall e, Bad e -> Bad' e) ->
  post Q Bad' m.
Proof. destruct m; simpl; auto. Qed.

(* ------------------------------------------------------------------------- *)
(** ** Lists of instructions and their identities *)
(* ------------------------------------------------------------------------- *)

Section BlockFacts.

Lemma ids_app (a b : BasicBlock) : ids (a ++ b) = ids a ++ ids b.
Proof. apply map_app. Qed.

Lemma find_in_block_id (bb : BasicBlock) (id : nat) (ins : Instruction) :
  find_in_block bb id = Some ins -> getId ins = id /\ In ins bb.
Proof.
  induction bb as [|x r IH]; simpl; [discriminate|].
  destruct (Nat.eqb_spec (getId x) id) as [E|E].
  - intros [= <-]. auto.
  - intros H. destruct (IH H). auto.
Qed.

Lemma find_in_block_split (pre suf : BasicBlock) (ins : Instruction) :
  ~ In (getId ins) (ids pre) ->
  find_in_block (pre ++ ins :: suf) (getId ins) = Some ins.
Proof.
  induction pre as [|x r IH]; simpl; intros H.
  - now rewrite Nat.eqb_refl.
  - destruct (Nat.eqb_spec (getId x) (getId ins)); [tauto|].
    apply IH. tauto.
Qed.

Lemma next_split (pre suf : BasicBlock) (ins : Instruction) :
  ~ In (getId ins) (ids pre) ->
  next (pre ++ ins :: suf) (getId ins) = Ok (begin suf).
Proof.
  induction pre as [|x r IH]; simpl; intros H.
  - now rewrite Nat.eqb_refl.
  - destruct (Nat.eqb_spec (getId x) (getId ins)); [tauto|].
    apply IH. tauto.
Qed.

Lemma next_missing (bb : BasicBlock) (id : nat) :
  ~ In id (ids bb) -> next bb id = Fail DanglingIterator.
Proof.
  induction bb as [|x r IH]; simpl; auto.
  intros H. destruct (Nat.eqb_spec (getId x) id); [tauto|].
  apply IH. tauto.
Qed.

Lemma NoDup_app_head {A} (pre : list A) (x : A) (suf : list A) :
  NoDup (pre ++ x :: suf) -> ~ In x pre /\ ~ In x suf.
Proof.
  intros H. apply NoDup_remove_2 in H.
  split; intros Hin; apply H; apply in_or_app; auto.
Qed.

Lemma NoDup_concat_nth {A} (l : list (list A)) (n : nat) :
  NoDup (concat l) -> NoDup (nth n l []).
Proof.
  revert n. induction l as [|x r IH]; intros n H.
  - destruct n; constructor.
  - simpl in H. destruct n; simpl.
    + eapply NoDup_app_remove_r; eauto.
    + apply IH. eapply NoDup_app_remove_l; eauto.
Qed.

Lemma block_NoDup (f : Function) (b : nat) :
  NoDup (all_ids f) -> NoDup (ids (getBlock f b)).
Proof.
  intros H. unfold getBlock, all_ids in *.
  replace (ids (nth b f [])) with (nth b (map ids f) []).
  - now apply NoDup_concat_nth.
  - change (@nil nat) with (ids []). apply map_nth.
Qed.

End BlockFacts.

(** The identity an iterator over the remaining identities starts at. *)
Definition begin_ids (todo : list nat) : iterator :=
  match todo with
  | [] => End
  | id :: _ => At id
  end.

Lemma begin_ids_ids (bb : BasicBlock) : begin_ids (ids bb) = begin bb.
Proof. now destruct bb. Qed.

(* ------------------------------------------------------------------------- *)
(** ** Rules for the loops *)
(* ------------------------------------------------------------------------- *)

Section LoopRules.

Variable St : Type.
Variable fn : St -> Function.

(** The iterator stands before the instructions [todo] of block [b]. *)
Definition at_suffix (b : nat) (todo : list nat) (s : St) : Prop :=
  NoDup (ids (getBlock (fn s) b)) /\
  exists pre suf, getBlock (fn s) b = pre ++ suf /\ ids suf = todo.

Section PostIncrement.

Variable body : nat -> iterator -> Instruction -> St -> outcome St.
Variable b : nat.
Variable Inv : list nat -> St -> Prop.
Variable Bad : error -> Prop.

Hypothesis Inv_suffix : forall todo s, Inv todo s -> at_suffix b todo s.

Hypothesis body_step :
  forall s pre ins suf,
    Inv (ids (ins :: suf)) s ->
    getBlock (fn s) b = pre ++ ins :: suf ->
    post (Inv (ids suf)) Bad (body b (begin suf) ins s).

Lemma post_increment_loop_rule (todo : list nat) :
  forall fuel s,
    Inv todo s -> length todo <= fuel ->
    post (Inv []) Bad (post_increment_loop fn body fuel b (begin_ids todo) s).
Proof.
  induction todo as [|id rest IH]; intros fuel s HI Hfuel.
  - destruct fuel; simpl; exact HI.
  - destruct fuel as [|fuel]; [simpl in Hfuel; lia|].
    destruct (Inv_suffix HI) as [Hnd (pre & suf & Hblk & Hids)].
    destruct suf as [|ins suf]; [discriminate|].
    simpl in Hids. injection Hids as Hid Hrest. subst id rest.
    assert (Hpre : ~ In (getId ins) (ids pre)).
    { rewrite Hblk, ids_app in Hnd. simpl in Hnd.
      now apply NoDup_app_head in Hnd. }
    simpl. unfold deref.
    rewrite Hblk, find_in_block_split, next_split by assumption.
    simpl.
    eapply post_bind.
    + eapply body_step; eassumption.
    + intros s' HI'. simpl.
      rewrite <- begin_ids_ids. apply IH; [assumption|].
      simpl in Hfuel. lia.
Qed.

End PostIncrement.

Section RangeFor.

Variable body : Instruction -> St -> outcome St.
Variable b : nat.
Variable Inv : list nat -> St -> Prop.
Variable Bad : error -> Prop.

Hypothesis Inv_suffix : forall todo s, Inv todo s -> at_suffix b todo s.

(** The body must leave its own instruction in the list. *)
Hypothesis body_step :
  forall s pre ins suf,
    Inv (ids (ins :: suf)) s ->
    getBlock (fn s) b = pre ++ ins :: suf ->
    post (Inv (ids (ins :: suf))) Bad (body ins s).

Hypothesis Inv_advance :
  forall id rest s, Inv (id :: rest) s -> Inv rest s.

Lemma range_for_loop_rule (todo : list nat) :
  forall fuel s,
    Inv todo s -> length todo <= fuel ->
    post (Inv []) Bad (range_for_loop fn body fuel b (begin_ids todo) s).
Proof.
  induction todo as [|id rest IH]; intros fuel s HI Hfuel.
  - destruct fuel; simpl; exact HI.
  - destruct fuel as [|fuel]; [simpl in Hfuel; lia|].
    destruct (Inv_suffix HI) as [Hnd (pre & suf & Hblk & Hids)].
    destruct suf as [|ins suf]; [discriminate|].
    simpl in Hids. injection Hids as Hid Hrest. subst id rest.
    assert (Hpre : ~ In (getId ins) (ids pre)).
    { rewrite Hblk, ids_app in Hnd. simpl in Hnd.
      now apply NoDup_app_head in Hnd. }
    simpl. unfold deref.
    rewrite Hblk, find_in_block_split by assumption.
    simpl.
    eapply post_bind.
    + eapply body_step; eassumption.
    + intros s' HI'. simpl in HI'.
      destruct (Inv_suffix HI') as [Hnd' (pre' & suf' & Hblk' & Hids')].
      destruct suf' as [|ins' suf']; [discriminate|].
      simpl in Hids'. injection Hids' as Hid' Hrest'.
      assert (Hpre' : ~ In (getId ins') (ids pre')).
      { rewrite Hblk', ids_app in Hnd'. simpl in Hnd'.
        now apply NoDup_app_head in Hnd'. }
      rewrite Hblk', <- Hid', next_split by assumption.
      simpl. rewrite <- begin_ids_ids, Hrest'.
      apply IH; [|simpl in Hfuel; lia].
      eapply Inv_advance. exact HI'.
Qed.

End RangeFor.

Section Blocks.

Variable inner : nat -> iterator -> St -> outcome St.
Variable Inv : St -> Prop.
Variable Bad : error -> Prop.

Hypothesis inner_step :
  forall b s, Inv s -> post Inv Bad (inner b (begin (getBlock (fn s) b)) s).

Lemma for_blocks_rule (bs : list nat) :
  forall s, Inv s -> post Inv Bad (for_blocks fn inner bs s).
Proof.
  induction bs as [|b r IH]; intros s HI; simpl; [exact HI|].
  eapply post_bind; [apply inner_step; exact HI|].
  intros s' HI'. apply IH. exact HI'.
Qed.

Lemma for_each_block_rule (s : St) :
  Inv s -> post Inv Bad (for_each_block fn inner s).
Proof. apply for_blocks_rule. Qed.

End Blocks.

End LoopRules.

(* ------------------------------------------------------------------------- *)
(** ** Which failures a loop can end in *)
(* ------------------------------------------------------------------------- *)

Section LoopFailures.

Variable St : Type.
Variable fn : St -> Function.
Variable Bad : error -> Prop.
Hypothesis Bad_dangling : Bad DanglingIterator.
Hypothesis Bad_fuel : Bad OutOfFuel.

Definition fails_in {A} (m : outcome A) : Prop := post (fun _ => True) Bad m.



Lemma next_fails_in (bb : BasicBlock) (id : nat) : fails_in (next bb id).
Proof.
  induction bb as [|x r IH]; simpl; auto.
  destruct (Nat.eqb (getId x) id); simpl; auto.
Qed.




End LoopFailures.

(* ------------------------------------------------------------------------- *)
(** ** Use replacement empties the use list *)
(* ------------------------------------------------------------------------- *)

Lemma Value_eqb_refl (v : Value) : Value_eqb v v = true.
Proof. destruct (Value_eqb_spec v v); congruence. Qed.

Lemma subst_not_old (old : nat) (new v : Value) :
  new <> InstRef old -> Value_eqb (InstRef old) (subst old new v) = false.
Proof.
  intros Hnew. destruct (Value_eqb_spec (InstRef old) (subst old new v)) as [E|E];
    [|reflexivity].
  exfalso. destruct v as [c| |n|i]; simpl in E; try discriminate.
  destruct (Nat.eqb_spec i old) as [Ei|Ei]; [congruence|].
  injection E as E. congruence.
Qed.

Lemma uses_of_subst (old : nat) (new : Value) (ins : Instruction) :
  new <> InstRef old -> uses_of old (mapOperands (subst old new) ins) = false.
Proof.
  intros Hnew. unfold uses_of.
  destruct ins; cbn [operand_values mapOperands existsb];
    rewrite ?subst_not_old by assumption; reflexivity.
Qed.

Lemma existsb_map_false {A B} (p : B -> bool) (g : A -> B) (l : list A) :
  (forall a, p (g a) = false) -> existsb p (map g l) = false.
Proof.
  intros H. induction l as [|x r IH]; simpl; [reflexivity|].
  now rewrite H, IH.
Qed.

(** After [Old->replaceAllUsesWith(New)] returned, [Old] has no use. *)
Lemma replaceAllUsesWith_use_empty (f f1 : Function) (old : nat) (new : Value) :
  replaceAllUsesWith f old new = Ok f1 -> use_empty f1 old = true.
Proof.
  unfold replaceAllUsesWith.
  destruct (Value_eqb_spec new (InstRef old)) as [E|E]; [discriminate|].
  intros [= <-]. unfold use_empty.
  rewrite existsb_map_false; [reflexivity|].
  intros bb. apply existsb_map_false. intros ins. now apply uses_of_subst.
Qed.

Lemma replace_then_erase (f f1 : Function) (old : nat) (new : Value) :
  replaceAllUsesWith f old new = Ok f1 ->
  eraseFromParent f1 old = Ok (map (remove_id old) f1).
Proof.
  intros H. unfold eraseFromParent.
  now rewrite (replaceAllUsesWith_use_empty _ _ _ H).
Qed.

Definition not_UsesRemain (e : error) : Prop := e <> UsesRemain.



Lemma replaceAllUsesWith_other (f f1 : Function) (old : nat) (new : Value) :
  replaceAllUsesWith f old new = Ok f1 -> new <> InstRef old.
Proof.
  unfold replaceAllUsesWith.
  destruct (Value_eqb_spec new (InstRef old)); [discriminate | auto].
Qed.

Lemma replaceAllUsesWith_Fail (f : Function) (old : nat) (new : Value) (e : error) :
  replaceAllUsesWith f old new = Fail e -> e = SelfReplace.
Proof.
  unfold replaceAllUsesWith.
  destruct (Value_eqb new (InstRef old)); [congruence | discriminate].
Qed.



Section VisitShapes.







End VisitShapes.

Lemma setOperand0_ids (f : Function) (id : nat) (v : Value) :
  map ids (setOperand0 f id v) = map ids f.
Proof.
  unfold setOperand0. rewrite map_map. apply map_ext. intros bb.
  unfold ids. rewrite map_map. apply map_ext. intros ins.
  unfold set_operand0.
  destruct (Nat.eqb (getId ins) id); [destruct ins|]; reflexivity.
Qed.

Lemma deref_post (P : Instruction -> Prop) (bb : BasicBlock) (id : nat) :
  (forall ins, find_in_block bb id = Some ins -> P ins) ->
  post P not_UsesRemain (deref bb id).
Proof.
  intros H. unfold deref. destruct (find_in_block bb id); simpl; auto.
  discriminate.
Qed.

Lemma next_post (bb : BasicBlock) (id : nat) :
  post (fun _ => True) not_UsesRemain (next bb id).
Proof. apply next_fails_in. discriminate. Qed.

Lemma Part000_MultiInstruction_visit_ids (blk : nat) (it : iterator)
  (ins : Instruction) (f : Function) :
  post (fun f' => map ids f' = map ids f) not_UsesRemain
    (Part000.MultiInstructionOptimizationPass.visit blk it ins f).
Proof.
  assert (Hsame : map ids f = map ids f) by reflexivity.
  destruct ins as [addInst opc op0 op1| |]; try exact Hsame.
  destruct opc; try exact Hsame. simpl.
  destruct (Part000.MultiInstructionOptimizationPass.base_of_add op0 op1) as [b|];
    [|exact Hsame].
  destruct it as [store_it|]; [|exact Hsame].
  eapply post_bind; [apply deref_post; intros; exact Logic.I|].
  intros [ | sid val allocaPtr | ] _; try exact Hsame.
  destruct (Value_eqb val (InstRef addInst)); [|exact Hsame].
  eapply post_bind; [apply next_post|].
  intros [load_it|] _; [|exact Hsame].
  eapply post_bind; [apply deref_post; intros; exact Logic.I|].
  intros [ | | loadId ptr] _; try exact Hsame.
  destruct (Value_eqb ptr allocaPtr); [|exact Hsame].
  eapply post_bind; [apply next_post|].
  intros [sub_it|] _; [|exact Hsame].
  eapply post_bind; [apply deref_post; intros; exact Logic.I|].
  intros [subId opc s0 C2 | | ] _; try exact Hsame.
  destruct opc; try exact Hsame.
  destruct (Value_eqb s0 (InstRef loadId)); [|exact Hsame].
  destruct (equalsInt C2 1); [|exact Hsame].
  simpl. apply setOperand0_ids.
Qed.


Section NeverUsesRemain.




End NeverUsesRemain.


(* ------------------------------------------------------------------------- *)
(** ** Identities are unique: consequences *)
(* ------------------------------------------------------------------------- *)

Lemma NoDup_map_inj {A B} (g : A -> B) (l : list A) (x y : A) :
  NoDup (map g l) -> In x l -> In y l -> g x = g y -> x = y.
Proof.
  induction l as [|a r IH]; simpl; [tauto|].
  intros Hnd Hx Hy E. inversion Hnd as [|? ? Hn Hr]; subst.
  destruct Hx as [->|Hx], Hy as [->|Hy]; auto.
  - exfalso. apply Hn. rewrite E. now apply in_map.
  - exfalso. apply Hn. rewrite <- E. now apply in_map.
Qed.

Lemma all_ids_flat (f : Function) : all_ids f = map getId (concat f).
Proof. unfold all_ids, ids. now rewrite concat_map. Qed.

Lemma in_getBlock (f : Function) (b : nat) (ins : Instruction) :
  In ins (getBlock f b) -> In ins (concat f).
Proof.
  unfold getBlock. intros H. apply in_concat. exists (nth b f []). split; auto.
  destruct (Nat.lt_ge_cases b (length f)) as [Hlt|Hge].
  - now apply nth_In.
  - rewrite nth_overflow in H by assumption. destruct H.
Qed.

Lemma same_id_same_inst (f : Function) (x y : Instruction) :
  NoDup (all_ids f) -> In x (concat f) -> In y (concat f) ->
  getId x = getId y -> x = y.
Proof. rewrite all_ids_flat. apply NoDup_map_inj. Qed.

Lemma getBlock_map (h : BasicBlock -> BasicBlock) (f : Function) (b : nat) :
  h [] = [] -> getBlock (map h f) b = h (getBlock f b).
Proof.
  intros H. unfold getBlock. rewrite <- H at 1. apply map_nth.
Qed.

Lemma all_ids_of_ids (f g : Function) : map ids f = map ids g -> all_ids f = all_ids g.
Proof. unfold all_ids. now intros ->. Qed.

Lemma getBlock_ids (f : Function) (b : nat) :
  ids (getBlock f b) = nth b (map ids f) [].
Proof. unfold getBlock. change (@nil nat) with (ids []). now rewrite map_nth. Qed.

Lemma length_nth_concat {A} (l : list (list A)) (n : nat) :
  length (nth n l []) <= length (concat l).
Proof.
  revert n. induction l as [|x r IH]; intros n; simpl.
  - destruct n; simpl; lia.
  - rewrite length_app. destruct n; [lia|]. specialize (IH n). lia.
Qed.

Lemma block_length_le (f : Function) (b : nat) :
  length (ids (getBlock f b)) <= length (all_ids f).
Proof. rewrite getBlock_ids. apply length_nth_concat. Qed.

Lemma deref_next_at (bb pre : BasicBlock) (x : Instruction) (suf : BasicBlock) :
  NoDup (ids bb) -> bb = pre ++ x :: suf ->
  deref bb (getId x) = Ok x /\ next bb (getId x) = Ok (begin suf).
Proof.
  intros Hnd ->. rewrite ids_app in Hnd. simpl in Hnd.
  apply NoDup_app_head in Hnd. destruct Hnd as [Hpre _].
  unfold deref. now rewrite find_in_block_split, next_split.
Qed.

(* ------------------------------------------------------------------------- *)
(** ** The combiner of part_000 only overwrites an operand *)
(* ------------------------------------------------------------------------- *)

Inductive Opcode : Type :=
| OpBinary (opc : BinaryOps)
| OpStore
| OpLoad.

Definition getOpcode (ins : Instruction) : Opcode :=
  match ins with
  | BinaryOperator _ opc _ _ => OpBinary opc
  | StoreInst _ _ _ => OpStore
  | LoadInst _ _ => OpLoad
  end.

(** An instruction with the first operand of a [Sub] blanked: what the
    combiner of part_000 can never change. *)
Definition hide_sub_operand0 (ins : Instruction) : Instruction :=
  match ins with
  | BinaryOperator id Sub _ y => BinaryOperator id Sub PoisonValue y
  | _ => ins
  end.

Definition outside_sub_operand0 (f : Function) : Function :=
  map (map hide_sub_operand0) f.

Lemma hide_sub_operand0_id (ins : Instruction) :
  getId (hide_sub_operand0 ins) = getId ins.
Proof. destruct ins as [id [] a b| |]; reflexivity. Qed.

Lemma hide_sub_operand0_opcode (ins : Instruction) :
  getOpcode (hide_sub_operand0 ins) = getOpcode ins.
Proof. destruct ins as [id [] a b| |]; reflexivity. Qed.

Lemma ids_outside (f : Function) : map ids (outside_sub_operand0 f) = map ids f.
Proof.
  unfold outside_sub_operand0. rewrite map_map. apply map_ext. intros bb.
  unfold ids. rewrite map_map. apply map_ext. apply hide_sub_operand0_id.
Qed.

Lemma opcodes_outside (f : Function) :
  map (map getOpcode) (outside_sub_operand0 f) = map (map getOpcode) f.
Proof.
  unfold outside_sub_operand0. rewrite map_map. apply map_ext. intros bb.
  rewrite map_map. apply map_ext. apply hide_sub_operand0_opcode.
Qed.

Lemma outside_ids (f g : Function) :
  outside_sub_operand0 f = outside_sub_operand0 g -> map ids f = map ids g.
Proof. intros H. rewrite <- (ids_outside f), H. apply ids_outside. Qed.

Lemma outside_opcodes (f g : Function) :
  outside_sub_operand0 f = outside_sub_operand0 g ->
  map (map getOpcode) f = map (map getOpcode) g.
Proof. intros H. rewrite <- (opcodes_outside f), H. apply opcodes_outside. Qed.

Lemma ids_lengths (f g : Function) :
  map ids f = map ids g -> map (@length Instruction) f = map (@length Instruction) g.
Proof.
  intros H. apply (f_equal (map (@length nat))) in H. rewrite !map_map in H.
  rewrite (map_ext (fun bb => length (ids bb)) (@length Instruction)) in H
    by (intros bb; apply length_map).
  rewrite (map_ext (fun bb => length (ids bb)) (@length Instruction)) in H
    by (intros bb; apply length_map).
  exact H.
Qed.

Lemma setOperand0_outside (f : Function) (id : nat) (v s0 c : Value) :
  NoDup (all_ids f) ->
  In (BinaryOperator id Sub s0 c) (concat f) ->
  outside_sub_operand0 (setOperand0 f id v) = outside_sub_operand0 f.
Proof.
  intros Hnd Hin. unfold outside_sub_operand0, setOperand0.
  rewrite map_map. apply map_ext_in. intros bb Hbb.
  rewrite map_map. apply map_ext_in. intros x Hx. unfold set_operand0.
  destruct (Nat.eqb_spec (getId x) id) as [E|E]; [|reflexivity].
  assert (x = BinaryOperator id Sub s0 c) as ->.
  { eapply same_id_same_inst; eauto.
    apply in_concat. eauto. }
  reflexivity.
Qed.

Lemma at_suffix_of_ids {St} (fn : St -> Function) (b : nat) (s : St)
  (p todo : list nat) :
  NoDup (ids (getBlock (fn s) b)) ->
  ids (getBlock (fn s) b) = p ++ todo ->
  at_suffix fn b todo s.
Proof.
  intros Hnd H. split; [exact Hnd|].
  unfold ids in H. apply map_eq_app in H.
  destruct H as (pre & suf & Hblk & _ & Hsuf). eauto.
Qed.

Section CombinerFrame.

Import Part000.MultiInstructionOptimizationPass.

(** The window after [ins] is read through valid iterators, so the visit
    always returns. *)
Lemma Part000_MultiInstruction_visit_frame
  (f : Function) (blk : nat) (pre : BasicBlock) (ins : Instruction)
  (suf : BasicBlock) :
  NoDup (all_ids f) ->
  getBlock f blk = pre ++ ins :: suf ->
  exists f', visit blk (begin suf) ins f = Ok f' /\
             outside_sub_operand0 f' = outside_sub_operand0 f.
Proof.
  intros Hnd Hblk.
  assert (Hsame : exists f', Ok f = Ok f' /\
                    outside_sub_operand0 f' = outside_sub_operand0 f) by eauto.
  assert (Hb := block_NoDup f blk Hnd).
  destruct ins as [addInst opc op0 op1| |]; try exact Hsame.
  destruct opc; try exact Hsame. simpl.
  destruct (base_of_add op0 op1) as [b|]; [|exact Hsame].
  destruct suf as [|st suf1]; [exact Hsame|]. simpl begin.
  destruct (deref_next_at (pre ++ [BinaryOperator addInst Add op0 op1]) st suf1 Hb)
    as [Hd1 Hn1]; [rewrite Hblk, <- app_assoc; reflexivity|].
  rewrite Hd1. simpl.
  destruct st as [ | sid val allocaPtr | ]; try exact Hsame.
  destruct (Value_eqb val (InstRef addInst)); [|exact Hsame].
  rewrite Hn1. simpl.
  destruct suf1 as [|ld suf2]; [exact Hsame|]. simpl begin.
  destruct (deref_next_at
              (pre ++ [BinaryOperator addInst Add op0 op1;
                       StoreInst sid val allocaPtr]) ld suf2 Hb)
    as [Hd2 Hn2]; [rewrite Hblk, <- app_assoc; reflexivity|].
  rewrite Hd2. simpl.
  destruct ld as [ | | loadId ptr]; try exact Hsame.
  destruct (Value_eqb ptr allocaPtr); [|exact Hsame].
  rewrite Hn2. simpl.
  destruct suf2 as [|sb suf3]; [exact Hsame|]. simpl begin.
  destruct (deref_next_at
              (pre ++ [BinaryOperator addInst Add op0 op1;
                       StoreInst sid val allocaPtr; LoadInst loadId ptr])
              sb suf3 Hb)
    as [Hd3 _]; [rewrite Hblk, <- app_assoc; reflexivity|].
  rewrite Hd3. simpl.
  destruct sb as [subId opc s0 C2 | | ]; try exact Hsame.
  destruct opc; try exact Hsame.
  destruct (Value_eqb s0 (InstRef loadId)); [|exact Hsame].
  destruct (equalsInt C2 1); [|exact Hsame].
  eexists. split; [reflexivity|].
  eapply setOperand0_outside; [exact Hnd|].
  eapply in_getBlock. rewrite Hblk.
  apply in_or_app. right. simpl. eauto.
Qed.

Definition frame_inv (F : Function) (f : Function) : Prop :=
  NoDup (all_ids f) /\ outside_sub_operand0 f = outside_sub_operand0 F.

Definition frame_inv_at (F : Function) (b : nat) (todo : list nat)
  (f : Function) : Prop :=
  frame_inv F f /\ exists p, ids (getBlock f b) = p ++ todo.

Lemma Part000_MultiInstruction_loop_frame (F : Function) (fuel b : nat)
  (f : Function) :
  frame_inv F f -> length (all_ids F) <= fuel ->
  post (frame_inv F) (fun _ => False)
    (post_increment_loop Part000.fn visit fuel b (begin (getBlock f b)) f).
Proof.
  intros [Hnd Hout] Hfuel.
  rewrite <- begin_ids_ids.
  eapply post_weaken with (P := frame_inv_at F b []) (Bad := fun _ => False);
    [|intros a [H _]; exact H|auto].
  apply post_increment_loop_rule with (Inv := frame_inv_at F b).
  - intros todo s [[Hn _] [p Hp]].
    eapply at_suffix_of_ids; [|exact Hp]. now apply block_NoDup.
  - intros s pre ins suf [[Hn Ho] [p Hp]] Hblk.
    destruct (Part000_MultiInstruction_visit_frame s b pre ins suf Hn Hblk)
      as (f' & Hv & Hf').
    unfold Part000.fn in *. rewrite Hv. simpl.
    assert (Hids : map ids f' = map ids s) by now apply outside_ids.
    split; [split|].
    + rewrite (all_ids_of_ids _ _ Hids). exact Hn.
    + congruence.
    + exists (ids pre ++ [getId ins]).
      rewrite getBlock_ids, Hids, <- getBlock_ids, Hblk, ids_app.
      simpl. now rewrite <- app_assoc.
  - split; [split; assumption|]. exists []. reflexivity.
  - rewrite (all_ids_of_ids _ _ (outside_ids _ _ Hout)) in *.
    etransitivity; [apply block_length_le|].
    rewrite (all_ids_of_ids _ _ (outside_ids _ _ Hout)). exact Hfuel.
Qed.

End CombinerFrame.

(** The multi-instruction pass of part_000 always returns, reports that no
    analysis is preserved, and touches first operands of [Sub] only. *)
Lemma Part000_MultiInstruction_run_frame (fuel : nat) (F : Function) :
  NoDup (all_ids F) ->
  length (all_ids F) <= fuel ->
  exists F',
    Part000.MultiInstructionOptimizationPass.run fuel F = Ok (F', PA_none) /\
    outside_sub_operand0 F' = outside_sub_operand0 F.
Proof.
  intros Hnd Hfuel.
  unfold Part000.MultiInstructionOptimizationPass.run.
  assert (H := @for_each_block_rule Function Part000.fn
                 (post_increment_loop Part000.fn
                    Part000.MultiInstructionOptimizationPass.visit fuel)
                 (frame_inv F) (fun _ => False)).
  specialize (H (fun b s Hs =>
                   @Part000_MultiInstruction_loop_frame F fuel b s Hs Hfuel) F).
  destruct (for_each_block Part000.fn
              (post_increment_loop Part000.fn
                 Part000.MultiInstructionOptimizationPass.visit fuel) F)
    as [F'|e]; simpl in H.
  - destruct H as [_ Hout]; [split; auto|].
    exists F'. split; [reflexivity | exact Hout].
  - exfalso. apply H. split; auto.
Qed.

(** C10.  The multi-instruction pass of part_000 always returns, and returns
    a function that differs from its input at most in first operands of
    [Sub] instructions: every block keeps its length, its instruction
    identities and its opcode sequence. *)
Theorem Part000_MultiInstruction_keeps_instructions (fuel : nat) (F : Function) :
  NoDup (all_ids F) ->
  length (all_ids F) <= fuel ->
  exists F',
    Part000.MultiInstructionOptimizationPass.run fuel F = Ok (F', PA_none) /\
    outside_sub_operand0 F' = outside_sub_operand0 F /\
    map (@length Instruction) F' = map (@length Instruction) F /\
    map ids F' = map ids F /\
    map (map getOpcode) F' = map (map getOpcode) F.
Proof.
  intros Hnd Hfuel.
  destruct (@Part000_MultiInstruction_run_frame fuel F Hnd Hfuel) as (F' & Hrun & Hout).
  exists F'. repeat split; auto.
  - apply ids_lengths. now apply outside_ids.
  - now apply outside_ids.
  - now apply outside_opcodes.
Qed.

(* ------------------------------------------------------------------------- *)
(** ** A scan in which no visit rewrites *)
(* ------------------------------------------------------------------------- *)

Section Quiet.

Variable St : Type.
Variable fn : St -> Function.

(** Every instruction of [bb], visited in state [s] with the iterator on
    its successor, leaves [s] as it is. *)
Fixpoint quiet_block (body : iterator -> Instruction -> St -> outcome St)
  (s : St) (bb : BasicBlock) : Prop :=
  match bb with
  | [] => True
  | ins :: r => body (begin r) ins s = Ok s /\ quiet_block body s r
  end.

Definition quiet (body : nat -> iterator -> Instruction -> St -> outcome St)
  (s : St) : Prop :=
  forall b, quiet_block (body b) s (getBlock (fn s) b).

Lemma quiet_post_increment_loop
  (body : nat -> iterator -> Instruction -> St -> outcome St)
  (b : nat) (s : St) :
  NoDup (ids (getBlock (fn s) b)) ->
  forall suf pre fuel,
    getBlock (fn s) b = pre ++ suf ->
    quiet_block (body b) s suf ->
    length suf <= fuel ->
    post_increment_loop fn body fuel b (begin suf) s = Ok s.
Proof.
  intros Hnd. induction suf as [|ins r IH]; intros pre fuel Hblk Hq Hfuel.
  - destruct fuel; reflexivity.
  - destruct fuel as [|fuel]; [simpl in Hfuel; lia|].
    destruct Hq as [Hv Hq].
    destruct (deref_next_at pre ins r Hnd Hblk) as [Hd Hn].
    simpl. rewrite Hd, Hn. simpl. rewrite Hv. simpl.
    apply (IH (pre ++ [ins])); auto.
    + rewrite <- app_assoc. exact Hblk.
    + simpl in Hfuel. lia.
Qed.

Lemma quiet_range_for_loop (body : Instruction -> St -> outcome St)
  (b : nat) (s : St) :
  NoDup (ids (getBlock (fn s) b)) ->
  forall suf pre fuel,
    getBlock (fn s) b = pre ++ suf ->
    quiet_block (fun _ => body) s suf ->
    length suf <= fuel ->
    range_for_loop fn body fuel b (begin suf) s = Ok s.
Proof.
  intros Hnd. induction suf as [|ins r IH]; intros pre fuel Hblk Hq Hfuel.
  - destruct fuel; reflexivity.
  - destruct fuel as [|fuel]; [simpl in Hfuel; lia|].
    destruct Hq as [Hv Hq].
    destruct (deref_next_at pre ins r Hnd Hblk) as [Hd Hn].
    simpl. rewrite Hd. simpl. rewrite Hv. simpl. rewrite Hn. simpl.
    apply (IH (pre ++ [ins])); auto.
    + rewrite <- app_assoc. exact Hblk.
    + simpl in Hfuel. lia.
Qed.

Lemma quiet_for_each_block (inner : nat -> iterator -> St -> outcome St)
  (s : St) :
  (forall b, inner b (begin (getBlock (fn s) b)) s = Ok s) ->
  for_each_block fn inner s = Ok s.
Proof.
  intros H. unfold for_each_block. generalize (seq 0 (length (fn s))).
  induction l as [|b r IH]; simpl; [reflexivity|].
  rewrite H. simpl. exact IH.
Qed.

Lemma quiet_scan_post_increment
  (body : nat -> iterator -> Instruction -> St -> outcome St)
  (fuel : nat) (s : St) :
  NoDup (all_ids (fn s)) -> length (all_ids (fn s)) <= fuel ->
  quiet body s ->
  for_each_block fn (post_increment_loop fn body fuel) s = Ok s.
Proof.
  intros Hnd Hfuel Hq. apply quiet_for_each_block. intros b.
  apply quiet_post_increment_loop with (pre := []).
  - now apply block_NoDup.
  - reflexivity.
  - apply Hq.
  - etransitivity; [|exact Hfuel].
    etransitivity; [|apply (block_length_le (fn s) b)].
    unfold ids. now rewrite length_map.
Qed.

Lemma quiet_scan_range_for (body : Instruction -> St -> outcome St)
  (fuel : nat) (s : St) :
  NoDup (all_ids (fn s)) -> length (all_ids (fn s)) <= fuel ->
  quiet (fun _ _ => body) s ->
  for_each_block fn (range_for_loop fn body fuel) s = Ok s.
Proof.
  intros Hnd Hfuel Hq. apply quiet_for_each_block. intros b.
  apply quiet_range_for_loop with (pre := []).
  - now apply block_NoDup.
  - reflexivity.
  - apply Hq.
  - etransitivity; [|exact Hfuel].
    etransitivity; [|apply (block_length_le (fn s) b)].
    unfold ids. now rewrite length_map.
Qed.

End Quiet.

(* ------------------------------------------------------------------------- *)
(** ** The window of the combiner of part_000 *)
(* ------------------------------------------------------------------------- *)

Section CombinerWindow.

Import Part000.MultiInstructionOptimizationPass.

(** The look-ahead of [visit] read on the list of instructions that follow
    the addition: the [Sub] to overwrite and the new first operand, when the
    next three instructions are the store, the load and the subtraction. *)
Definition chain_window (ins : Instruction) (suf : BasicBlock)
  : option (nat * Value) :=
  match ins with
  | BinaryOperator addInst Add op0 op1 =>
      match base_of_add op0 op1 with
      | None => None
      | Some b =>
          match suf with
          | StoreInst _ val allocaPtr :: suf1 =>
              if Value_eqb val (InstRef addInst) then
                match suf1 with
                | LoadInst loadId ptr :: suf2 =>
                    if Value_eqb ptr allocaPtr then
                      match suf2 with
                      | BinaryOperator subId Sub s0 C2 :: _ =>
                          if Value_eqb s0 (InstRef loadId) then
                            if equalsInt C2 1 then Some (subId, b) else None
                          else None
                      | _ => None
                      end
                    else None
                | _ => None
                end
              else None
          | _ => None
          end
      end
  | _ => None
  end.

Definition apply_window (f : Function) (w : option (nat * Value)) : Function :=
  match w with
  | Some (subId, b) => setOperand0 f subId b
  | None => f
  end.

Lemma Part000_MultiInstruction_visit_window
  (f : Function) (blk : nat) (pre : BasicBlock) (ins : Instruction)
  (suf : BasicBlock) :
  NoDup (all_ids f) ->
  getBlock f blk = pre ++ ins :: suf ->
  visit blk (begin suf) ins f = Ok (apply_window f (chain_window ins suf)).
Proof.
  intros Hnd Hblk.
  assert (Hb := block_NoDup f blk Hnd).
  destruct ins as [addInst opc op0 op1| |]; try reflexivity.
  destruct opc; try reflexivity. simpl.
  destruct (base_of_add op0 op1) as [b|]; [|reflexivity].
  destruct suf as [|st suf1]; [reflexivity|]. simpl begin.
  destruct (deref_next_at (pre ++ [BinaryOperator addInst Add op0 op1]) st suf1 Hb)
    as [Hd1 Hn1]; [rewrite Hblk, <- app_assoc; reflexivity|].
  rewrite Hd1. simpl.
  destruct st as [ | sid val allocaPtr | ]; try reflexivity.
  destruct (Value_eqb val (InstRef addInst)); [|reflexivity].
  rewrite Hn1. simpl.
  destruct suf1 as [|ld suf2]; [reflexivity|]. simpl begin.
  destruct (deref_next_at
              (pre ++ [BinaryOperator addInst Add op0 op1;
                       StoreInst sid val allocaPtr]) ld suf2 Hb)
    as [Hd2 Hn2]; [rewrite Hblk, <- app_assoc; reflexivity|].
  rewrite Hd2. simpl.
  destruct ld as [ | | loadId ptr]; try reflexivity.
  destruct (Value_eqb ptr allocaPtr); [|reflexivity].
  rewrite Hn2. simpl.
  destruct suf2 as [|sb suf3]; [reflexivity|]. simpl begin.
  destruct (deref_next_at
              (pre ++ [BinaryOperator addInst Add op0 op1;
                       StoreInst sid val allocaPtr; LoadInst loadId ptr])
              sb suf3 Hb)
    as [Hd3 _]; [rewrite Hblk, <- app_assoc; reflexivity|].
  rewrite Hd3. simpl.
  destruct sb as [subId opc s0 C2 | | ]; try reflexivity.
  destruct opc; try reflexivity.
  destruct (Value_eqb s0 (InstRef loadId)); [|reflexivity].
  destruct (equalsInt C2 1); reflexivity.
Qed.

Lemma equalsInt_true (v : Value) (n : Z) :
  equalsInt v n = true -> v = ConstantInt n.
Proof.
  destruct v; simpl; try discriminate.
  intros H. apply Z.eqb_eq in H. now subst.
Qed.

(** The window matches only on four consecutive instructions. *)
Lemma chain_window_Some (ins : Instruction) (suf : BasicBlock)
  (subId : nat) (b : Value) :
  chain_window ins suf = Some (subId, b) ->
  exists addInst op0 op1 sid slot loadId rest,
    ins = BinaryOperator addInst Add op0 op1 /\
    base_of_add op0 op1 = Some b /\
    suf = StoreInst sid (InstRef addInst) slot
            :: LoadInst loadId slot
            :: BinaryOperator subId Sub (InstRef loadId) (ConstantInt 1)
            :: rest.
Proof.
  destruct ins as [addInst opc op0 op1| |]; try discriminate.
  destruct opc; try discriminate. simpl.
  destruct (base_of_add op0 op1) as [b'|] eqn:Eb; [|discriminate].
  destruct suf as [|[ | sid val allocaPtr | ] suf1]; try discriminate.
  destruct (Value_eqb_spec val (InstRef addInst)) as [Ev|]; [|discriminate].
  destruct suf1 as [|[ | | loadId ptr] suf2]; try discriminate.
  destruct (Value_eqb_spec ptr allocaPtr) as [Ep|]; [|discriminate].
  destruct suf2 as [|[sub opc s0 C2 | | ] suf3]; try discriminate.
  destruct opc; try discriminate.
  destruct (Value_eqb_spec s0 (InstRef loadId)) as [Es|]; [|discriminate].
  destruct (equalsInt C2 1) eqn:Ec; [|discriminate].
  intros [= -> ->]. apply equalsInt_true in Ec. subst.
  exists addInst, op0, op1, sid, allocaPtr, loadId, suf3.
  repeat split. exact Eb.
Qed.

(** No window of [f] matches. *)
Definition no_window (f : Function) : Prop :=
  forall blk pre ins suf,
    getBlock f blk = pre ++ ins :: suf -> chain_window ins suf = None.

Lemma quiet_block_suffix (f : Function) (blk : nat) :
  NoDup (all_ids f) -> no_window f ->
  forall suf pre, getBlock f blk = pre ++ suf ->
                  quiet_block (visit blk) f suf.
Proof.
  intros Hnd Hno. induction suf as [|ins r IH]; intros pre Hblk; simpl; auto.
  split.
  - rewrite (Part000_MultiInstruction_visit_window f blk pre ins r Hnd Hblk).
    now rewrite (Hno _ _ _ _ Hblk).
  - apply (IH (pre ++ [ins])). now rewrite <- app_assoc.
Qed.

Lemma no_window_quiet (f : Function) :
  NoDup (all_ids f) -> no_window f -> quiet Part000.fn visit f.
Proof.
  intros Hnd Hno blk. now apply quiet_block_suffix with (pre := []).
Qed.

End CombinerWindow.

(* ------------------------------------------------------------------------- *)
(** ** Near misses *)
(* ------------------------------------------------------------------------- *)

(** Instructions that only resemble a pattern are not rewritten by a visit. *)
Definition near_miss_visits (bits : Z) (s : TestPass.state) (f : Function)
  (id : nat) (x a : Value) (blk : nat) (it : iterator) : Prop :=
  TestPass.AlgebraicIdentityPass.visit (BinaryOperator id Add x (ConstantInt 2)) s = Ok s /\
  TestPass.AlgebraicIdentityPass.visit (BinaryOperator id Mul x (ConstantInt 3)) s = Ok s /\
  TestPass.StrengthReductionPass.visit bits (BinaryOperator id Mul x (ConstantInt 3)) s = Ok s /\
  TestPass.StrengthReductionPass.visit bits (BinaryOperator id SDiv x (ConstantInt 7)) s = Ok s /\
  TestPass.MultiInstructionOptPass.visit (BinaryOperator id Sub a (ConstantInt 2)) s = Ok s /\
  (equalsInt x 0 = false ->
   Part000.AlgebraicIdentityPass.visit (BinaryOperator id Add x (ConstantInt 2)) f = Ok f) /\
  (equalsInt x 1 = false ->
   Part000.AlgebraicIdentityPass.visit (BinaryOperator id Mul x (ConstantInt 3)) f = Ok f) /\
  (equalsInt x 15 = false ->
   Part000.StrengthReductionPass.visit (BinaryOperator id Mul x (ConstantInt 3)) f = Ok f) /\
  Part000.StrengthReductionPass.visit (BinaryOperator id SDiv x (ConstantInt 7)) f = Ok f /\
  Part000.MultiInstructionOptimizationPass.visit blk it
    (BinaryOperator id Sub a (ConstantInt 2)) f = Ok f.

Lemma near_miss_visits_hold bits s f id x a blk it :
  near_miss_visits bits s f id x a blk it.
Proof.
  unfold near_miss_visits. repeat split; try reflexivity.
  - intros H. simpl. now rewrite H.
  - intros H. simpl. now rewrite H.
  - intros H. simpl. now rewrite H.
Qed.

(** Windows of the combiner of part_000 that are near misses: the
    subtraction directly after the addition, a subtracted constant other than
    1, an instruction between the store and the load. *)
Definition near_miss_windows (ins : Instruction) (rest : BasicBlock)
  (i j k : nat) (a v p q c : Value) (opc : BinaryOps) : Prop :=
  chain_window ins (BinaryOperator i Sub a c :: rest) = None /\
  chain_window ins (StoreInst i v p :: LoadInst j q
                      :: BinaryOperator k Sub a (ConstantInt 2) :: rest) = None /\
  chain_window ins (StoreInst i v p :: BinaryOperator j opc a c
                      :: LoadInst k q :: rest) = None /\
  chain_window ins (StoreInst i v p :: LoadInst j q
                      :: BinaryOperator k opc a c :: rest) =
    chain_window ins [StoreInst i v p; LoadInst j q; BinaryOperator k opc a c].

Lemma near_miss_windows_hold ins rest i j k a v p q c opc :
  near_miss_windows ins rest i j k a v p q c opc.
Proof.
  unfold near_miss_windows, chain_window.
  destruct ins as [addInst o op0 op1| |]; auto.
  destruct o; auto.
  destruct (Part000.MultiInstructionOptimizationPass.base_of_add op0 op1); auto.
  destruct (Value_eqb v (InstRef addInst)); auto.
  destruct (Value_eqb q p); auto.
  repeat split; auto.
  destruct (Value_eqb a (InstRef j)); reflexivity.
Qed.

Section Unchanged.

Variable bits : Z.
Variable fuel : nat.
Variable F : Function.
Hypothesis F_ids : NoDup (all_ids F).
Hypothesis enough : length (all_ids F) <= fuel.

Lemma TestPass_AlgebraicIdentity_quiet :
  quiet fst (fun _ _ => TestPass.AlgebraicIdentityPass.visit) (F, false) ->
  TestPass.AlgebraicIdentityPass.run fuel F = Ok (F, PA_all).
Proof.
  intros Hq. unfold TestPass.AlgebraicIdentityPass.run.
  rewrite quiet_scan_range_for; auto.
Qed.

Lemma TestPass_StrengthReduction_quiet :
  quiet fst (fun _ _ => TestPass.StrengthReductionPass.visit bits) (F, false) ->
  TestPass.StrengthReductionPass.run bits fuel F = Ok (F, PA_all).
Proof.
  intros Hq. unfold TestPass.StrengthReductionPass.run.
  rewrite quiet_scan_post_increment; auto.
Qed.

Lemma TestPass_MultiInstruction_quiet :
  quiet fst (fun _ _ => TestPass.MultiInstructionOptPass.visit) (F, false) ->
  TestPass.MultiInstructionOptPass.run fuel F = Ok (F, PA_all).
Proof.
  intros Hq. unfold TestPass.MultiInstructionOptPass.run.
  rewrite quiet_scan_post_increment; auto.
Qed.

Lemma Part000_AlgebraicIdentity_quiet :
  quiet Part000.fn (fun _ _ => Part000.AlgebraicIdentityPass.visit) F ->
  Part000.AlgebraicIdentityPass.run fuel F = Ok (F, PA_none).
Proof.
  intros Hq. unfold Part000.AlgebraicIdentityPass.run.
  rewrite quiet_scan_post_increment; auto.
Qed.

Lemma Part000_StrengthReduction_quiet :
  quiet Part000.fn (fun _ _ => Part000.StrengthReductionPass.visit) F ->
  Part000.StrengthReductionPass.run fuel F = Ok (F, PA_none).
Proof.
  intros Hq. unfold Part000.StrengthReductionPass.run.
  rewrite quiet_scan_post_increment; auto.
Qed.

Lemma Part000_MultiInstruction_quiet :
  no_window F ->
  Part000.MultiInstructionOptimizationPass.run fuel F = Ok (F, PA_none).
Proof.
  intros Hq. unfold Part000.MultiInstructionOptimizationPass.run.
  rewrite quiet_scan_post_increment; auto.
  now apply no_window_quiet.
Qed.

End Unchanged.

(* ------------------------------------------------------------------------- *)
(** ** Concrete functions *)
(* ------------------------------------------------------------------------- *)

Module Examples.

Local Open Scope Z_scope.

(** [%1 = add %x, 2; %2 = mul %x, 3; %3 = sdiv %x, 7; %4 = add %b, 1;
     %5 = sub %4, 2; %6 = add %c, 1; store %6, %p; %8 = mul %x, %x;
     %9 = load %p; %10 = sub %9, 1] *)
Definition near_misses : Function :=
  [[BinaryOperator 1 Add (Argument 0) (ConstantInt 2);
    BinaryOperator 2 Mul (Argument 0) (ConstantInt 3);
    BinaryOperator 3 SDiv (Argument 0) (ConstantInt 7);
    BinaryOperator 4 Add (Argument 1) (ConstantInt 1);
    BinaryOperator 5 Sub (InstRef 4) (ConstantInt 2);
    BinaryOperator 6 Add (Argument 2) (ConstantInt 1);
    StoreInst 7 (InstRef 6) (Argument 3);
    BinaryOperator 8 Mul (Argument 0) (Argument 0);
    LoadInst 9 (Argument 3);
    BinaryOperator 10 Sub (InstRef 9) (ConstantInt 1)]].

(** [%1 = add %b, 1; store %1, %p; %3 = load %p; %4 = sub %3, 1] *)
Definition round_trip_chain : Function :=
  [[BinaryOperator 1 Add (Argument 0) (ConstantInt 1);
    StoreInst 2 (InstRef 1) (Argument 1);
    LoadInst 3 (Argument 1);
    BinaryOperator 4 Sub (InstRef 3) (ConstantInt 1)]].

Definition round_trip_chain_after : Function :=
  [[BinaryOperator 1 Add (Argument 0) (ConstantInt 1);
    StoreInst 2 (InstRef 1) (Argument 1);
    LoadInst 3 (Argument 1);
    BinaryOperator 4 Sub (Argument 0) (ConstantInt 1)]].

(** [b = 10], the slot at address 4096. *)
Definition args_b10 (n : nat) : Z :=
  match n with
  | O => 10
  | _ => 4096
  end.

(** [%1 = add %b, 1; %2 = mul %q, %r; %3 = sub %1, 1; %4 = mul %3, %3] *)
Definition interleaved_chain : Function :=
  [[BinaryOperator 1 Add (Argument 0) (ConstantInt 1);
    BinaryOperator 2 Mul (Argument 1) (Argument 2);
    BinaryOperator 3 Sub (InstRef 1) (ConstantInt 1);
    BinaryOperator 4 Mul (InstRef 3) (InstRef 3)]].

Definition interleaved_chain_after : Function :=
  [[BinaryOperator 1 Add (Argument 0) (ConstantInt 1);
    BinaryOperator 2 Mul (Argument 1) (Argument 2);
    BinaryOperator 4 Mul (Argument 0) (Argument 0)]].

(** [%1 = add 0, %x; %2 = mul 1, %1; %3 = sub %2, %y] *)
Definition left_identities : Function :=
  [[BinaryOperator 1 Add (ConstantInt 0) (Argument 0);
    BinaryOperator 2 Mul (ConstantInt 1) (InstRef 1);
    BinaryOperator 3 Sub (InstRef 2) (Argument 1)]].

Definition left_identities_after : Function :=
  [[BinaryOperator 3 Sub (Argument 0) (Argument 1)]].

(** [%1 = add %x, 0; %2 = mul %1, %1] *)
Definition add_zero : Function :=
  [[BinaryOperator 1 Add (Argument 0) (ConstantInt 0);
    BinaryOperator 2 Mul (InstRef 1) (InstRef 1)]].

Definition add_zero_after : Function :=
  [[BinaryOperator 2 Mul (Argument 0) (Argument 0)]].

(** [%1 = mul 15, %x; %2 = add %1, %1] *)
Definition mul_15_left : Function :=
  [[BinaryOperator 1 Mul (ConstantInt 15) (Argument 0);
    BinaryOperator 2 Add (InstRef 1) (InstRef 1)]].

Definition mul_15_left_after : Function :=
  [[BinaryOperator 3 Shl (Argument 0) (ConstantInt 4);
    BinaryOperator 4 Sub (InstRef 3) (Argument 0);
    BinaryOperator 2 Add (InstRef 4) (InstRef 4)]].

(** [%1 = udiv %x, 8; %2 = add %1, %1] *)
Definition udiv_8 : Function :=
  [[BinaryOperator 1 UDiv (Argument 0) (ConstantInt 8);
    BinaryOperator 2 Add (InstRef 1) (InstRef 1)]].

Definition udiv_8_after : Function :=
  [[BinaryOperator 3 LShr (Argument 0) (ConstantInt 3);
    BinaryOperator 2 Add (InstRef 3) (InstRef 3)]].

(** [%1 = mul %x, 15; %2 = add %1, %1] *)
Definition mul_15 : Function :=
  [[BinaryOperator 1 Mul (Argument 0) (ConstantInt 15);
    BinaryOperator 2 Add (InstRef 1) (InstRef 1)]].

(** [%1 = sdiv %x, 8; %2 = add %1, %1] *)
Definition sdiv_8 : Function :=
  [[BinaryOperator 1 SDiv (Argument 0) (ConstantInt 8);
    BinaryOperator 2 Add (InstRef 1) (InstRef 1)]].

(** [%1 = mul 3, 15; %2 = add %1, %1] *)
Definition mul_3_15 : Function :=
  [[BinaryOperator 1 Mul (ConstantInt 3) (ConstantInt 15);
    BinaryOperator 2 Add (InstRef 1) (InstRef 1)]].

Definition mul_3_15_after : Function :=
  [[BinaryOperator 2 Add (ConstantInt 45) (ConstantInt 45)]].

(** [%1 = udiv 40, 8; %2 = add %1, %1] *)
Definition udiv_40_8 : Function :=
  [[BinaryOperator 1 UDiv (ConstantInt 40) (ConstantInt 8);
    BinaryOperator 2 Add (InstRef 1) (InstRef 1)]].

Definition udiv_40_8_after : Function :=
  [[BinaryOperator 2 Add (ConstantInt 5) (ConstantInt 5)]].

(** Three blocks, the second one using what the third defines (the entry
    block branches to the third, the third to the second):
    [entry: ; bb1: %2 = mul %x, %1; bb2: %1 = mul 1, 15] *)
Definition use_before_def : Function :=
  [[];
   [BinaryOperator 2 Mul (Argument 0) (InstRef 1)];
   [BinaryOperator 1 Mul (ConstantInt 1) (ConstantInt 15)]].

Definition use_before_def_once : Function :=
  [[];
   [BinaryOperator 2 Mul (Argument 0) (ConstantInt 15)];
   []].

Definition use_before_def_twice : Function :=
  [[];
   [BinaryOperator 3 Shl (Argument 0) (ConstantInt 4);
    BinaryOperator 4 Sub (InstRef 3) (Argument 0)];
   []].

End Examples.

(** Decision procedures for the side conditions on concrete functions. *)
Fixpoint nodupb (l : list nat) : bool :=
  match l with
  | [] => true
  | x :: r => negb (existsb (Nat.eqb x) r) && nodupb r
  end.

Lemma nodupb_NoDup (l : list nat) : nodupb l = true -> NoDup l.
Proof.
  induction l as [|x r IH]; simpl; intros H; constructor.
  - apply andb_prop in H. destruct H as [H _].
    intros Hin. apply negb_true_iff in H.
    assert (existsb (Nat.eqb x) r = true); [|congruence].
    apply existsb_exists. exists x. split; [exact Hin | apply Nat.eqb_refl].
  - apply IH. apply andb_prop in H. tauto.
Defined.

Fixpoint block_no_window (bb : BasicBlock) : bool :=
  match bb with
  | [] => true
  | ins :: r =>
      match chain_window ins r with
      | None => block_no_window r
      | Some _ => false
      end
  end.

Lemma block_no_window_split (pre : BasicBlock) (ins : Instruction)
  (suf : BasicBlock) :
  block_no_window (pre ++ ins :: suf) = true -> chain_window ins suf = None.
Proof.
  induction pre as [|x r IH]; simpl.
  - destruct (chain_window ins suf); [discriminate | reflexivity].
  - destruct (chain_window x (r ++ ins :: suf)); [discriminate | exact IH].
Defined.

Lemma no_windowb_no_window (f : Function) :
  forallb block_no_window f = true -> no_window f.
Proof.
  intros H blk pre ins suf Hblk.
  apply block_no_window_split with (pre := pre). rewrite <- Hblk.
  unfold getBlock. destruct (nth_in_or_default blk f []) as [Hin|Hd].
  - rewrite forallb_forall in H. now apply H.
  - rewrite Hd. reflexivity.
Defined.

Ltac quiet_one_block :=
  let b := fresh "b" in
  intros b; destruct b as [|b];
  [vm_compute; repeat split; reflexivity
  |unfold getBlock; simpl; destruct b; exact Logic.I].

Lemma near_misses_ids : NoDup (all_ids Examples.near_misses).
Proof. apply nodupb_NoDup. vm_compute. reflexivity. Defined.

Lemma near_misses_length : length (all_ids Examples.near_misses) <= 10.
Proof. vm_compute. lia. Defined.

Lemma near_misses_no_window : no_window Examples.near_misses.
Proof. apply no_windowb_no_window. vm_compute. reflexivity. Defined.

(** C9, counterexample.  The combiner of TestPass.cpp rewrites a chain whose
    addition and subtraction are separated by an unrelated instruction. *)
Lemma interleaved_chain_is_rewritten :
  TestPass.MultiInstructionOptPass.run 4 Examples.interleaved_chain
    = Ok (Examples.interleaved_chain_after, PA_none) /\
  Examples.interleaved_chain_after <> Examples.interleaved_chain.
Proof. split; [vm_compute; reflexivity | discriminate]. Qed.

(** C10 at the round-trip chain. *)
Lemma Part000_MultiInstruction_keeps_instructions_witness :
  NoDup (all_ids Examples.round_trip_chain) /\
  length (all_ids Examples.round_trip_chain) <= 4 /\
  exists F',
    Part000.MultiInstructionOptimizationPass.run 4 Examples.round_trip_chain
      = Ok (F', PA_none) /\
    outside_sub_operand0 F' = outside_sub_operand0 Examples.round_trip_chain /\
    map (@length Instruction) F'
      = map (@length Instruction) Examples.round_trip_chain /\
    map ids F' = map ids Examples.round_trip_chain /\
    map (map getOpcode) F' = map (map getOpcode) Examples.round_trip_chain.
Proof.
  assert (Hnd : NoDup (all_ids Examples.round_trip_chain))
    by (apply nodupb_NoDup; vm_compute; reflexivity).
  assert (Hlen : length (all_ids Examples.round_trip_chain) <= 4)
    by (vm_compute; lia).
  split; [exact Hnd|]. split; [exact Hlen|].
  exact (@Part000_MultiInstruction_keeps_instructions 4
           Examples.round_trip_chain Hnd Hlen).
Defined.

(* ------------------------------------------------------------------------- *)
(** ** Where the two files part from the specification *)
(* ------------------------------------------------------------------------- *)

(** C1.  On the round-trip chain the combiner of part_000 overwrites the
    first operand of the subtraction and keeps the constant: with [b = 10]
    the subtraction computed 10 before the pass and computes 9 after it.
    The combiner of TestPass.cpp leaves this chain alone. *)
Theorem Part000_round_trip_chain_result_is_b_minus_1 :
  Part000.MultiInstructionOptimizationPass.run 4 Examples.round_trip_chain
    = Ok (Examples.round_trip_chain_after, PA_none) /\
  Sem.result_of 32 Examples.args_b10
    (getBlock Examples.round_trip_chain 0) 4 = Some 10%Z /\
  Sem.result_of 32 Examples.args_b10
    (getBlock Examples.round_trip_chain_after 0) 4 = Some 9%Z /\
  TestPass.MultiInstructionOptPass.run 4 Examples.round_trip_chain
    = Ok (Examples.round_trip_chain, PA_all).
Proof. repeat split; vm_compute; reflexivity. Qed.

(** C2, counterexample.  The pass of TestPass.cpp matches the constant on
    the right only: [add 0, %x] and [mul 1, %x] stay, where the pass of
    part_000 removes both. *)
Theorem TestPass_AlgebraicIdentity_keeps_left_identities :
  TestPass.AlgebraicIdentityPass.run 3 Examples.left_identities
    = Ok (Examples.left_identities, PA_all) /\
  Part000.AlgebraicIdentityPass.run 3 Examples.left_identities
    = Ok (Examples.left_identities_after, PA_none).
Proof. split; vm_compute; reflexivity. Qed.

(** C3, counterexample.  The pass of TestPass.cpp matches [Mul(x, 15)] only:
    [mul 15, %x] stays, where the pass of part_000 rewrites it; on
    [mul 3, 15] its builder folds, and no [Shl] or [Sub] is inserted; at
    width 4 the shift by 4 has no value where the product has one. *)
Theorem TestPass_StrengthReduction_keeps_mul_15_left :
  TestPass.StrengthReductionPass.run 32 2 Examples.mul_15_left
    = Ok (Examples.mul_15_left, PA_all) /\
  Part000.StrengthReductionPass.run 2 Examples.mul_15_left
    = Ok (Examples.mul_15_left_after, PA_none) /\
  TestPass.StrengthReductionPass.run 32 2 Examples.mul_3_15
    = Ok (Examples.mul_3_15_after, PA_none) /\
  Sem.eval_binop 4 Mul 3 15 = Some 13%Z /\
  Sem.eval_binop 4 Shl 3 4 = None.
Proof. repeat split; vm_compute; reflexivity. Qed.

(** C4, counterexample.  The pass of part_000 has no case for [UDiv]:
    [udiv %x, 8] stays, where the pass of TestPass.cpp rewrites it to a
    logical shift; on [udiv 40, 8] the builder of TestPass.cpp folds, and no
    shift is inserted. *)
Theorem Part000_StrengthReduction_keeps_udiv_8 :
  Part000.StrengthReductionPass.run 2 Examples.udiv_8
    = Ok (Examples.udiv_8, PA_none) /\
  TestPass.StrengthReductionPass.run 32 2 Examples.udiv_8
    = Ok (Examples.udiv_8_after, PA_none) /\
  TestPass.StrengthReductionPass.run 32 2 Examples.udiv_40_8
    = Ok (Examples.udiv_40_8_after, PA_none).
Proof. repeat split; vm_compute; reflexivity. Qed.


(** C6.  In the algebraic-identity pass of TestPass.cpp the range-based loop
    advances the iterator of the instruction the body has just erased, for
    any bound on the number of iterations; the loop of part_000, which
    advances first, scans on. *)
Theorem TestPass_AlgebraicIdentity_advances_erased_iterator (fuel : nat) :
  TestPass.AlgebraicIdentityPass.run (S fuel) Examples.add_zero
    = Fail DanglingIterator /\
  Part000.AlgebraicIdentityPass.run 2 Examples.add_zero
    = Ok (Examples.add_zero_after, PA_none).
Proof. split; reflexivity. Qed.

(** C8, counterexample.  A second run of a pass of part_000 on its own
    output rewrites nothing and still reports that no analysis is
    preserved, where the corresponding pass of TestPass.cpp reports all
    preserved the second time; and where a use precedes its definition in
    the layout, the second run of the strength-reduction pass of
    TestPass.cpp rewrites again. *)
Theorem Part000_second_run_reports_none :
  Part000.StrengthReductionPass.run 2 Examples.mul_15_left
    = Ok (Examples.mul_15_left_after, PA_none) /\
  Part000.StrengthReductionPass.run 3 Examples.mul_15_left_after
    = Ok (Examples.mul_15_left_after, PA_none) /\
  Part000.AlgebraicIdentityPass.run 2 Examples.add_zero
    = Ok (Examples.add_zero_after, PA_none) /\
  Part000.AlgebraicIdentityPass.run 1 Examples.add_zero_after
    = Ok (Examples.add_zero_after, PA_none) /\
  TestPass.StrengthReductionPass.run 32 2 Examples.udiv_8
    = Ok (Examples.udiv_8_after, PA_none) /\
  TestPass.StrengthReductionPass.run 32 2 Examples.udiv_8_after
    = Ok (Examples.udiv_8_after, PA_all) /\
  TestPass.StrengthReductionPass.run 32 2 Examples.use_before_def
    = Ok (Examples.use_before_def_once, PA_none) /\
  TestPass.StrengthReductionPass.run 32 1 Examples.use_before_def_once
    = Ok (Examples.use_before_def_twice, PA_none).
Proof. repeat split; vm_compute; reflexivity. Qed.

(* ------------------------------------------------------------------------- *)
(** ** Arithmetic of the rewrites *)
(* ------------------------------------------------------------------------- *)

Section Arithmetic.

Local Open Scope Z_scope.
Import Sem.

(** [(x << 4) - x] is [x * 15] at every width above 4. *)
Lemma mul_15_shift_sub (bits x : Z) :
  4 < bits ->
  exists shifted,
    eval_binop bits Shl x 4 = Some shifted /\
    eval_binop bits Sub shifted x = eval_binop bits Mul x 15.
Proof.
  intros Hb. exists (wrap bits (Z.shiftl x 4)). unfold eval_binop.
  assert (E : (4 <? bits) = true) by (apply Z.ltb_lt; lia).
  rewrite E. split; [reflexivity|].
  unfold wrap. f_equal. rewrite Z.shiftl_mul_pow2 by lia.
  rewrite Zminus_mod_idemp_l. f_equal. change (2 ^ 4) with 16. lia.
Qed.

(** [x = 3]: the product is 45 and so is the rewritten value. *)
Lemma mul_15_at_3 :
  eval_binop 32 Mul 3 15 = Some 45 /\
  eval_binop 32 Shl 3 4 = Some 48 /\
  eval_binop 32 Sub 48 3 = Some 45.
Proof. repeat split. Qed.

(** The unsigned quotient by 8 is the logical shift by 3. *)
Lemma udiv_8_lshr (bits x : Z) :
  3 < bits -> eval_binop bits UDiv x 8 = eval_binop bits LShr x 3.
Proof.
  intros Hb. unfold eval_binop.
  assert (E : (3 <? bits) = true) by (apply Z.ltb_lt; lia).
  rewrite E. change (8 =? 0) with false. cbv iota.
  f_equal. rewrite Z.shiftr_div_pow2 by lia. reflexivity.
Qed.

Lemma signed_small (bits x : Z) : x < 2 ^ (bits - 1) -> signed bits x = x.
Proof.
  intros H. unfold signed.
  assert (E : (x <? 2 ^ (bits - 1)) = true) by (apply Z.ltb_lt; lia).
  now rewrite E.
Qed.

Lemma sdiv_8_shift_wide (bits x : Z) :
  4 < bits -> 0 <= x < 2 ^ (bits - 1) ->
  eval_binop bits SDiv x 8 = eval_binop bits LShr x 3 /\
  eval_binop bits SDiv x 8 = eval_binop bits AShr x 3.
Proof.
  intros Hb Hx.
  assert (H16 : 2 ^ 4 <= 2 ^ (bits - 1)) by (apply Z.pow_le_mono_r; lia).
  change (2 ^ 4) with 16 in H16.
  assert (Hm : 2 ^ bits = 2 * 2 ^ (bits - 1)).
  { replace bits with (Z.succ (bits - 1)) at 1 by lia.
    apply Z.pow_succ_r. lia. }
  assert (E : (3 <? bits) = true) by (apply Z.ltb_lt; lia).
  assert (Hq : wrap bits (x / 8) = x / 8).
  { unfold wrap. apply Z.mod_small. split.
    - apply Z.div_pos; lia.
    - apply Z.le_lt_trans with x; [|lia].
      apply Z.div_le_upper_bound; lia. }
  unfold eval_binop. rewrite E. change (8 =? 0) with false. cbv iota.
  rewrite (@signed_small bits x) by lia.
  rewrite (@signed_small bits 8) by lia.
  replace (x =? - 2 ^ (bits - 1)) with false
    by (symmetry; apply Z.eqb_neq; lia).
  cbn [andb]. rewrite Z.quot_div_nonneg by lia.
  rewrite Z.shiftr_div_pow2 by lia. change (2 ^ 3) with 8.
  rewrite Hq. split; reflexivity.
Qed.

(** On a non-negative dividend the signed quotient by 8 is the logical and
    the arithmetic shift by 3, at every width that has a shift by 3.  At
    width 4 the divisor reads -8 and the quotient of a non-negative dividend
    is 0. *)
Lemma sdiv_8_shift (bits x : Z) :
  3 < bits -> 0 <= x < 2 ^ (bits - 1) ->
  eval_binop bits SDiv x 8 = eval_binop bits LShr x 3 /\
  eval_binop bits SDiv x 8 = eval_binop bits AShr x 3.
Proof.
  intros Hb Hx. destruct (Z.eq_dec bits 4) as [->|Hne].
  - change (2 ^ (4 - 1)) with 8 in Hx.
    assert (Hc : x = 0 \/ x = 1 \/ x = 2 \/ x = 3 \/
                 x = 4 \/ x = 5 \/ x = 6 \/ x = 7) by lia.
    repeat (destruct Hc as [->|Hc]; [split; reflexivity|]).
    subst x. split; reflexivity.
  - apply sdiv_8_shift_wide; [lia | exact Hx].
Qed.

(** [x = 40]: the quotient is 5 and so is the shifted value. *)
Lemma div_8_at_40 :
  eval_binop 32 UDiv 40 8 = Some 5 /\
  eval_binop 32 SDiv 40 8 = Some 5 /\
  eval_binop 32 LShr 40 3 = Some 5 /\
  eval_binop 32 AShr 40 3 = Some 5.
Proof. repeat split. Qed.

(** On a negative dividend the logical shift is not the signed quotient:
    [-8 / 8 = -1], and [-8 >> 3] read unsigned is [2^29 - 1]. *)
Lemma sdiv_8_negative :
  eval_binop 32 SDiv (2 ^ 32 - 8) 8 = Some (2 ^ 32 - 1) /\
  eval_binop 32 LShr (2 ^ 32 - 8) 3 = Some (2 ^ 29 - 1).
Proof. split; reflexivity. Qed.

(** [(b + 1) - 1] is [b]. *)
Lemma add_1_sub_1 (bits b : Z) :
  0 <= b < 2 ^ bits ->
  exists a,
    eval_binop bits Add b (wrap bits 1) = Some a /\
    eval_binop bits Sub a (wrap bits 1) = Some b.
Proof.
  intros Hb. eexists. split; [reflexivity|]. unfold eval_binop, wrap. f_equal.
  rewrite Zminus_mod_idemp_r, Zminus_mod_idemp_l.
  replace (b + 1 mod 2 ^ bits - 1) with (b - 1 + 1 mod 2 ^ bits) by lia.
  rewrite Zplus_mod_idemp_r.
  replace (b - 1 + 1) with b by lia. apply Z.mod_small. exact Hb.
Qed.

(** [b - 1] is not [b], whatever the width. *)
Lemma sub_1_changes (bits b : Z) :
  0 < bits -> 0 <= b < 2 ^ bits ->
  eval_binop bits Sub b (wrap bits 1) <> Some b.
Proof.
  intros Hbits Hb. unfold eval_binop, wrap. intros [= E].
  rewrite Zminus_mod_idemp_r in E.
  assert (H2 : 2 <= 2 ^ bits).
  { change 2 with (2 ^ 1) at 1. apply Z.pow_le_mono_r; lia. }
  destruct (Z.eq_dec b 0) as [->|Hn].
  - change (0 - 1) with (-1) in E.
    rewrite <- (Z.mod_add _ 1) in E by lia.
    rewrite Z.mod_small in E by lia. lia.
  - rewrite Z.mod_small in E by lia. lia.
Qed.

End Arithmetic.

(* ------------------------------------------------------------------------- *)
(** ** What the result of a TestPass.cpp pass says *)
(* ------------------------------------------------------------------------- *)

Lemma eraseFromParent_Ok (f f' : Function) (id : nat) :
  eraseFromParent f id = Ok f' -> f' = map (remove_id id) f.
Proof.
  unfold eraseFromParent. destruct (use_empty f id); [|discriminate].
  now intros [= <-].
Qed.

Lemma remove_id_gone (id : nat) (bb : BasicBlock) : ~ In id (ids (remove_id id bb)).
Proof.
  unfold ids, remove_id. intros H. apply in_map_iff in H.
  destruct H as (x & Hx & Hin). apply filter_In in Hin. destruct Hin as [_ Hin].
  subst id. now rewrite Nat.eqb_refl in Hin.
Qed.

Lemma erased_from_every_block (f f' : Function) (id b : nat) :
  eraseFromParent f id = Ok f' -> ~ In id (ids (getBlock f' b)).
Proof.
  intros H. apply eraseFromParent_Ok in H. subst f'.
  rewrite getBlock_map by reflexivity. apply remove_id_gone.
Qed.

Section Flag.

(** A visit that returns either changed nothing or erased the visited
    instruction and raised [changed]. *)
Definition flag_step (ins : Instruction) (s s' : TestPass.state) : Prop :=
  s' = s \/
  (snd s' = true /\ forall b, ~ In (getId ins) (ids (getBlock (fst s') b))).

Lemma replace_erase_flag (ins : Instruction) (s : TestPass.state)
  (f : Function) (v : Value) (s' : TestPass.state) :
  (f1 <- replaceAllUsesWith f (getId ins) v ;;
   f2 <- eraseFromParent f1 (getId ins) ;;
   Ok (f2, true)) = Ok s' ->
  flag_step ins s s'.
Proof.
  intros H. apply bind_Ok in H. destruct H as (f1 & _ & H).
  apply bind_Ok in H. destruct H as (f2 & He & H). injection H as <-.
  right. split; [reflexivity|]. intros b. simpl.
  eapply erased_from_every_block; eauto.
Qed.

Lemma TestPass_AlgebraicIdentity_visit_flag ins s s' :
  TestPass.AlgebraicIdentityPass.visit ins s = Ok s' -> flag_step ins s s'.
Proof.
  destruct ins as [id opc X Y| |]; simpl; try (intros [= <-]; now left).
  destruct opc; try (intros [= <-]; now left).
  - destruct (equalsInt Y 0); [|intros [= <-]; now left].
    apply (replace_erase_flag (BinaryOperator id Add X Y)).
  - destruct (equalsInt Y 1); [|intros [= <-]; now left].
    apply (replace_erase_flag (BinaryOperator id Mul X Y)).
Qed.

Lemma TestPass_StrengthReduction_visit_flag bits ins s s' :
  TestPass.StrengthReductionPass.visit bits ins s = Ok s' -> flag_step ins s s'.
Proof.
  destruct ins as [id opc X C| |]; simpl; try (intros [= <-]; now left).
  destruct opc; try (intros [= <-]; now left).
  - destruct (equalsInt C 15); [|intros [= <-]; now left].
    destruct (TestPass.IRBuilder_Create bits (fst s) id Shl X (ConstantInt 4))
      as [f1 Shifted].
    destruct (TestPass.IRBuilder_Create bits f1 id Sub Shifted X) as [f2 NewVal].
    apply (replace_erase_flag (BinaryOperator id Mul X C)).
  - destruct (equalsInt C 8); [|intros [= <-]; now left].
    destruct (TestPass.IRBuilder_Create bits (fst s) id LShr X (ConstantInt 3))
      as [f1 Shifted].
    apply (replace_erase_flag (BinaryOperator id SDiv X C)).
  - destruct (equalsInt C 8); [|intros [= <-]; now left].
    destruct (TestPass.IRBuilder_Create bits (fst s) id LShr X (ConstantInt 3))
      as [f1 Shifted].
    apply (replace_erase_flag (BinaryOperator id UDiv X C)).
Qed.

Lemma TestPass_MultiInstruction_visit_flag ins s s' :
  TestPass.MultiInstructionOptPass.visit ins s = Ok s' -> flag_step ins s s'.
Proof.
  destruct ins as [id opc A C1| |]; simpl; try (intros [= <-]; now left).
  destruct opc; try (intros [= <-]; now left).
  destruct (equalsInt C1 1); [|intros [= <-]; now left].
  destruct A as [| | |AddOp]; try (intros [= <-]; now left).
  destruct (find_inst (fst s) AddOp) as [[a opc B C2| |]|];
    try (intros [= <-]; now left).
  destruct opc; try (intros [= <-]; now left).
  destruct (equalsInt C2 1); [|intros [= <-]; now left].
  apply (replace_erase_flag (BinaryOperator id Sub (InstRef AddOp) C1)).
Qed.

(** Over a whole scan: nothing changed, or [changed] is raised. *)
Definition flag_run (s s' : TestPass.state) : Prop := s' = s \/ snd s' = true.

Lemma flag_run_trans (s s1 s' : TestPass.state) :
  flag_run s s1 -> flag_run s1 s' -> flag_run s s'.
Proof.
  intros [->|H1] [->|H2]; unfold flag_run; auto.
Qed.

Lemma flag_step_run ins s s' : flag_step ins s s' -> flag_run s s'.
Proof. intros [->|[H _]]; [left|right]; auto. Qed.

Lemma post_increment_loop_flag
  (body : nat -> iterator -> Instruction -> TestPass.state -> outcome TestPass.state) :
  (forall b it ins s s', body b it ins s = Ok s' -> flag_step ins s s') ->
  forall fuel b it s s',
    post_increment_loop fst body fuel b it s = Ok s' -> flag_run s s'.
Proof.
  intros Hbody. induction fuel as [|fuel IH]; intros b it s s' H.
  - destruct it; simpl in H; [discriminate|]. injection H as <-. now left.
  - destruct it as [id|]; simpl in H; [|injection H as <-; now left].
    apply bind_Ok in H. destruct H as (ins & _ & H).
    apply bind_Ok in H. destruct H as (it' & _ & H).
    apply bind_Ok in H. destruct H as (s1 & Hv & H).
    eapply flag_run_trans; [eapply flag_step_run; eauto | eauto].
Qed.

Lemma for_each_block_flag
  (inner : nat -> iterator -> TestPass.state -> outcome TestPass.state) :
  (forall b it s s', inner b it s = Ok s' -> flag_run s s') ->
  forall s s', for_each_block fst inner s = Ok s' -> flag_run s s'.
Proof.
  intros Hin s. unfold for_each_block. generalize (seq 0 (length (fst s))).
  intros bs. revert s. induction bs as [|b r IH]; intros s s' H; simpl in H.
  - injection H as <-. now left.
  - apply bind_Ok in H. destruct H as (s1 & H1 & H).
    eapply flag_run_trans; eauto.
Qed.

(** A run of the strength-reduction or of the multi-instruction pass of
    TestPass.cpp that reports all analyses preserved returned its input. *)
Lemma TestPass_all_preserved_means_unchanged (bits : Z) (fuel : nat)
  (F F' : Function) :
  (TestPass.StrengthReductionPass.run bits fuel F = Ok (F', PA_all) -> F' = F) /\
  (TestPass.MultiInstructionOptPass.run fuel F = Ok (F', PA_all) -> F' = F).
Proof.
  split; intros H.
  - unfold TestPass.StrengthReductionPass.run in H.
    apply bind_Ok in H. destruct H as (s' & Hs & H).
    apply for_each_block_flag in Hs.
    + unfold TestPass.report in H. destruct Hs as [->|Ht].
      * now injection H as <-.
      * rewrite Ht in H. discriminate.
    + intros b it s s1. apply post_increment_loop_flag.
      intros b0 it0 ins0 s0 s0'. apply TestPass_StrengthReduction_visit_flag.
  - unfold TestPass.MultiInstructionOptPass.run in H.
    apply bind_Ok in H. destruct H as (s' & Hs & H).
    apply for_each_block_flag in Hs.
    + unfold TestPass.report in H. destruct Hs as [->|Ht].
      * now injection H as <-.
      * rewrite Ht in H. discriminate.
    + intros b it s s1. apply post_increment_loop_flag.
      intros b0 it0 ins0 s0 s0'. apply TestPass_MultiInstruction_visit_flag.
Qed.

(** The range-based loop of the algebraic-identity pass of TestPass.cpp
    returns only when no visit rewrote: after an erasure the advance of the
    iterator fails. *)
Lemma range_for_loop_returns_unchanged (b : nat) (s : TestPass.state) :
  NoDup (ids (getBlock (fst s) b)) ->
  forall suf pre fuel s',
    getBlock (fst s) b = pre ++ suf ->
    range_for_loop fst TestPass.AlgebraicIdentityPass.visit fuel b (begin suf) s
      = Ok s' ->
    s' = s.
Proof.
  intros Hnd. induction suf as [|ins r IH]; intros pre fuel s' Hblk H.
  - destruct fuel; simpl in H; now injection H as <-.
  - destruct fuel as [|fuel]; [discriminate|].
    destruct (deref_next_at pre ins r Hnd Hblk) as [Hd Hn].
    simpl in H. rewrite Hd in H. simpl in H.
    apply bind_Ok in H. destruct H as (s1 & Hv & H).
    apply TestPass_AlgebraicIdentity_visit_flag in Hv.
    destruct Hv as [->|[_ Hgone]].
    + rewrite Hn in H. simpl in H.
      apply (IH (pre ++ [ins]) fuel); [|exact H].
      now rewrite <- app_assoc.
    + rewrite next_missing in H by apply Hgone. discriminate.
Qed.

Lemma TestPass_AlgebraicIdentity_returns_unchanged (fuel : nat) (F F' : Function)
  (pa : PreservedAnalyses) :
  NoDup (all_ids F) ->
  TestPass.AlgebraicIdentityPass.run fuel F = Ok (F', pa) ->
  F' = F /\ pa = PA_all.
Proof.
  intros Hnd H. unfold TestPass.AlgebraicIdentityPass.run in H.
  apply bind_Ok in H. destruct H as (s' & Hs & H).
  assert (Hsame : s' = (F, false)).
  { unfold for_each_block in Hs. revert Hs.
    generalize (seq 0 (length (fst (F, false)))). intros bs.
    induction bs as [|b r IH]; simpl; intros Hs.
    - now injection Hs as <-.
    - apply bind_Ok in Hs. destruct Hs as (s1 & H1 & Hs).
      apply range_for_loop_returns_unchanged with (pre := []) in H1;
        [|now apply block_NoDup|reflexivity].
      subst s1. now apply IH. }
  subst s'. unfold TestPass.report in H. simpl in H.
  injection H as <- <-. auto.
Qed.

End Flag.

(* ------------------------------------------------------------------------- *)
(** ** How a visit changes the identities of a function *)
(* ------------------------------------------------------------------------- *)

(** [splice id repl l]: the list [l] with [id] replaced by the list [repl]. *)
Definition splice (id : nat) (repl : list nat) (l : list nat) : list nat :=
  flat_map (fun i => if Nat.eqb i id then repl else [i]) l.

Lemma splice_nil (id : nat) (repl : list nat) : splice id repl [] = [].
Proof. reflexivity. Qed.

Lemma splice_app (id : nat) (repl a b : list nat) :
  splice id repl (a ++ b) = splice id repl a ++ splice id repl b.
Proof. apply flat_map_app. Qed.

Lemma splice_notin (id : nat) (repl l : list nat) :
  ~ In id l -> splice id repl l = l.
Proof.
  induction l as [|x r IH]; simpl; intros H; [reflexivity|].
  destruct (Nat.eqb_spec x id); [tauto|]. simpl. f_equal. apply IH. tauto.
Qed.

Lemma splice_split (id : nat) (repl pre suf : list nat) :
  ~ In id pre -> ~ In id suf ->
  splice id repl (pre ++ id :: suf) = pre ++ repl ++ suf.
Proof.
  intros Hp Hs. rewrite splice_app, (@splice_notin id repl pre Hp). simpl.
  rewrite Nat.eqb_refl. fold (splice id repl suf).
  now rewrite (@splice_notin id repl suf Hs).
Qed.

Lemma splice_keep (id : nat) (l : list nat) : splice id [id] l = l.
Proof.
  induction l as [|x r IH]; simpl; [reflexivity|].
  destruct (Nat.eqb_spec x id); simpl; f_equal; auto.
Qed.

Lemma in_splice (id n : nat) (repl l : list nat) :
  In n (splice id repl l) -> (In n l /\ n <> id) \/ (In n repl /\ In id l).
Proof.
  induction l as [|x r IH]; simpl; [tauto|].
  intros H. apply in_app_or in H. destruct H as [H|H].
  - destruct (Nat.eqb_spec x id) as [->|E].
    + right. auto.
    + destruct H as [->|[]]. left. auto.
  - destruct (IH H) as [[? ?]|[? ?]]; auto.
Qed.

Lemma splice_concat (id : nat) (repl : list nat) (L : list (list nat)) :
  concat (map (splice id repl) L) = splice id repl (concat L).
Proof.
  induction L as [|l r IH]; simpl; [reflexivity|].
  now rewrite splice_app, IH.
Qed.

Lemma splice_splice (id : nat) (r1 r2 l : list nat) :
  splice id r2 (splice id r1 l) = splice id (splice id r2 r1) l.
Proof.
  induction l as [|x r IH]; simpl; [reflexivity|].
  rewrite splice_app, IH. f_equal.
  destruct (Nat.eqb_spec x id) as [->|E]; [reflexivity|].
  simpl. destruct (Nat.eqb_spec x id); [contradiction | reflexivity].
Qed.

(** The replacement holds [id] itself or identities new to [l]. *)
Definition fresh_for (id : nat) (l repl : list nat) : Prop :=
  NoDup repl /\ forall n, In n repl -> n = id \/ ~ In n l.

Lemma splice_NoDup (id : nat) (repl l : list nat) :
  NoDup l -> fresh_for id l repl -> NoDup (splice id repl l).
Proof.
  intros Hl [Hr Hf]. induction l as [|x r IH]; simpl; [constructor|].
  inversion Hl as [|? ? Hx Hr']; subst.
  assert (IH' : NoDup (splice id repl r)).
  { apply IH; auto. intros n Hn. destruct (Hf n Hn) as [->|Hnot]; auto.
    right. intros Hin. apply Hnot. now right. }
  destruct (Nat.eqb_spec x id) as [->|E].
  - rewrite (@splice_notin id repl r Hx). apply NoDup_app; auto.
    intros n Hn Hin. destruct (Hf n Hn) as [->|Hnot]; auto.
    apply Hnot. now right.
  - simpl. constructor; auto. intros Hin.
    apply in_splice in Hin. destruct Hin as [[Hin _]|[Hin _]]; auto.
    destruct (Hf x Hin) as [->|Hnot]; auto. apply Hnot. now left.
Qed.

Definition ids_step (id : nat) (f f' : Function) : Prop :=
  exists repl,
    fresh_for id (all_ids f) repl /\
    map ids f' = map (splice id repl) (map ids f).

Lemma ids_step_same (id : nat) (f f' : Function) :
  map ids f' = map ids f -> ids_step id f f'.
Proof.
  intros H. exists [id]. split.
  - split; [repeat constructor; simpl; tauto|].
    intros n [<-|[]]. now left.
  - rewrite H. rewrite <- (map_id (map ids f)) at 1.
    apply map_ext. intros l. symmetry. apply splice_keep.
Qed.

Lemma ids_step_all_ids (id : nat) (f f' : Function) (repl : list nat) :
  map ids f' = map (splice id repl) (map ids f) ->
  all_ids f' = splice id repl (all_ids f).
Proof. intros H. unfold all_ids. now rewrite H, splice_concat. Qed.

Lemma ids_step_NoDup (id : nat) (f f' : Function) :
  NoDup (all_ids f) -> ids_step id f f' -> NoDup (all_ids f').
Proof.
  intros Hnd (repl & Hf & H). rewrite (@ids_step_all_ids id f f' repl H).
  now apply splice_NoDup.
Qed.

Lemma splice_keeps (id n : nat) (repl l : list nat) :
  In n l -> n <> id -> In n (splice id repl l).
Proof.
  induction l as [|x r IH]; simpl; [tauto|].
  intros [->|H] Hne; apply in_or_app.
  - left. destruct (Nat.eqb_spec n id); [contradiction | now left].
  - right. now apply IH.
Qed.

Lemma splice_brings (id n : nat) (repl l : list nat) :
  In id l -> In n repl -> In n (splice id repl l).
Proof.
  induction l as [|x r IH]; simpl; [tauto|].
  intros [->|H] Hn; apply in_or_app.
  - left. now rewrite Nat.eqb_refl.
  - right. now apply IH.
Qed.

Lemma ids_step_trans (id : nat) (f f1 f2 : Function) :
  In id (all_ids f) ->
  ids_step id f f1 -> ids_step id f1 f2 -> ids_step id f f2.
Proof.
  intros Hid (r1 & [Hn1 Hf1] & H1) (r2 & [Hn2 Hf2] & H2).
  assert (Ha := @ids_step_all_ids id f f1 r1 H1).
  exists (splice id r2 r1). split; [split|].
  - apply splice_NoDup; [exact Hn1|]. split; [exact Hn2|].
    intros n Hn. destruct (Hf2 n Hn) as [->|Hnot]; auto.
    right. intros Hin. apply Hnot. rewrite Ha. now apply splice_brings.
  - intros n Hn. apply in_splice in Hn.
    destruct Hn as [[Hn Hne]|[Hn _]].
    + destruct (Hf1 n Hn) as [->|Hnot]; auto.
    + destruct (Hf2 n Hn) as [->|Hnot]; auto.
      destruct (Nat.eq_dec n id) as [->|E]; auto.
      right. intros Hin. apply Hnot. rewrite Ha. now apply splice_keeps.
  - rewrite H2, H1, map_map. apply map_ext. intros l. apply splice_splice.
Qed.

Lemma NoDup_concat_in {A} (L : list (list A)) (l : list A) :
  NoDup (concat L) -> In l L -> NoDup l.
Proof.
  induction L as [|x r IH]; simpl; [tauto|].
  intros H [->|Hin].
  - eapply NoDup_app_remove_r; eauto.
  - apply IH; auto. eapply NoDup_app_remove_l; eauto.
Qed.

Lemma NoDup_app_disjoint {A} (l1 l2 : list A) (x : A) :
  NoDup (l1 ++ l2) -> In x l1 -> In x l2 -> False.
Proof.
  intros H H1 H2. apply in_split in H1. destruct H1 as (p & q & ->).
  rewrite <- app_assoc in H. simpl in H.
  apply NoDup_app_head in H. destruct H as [_ H].
  apply H. apply in_or_app. now right.
Qed.

Lemma in_nth_concat {A} (L : list (list A)) (x : A) (b : nat) :
  In x (nth b L []) -> In x (concat L).
Proof.
  intros H. apply in_concat. exists (nth b L []). split; [|exact H].
  destruct (Nat.lt_ge_cases b (length L)) as [Hlt|Hge].
  - now apply nth_In.
  - rewrite nth_overflow in H by assumption. destruct H.
Qed.

Lemma NoDup_concat_disjoint {A} (L : list (list A)) (x : A) (b b' : nat) :
  NoDup (concat L) -> In x (nth b L []) -> In x (nth b' L []) -> b = b'.
Proof.
  revert b b'. induction L as [|l r IH]; intros b b' H Hb Hb'.
  - destruct b; destruct Hb.
  - simpl in H. destruct b as [|b], b' as [|b']; simpl in Hb, Hb'.
    + reflexivity.
    + exfalso. eapply NoDup_app_disjoint; eauto.
      eapply in_nth_concat; eauto.
    + exfalso. eapply NoDup_app_disjoint; eauto.
      eapply in_nth_concat; eauto.
    + f_equal. apply IH; auto. eapply NoDup_app_remove_l; eauto.
Qed.

(** *** Elementary steps *)

Lemma replaceAllUsesWith_ids (f f1 : Function) (old : nat) (new : Value) :
  replaceAllUsesWith f old new = Ok f1 -> map ids f1 = map ids f.
Proof.
  unfold replaceAllUsesWith. destruct (Value_eqb new (InstRef old)); [discriminate|].
  intros [= <-]. rewrite map_map. apply map_ext. intros bb.
  unfold ids. rewrite map_map. apply map_ext. intros ins. now destruct ins.
Qed.

Lemma remove_id_ids (id : nat) (bb : BasicBlock) :
  ids (remove_id id bb) = splice id [] (ids bb).
Proof.
  induction bb as [|x r IH]; simpl; [reflexivity|].
  destruct (Nat.eqb_spec (getId x) id); simpl; [exact IH | now rewrite IH].
Qed.

Lemma eraseFromParent_ids (f f' : Function) (id : nat) :
  eraseFromParent f id = Ok f' -> map ids f' = map (splice id []) (map ids f).
Proof.
  intros H. apply eraseFromParent_Ok in H. subst f'.
  rewrite !map_map. apply map_ext. intros bb. apply remove_id_ids.
Qed.

Lemma fresh_for_nil (id : nat) (l : list nat) : fresh_for id l [].
Proof. split; [constructor | intros n []]. Qed.

Lemma replace_erase_ids_step (f f1 f2 : Function) (id : nat) (v : Value) :
  replaceAllUsesWith f id v = Ok f1 ->
  eraseFromParent f1 id = Ok f2 ->
  ids_step id f f2.
Proof.
  intros H1 H2. exists []. split; [apply fresh_for_nil|].
  rewrite (eraseFromParent_ids _ _ H2). now rewrite (replaceAllUsesWith_ids _ _ _ H1).
Qed.

Lemma insert_before_ids (pos : nat) (N : Instruction) (bb : BasicBlock) :
  NoDup (ids bb) ->
  ids (insert_before pos N bb) = splice pos [getId N; pos] (ids bb).
Proof.
  induction bb as [|x r IH]; simpl; intros H; [reflexivity|].
  inversion H as [|? ? Hx Hr]; subst.
  destruct (Nat.eqb_spec (getId x) pos) as [E|E].
  - simpl. subst pos.
    change (flat_map _ (map getId r)) with (splice (getId x) [getId N; getId x] (ids r)).
    now rewrite (@splice_notin (getId x) [getId N; getId x] (ids r) Hx).
  - simpl. f_equal. now apply IH.
Qed.

Lemma insertBefore_ids_step (f : Function) (pos : nat) (N : Instruction) :
  NoDup (all_ids f) -> ~ In (getId N) (all_ids f) -> getId N <> pos ->
  ids_step pos f (insertBefore f pos N).
Proof.
  intros Hnd Hfresh Hne. exists [getId N; pos]. split; [split|].
  - constructor; [simpl; intuition congruence|]. repeat constructor. simpl. tauto.
  - intros n [<-|[<-|[]]]; auto.
  - unfold insertBefore. rewrite !map_map. apply map_ext_in. intros bb Hbb.
    apply insert_before_ids.
    apply (NoDup_concat_in (map ids f)); [exact Hnd|]. now apply in_map.
Qed.

(** *** New identities *)

Lemma fold_max_le (l : list nat) (a n : nat) :
  In n l -> n <= fold_right Nat.max a l.
Proof.
  induction l as [|x r IH]; simpl; [tauto|].
  intros [->|H]; [lia|]. specialize (IH H). lia.
Qed.

Lemma fold_max_init (l : list nat) (a : nat) : a <= fold_right Nat.max a l.
Proof. induction l as [|x r IH]; simpl; lia. Qed.

Lemma freshId_above (f : Function) (id : nat) :
  In id (all_ids f) -> id < freshId f.
Proof.
  unfold all_ids, freshId. intros H. apply in_concat in H.
  destruct H as (l & Hl & Hid). apply in_map_iff in Hl.
  destruct Hl as (bb & <- & Hbb). unfold ids in Hid. apply in_map_iff in Hid.
  destruct Hid as (ins & <- & Hins).
  apply Nat.lt_succ_r.
  transitivity (block_bound bb).
  - transitivity (inst_bound ins).
    + unfold inst_bound. apply fold_max_init.
    + unfold block_bound. apply fold_max_le. now apply in_map.
  - apply fold_max_le. now apply in_map.
Qed.

Lemma freshId_fresh (f : Function) : ~ In (freshId f) (all_ids f).
Proof. intros H. apply freshId_above in H. lia. Qed.

Lemma fresh_insert_ids_step (f : Function) (pos : nat) (opc : BinaryOps)
  (a b : Value) :
  NoDup (all_ids f) -> In pos (all_ids f) ->
  ids_step pos f (insertBefore f pos (BinaryOperator (freshId f) opc a b)).
Proof.
  intros Hnd Hpos. apply insertBefore_ids_step; auto.
  - apply freshId_fresh.
  - simpl. apply freshId_above in Hpos. lia.
Qed.

(** *** The visits of the five scans that advance before the body *)

Lemma in_insert_before (pos : nat) (N x : Instruction) (bb : BasicBlock) :
  In x bb -> In x (insert_before pos N bb).
Proof.
  induction bb as [|y r IH]; simpl; [tauto|].
  intros H. destruct (Nat.eqb (getId y) pos); simpl in *; intuition.
Qed.

Lemma insertBefore_keeps (f : Function) (pos id : nat) (N : Instruction) :
  In id (all_ids f) -> In id (all_ids (insertBefore f pos N)).
Proof.
  rewrite !all_ids_flat. intros H. apply in_map_iff in H.
  destruct H as (x & <- & Hx). apply in_map. apply in_concat in Hx.
  destruct Hx as (bb & Hbb & Hx). apply in_concat.
  exists (insert_before pos N bb). split.
  - unfold insertBefore. now apply in_map.
  - now apply in_insert_before.
Qed.

Lemma Part000_replace_erase_ids_step (f f' : Function) (id : nat) (v : Value) :
  Part000.replace_erase f id v = Ok f' -> ids_step id f f'.
Proof.
  unfold Part000.replace_erase. intros H. apply bind_Ok in H.
  destruct H as (f1 & H1 & H2). eapply replace_erase_ids_step; eauto.
Qed.

Section VisitIds.

Variable f : Function.
Variable ins : Instruction.
Hypothesis f_ids : NoDup (all_ids f).
Hypothesis ins_in : In (getId ins) (all_ids f).

Lemma Part000_AlgebraicIdentity_visit_ids (f' : Function) :
  Part000.AlgebraicIdentityPass.visit ins f = Ok f' ->
  ids_step (getId ins) f f'.
Proof.
  assert (Hsame : Ok f = Ok f' -> ids_step (getId ins) f f').
  { intros [= <-]. now apply ids_step_same. }
  destruct ins as [id opc op0 op1| |]; try exact Hsame.
  destruct opc; try exact Hsame; simpl.
  - destruct (equalsInt op1 0); [apply Part000_replace_erase_ids_step|].
    destruct (equalsInt op0 0); [apply Part000_replace_erase_ids_step|].
    exact Hsame.
  - destruct (equalsInt op1 1); [apply Part000_replace_erase_ids_step|].
    destruct (equalsInt op0 1); [apply Part000_replace_erase_ids_step|].
    exact Hsame.
Qed.

Lemma Part000_StrengthReduction_visit_ids (f' : Function) :
  Part000.StrengthReductionPass.visit ins f = Ok f' ->
  ids_step (getId ins) f f'.
Proof.
  assert (Hsame : Ok f = Ok f' -> ids_step (getId ins) f f').
  { intros [= <-]. now apply ids_step_same. }
  destruct ins as [id opc op0 op1| |]; try exact Hsame.
  simpl in ins_in.
  destruct opc; try exact Hsame; simpl.
  - destruct (if equalsInt op0 15 then (op1, op0) else (op0, op1)) as [x c].
    destruct (equalsInt c 15); [|exact Hsame].
    intros H.
    set (f1 := insertBefore f id (BinaryOperator (freshId f) Shl x (ConstantInt 4))) in *.
    assert (S1 : ids_step id f f1) by now apply fresh_insert_ids_step.
    assert (N1 : NoDup (all_ids f1)) by (eapply ids_step_NoDup; eauto).
    assert (I1 : In id (all_ids f1)) by now apply insertBefore_keeps.
    eapply ids_step_trans; [exact ins_in| |eapply Part000_replace_erase_ids_step; exact H].
    eapply ids_step_trans; [exact ins_in|exact S1|].
    now apply fresh_insert_ids_step.
  - destruct (equalsInt op1 8); [|exact Hsame].
    intros H.
    eapply ids_step_trans; [exact ins_in| |eapply Part000_replace_erase_ids_step; exact H].
    now apply fresh_insert_ids_step.
Qed.

Lemma IRBuilder_Create_ids_step (bits : Z) (pos : nat) (opc : BinaryOps)
  (L R : Value) (f1 : Function) (V : Value) :
  In pos (all_ids f) ->
  TestPass.IRBuilder_Create bits f pos opc L R = (f1, V) ->
  ids_step pos f f1 /\ In pos (all_ids f1).
Proof.
  intros Hpos. unfold TestPass.IRBuilder_Create.
  destruct (isConstant L && isConstant R); intros [= <- <-].
  - split; [now apply ids_step_same | exact Hpos].
  - split; [now apply fresh_insert_ids_step | now apply insertBefore_keeps].
Qed.

End VisitIds.

Lemma TestPass_replace_erase_ids_step (f0 : Function) (id : nat) (v : Value)
  (s' : TestPass.state) :
  (f1 <- replaceAllUsesWith f0 id v ;;
   f2 <- eraseFromParent f1 id ;;
   Ok (f2, true)) = Ok s' ->
  ids_step id f0 (fst s').
Proof.
  intros H. apply bind_Ok in H. destruct H as (f1 & H1 & H).
  apply bind_Ok in H. destruct H as (f2 & H2 & H). injection H as <-.
  simpl. eapply replace_erase_ids_step; eauto.
Qed.

Lemma TestPass_StrengthReduction_visit_ids (bits : Z) (ins : Instruction)
  (s s' : TestPass.state) :
  NoDup (all_ids (fst s)) -> In (getId ins) (all_ids (fst s)) ->
  TestPass.StrengthReductionPass.visit bits ins s = Ok s' ->
  ids_step (getId ins) (fst s) (fst s').
Proof.
  intros Hnd Hin.
  assert (Hsame : Ok s = Ok s' -> ids_step (getId ins) (fst s) (fst s')).
  { intros [= <-]. now apply ids_step_same. }
  destruct ins as [id opc X C| |]; try exact Hsame.
  simpl in Hin.
  destruct opc; try exact Hsame; simpl.
  - destruct (equalsInt C 15); [|exact Hsame].
    destruct (TestPass.IRBuilder_Create bits (fst s) id Shl X (ConstantInt 4))
      as [f1 Shifted] eqn:E1.
    destruct (TestPass.IRBuilder_Create bits f1 id Sub Shifted X)
      as [f2 NewVal] eqn:E2.
    destruct (@IRBuilder_Create_ids_step _ Hnd _ _ _ _ _ _ _ Hin E1) as [S1 I1].
    assert (N1 : NoDup (all_ids f1)) by (eapply ids_step_NoDup; eauto).
    destruct (@IRBuilder_Create_ids_step _ N1 _ _ _ _ _ _ _ I1 E2) as [S2 I2].
    intros H. apply TestPass_replace_erase_ids_step in H.
    eapply ids_step_trans; [exact Hin| |exact H].
    eapply ids_step_trans; eauto.
  - destruct (equalsInt C 8); [|exact Hsame].
    destruct (TestPass.IRBuilder_Create bits (fst s) id LShr X (ConstantInt 3))
      as [f1 Shifted] eqn:E1.
    destruct (@IRBuilder_Create_ids_step _ Hnd _ _ _ _ _ _ _ Hin E1) as [S1 I1].
    intros H. apply TestPass_replace_erase_ids_step in H.
    eapply ids_step_trans; eauto.
  - destruct (equalsInt C 8); [|exact Hsame].
    destruct (TestPass.IRBuilder_Create bits (fst s) id LShr X (ConstantInt 3))
      as [f1 Shifted] eqn:E1.
    destruct (@IRBuilder_Create_ids_step _ Hnd _ _ _ _ _ _ _ Hin E1) as [S1 I1].
    intros H. apply TestPass_replace_erase_ids_step in H.
    eapply ids_step_trans; eauto.
Qed.

Lemma TestPass_MultiInstruction_visit_ids (ins : Instruction)
  (s s' : TestPass.state) :
  TestPass.MultiInstructionOptPass.visit ins s = Ok s' ->
  ids_step (getId ins) (fst s) (fst s').
Proof.
  assert (Hsame : Ok s = Ok s' -> ids_step (getId ins) (fst s) (fst s')).
  { intros [= <-]. now apply ids_step_same. }
  destruct ins as [id opc A C1| |]; try exact Hsame.
  destruct opc; try exact Hsame; simpl.
  destruct (equalsInt C1 1); [|exact Hsame].
  destruct A as [| | |AddOp]; try exact Hsame.
  destruct (find_inst (fst s) AddOp) as [[a opc B C2| |]|]; try exact Hsame.
  destruct opc; try exact Hsame.
  destruct (equalsInt C2 1); [|exact Hsame].
  apply TestPass_replace_erase_ids_step.
Qed.

(* ------------------------------------------------------------------------- *)
(** ** A scan that advances first visits each instruction once *)
(* ------------------------------------------------------------------------- *)

Lemma ids_step_blocks (id b : nat) (f f' : Function) (p rest : list nat) :
  NoDup (all_ids f) ->
  ids (getBlock f b) = p ++ id :: rest ->
  ids_step id f f' ->
  NoDup (all_ids f') /\
  (exists p', ids (getBlock f' b) = p' ++ rest) /\
  (forall b', b' <> b -> ids (getBlock f' b') = ids (getBlock f b')).
Proof.
  intros Hnd Hblk Hstep. split; [eapply ids_step_NoDup; eauto|].
  destruct Hstep as (repl & _ & H).
  assert (Hnth : forall k, ids (getBlock f' k) = splice id repl (ids (getBlock f k))).
  { intros k. rewrite !getBlock_ids, H.
    rewrite <- (splice_nil id repl) at 1. apply map_nth. }
  assert (Hb : NoDup (ids (getBlock f b))) by now apply block_NoDup.
  split.
  - exists (p ++ repl). rewrite Hnth, Hblk.
    rewrite Hblk in Hb. apply NoDup_app_head in Hb. destruct Hb.
    rewrite splice_split by assumption. now rewrite app_assoc.
  - intros b' Hne. rewrite Hnth. apply splice_notin. intros Hin.
    apply Hne. rewrite getBlock_ids in Hin.
    eapply NoDup_concat_disjoint; [exact Hnd|exact Hin|].
    rewrite <- getBlock_ids, Hblk. apply in_or_app. right. now left.
Qed.

Section Traversal.

Variable St : Type.
Variable fn : St -> Function.
Variable body : nat -> iterator -> Instruction -> St -> outcome St.

(** One visit for each identity of [todo], in order; the instruction is read
    from the function as it is when its turn comes. *)
Fixpoint visit_ids (b : nat) (todo : list nat) (s : St) : outcome St :=
  match todo with
  | [] => Ok s
  | id :: rest =>
      ins <- deref (getBlock (fn s) b) id ;;
      s' <- body b (begin_ids rest) ins s ;;
      visit_ids b rest s'
  end.

(** The blocks [bs] in turn, each with the identities it had in [L0]. *)
Fixpoint visit_blocks (L0 : list (list nat)) (bs : list nat) (s : St)
  : outcome St :=
  match bs with
  | [] => Ok s
  | b :: r =>
      s' <- visit_ids b (nth b L0 []) s ;;
      visit_blocks L0 r s'
  end.

Hypothesis body_ids :
  forall b it ins s s',
    NoDup (all_ids (fn s)) -> In (getId ins) (all_ids (fn s)) ->
    body b it ins s = Ok s' ->
    ids_step (getId ins) (fn s) (fn s').

Lemma head_of_todo (b : nat) (s : St) (p : list nat) (id : nat)
  (rest : list nat) :
  NoDup (all_ids (fn s)) ->
  ids (getBlock (fn s) b) = p ++ id :: rest ->
  exists ins,
    getId ins = id /\
    In id (all_ids (fn s)) /\
    deref (getBlock (fn s) b) id = Ok ins /\
    next (getBlock (fn s) b) id = Ok (begin_ids rest).
Proof.
  intros Hnd Hids. assert (Hb := block_NoDup (fn s) b Hnd).
  assert (Hsplit := Hids). unfold ids in Hsplit. apply map_eq_app in Hsplit.
  destruct Hsplit as (pre & suf & Hblk & _ & Hsuf).
  destruct suf as [|ins suf]; [discriminate|].
  simpl in Hsuf. injection Hsuf as Hid Hrest.
  destruct (deref_next_at pre ins suf Hb Hblk) as [Hd Hn].
  exists ins. rewrite <- Hid. repeat split; auto.
  - rewrite all_ids_flat. apply in_map. eapply in_getBlock.
    rewrite Hblk. apply in_or_app. right. now left.
  - rewrite Hn, <- Hrest. f_equal. symmetry. apply begin_ids_ids.
Qed.

Lemma post_increment_loop_visit_ids (b : nat) (todo : list nat) :
  forall s p fuel,
    NoDup (all_ids (fn s)) ->
    ids (getBlock (fn s) b) = p ++ todo ->
    length todo <= fuel ->
    post_increment_loop fn body fuel b (begin_ids todo) s = visit_ids b todo s.
Proof.
  induction todo as [|id rest IH]; intros s p fuel Hnd Hids Hfuel.
  - destruct fuel; reflexivity.
  - destruct fuel as [|fuel]; [simpl in Hfuel; lia|].
    destruct (@head_of_todo b s p id rest Hnd Hids) as (ins & Hid & Hin & Hd & Hn).
    simpl. rewrite Hd, Hn. simpl.
    destruct (body b (begin_ids rest) ins s) as [s'|e] eqn:Hbody; [|reflexivity].
    simpl. rewrite <- Hid in Hin.
    assert (Hstep := @body_ids _ _ _ _ _ Hnd Hin Hbody). rewrite Hid in Hstep.
    destruct (@ids_step_blocks _ _ _ _ _ _ Hnd Hids Hstep) as (Hnd' & (p' & Hp') & _).
    apply (@IH s' p' fuel); auto. simpl in Hfuel. lia.
Qed.

Lemma visit_ids_blocks (b : nat) (todo : list nat) :
  forall s p s',
    NoDup (all_ids (fn s)) ->
    ids (getBlock (fn s) b) = p ++ todo ->
    visit_ids b todo s = Ok s' ->
    NoDup (all_ids (fn s')) /\
    forall b', b' <> b -> ids (getBlock (fn s') b') = ids (getBlock (fn s) b').
Proof.
  induction todo as [|id rest IH]; intros s p s' Hnd Hids H.
  - injection H as <-. auto.
  - destruct (@head_of_todo b s p id rest Hnd Hids) as (ins & Hid & Hin & Hd & Hn).
    simpl in H. rewrite Hd in H. simpl in H.
    apply bind_Ok in H. destruct H as (s1 & Hbody & H).
    rewrite <- Hid in Hin.
    assert (Hstep := @body_ids _ _ _ _ _ Hnd Hin Hbody). rewrite Hid in Hstep.
    destruct (@ids_step_blocks _ _ _ _ _ _ Hnd Hids Hstep) as (Hnd' & (p' & Hp') & Hother).
    destruct (@IH s1 p' s' Hnd' Hp' H) as [Hn' Ho'].
    split; [exact Hn'|]. intros b' Hne.
    rewrite Ho' by assumption. now apply Hother.
Qed.

Lemma for_blocks_visit_blocks (fuel : nat) (L0 : list (list nat)) (bs : list nat) :
  forall s,
    NoDup bs ->
    NoDup (all_ids (fn s)) ->
    (forall b, In b bs -> ids (getBlock (fn s) b) = nth b L0 []) ->
    (forall b, In b bs -> length (nth b L0 []) <= fuel) ->
    for_blocks fn (post_increment_loop fn body fuel) bs s = visit_blocks L0 bs s.
Proof.
  induction bs as [|b r IH]; intros s Hbs Hnd Hids Hfuel; [reflexivity|].
  simpl. inversion Hbs as [|? ? Hb Hr]; subst.
  assert (Hblk := Hids b (or_introl eq_refl)).
  rewrite <- begin_ids_ids, Hblk.
  rewrite (@post_increment_loop_visit_ids b (nth b L0 []) s [] fuel Hnd Hblk)
    by (apply Hfuel; now left).
  destruct (visit_ids b (nth b L0 []) s) as [s'|e] eqn:Hv; [|reflexivity].
  simpl.
  destruct (@visit_ids_blocks b (nth b L0 []) s [] s' Hnd Hblk Hv) as [Hnd' Hother].
  apply IH; auto.
  - intros b' Hb'. rewrite Hother; [apply Hids; now right|].
    intros ->. contradiction.
  - intros b' Hb'. apply Hfuel. now right.
Qed.

Theorem scan_visits_each_instruction_once (fuel : nat) (s : St) :
  NoDup (all_ids (fn s)) ->
  length (all_ids (fn s)) <= fuel ->
  for_each_block fn (post_increment_loop fn body fuel) s
  = visit_blocks (map ids (fn s)) (seq 0 (length (fn s))) s.
Proof.
  intros Hnd Hfuel. unfold for_each_block.
  apply for_blocks_visit_blocks; auto.
  - apply seq_NoDup.
  - intros b _. apply getBlock_ids.
  - intros b _. etransitivity; [|exact Hfuel]. apply length_nth_concat.
Qed.

End Traversal.

Lemma Part000_MultiInstruction_visit_ids_step (blk : nat) (it : iterator)
  (ins : Instruction) (f f' : Function) :
  Part000.MultiInstructionOptimizationPass.visit blk it ins f = Ok f' ->
  ids_step (getId ins) f f'.
Proof.
  intros H. apply ids_step_same.
  assert (P := Part000_MultiInstruction_visit_ids blk it ins f).
  rewrite H in P. exact P.
Qed.

(** The five scans written with an explicit iterator are one visit per
    instruction the block had when the scan reached it, in order: no
    instruction is visited twice or skipped, and none that a rewrite
    inserted is visited. *)
Theorem advancing_scans_visit_each_instruction_once
  (bits : Z) (fuel : nat) (F : Function) :
  NoDup (all_ids F) ->
  length (all_ids F) <= fuel ->
  let blocks := seq 0 (length F) in
  TestPass.StrengthReductionPass.run bits fuel F
  = (s <- visit_blocks fst (fun _ _ => TestPass.StrengthReductionPass.visit bits)
            (map ids F) blocks (F, false) ;; Ok (TestPass.report s)) /\
  TestPass.MultiInstructionOptPass.run fuel F
  = (s <- visit_blocks fst (fun _ _ => TestPass.MultiInstructionOptPass.visit)
            (map ids F) blocks (F, false) ;; Ok (TestPass.report s)) /\
  Part000.AlgebraicIdentityPass.run fuel F
  = (f <- visit_blocks Part000.fn (fun _ _ => Part000.AlgebraicIdentityPass.visit)
            (map ids F) blocks F ;; Ok (Part000.report f)) /\
  Part000.StrengthReductionPass.run fuel F
  = (f <- visit_blocks Part000.fn (fun _ _ => Part000.StrengthReductionPass.visit)
            (map ids F) blocks F ;; Ok (Part000.report f)) /\
  Part000.MultiInstructionOptimizationPass.run fuel F
  = (f <- visit_blocks Part000.fn Part000.MultiInstructionOptimizationPass.visit
            (map ids F) blocks F ;; Ok (Part000.report f)).
Proof.
  intros Hnd Hfuel blocks. repeat split.
  - unfold TestPass.StrengthReductionPass.run.
    rewrite (@scan_visits_each_instruction_once (Function * bool)%type fst
               (fun _ _ => TestPass.StrengthReductionPass.visit bits)
               (fun b it => TestPass_StrengthReduction_visit_ids bits)
               fuel (F, false) Hnd Hfuel).
    reflexivity.
  - unfold TestPass.MultiInstructionOptPass.run.
    rewrite (@scan_visits_each_instruction_once (Function * bool)%type fst
               (fun _ _ => TestPass.MultiInstructionOptPass.visit)
               (fun b it ins s s' _ _ => @TestPass_MultiInstruction_visit_ids ins s s')
               fuel (F, false) Hnd Hfuel).
    reflexivity.
  - unfold Part000.AlgebraicIdentityPass.run.
    rewrite (@scan_visits_each_instruction_once Function Part000.fn
               (fun _ _ => Part000.AlgebraicIdentityPass.visit)
               (fun b it ins s s' _ Hi => @Part000_AlgebraicIdentity_visit_ids s ins Hi s')
               fuel F Hnd Hfuel).
    reflexivity.
  - unfold Part000.StrengthReductionPass.run.
    rewrite (@scan_visits_each_instruction_once Function Part000.fn
               (fun _ _ => Part000.StrengthReductionPass.visit)
               (fun b it ins s s' Hn Hi => @Part000_StrengthReduction_visit_ids s ins Hn Hi s')
               fuel F Hnd Hfuel).
    reflexivity.
  - unfold Part000.MultiInstructionOptimizationPass.run.
    rewrite (@scan_visits_each_instruction_once Function Part000.fn
               Part000.MultiInstructionOptimizationPass.visit
               (fun b it ins s s' _ _ =>
                  @Part000_MultiInstruction_visit_ids_step b it ins s s')
               fuel F Hnd Hfuel).
    reflexivity.
Qed.

(* ------------------------------------------------------------------------- *)
(** ** The algebraic-identity pass of part_000 removes every identity *)
(* ------------------------------------------------------------------------- *)

(** [Add(x, 0)], [Add(0, x)], [Mul(x, 1)], [Mul(1, x)]. *)
Definition is_identity (ins : Instruction) : bool :=
  match ins with
  | BinaryOperator _ Add a b => equalsInt b 0 || equalsInt a 0
  | BinaryOperator _ Mul a b => equalsInt b 1 || equalsInt a 1
  | _ => false
  end.

(** The operand [x] of an identity. *)
Definition other_operand (ins : Instruction) : Value :=
  match ins with
  | BinaryOperator _ Add a b => if equalsInt b 0 then a else b
  | BinaryOperator _ Mul a b => if equalsInt b 1 then a else b
  | _ => PoisonValue
  end.

Lemma Part000_AlgebraicIdentity_visit_identity (ins : Instruction) (f : Function) :
  Part000.AlgebraicIdentityPass.visit ins f =
  if is_identity ins
  then Part000.replace_erase f (getId ins) (other_operand ins)
  else Ok f.
Proof.
  destruct ins as [id opc a b| |]; try reflexivity.
  destruct opc; try reflexivity; simpl.
  - destruct (equalsInt b 0), (equalsInt a 0); reflexivity.
  - destruct (equalsInt b 1), (equalsInt a 1); reflexivity.
Qed.

(** What replace-then-erase leaves. *)
Definition replaced_and_erased (f : Function) (id : nat) (v : Value) : Function :=
  map (remove_id id) (map (map (mapOperands (subst id v))) f).

Lemma replace_erase_value (f f' : Function) (id : nat) (v : Value) :
  Part000.replace_erase f id v = Ok f' ->
  v <> InstRef id /\ f' = replaced_and_erased f id v.
Proof.
  unfold Part000.replace_erase. intros H. apply bind_Ok in H.
  destruct H as (f1 & H1 & H2). split.
  - eapply replaceAllUsesWith_other; eauto.
  - apply eraseFromParent_Ok in H2. subst f'.
    unfold replaceAllUsesWith in H1.
    destruct (Value_eqb v (InstRef id)); [discriminate|]. now injection H1 as <-.
Qed.

Lemma replace_erase_returns (f : Function) (id : nat) (v : Value) :
  v <> InstRef id ->
  Part000.replace_erase f id v = Ok (replaced_and_erased f id v).
Proof.
  intros Hv. unfold Part000.replace_erase.
  destruct (replaceAllUsesWith f id v) as [f1|e] eqn:E.
  - simpl. rewrite (replace_then_erase _ _ _ E).
    unfold replaceAllUsesWith in E.
    destruct (Value_eqb v (InstRef id)); [discriminate|]. now injection E as <-.
  - unfold replaceAllUsesWith in E.
    destruct (Value_eqb_spec v (InstRef id)); [contradiction | discriminate].
Qed.

Lemma in_replaced_and_erased (f : Function) (id : nat) (v : Value)
  (ins' : Instruction) :
  In ins' (concat (replaced_and_erased f id v)) <->
  exists ins, In ins (concat f) /\ getId ins <> id /\
              ins' = mapOperands (subst id v) ins.
Proof.
  unfold replaced_and_erased. rewrite map_map. split.
  - intros H. apply in_concat in H. destruct H as (bb' & Hbb' & Hin).
    apply in_map_iff in Hbb'. destruct Hbb' as (bb & <- & Hbb).
    unfold remove_id in Hin. apply filter_In in Hin. destruct Hin as [Hin Hne].
    apply in_map_iff in Hin. destruct Hin as (ins & <- & Hins).
    exists ins. repeat split.
    + apply in_concat. eauto.
    + intros E. destruct ins; simpl in *; subst;
        rewrite Nat.eqb_refl in Hne; discriminate.
  - intros (ins & Hin & Hne & ->). apply in_concat in Hin.
    destruct Hin as (bb & Hbb & Hins). apply in_concat.
    exists (remove_id id (map (mapOperands (subst id v)) bb)). split.
    + apply in_map_iff. eauto.
    + unfold remove_id. apply filter_In. split.
      * now apply in_map.
      * apply negb_true_iff. apply Nat.eqb_neq.
        destruct ins; simpl in *; assumption.
Qed.

Lemma use_empty_iff (f : Function) (id : nat) :
  use_empty f id = true <->
  forall ins, In ins (concat f) -> uses_of id ins = false.
Proof.
  unfold use_empty. rewrite negb_true_iff. split.
  - intros H ins Hin. apply in_concat in Hin. destruct Hin as (bb & Hbb & Hins).
    destruct (uses_of id ins) eqn:E; [|reflexivity].
    assert (existsb (existsb (uses_of id)) f = true); [|congruence].
    apply existsb_exists. exists bb. split; auto.
    apply existsb_exists. eauto.
  - intros H. destruct (existsb (existsb (uses_of id)) f) eqn:E; [|reflexivity].
    apply existsb_exists in E. destruct E as (bb & Hbb & E).
    apply existsb_exists in E. destruct E as (ins & Hins & E).
    rewrite H in E; [discriminate|]. apply in_concat. eauto.
Qed.

Lemma uses_of_operand (id : nat) (ins : Instruction) :
  uses_of id ins = true <-> In (InstRef id) (operand_values ins).
Proof.
  unfold uses_of. rewrite existsb_exists. split.
  - intros (v & Hv & E). destruct (Value_eqb_spec (InstRef id) v); [|discriminate].
    now subst.
  - intros H. exists (InstRef id). split; auto. apply Value_eqb_refl.
Qed.

Lemma operand_values_map (g : Value -> Value) (ins : Instruction) :
  operand_values (mapOperands g ins) = map g (operand_values ins).
Proof. now destruct ins. Qed.

Lemma equalsInt_subst (old : nat) (new v : Value) (n : Z) :
  equalsInt v n = true -> equalsInt (subst old new v) n = true.
Proof. destruct v; simpl; auto; discriminate. Qed.

Lemma is_identity_subst (old : nat) (new : Value) (ins : Instruction) :
  is_identity ins = true -> is_identity (mapOperands (subst old new) ins) = true.
Proof.
  destruct ins as [id opc a b| |]; simpl; try discriminate.
  destruct opc; try discriminate; intros H; apply orb_true_iff in H;
    apply orb_true_iff; destruct H as [H|H]; auto using equalsInt_subst.
Qed.

Lemma other_operand_in (ins : Instruction) :
  is_identity ins = true -> In (other_operand ins) (operand_values ins).
Proof.
  destruct ins as [id opc a b| |]; simpl; try discriminate.
  destruct opc; try discriminate; intros _.
  - destruct (equalsInt b 0); auto.
  - destruct (equalsInt b 1); auto.
Qed.

Lemma getId_mapOperands (g : Value -> Value) (ins : Instruction) :
  getId (mapOperands g ins) = getId ins.
Proof. now destruct ins. Qed.

Lemma all_ids_replaced_and_erased (f : Function) (id id' : nat) (v : Value) :
  In id' (all_ids (replaced_and_erased f id v)) <->
  In id' (all_ids f) /\ id' <> id.
Proof.
  rewrite !all_ids_flat, !in_map_iff. split.
  - intros (ins' & <- & Hin). apply in_replaced_and_erased in Hin.
    destruct Hin as (ins & Hin & Hne & ->). rewrite getId_mapOperands.
    split; [eauto | exact Hne].
  - intros [(ins & <- & Hin) Hne].
    exists (mapOperands (subst id v) ins). split; [apply getId_mapOperands|].
    apply in_replaced_and_erased. eauto.
Qed.

Lemma in_concat_nth {A} (L : list (list A)) (x : A) :
  In x (concat L) -> exists b, b < length L /\ In x (nth b L []).
Proof.
  induction L as [|l r IH]; simpl; [tauto|].
  intros H. apply in_app_or in H. destruct H as [H|H].
  - exists 0. split; [lia | exact H].
  - destruct (IH H) as (b & Hb & Hin). exists (S b). split; [lia | exact Hin].
Qed.

Section IdentityRemoval.

Variable F : Function.

(** What holds of the function [f] a scan of [F] has reached. *)
Record scanned (f : Function) : Prop := {
  sc_ids : NoDup (all_ids f);
  sc_incl : forall id, In id (all_ids f) -> In id (all_ids F);
  sc_identity :
    forall ins0 ins,
      In ins0 (concat F) -> In ins (concat f) -> getId ins = getId ins0 ->
      is_identity ins0 = true -> is_identity ins = true;
  sc_unused :
    forall id, In id (all_ids F) -> ~ In id (all_ids f) -> use_empty f id = true
}.

Lemma scanned_start : NoDup (all_ids F) -> scanned F.
Proof.
  intros Hnd. constructor; [exact Hnd | auto | | intros; contradiction].
  intros ins0 ins H0 H E Hi.
  now rewrite (@same_id_same_inst F ins ins0 Hnd H H0 E).
Qed.

Lemma scanned_visit (f f' : Function) (ins : Instruction) :
  scanned f -> In ins (concat f) ->
  Part000.AlgebraicIdentityPass.visit ins f = Ok f' ->
  scanned f' /\
  (is_identity ins = true -> ~ In (getId ins) (all_ids f')) /\
  (forall id, ~ In id (all_ids f) -> ~ In id (all_ids f')).
Proof.
  intros [J1 J2 J3 J4] Hins Hv.
  assert (Hin : In (getId ins) (all_ids f)).
  { rewrite all_ids_flat. now apply in_map. }
  assert (Hstep := @Part000_AlgebraicIdentity_visit_ids f ins Hin f' Hv).
  rewrite Part000_AlgebraicIdentity_visit_identity in Hv.
  destruct (is_identity ins) eqn:Hid.
  2:{ injection Hv as <-. split; [constructor; auto|]. split; [discriminate | auto]. }
  apply replace_erase_value in Hv. destruct Hv as [Hne ->].
  set (id := getId ins) in *. set (v := other_operand ins) in *.
  split; [constructor|split].
  - eapply ids_step_NoDup; eauto.
  - intros id' H. apply all_ids_replaced_and_erased in H. apply J2. tauto.
  - intros ins0 ins' H0 H' E Hi. apply in_replaced_and_erased in H'.
    destruct H' as (ins1 & H1 & _ & ->). apply is_identity_subst.
    rewrite getId_mapOperands in E. eapply J3; eauto.
  - intros id' HF Hgone. apply use_empty_iff. intros ins' H'.
    apply in_replaced_and_erased in H'. destruct H' as (ins1 & H1 & _ & ->).
    destruct (Nat.eq_dec id' id) as [->|Hd]; [now apply uses_of_subst|].
    assert (Hgone' : ~ In id' (all_ids f)).
    { intros H. apply Hgone. apply all_ids_replaced_and_erased. auto. }
    assert (Hu := J4 id' HF Hgone'). rewrite use_empty_iff in Hu.
    destruct (uses_of id' (mapOperands (subst id v) ins1)) eqn:E; [|reflexivity].
    exfalso. apply uses_of_operand in E. rewrite operand_values_map in E.
    apply in_map_iff in E. destruct E as (o & Ho & Hin1).
    destruct o as [c| |n|i]; simpl in Ho; try discriminate.
    destruct (Nat.eqb_spec i id) as [_|Hi].
    + assert (Hx : uses_of id' ins = true).
      { apply uses_of_operand. rewrite <- Ho. now apply other_operand_in. }
      rewrite Hu in Hx by assumption. discriminate.
    + injection Ho as ->.
      assert (Hx : uses_of id' ins1 = true) by now apply uses_of_operand.
      rewrite Hu in Hx by assumption. discriminate.
  - intros _ H. apply all_ids_replaced_and_erased in H. tauto.
  - intros id' Hn H. apply all_ids_replaced_and_erased in H. tauto.
Qed.

Let body : nat -> iterator -> Instruction -> Function -> outcome Function :=
  fun _ _ => Part000.AlgebraicIdentityPass.visit.

Lemma body_ids_step :
  forall b it ins s s',
    NoDup (all_ids (Part000.fn s)) -> In (getId ins) (all_ids (Part000.fn s)) ->
    body b it ins s = Ok s' ->
    ids_step (getId ins) (Part000.fn s) (Part000.fn s').
Proof.
  intros b it ins s s' _ Hi H. now apply Part000_AlgebraicIdentity_visit_ids.
Qed.

Lemma scanned_visit_ids (b : nat) (todo : list nat) :
  forall s p s',
    scanned s ->
    ids (getBlock s b) = p ++ todo ->
    visit_ids Part000.fn body b todo s = Ok s' ->
    scanned s' /\
    (forall id, ~ In id (all_ids s) -> ~ In id (all_ids s')) /\
    (forall ins0, In ins0 (concat F) -> In (getId ins0) todo ->
                  is_identity ins0 = true -> ~ In (getId ins0) (all_ids s')).
Proof.
  induction todo as [|id rest IH]; intros s p s' Hs Hids H.
  - injection H as <-. split; [exact Hs|]. split; [auto|]. intros ? _ [].
  - destruct (@head_of_todo Function Part000.fn b s p id rest (sc_ids Hs) Hids)
      as (ins & Hid & Hin & Hd & Hn).
    simpl in H. unfold Part000.fn in Hd. unfold Part000.fn in H at 1.
    rewrite Hd in H. simpl in H.
    apply bind_Ok in H. destruct H as (s1 & Hbody & H).
    assert (Hins : In ins (concat s)).
    { unfold deref in Hd. destruct (find_in_block (getBlock s b) id) eqn:E;
        [|discriminate]. injection Hd as ->.
      apply find_in_block_id in E. eapply in_getBlock. apply E. }
    destruct (@scanned_visit s s1 ins Hs Hins Hbody) as (Hs1 & Herased & Hmono).
    assert (Hstep : ids_step id s s1).
    { rewrite <- Hid. apply Part000_AlgebraicIdentity_visit_ids; [|exact Hbody].
      now rewrite Hid. }
    destruct (@ids_step_blocks id b s s1 p rest (sc_ids Hs) Hids Hstep)
      as (_ & (p' & Hp') & _).
    destruct (IH s1 p' s' Hs1 Hp' H) as (Hs' & Hmono' & Hrest).
    split; [exact Hs'|]. split; [auto|].
    intros ins0 H0 [E|Hr] Hi; [|now apply Hrest].
    apply Hmono'. rewrite <- E, <- Hid. apply Herased.
    eapply (sc_identity Hs); eauto. congruence.
Qed.

Lemma scanned_visit_blocks (L0 : list (list nat)) (bs : list nat) :
  forall s s',
    NoDup bs ->
    scanned s ->
    (forall b, In b bs -> ids (getBlock s b) = nth b L0 []) ->
    visit_blocks Part000.fn body L0 bs s = Ok s' ->
    scanned s' /\
    (forall id, ~ In id (all_ids s) -> ~ In id (all_ids s')) /\
    (forall ins0 b, In ins0 (concat F) -> In b bs ->
                    In (getId ins0) (nth b L0 []) ->
                    is_identity ins0 = true -> ~ In (getId ins0) (all_ids s')).
Proof.
  induction bs as [|b r IH]; intros s s' Hbs Hs Hids H.
  - injection H as <-. split; [exact Hs|]. split; [auto|]. intros ? ? _ [].
  - simpl in H. apply bind_Ok in H. destruct H as (s1 & Hv & H).
    inversion Hbs as [|? ? Hb Hr]; subst.
    assert (Hblk := Hids b (or_introl eq_refl)).
    destruct (@scanned_visit_ids b (nth b L0 []) s [] s1 Hs Hblk Hv)
      as (Hs1 & Hmono & Hdone).
    destruct (@visit_ids_blocks Function Part000.fn body body_ids_step
                b (nth b L0 []) s [] s1 (sc_ids Hs) Hblk Hv) as [_ Hother].
    destruct (IH s1 s' Hr Hs1) as (Hs' & Hmono' & Hrest); [|exact H|].
    { intros b' Hb'. unfold Part000.fn in Hother. rewrite Hother.
      - apply Hids. now right.
      - intros ->. contradiction. }
    split; [exact Hs'|]. split; [auto|].
    intros ins0 b' H0 [<-|Hb'] Hin Hi.
    + apply Hmono'. now apply Hdone.
    + eapply Hrest; eauto.
Qed.

End IdentityRemoval.

(** Every [Add(x, 0)], [Add(0, x)], [Mul(x, 1)] and [Mul(1, x)] of the
    function is gone after a run of the algebraic-identity pass of
    part_000, and no operand refers to it any more. *)
Theorem Part000_AlgebraicIdentity_removes_identities
  (fuel : nat) (F F' : Function) (pa : PreservedAnalyses) (ins : Instruction) :
  NoDup (all_ids F) ->
  length (all_ids F) <= fuel ->
  Part000.AlgebraicIdentityPass.run fuel F = Ok (F', pa) ->
  In ins (concat F) ->
  is_identity ins = true ->
  ~ In (getId ins) (all_ids F') /\ use_empty F' (getId ins) = true.
Proof.
  intros Hnd Hfuel Hrun Hins Hid.
  destruct (@advancing_scans_visit_each_instruction_once 0%Z fuel F Hnd Hfuel)
    as (_ & _ & Halg & _).
  rewrite Halg in Hrun. apply bind_Ok in Hrun.
  destruct Hrun as (f & Hv & Hrep). unfold Part000.report in Hrep.
  injection Hrep as -> _.
  destruct (@scanned_visit_blocks F (map ids F) (seq 0 (length F)) F F'
              (seq_NoDup _ _) (@scanned_start F Hnd)) as (Hs & _ & Hdone).
  - intros b _. apply getBlock_ids.
  - exact Hv.
  - assert (Hgone : ~ In (getId ins) (all_ids F')).
    { destruct (@in_concat_nth _ F ins Hins) as (b & Hb & Hin).
      apply (Hdone ins b); auto.
      - apply in_seq. split; [lia | exact Hb].
      - rewrite <- getBlock_ids. unfold ids, getBlock. now apply in_map. }
    split; [exact Hgone|].
    apply (sc_unused Hs); [|exact Hgone].
    rewrite all_ids_flat. now apply in_map.
Qed.

(* ------------------------------------------------------------------------- *)
(** ** What a rewrite leaves in the block *)
(* ------------------------------------------------------------------------- *)

Lemma remove_id_app (id : nat) (a b : BasicBlock) :
  remove_id id (a ++ b) = remove_id id a ++ remove_id id b.
Proof. apply filter_app. Qed.

Lemma remove_id_notin (id : nat) (bb : BasicBlock) :
  ~ In id (ids bb) -> remove_id id bb = bb.
Proof.
  induction bb as [|x r IH]; simpl; intros H; [reflexivity|].
  destruct (Nat.eqb_spec (getId x) id); [tauto|]. simpl. f_equal. apply IH. tauto.
Qed.

Lemma ids_map_operands (g : Value -> Value) (bb : BasicBlock) :
  ids (map (mapOperands g) bb) = ids bb.
Proof.
  unfold ids. rewrite map_map. apply map_ext. apply getId_mapOperands.
Qed.

Lemma insert_before_split (pos : nat) (N x : Instruction) (pre suf : BasicBlock) :
  ~ In pos (ids pre) -> getId x = pos ->
  insert_before pos N (pre ++ x :: suf) = pre ++ N :: x :: suf.
Proof.
  intros Hp Hx. induction pre as [|y r IH]; simpl.
  - subst pos. now rewrite Nat.eqb_refl.
  - simpl in Hp. destruct (Nat.eqb_spec (getId y) pos); [tauto|].
    f_equal. apply IH. tauto.
Qed.

Lemma insert_before_notin (pos : nat) (N : Instruction) (bb : BasicBlock) :
  ~ In pos (ids bb) -> insert_before pos N bb = bb.
Proof.
  induction bb as [|y r IH]; simpl; intros H; [reflexivity|].
  destruct (Nat.eqb_spec (getId y) pos); [tauto|]. f_equal. apply IH. tauto.
Qed.

Section BlockEffect.

Variable f : Function.
Variable b : nat.
Variables pre suf : BasicBlock.
Variable ins : Instruction.
Hypothesis f_ids : NoDup (all_ids f).
Hypothesis at_b : getBlock f b = pre ++ ins :: suf.

Lemma visited_not_around : ~ In (getId ins) (ids pre) /\ ~ In (getId ins) (ids suf).
Proof.
  assert (Hb := block_NoDup f b f_ids). rewrite at_b, ids_app in Hb.
  simpl in Hb. now apply NoDup_app_head in Hb.
Qed.

Lemma visited_not_elsewhere (b' : nat) :
  b' <> b -> ~ In (getId ins) (ids (getBlock f b')).
Proof.
  intros Hne Hin. apply Hne. rewrite getBlock_ids in Hin.
  eapply NoDup_concat_disjoint; [exact f_ids | exact Hin|].
  rewrite <- getBlock_ids, at_b, ids_app. apply in_or_app. right. now left.
Qed.

(** Replace-then-erase of the visited instruction: it leaves its block, and
    every operand of the function is redirected. *)
Lemma replaced_and_erased_block (v : Value) :
  getBlock (replaced_and_erased f (getId ins) v) b
  = map (mapOperands (subst (getId ins) v)) (pre ++ suf).
Proof.
  destruct visited_not_around as [Hp Hs].
  unfold replaced_and_erased.
  rewrite !getBlock_map by reflexivity. rewrite at_b, !map_app. simpl.
  rewrite remove_id_app. simpl. rewrite getId_mapOperands, Nat.eqb_refl. simpl.
  rewrite !remove_id_notin by (rewrite ids_map_operands; assumption).
  reflexivity.
Qed.

Lemma replaced_and_erased_elsewhere (v : Value) (b' : nat) :
  b' <> b ->
  getBlock (replaced_and_erased f (getId ins) v) b'
  = map (mapOperands (subst (getId ins) v)) (getBlock f b').
Proof.
  intros Hne. unfold replaced_and_erased.
  rewrite !getBlock_map by reflexivity.
  apply remove_id_notin. rewrite ids_map_operands.
  now apply visited_not_elsewhere.
Qed.

Lemma insertBefore_block (N : Instruction) :
  getBlock (insertBefore f (getId ins) N) b = pre ++ N :: ins :: suf.
Proof.
  destruct visited_not_around as [Hp _].
  unfold insertBefore. rewrite getBlock_map by reflexivity.
  rewrite at_b. now apply insert_before_split.
Qed.

Lemma insertBefore_elsewhere (N : Instruction) (b' : nat) :
  b' <> b -> getBlock (insertBefore f (getId ins) N) b' = getBlock f b'.
Proof.
  intros Hne. unfold insertBefore. rewrite getBlock_map by reflexivity.
  apply insert_before_notin. now apply visited_not_elsewhere.
Qed.

End BlockEffect.

(* ------------------------------------------------------------------------- *)
(** ** The rewrites, where a pass performs them *)
(* ------------------------------------------------------------------------- *)

Lemma fresh_not_visited (f : Function) (id : nat) :
  In id (all_ids f) -> InstRef (freshId f) <> InstRef id.
Proof. intros H [= E]. apply freshId_above in H. lia. Qed.

Lemma in_block_all_ids (f : Function) (b : nat) (pre suf : BasicBlock)
  (ins : Instruction) :
  getBlock f b = pre ++ ins :: suf -> In (getId ins) (all_ids f).
Proof.
  intros H. rewrite all_ids_flat. apply in_map. eapply in_getBlock.
  rewrite H. apply in_or_app. right. now left.
Qed.

(** X10.  TestPass.cpp, lines 215-239: [c = Sub(a, 1)] with [a = Add(B, 1)]
    defined anywhere in the function, in the block of [c] or in another
    one and with any instructions in between, is erased, and every use of
    [c] in every block is redirected to [B]. *)
Theorem TestPass_MultiInstruction_rewrites_chain
  (s : TestPass.state) (b : nat) (pre suf : BasicBlock)
  (c a a' : nat) (B : Value) :
  NoDup (all_ids (fst s)) ->
  getBlock (fst s) b
  = pre ++ BinaryOperator c Sub (InstRef a) (ConstantInt 1) :: suf ->
  find_inst (fst s) a = Some (BinaryOperator a' Add B (ConstantInt 1)) ->
  B <> InstRef c ->
  let redirect := mapOperands (subst c B) in
  exists f',
    TestPass.MultiInstructionOptPass.visit
      (BinaryOperator c Sub (InstRef a) (ConstantInt 1)) s = Ok (f', true) /\
    getBlock f' b = map redirect (pre ++ suf) /\
    (forall b', b' <> b -> getBlock f' b' = map redirect (getBlock (fst s) b')) /\
    use_empty f' c = true.
Proof.
  intros Hnd Hblk Hdef HB redirect.
  set (ins := BinaryOperator c Sub (InstRef a) (ConstantInt 1)) in *.
  assert (Hret := @replace_erase_returns (fst s) c B HB).
  unfold Part000.replace_erase in Hret.
  exists (replaced_and_erased (fst s) c B). split; [|split; [|split]].
  - unfold ins. simpl. rewrite Hdef. simpl.
    destruct (replaceAllUsesWith (fst s) c B) as [f2|e]; simpl in *;
      [|discriminate].
    now rewrite Hret.
  - change c with (getId ins).
    apply (@replaced_and_erased_block (fst s) b pre suf ins Hnd Hblk).
  - intros b' Hne. change c with (getId ins).
    now apply (@replaced_and_erased_elsewhere (fst s) b pre suf ins Hnd Hblk).
  - destruct (replaceAllUsesWith (fst s) c B) as [f2|e] eqn:E; simpl in Hret;
      [|discriminate].
    assert (Hu := replaceAllUsesWith_use_empty _ _ _ E).
    unfold eraseFromParent in Hret. rewrite Hu in Hret. injection Hret as <-.
    apply use_empty_iff. intros i' Hi'. rewrite use_empty_iff in Hu.
    apply Hu. apply in_concat in Hi'. destruct Hi' as (bb' & Hbb' & Hi').
    apply in_map_iff in Hbb'. destruct Hbb' as (bb & <- & Hbb).
    unfold remove_id in Hi'. apply filter_In in Hi'.
    apply in_concat. exists bb. tauto.
Qed.

Lemma set_operand0_notin (id : nat) (v : Value) (bb : BasicBlock) :
  ~ In id (ids bb) -> map (set_operand0 id v) bb = bb.
Proof.
  induction bb as [|x r IH]; simpl; intros H; [reflexivity|].
  unfold set_operand0 at 1.
  destruct (Nat.eqb_spec (getId x) id); [tauto|]. f_equal. apply IH. tauto.
Qed.

(** part_000, lines 109-148: when the window matches, the subtraction gets
    [b] as first operand and keeps the constant 1. *)
Theorem Part000_MultiInstruction_keeps_the_constant
  (f : Function) (blk : nat) (pre suf : BasicBlock) (ins : Instruction)
  (subId : nat) (b : Value) :
  NoDup (all_ids f) ->
  getBlock f blk = pre ++ ins :: suf ->
  chain_window ins suf = Some (subId, b) ->
  exists sid slot loadId rest,
    suf = StoreInst sid (InstRef (getId ins)) slot
            :: LoadInst loadId slot
            :: BinaryOperator subId Sub (InstRef loadId) (ConstantInt 1)
            :: rest /\
    Part000.MultiInstructionOptimizationPass.visit blk (begin suf) ins f
    = Ok (setOperand0 f subId b) /\
    getBlock (setOperand0 f subId b) blk
    = pre ++ ins
          :: StoreInst sid (InstRef (getId ins)) slot
          :: LoadInst loadId slot
          :: BinaryOperator subId Sub b (ConstantInt 1)
          :: rest.
Proof.
  intros Hnd Hblk Hw.
  destruct (chain_window_Some _ _ Hw)
    as (addInst & op0 & op1 & sid & slot & loadId & rest & -> & Hb & ->).
  exists sid, slot, loadId, rest. split; [reflexivity|]. split.
  - rewrite (@Part000_MultiInstruction_visit_window f blk pre _ _ Hnd Hblk).
    now rewrite Hw.
  - unfold setOperand0. rewrite getBlock_map by reflexivity. rewrite Hblk.
    assert (Hd := block_NoDup f blk Hnd). rewrite Hblk in Hd.
    replace (pre ++ BinaryOperator addInst Add op0 op1
                 :: StoreInst sid (InstRef addInst) slot
                 :: LoadInst loadId slot
                 :: BinaryOperator subId Sub (InstRef loadId) (ConstantInt 1)
                 :: rest)
      with ((pre ++ [BinaryOperator addInst Add op0 op1;
                     StoreInst sid (InstRef addInst) slot;
                     LoadInst loadId slot])
              ++ BinaryOperator subId Sub (InstRef loadId) (ConstantInt 1) :: rest)
      in * by (rewrite <- app_assoc; reflexivity).
    rewrite ids_app in Hd. simpl in Hd. apply NoDup_app_head in Hd.
    destruct Hd as [Hp Hr].
    rewrite map_app. simpl.
    rewrite !set_operand0_notin by assumption.
    unfold set_operand0. simpl. rewrite Nat.eqb_refl.
    rewrite <- app_assoc. reflexivity.
Qed.

(* ------------------------------------------------------------------------- *)
(** ** Definitions before uses *)
(* ------------------------------------------------------------------------- *)

(** Every operand that is the result of an instruction refers to an
    instruction earlier in the list, or to one of [seen]. *)
Fixpoint defs_before_uses (seen : list nat) (l : list Instruction) : Prop :=
  match l with
  | [] => True
  | ins :: r =>
      (forall j, In (InstRef j) (operand_values ins) -> In j seen) /\
      defs_before_uses (getId ins :: seen) r
  end.

(** The blocks of the function, in layout order, define before they use. *)
Definition ssa_order (f : Function) : Prop := defs_before_uses [] (concat f).

Fixpoint defs_before_usesb (seen : list nat) (l : list Instruction) : bool :=
  match l with
  | [] => true
  | ins :: r =>
      forallb (fun v => match v with
                        | InstRef j => existsb (Nat.eqb j) seen
                        | _ => true
                        end) (operand_values ins)
      && defs_before_usesb (getId ins :: seen) r
  end.

Lemma defs_before_usesb_sound (l : list Instruction) :
  forall seen, defs_before_usesb seen l = true -> defs_before_uses seen l.
Proof.
  induction l as [|ins r IH]; intros seen H; simpl; [exact Logic.I|].
  simpl in H. apply andb_prop in H. destruct H as [H1 H2]. split; [|now apply IH].
  intros j Hj. rewrite forallb_forall in H1. specialize (H1 _ Hj). simpl in H1.
  apply existsb_exists in H1. destruct H1 as (k & Hk & E).
  apply Nat.eqb_eq in E. now subst.
Defined.

Lemma defs_before_uses_incl (l : list Instruction) :
  forall S1 S2,
    (forall j, In j S1 -> In j S2) ->
    defs_before_uses S1 l -> defs_before_uses S2 l.
Proof.
  induction l as [|ins r IH]; intros S1 S2 Hincl H; simpl; [exact Logic.I|].
  destruct H as [H1 H2]. split; [auto|].
  apply (IH (getId ins :: S1)); [|exact H2].
  intros j [->|Hj]; [now left | right; auto].
Qed.

Lemma defs_before_uses_app (A C : list Instruction) :
  forall seen,
    defs_before_uses seen (A ++ C) <->
    defs_before_uses seen A /\ defs_before_uses (rev (ids A) ++ seen) C.
Proof.
  induction A as [|ins r IH]; intros seen; simpl; [tauto|].
  rewrite IH. simpl. rewrite <- app_assoc. simpl. tauto.
Qed.

Lemma mapOperands_same (g : Value -> Value) (ins : Instruction) :
  (forall o, In o (operand_values ins) -> g o = o) -> mapOperands g ins = ins.
Proof.
  destruct ins; simpl; intros H; rewrite ?H; auto.
Qed.

Lemma subst_other (id : nat) (v o : Value) : o <> InstRef id -> subst id v o = o.
Proof.
  destruct o as [| | |i]; simpl; auto.
  destruct (Nat.eqb_spec i id); [intros H; exfalso; apply H; congruence | auto].
Qed.

(** Instructions that come before [id] do not use it. *)
Lemma defs_before_uses_unused (id : nat) (v : Value) (A : list Instruction) :
  forall seen,
    defs_before_uses seen A -> ~ In id seen -> ~ In id (ids A) ->
    map (mapOperands (subst id v)) A = A.
Proof.
  induction A as [|ins r IH]; intros seen H Hs Ha; simpl; [reflexivity|].
  destruct H as [H1 H2]. simpl in Ha. f_equal.
  - apply mapOperands_same. intros o Ho. apply subst_other.
    intros ->. apply Hs. now apply H1.
  - apply (IH (getId ins :: seen)); auto. simpl. tauto.
Qed.

(** Instructions that come after [id] use, after the redirection, what the
    replacement refers to. *)
Lemma defs_before_uses_subst (id : nat) (v : Value) (B : list Instruction) :
  forall seen,
    defs_before_uses (id :: seen) B ->
    (forall j, v = InstRef j -> In j seen) ->
    defs_before_uses seen (map (mapOperands (subst id v)) B).
Proof.
  induction B as [|ins r IH]; intros seen H Hv; simpl; [exact Logic.I|].
  destruct H as [H1 H2]. split.
  - intros j Hj. rewrite operand_values_map in Hj. apply in_map_iff in Hj.
    destruct Hj as (o & Ho & Hin). destruct o as [| | |i]; simpl in Ho;
      try discriminate.
    destruct (Nat.eqb_spec i id) as [E|Hi].
    + now apply Hv.
    + injection Ho as Ho. subst i.
      destruct (H1 j Hin) as [E|Hs]; [congruence | exact Hs].
  - rewrite getId_mapOperands. apply IH.
    + eapply defs_before_uses_incl; [|exact H2].
      intros j [->|[->|Hj]]; simpl; auto.
    + intros j Hj. right. now apply Hv.
Qed.

Lemma defs_before_uses_erase (A B : list Instruction) (ins : Instruction)
  (v : Value) :
  NoDup (ids (A ++ ins :: B)) ->
  defs_before_uses [] (A ++ ins :: B) ->
  (forall j, v = InstRef j -> In j (ids A)) ->
  defs_before_uses []
    (remove_id (getId ins)
       (map (mapOperands (subst (getId ins) v)) (A ++ ins :: B))).
Proof.
  intros Hnd H Hv. rewrite ids_app in Hnd. simpl in Hnd.
  apply NoDup_app_head in Hnd. destruct Hnd as [HA HB].
  apply defs_before_uses_app in H. destruct H as [H1 [_ H2]].
  rewrite app_nil_r in H2.
  rewrite map_app, remove_id_app. simpl.
  rewrite getId_mapOperands, Nat.eqb_refl. simpl.
  rewrite !remove_id_notin by (rewrite ids_map_operands; assumption).
  rewrite (@defs_before_uses_unused (getId ins) v A [] H1) by (auto; intros []).
  apply defs_before_uses_app. split; [exact H1|]. rewrite app_nil_r.
  apply defs_before_uses_subst; [exact H2|].
  intros j Hj. rewrite <- in_rev. now apply Hv.
Qed.

Lemma concat_replaced_and_erased (f : Function) (id : nat) (v : Value) :
  concat (replaced_and_erased f id v)
  = remove_id id (map (mapOperands (subst id v)) (concat f)).
Proof.
  unfold replaced_and_erased. induction f as [|bb r IH]; simpl; [reflexivity|].
  now rewrite IH, map_app, remove_id_app.
Qed.

(** Replacing the uses of [ins] by something defined before it, and erasing
    it, keeps the order. *)
Lemma ssa_order_replaced_and_erased (f : Function) (A B : list Instruction)
  (ins : Instruction) (v : Value) :
  NoDup (all_ids f) -> ssa_order f ->
  concat f = A ++ ins :: B ->
  (forall j, v = InstRef j -> In j (ids A)) ->
  v <> InstRef (getId ins) /\
  ssa_order (replaced_and_erased f (getId ins) v).
Proof.
  intros Hnd Hssa Hsplit Hv. rewrite all_ids_flat in Hnd. fold (ids (concat f)) in Hnd.
  unfold ssa_order in *. rewrite Hsplit in Hnd. rewrite Hsplit in Hssa.
  split.
  - intros ->. rewrite ids_app in Hnd. simpl in Hnd.
    apply NoDup_app_head in Hnd. destruct Hnd as [HA _].
    apply HA. now apply Hv.
  - rewrite concat_replaced_and_erased, Hsplit.
    now apply defs_before_uses_erase.
Qed.

(** The operands of an instruction of an ordered function refer to what
    precedes it. *)
Lemma ssa_order_operand (f : Function) (A B : list Instruction)
  (ins : Instruction) (j : nat) :
  ssa_order f -> concat f = A ++ ins :: B ->
  In (InstRef j) (operand_values ins) -> In j (ids A).
Proof.
  unfold ssa_order. intros H E Hj. rewrite E in H.
  apply defs_before_uses_app in H.
  destruct H as [_ [H _]]. rewrite app_nil_r in H. apply in_rev. now apply H.
Qed.

(* ------------------------------------------------------------------------- *)
(** ** A scan whose visits return, returns *)
(* ------------------------------------------------------------------------- *)

Lemma deref_In (bb : BasicBlock) (id : nat) (ins : Instruction) :
  deref bb id = Ok ins -> In ins bb /\ getId ins = id.
Proof.
  unfold deref. destruct (find_in_block bb id) eqn:E; [|discriminate].
  intros [= ->]. apply find_in_block_id in E. tauto.
Qed.

Section Returning.

Variable St : Type.
Variable fn : St -> Function.
Variable body : nat -> iterator -> Instruction -> St -> outcome St.
Variable Inv : St -> Prop.
Variable P : nat -> Prop.

Hypothesis Inv_ids : forall s, Inv s -> NoDup (all_ids (fn s)).

Hypothesis body_ids :
  forall b it ins s s',
    NoDup (all_ids (fn s)) -> In (getId ins) (all_ids (fn s)) ->
    body b it ins s = Ok s' ->
    ids_step (getId ins) (fn s) (fn s').

Hypothesis body_returns :
  forall b it ins s,
    Inv s -> In ins (getBlock (fn s) b) -> P (getId ins) ->
    exists s', body b it ins s = Ok s' /\ Inv s'.

Lemma visit_ids_returns (b : nat) (todo : list nat) :
  forall s p,
    Inv s ->
    (forall id, In id todo -> P id) ->
    ids (getBlock (fn s) b) = p ++ todo ->
    exists s', visit_ids fn body b todo s = Ok s' /\ Inv s'.
Proof.
  induction todo as [|id rest IH]; intros s p Hs HP Hids.
  - exists s. auto.
  - assert (Hnd := Inv_ids Hs).
    destruct (@head_of_todo St fn b s p id rest Hnd Hids)
      as (ins & Hid & Hin & Hd & Hn).
    destruct (deref_In _ _ Hd) as [Hins _].
    destruct (@body_returns b (begin_ids rest) ins s Hs Hins) as (s1 & Hb & Hs1).
    { rewrite Hid. apply HP. now left. }
    simpl. rewrite Hd. simpl. rewrite Hb. simpl.
    rewrite <- Hid in Hin.
    assert (Hstep := @body_ids _ _ _ _ _ Hnd Hin Hb). rewrite Hid in Hstep.
    destruct (@ids_step_blocks _ _ _ _ _ _ Hnd Hids Hstep) as (_ & (p' & Hp') & _).
    apply (IH s1 p'); auto. intros i Hi. apply HP. now right.
Qed.

Lemma visit_blocks_returns (L0 : list (list nat)) (bs : list nat) :
  forall s,
    NoDup bs ->
    Inv s ->
    (forall b id, In b bs -> In id (nth b L0 []) -> P id) ->
    (forall b, In b bs -> ids (getBlock (fn s) b) = nth b L0 []) ->
    exists s', visit_blocks fn body L0 bs s = Ok s' /\ Inv s'.
Proof.
  induction bs as [|b r IH]; intros s Hbs Hs HP Hids.
  - exists s. auto.
  - inversion Hbs as [|? ? Hb Hr]; subst.
    assert (Hblk := Hids b (or_introl eq_refl)).
    destruct (@visit_ids_returns b (nth b L0 []) s [] Hs) as (s1 & Hv & Hs1);
      [intros id Hid; eapply HP; [now left | exact Hid] | exact Hblk |].
    simpl. rewrite Hv. simpl.
    destruct (@visit_ids_blocks St fn body body_ids b (nth b L0 []) s [] s1
                (Inv_ids Hs) Hblk Hv) as [_ Hother].
    apply IH; auto.
    + intros b' id Hb'. apply HP. now right.
    + intros b' Hb'. rewrite Hother; [apply Hids; now right|].
      intros ->. contradiction.
Qed.

Theorem scan_returns (fuel : nat) (s : St) :
  Inv s ->
  (forall id, In id (all_ids (fn s)) -> P id) ->
  length (all_ids (fn s)) <= fuel ->
  exists s',
    for_each_block fn (post_increment_loop fn body fuel) s = Ok s' /\ Inv s'.
Proof.
  intros Hs HP Hfuel.
  rewrite (@scan_visits_each_instruction_once St fn body body_ids fuel s
             (Inv_ids Hs) Hfuel).
  apply visit_blocks_returns; auto.
  - apply seq_NoDup.
  - intros b id _ Hid. apply HP. unfold all_ids. eapply in_nth_concat. exact Hid.
  - intros b _. apply getBlock_ids.
Qed.

End Returning.

(* ------------------------------------------------------------------------- *)
(** ** The visits return *)
(* ------------------------------------------------------------------------- *)

Lemma ConstantFold_not_inst (bits : Z) (opc : BinaryOps) (a b : Value) (id : nat) :
  Sem.ConstantFold bits opc a b <> InstRef id.
Proof.
  unfold Sem.ConstantFold. destruct a, b; try discriminate.
  destruct (Sem.eval_binop bits opc v v0); discriminate.
Qed.

Lemma IRBuilder_Create_other (bits : Z) (f : Function) (pos : nat)
  (opc : BinaryOps) (L R : Value) (f1 : Function) (V : Value) :
  In pos (all_ids f) ->
  TestPass.IRBuilder_Create bits f pos opc L R = (f1, V) ->
  V <> InstRef pos.
Proof.
  intros Hpos. unfold TestPass.IRBuilder_Create.
  destruct (isConstant L && isConstant R); intros [= <- <-].
  - apply ConstantFold_not_inst.
  - now apply fresh_not_visited.
Qed.

Lemma TestPass_replace_erase_returns (f : Function) (id : nat) (v : Value) :
  v <> InstRef id ->
  (f1 <- replaceAllUsesWith f id v ;;
   f2 <- eraseFromParent f1 id ;;
   Ok (f2, true)) = Ok (replaced_and_erased f id v, true).
Proof.
  intros Hv. assert (H := replace_erase_returns f Hv).
  unfold Part000.replace_erase in H.
  destruct (replaceAllUsesWith f id v) as [f1|e]; simpl in *; [|discriminate].
  now rewrite H.
Qed.

Lemma TestPass_StrengthReduction_visit_returns (bits : Z) (ins : Instruction)
  (s : TestPass.state) :
  NoDup (all_ids (fst s)) -> In (getId ins) (all_ids (fst s)) ->
  exists s', TestPass.StrengthReductionPass.visit bits ins s = Ok s'.
Proof.
  intros Hnd Hin.
  destruct ins as [id opc X C| |]; try (eexists; reflexivity).
  simpl in Hin.
  destruct opc; try (eexists; reflexivity); simpl.
  - destruct (equalsInt C 15); [|eexists; reflexivity].
    destruct (TestPass.IRBuilder_Create bits (fst s) id Shl X (ConstantInt 4))
      as [f1 Shifted] eqn:E1.
    destruct (TestPass.IRBuilder_Create bits f1 id Sub Shifted X)
      as [f2 NewVal] eqn:E2.
    destruct (@IRBuilder_Create_ids_step _ Hnd _ _ _ _ _ _ _ Hin E1) as [_ I1].
    rewrite TestPass_replace_erase_returns; [eexists; reflexivity|].
    eapply IRBuilder_Create_other; eauto.
  - destruct (equalsInt C 8); [|eexists; reflexivity].
    destruct (TestPass.IRBuilder_Create bits (fst s) id LShr X (ConstantInt 3))
      as [f1 Shifted] eqn:E1.
    rewrite TestPass_replace_erase_returns; [eexists; reflexivity|].
    eapply IRBuilder_Create_other; eauto.
  - destruct (equalsInt C 8); [|eexists; reflexivity].
    destruct (TestPass.IRBuilder_Create bits (fst s) id LShr X (ConstantInt 3))
      as [f1 Shifted] eqn:E1.
    rewrite TestPass_replace_erase_returns; [eexists; reflexivity|].
    eapply IRBuilder_Create_other; eauto.
Qed.

Lemma Part000_StrengthReduction_visit_returns (ins : Instruction) (f : Function) :
  NoDup (all_ids f) -> In (getId ins) (all_ids f) ->
  exists f', Part000.StrengthReductionPass.visit ins f = Ok f'.
Proof.
  intros Hnd Hin.
  destruct ins as [id opc op0 op1| |]; try (eexists; reflexivity).
  simpl in Hin.
  destruct opc; try (eexists; reflexivity); simpl.
  - destruct (if equalsInt op0 15 then (op1, op0) else (op0, op1)) as [x c].
    destruct (equalsInt c 15); [|eexists; reflexivity].
    rewrite replace_erase_returns; [eexists; reflexivity|].
    apply fresh_not_visited. now apply insertBefore_keeps.
  - destruct (equalsInt op1 8); [|eexists; reflexivity].
    rewrite replace_erase_returns; [eexists; reflexivity|].
    now apply fresh_not_visited.
Qed.

Lemma in_concat_split (f : Function) (ins : Instruction) :
  In ins (concat f) -> exists A B, concat f = A ++ ins :: B.
Proof. apply in_split. Qed.

(** Under definitions before uses, the operand forwarded by an identity is
    not the identity itself, and the order survives the rewrite. *)
Lemma Part000_AlgebraicIdentity_visit_returns (ins : Instruction) (f : Function) :
  NoDup (all_ids f) -> ssa_order f -> In ins (concat f) ->
  exists f', Part000.AlgebraicIdentityPass.visit ins f = Ok f' /\ ssa_order f'.
Proof.
  intros Hnd Hssa Hins.
  rewrite Part000_AlgebraicIdentity_visit_identity.
  destruct (is_identity ins) eqn:Hid; [|eauto].
  destruct (in_concat_split f ins Hins) as (A & B & Hsplit).
  destruct (@ssa_order_replaced_and_erased f A B ins (other_operand ins)
              Hnd Hssa Hsplit) as [Hne Hssa'].
  { intros j Hj. eapply ssa_order_operand; eauto.
    rewrite <- Hj. now apply other_operand_in. }
  exists (replaced_and_erased f (getId ins) (other_operand ins)).
  split; [now apply replace_erase_returns | exact Hssa'].
Qed.

Lemma find_inst_in (f : Function) (id : nat) (ins : Instruction) :
  find_inst f id = Some ins -> In ins (concat f) /\ getId ins = id.
Proof.
  induction f as [|bb r IH]; simpl; [discriminate|].
  destruct (find_in_block bb id) eqn:E.
  - intros [= ->]. apply find_in_block_id in E. destruct E.
    split; [apply in_or_app; now left | assumption].
  - intros H. destruct (IH H). split; [apply in_or_app; now right | assumption].
Qed.

(** The definition a use refers to lies before the use. *)
Lemma ssa_order_definition (f : Function) (A B : list Instruction)
  (ins def : Instruction) :
  NoDup (all_ids f) -> ssa_order f ->
  concat f = A ++ ins :: B ->
  In (InstRef (getId def)) (operand_values ins) ->
  In def (concat f) ->
  exists A1 A2, A = A1 ++ def :: A2.
Proof.
  intros Hnd Hssa Hsplit Huse Hdef.
  assert (Hid : In (getId def) (ids A)) by (eapply ssa_order_operand; eauto).
  unfold ids in Hid. apply in_map_iff in Hid. destruct Hid as (d & Hd & HdA).
  assert (d = def) as ->.
  { eapply (@same_id_same_inst f); eauto.
    rewrite Hsplit. apply in_or_app. now left. }
  now apply in_split.
Qed.

Lemma TestPass_MultiInstruction_visit_returns (ins : Instruction)
  (s : TestPass.state) :
  NoDup (all_ids (fst s)) -> ssa_order (fst s) -> In ins (concat (fst s)) ->
  exists s', TestPass.MultiInstructionOptPass.visit ins s = Ok s' /\
             ssa_order (fst s').
Proof.
  intros Hnd Hssa Hins.
  destruct ins as [id opc A C1| |]; try (exists s; split; [reflexivity | assumption]).
  destruct opc; try (exists s; split; [reflexivity | assumption]). simpl.
  destruct (equalsInt C1 1); [|exists s; split; [reflexivity | assumption]].
  destruct A as [| | |AddOp]; try (exists s; split; [reflexivity | assumption]).
  destruct (find_inst (fst s) AddOp) as [[a opc B C2| |]|] eqn:Hdef;
    try (exists s; split; [reflexivity | assumption]).
  destruct opc; try (exists s; split; [reflexivity | assumption]).
  destruct (equalsInt C2 1); [|exists s; split; [reflexivity | assumption]].
  apply find_inst_in in Hdef. destruct Hdef as [Hdef Ha]. simpl in Ha. subst a.
  destruct (in_concat_split _ _ Hins) as (A0 & B0 & Hsplit).
  destruct (@ssa_order_definition (fst s) A0 B0
              (BinaryOperator id Sub (InstRef AddOp) C1)
              (BinaryOperator AddOp Add B C2) Hnd Hssa Hsplit)
    as (A1 & A2 & HA0); [simpl; auto | exact Hdef |].
  destruct (@ssa_order_replaced_and_erased (fst s) A0 B0
              (BinaryOperator id Sub (InstRef AddOp) C1) B Hnd Hssa Hsplit)
    as [Hne Hssa'].
  { intros j Hj. subst A0. rewrite ids_app. apply in_or_app. left.
    eapply (@ssa_order_operand (fst s) A1
              (A2 ++ BinaryOperator id Sub (InstRef AddOp) C1 :: B0)
              (BinaryOperator AddOp Add B C2)); eauto.
    - rewrite Hsplit, <- app_assoc. reflexivity.
    - simpl. left. now symmetry. }
  simpl in Hne, Hssa'.
  rewrite TestPass_replace_erase_returns by exact Hne.
  eexists. split; [reflexivity | exact Hssa'].
Qed.

(* ------------------------------------------------------------------------- *)
(** ** What the passes report *)
(* ------------------------------------------------------------------------- *)

(** [changed] is low while the function is the input, and high once an
    instruction of the input is gone. *)
Definition report_inv (F : Function) (s : TestPass.state) : Prop :=
  (snd s = false -> fst s = F) /\
  (snd s = true -> exists id, In id (all_ids F) /\ ~ In id (all_ids (fst s))).

Lemma not_in_blocks (f : Function) (id : nat) :
  (forall b, ~ In id (ids (getBlock f b))) -> ~ In id (all_ids f).
Proof.
  intros H Hin. unfold all_ids in Hin. apply in_concat_nth in Hin.
  destruct Hin as (b & _ & Hb). apply (H b). now rewrite getBlock_ids.
Qed.

Lemma flag_step_report (F : Function) (ins : Instruction) (s s' : TestPass.state) :
  report_inv F s -> In (getId ins) (all_ids F) -> flag_step ins s s' ->
  report_inv F s'.
Proof.
  intros Hr Hin [->|[Ht Hgone]]; [exact Hr|]. split.
  - rewrite Ht. discriminate.
  - intros _. exists (getId ins). split; [exact Hin | now apply not_in_blocks].
Qed.

Lemma report_inv_result (F : Function) (s : TestPass.state) :
  report_inv F s ->
  exists F' pa,
    TestPass.report s = (F', pa) /\
    (pa = PA_all -> F' = F) /\
    (pa = PA_none -> exists id, In id (all_ids F) /\ ~ In id (all_ids F')).
Proof.
  intros [H0 H1]. destruct s as [f c]. unfold TestPass.report. simpl in *.
  destruct c; eexists; eexists; (split; [reflexivity|]); split; auto; discriminate.
Qed.

Lemma in_block_in_function (f : Function) (b : nat) (ins : Instruction) :
  In ins (getBlock f b) -> In (getId ins) (all_ids f).
Proof.
  intros H. rewrite all_ids_flat. apply in_map. eapply in_getBlock; eauto.
Qed.

(** The strength-reduction pass of TestPass.cpp always returns; it reports
    all analyses preserved when it returns its input, and none once an
    instruction of the input has been erased. *)
Theorem TestPass_StrengthReduction_reports (bits : Z) (fuel : nat) (F : Function) :
  NoDup (all_ids F) ->
  length (all_ids F) <= fuel ->
  exists F' pa,
    TestPass.StrengthReductionPass.run bits fuel F = Ok (F', pa) /\
    (pa = PA_all -> F' = F) /\
    (pa = PA_none -> exists id, In id (all_ids F) /\ ~ In id (all_ids F')).
Proof.
  intros Hnd Hfuel. unfold TestPass.StrengthReductionPass.run.
  destruct (@scan_returns TestPass.state fst
              (fun _ _ => TestPass.StrengthReductionPass.visit bits)
              (fun s => NoDup (all_ids (fst s)) /\ report_inv F s)
              (fun id => In id (all_ids F)))
    with (fuel := fuel) (s := (F, false)) as (s' & Hrun & _ & Hrep).
  - intros s [H _]. exact H.
  - intros b it. apply TestPass_StrengthReduction_visit_ids.
  - intros b it ins s [Hn Hr] Hins HP.
    assert (Hin := in_block_in_function _ _ _ Hins).
    destruct (TestPass_StrengthReduction_visit_returns bits ins s Hn Hin)
      as (s1 & Hv).
    exists s1. split; [exact Hv|]. split.
    + eapply ids_step_NoDup; [exact Hn|].
      eapply TestPass_StrengthReduction_visit_ids; eauto.
    + eapply flag_step_report; eauto.
      eapply TestPass_StrengthReduction_visit_flag; eauto.
  - split; [exact Hnd|]. split; [reflexivity | discriminate].
  - auto.
  - exact Hfuel.
  - unfold TestPass.state in *. rewrite Hrun. simpl.
    destruct (report_inv_result Hrep) as (F' & pa & E & H1 & H2).
    exists F', pa. rewrite E. auto.
Qed.

(** So does the multi-instruction pass of TestPass.cpp on a function that
    defines before it uses. *)
Theorem TestPass_MultiInstruction_reports (fuel : nat) (F : Function) :
  NoDup (all_ids F) -> ssa_order F ->
  length (all_ids F) <= fuel ->
  exists F' pa,
    TestPass.MultiInstructionOptPass.run fuel F = Ok (F', pa) /\
    (pa = PA_all -> F' = F) /\
    (pa = PA_none -> exists id, In id (all_ids F) /\ ~ In id (all_ids F')).
Proof.
  intros Hnd Hssa Hfuel. unfold TestPass.MultiInstructionOptPass.run.
  destruct (@scan_returns TestPass.state fst
              (fun _ _ => TestPass.MultiInstructionOptPass.visit)
              (fun s => NoDup (all_ids (fst s)) /\ ssa_order (fst s) /\
                        report_inv F s)
              (fun id => In id (all_ids F)))
    with (fuel := fuel) (s := (F, false)) as (s' & Hrun & _ & _ & Hrep).
  - intros s [H _]. exact H.
  - intros b it ins s s1 _ _. apply TestPass_MultiInstruction_visit_ids.
  - intros b it ins s (Hn & Ho & Hr) Hins HP.
    destruct (@TestPass_MultiInstruction_visit_returns ins s Hn Ho)
      as (s1 & Hv & Ho1); [eapply in_getBlock; eauto|].
    exists s1. split; [exact Hv|]. split; [|split; [exact Ho1|]].
    + eapply ids_step_NoDup; [exact Hn|].
      eapply TestPass_MultiInstruction_visit_ids; eauto.
    + eapply flag_step_report; eauto.
      eapply TestPass_MultiInstruction_visit_flag; eauto.
  - split; [exact Hnd|]. split; [exact Hssa|]. split; [reflexivity | discriminate].
  - auto.
  - exact Hfuel.
  - unfold TestPass.state in *. rewrite Hrun. simpl.
    destruct (report_inv_result Hrep) as (F' & pa & E & H1 & H2).
    exists F', pa. rewrite E. auto.
Qed.

(** The strength-reduction pass of part_000 always returns, and reports that
    no analysis is preserved. *)
Theorem Part000_StrengthReduction_returns (fuel : nat) (F : Function) :
  NoDup (all_ids F) ->
  length (all_ids F) <= fuel ->
  exists F', Part000.StrengthReductionPass.run fuel F = Ok (F', PA_none).
Proof.
  intros Hnd Hfuel. unfold Part000.StrengthReductionPass.run.
  destruct (@scan_returns Function Part000.fn
              (fun _ _ => Part000.StrengthReductionPass.visit)
              (fun f => NoDup (all_ids f)) (fun _ => True))
    with (fuel := fuel) (s := F) as (F' & Hrun & _).
  - intros s H. exact H.
  - intros b it ins s s' Hn Hi Hb. unfold Part000.fn in *.
    eapply Part000_StrengthReduction_visit_ids; eauto.
  - intros b it ins s Hn Hins _.
    assert (Hin := in_block_in_function _ _ _ Hins).
    destruct (Part000_StrengthReduction_visit_returns ins s Hn Hin) as (s1 & Hv).
    exists s1. split; [exact Hv|].
    eapply ids_step_NoDup; [exact Hn|].
    eapply Part000_StrengthReduction_visit_ids; eauto.
  - exact Hnd.
  - auto.
  - exact Hfuel.
  - rewrite Hrun. exists F'. reflexivity.
Qed.

(** The algebraic-identity pass of part_000 returns on a function that
    defines before it uses. *)
Theorem Part000_AlgebraicIdentity_returns (fuel : nat) (F : Function) :
  NoDup (all_ids F) -> ssa_order F ->
  length (all_ids F) <= fuel ->
  exists F', Part000.AlgebraicIdentityPass.run fuel F = Ok (F', PA_none).
Proof.
  intros Hnd Hssa Hfuel. unfold Part000.AlgebraicIdentityPass.run.
  destruct (@scan_returns Function Part000.fn
              (fun _ _ => Part000.AlgebraicIdentityPass.visit)
              (fun f => NoDup (all_ids f) /\ ssa_order f) (fun _ => True))
    with (fuel := fuel) (s := F) as (F' & Hrun & _).
  - intros s [H _]. exact H.
  - intros b it ins s s' _ Hi Hb. unfold Part000.fn in *.
    eapply Part000_AlgebraicIdentity_visit_ids; eauto.
  - intros b it ins s [Hn Ho] Hins _.
    destruct (@Part000_AlgebraicIdentity_visit_returns ins s Hn Ho)
      as (s1 & Hv & Ho1); [eapply in_getBlock; eauto|].
    exists s1. split; [exact Hv|]. split; [|exact Ho1].
    eapply ids_step_NoDup; [exact Hn|].
    eapply Part000_AlgebraicIdentity_visit_ids; eauto.
    eapply in_block_in_function; eauto.
  - split; assumption.
  - auto.
  - exact Hfuel.
  - rewrite Hrun. exists F'. reflexivity.
Qed.

(* ------------------------------------------------------------------------- *)
(** ** The shape of a rewrite *)
(* ------------------------------------------------------------------------- *)

(** The instruction [id] stood between [pre] and [suf] in block [b] of [f];
    in [f'] the instructions [new] stand there instead, every operand that
    referred to [id] refers to [v], and nothing else differs. *)
Definition rewritten_at (f f' : Function) (b : nat) (pre new suf : BasicBlock)
  (id : nat) (v : Value) : Prop :=
  getBlock f' b = map (mapOperands (subst id v)) (pre ++ new ++ suf) /\
  (forall b', b' <> b ->
     getBlock f' b' = map (mapOperands (subst id v)) (getBlock f b')) /\
  ~ In id (all_ids f') /\
  use_empty f' id = true.

Lemma replaced_and_erased_unused (f : Function) (id : nat) (v : Value) :
  v <> InstRef id -> use_empty (replaced_and_erased f id v) id = true.
Proof.
  intros Hv. apply use_empty_iff. intros ins' H.
  apply in_replaced_and_erased in H. destruct H as (ins & _ & _ & ->).
  now apply uses_of_subst.
Qed.

Lemma replaced_and_erased_gone (f : Function) (id : nat) (v : Value) :
  ~ In id (all_ids (replaced_and_erased f id v)).
Proof. intros H. apply all_ids_replaced_and_erased in H. tauto. Qed.

(** Replace-then-erase of the instruction at a position. *)
Lemma replaced_and_erased_at (f : Function) (b : nat) (pre suf : BasicBlock)
  (ins : Instruction) (v : Value) :
  NoDup (all_ids f) ->
  getBlock f b = pre ++ ins :: suf ->
  v <> InstRef (getId ins) ->
  rewritten_at f (replaced_and_erased f (getId ins) v) b pre [] suf (getId ins) v.
Proof.
  intros Hnd Hblk Hv. repeat split.
  - now apply replaced_and_erased_block.
  - intros b' Hne. eapply replaced_and_erased_elsewhere; eauto.
  - apply replaced_and_erased_gone.
  - now apply replaced_and_erased_unused.
Qed.

(** The same after one instruction has been put before the position. *)
Lemma inserted_replaced_and_erased_at (f : Function) (b : nat)
  (pre suf : BasicBlock) (ins : Instruction) (opc : BinaryOps) (l r v : Value) :
  NoDup (all_ids f) ->
  getBlock f b = pre ++ ins :: suf ->
  v <> InstRef (getId ins) ->
  let N := BinaryOperator (freshId f) opc l r in
  let f1 := insertBefore f (getId ins) N in
  NoDup (all_ids f1) /\
  getBlock f1 b = (pre ++ [N]) ++ ins :: suf /\
  (forall b', b' <> b -> getBlock f1 b' = getBlock f b') /\
  rewritten_at f (replaced_and_erased f1 (getId ins) v) b pre [N] suf (getId ins) v.
Proof.
  intros Hnd Hblk Hv N f1.
  assert (Hin : In (getId ins) (all_ids f)) by (eapply in_block_all_ids; eauto).
  assert (S1 : ids_step (getId ins) f f1) by now apply fresh_insert_ids_step.
  assert (N1 : NoDup (all_ids f1)) by (eapply ids_step_NoDup; eauto).
  assert (B1 : getBlock f1 b = (pre ++ [N]) ++ ins :: suf).
  { unfold f1. rewrite (@insertBefore_block f b pre suf ins Hnd Hblk).
    now rewrite <- app_assoc. }
  assert (E1 : forall b', b' <> b -> getBlock f1 b' = getBlock f b').
  { intros b' Hne. unfold f1.
    now apply (@insertBefore_elsewhere f b pre suf ins Hnd Hblk). }
  split; [exact N1|]. split; [exact B1|]. split; [exact E1|].
  destruct (@replaced_and_erased_at f1 b (pre ++ [N]) suf ins v N1 B1 Hv)
    as (H1 & H2 & H3 & H4).
  repeat split; auto.
  - rewrite H1. simpl. now rewrite <- app_assoc.
  - intros b' Hne. rewrite H2 by assumption. now rewrite E1.
Qed.

(** The same after two instructions have been put before the position, the
    second after the first. *)
Lemma twice_inserted_replaced_and_erased_at (f : Function) (b : nat)
  (pre suf : BasicBlock) (ins : Instruction)
  (opc1 opc2 : BinaryOps) (l1 r1 r2 : Value) :
  NoDup (all_ids f) ->
  getBlock f b = pre ++ ins :: suf ->
  let N1 := BinaryOperator (freshId f) opc1 l1 r1 in
  let f1 := insertBefore f (getId ins) N1 in
  let N2 := BinaryOperator (freshId f1) opc2 (InstRef (freshId f)) r2 in
  let f2 := insertBefore f1 (getId ins) N2 in
  ~ In (freshId f) (all_ids f) /\
  ~ In (freshId f1) (all_ids f) /\
  freshId f <> freshId f1 /\
  rewritten_at f (replaced_and_erased f2 (getId ins) (InstRef (freshId f1)))
    b pre [N1; N2] suf (getId ins) (InstRef (freshId f1)).
Proof.
  intros Hnd Hblk N1 f1 N2 f2.
  assert (Hin : In (getId ins) (all_ids f)) by (eapply in_block_all_ids; eauto).
  assert (Hv0 : InstRef (freshId f) <> InstRef (getId ins))
    by now apply fresh_not_visited.
  destruct (@inserted_replaced_and_erased_at f b pre suf ins opc1 l1 r1
              (InstRef (freshId f)) Hnd Hblk Hv0) as (Nd1 & B1 & E1 & _).
  fold N1 in Nd1, B1, E1. fold f1 in Nd1, B1, E1.
  assert (Hin1 : In (getId ins) (all_ids f1)) by now apply insertBefore_keeps.
  assert (Hv1 : InstRef (freshId f1) <> InstRef (getId ins))
    by now apply fresh_not_visited.
  destruct (@inserted_replaced_and_erased_at f1 b (pre ++ [N1]) suf ins opc2
              (InstRef (freshId f)) r2 (InstRef (freshId f1)) Nd1 B1 Hv1)
    as (_ & _ & _ & H1 & H2 & H3 & H4).
  fold N2 in H1, H2, H3, H4. fold f2 in H1, H2, H3, H4.
  assert (Hsh : In (freshId f) (all_ids f1)).
  { change (freshId f) with (getId N1).
    apply (@in_block_all_ids f1 b pre (ins :: suf) N1).
    rewrite B1. now rewrite <- app_assoc. }
  split; [apply freshId_fresh|]. split; [|split].
  - intros H. apply (freshId_fresh f1). now apply insertBefore_keeps.
  - apply freshId_above in Hsh. lia.
  - repeat split; auto.
    + rewrite H1. now rewrite <- !app_assoc.
    + intros b' Hne. rewrite H2 by assumption. now rewrite E1.
Qed.

(** part_000, lines 20-51: an identity gives way to its other operand. *)
Lemma Part000_AlgebraicIdentity_step (f : Function) (b : nat)
  (pre suf : BasicBlock) (ins : Instruction) :
  NoDup (all_ids f) ->
  getBlock f b = pre ++ ins :: suf ->
  is_identity ins = true ->
  other_operand ins <> InstRef (getId ins) ->
  exists f',
    Part000.AlgebraicIdentityPass.visit ins f = Ok f' /\
    rewritten_at f f' b pre [] suf (getId ins) (other_operand ins).
Proof.
  intros Hnd Hblk Hid Hx. eexists. split.
  - rewrite Part000_AlgebraicIdentity_visit_identity, Hid.
    now apply replace_erase_returns.
  - now apply replaced_and_erased_at.
Qed.

(** TestPass.cpp, lines 58-61 and 75-78: [Add(x, 0)] and [Mul(x, 1)] give
    way to [x]. *)
Lemma TestPass_AlgebraicIdentity_step (s : TestPass.state) (b : nat)
  (pre suf : BasicBlock) (ins : Instruction) (id : nat) (x : Value) :
  NoDup (all_ids (fst s)) ->
  getBlock (fst s) b = pre ++ ins :: suf ->
  ins = BinaryOperator id Add x (ConstantInt 0) \/
  ins = BinaryOperator id Mul x (ConstantInt 1) ->
  x <> InstRef id ->
  exists f',
    TestPass.AlgebraicIdentityPass.visit ins s = Ok (f', true) /\
    rewritten_at (fst s) f' b pre [] suf id x.
Proof.
  intros Hnd Hblk Hform Hx.
  assert (Hid : getId ins = id) by (destruct Hform as [-> | ->]; reflexivity).
  exists (replaced_and_erased (fst s) id x). split.
  - destruct Hform as [-> | ->]; simpl;
      now apply TestPass_replace_erase_returns.
  - rewrite <- Hid. apply replaced_and_erased_at; auto. now rewrite Hid.
Qed.

(** TestPass.cpp matches the constant as second operand only. *)
Lemma TestPass_AlgebraicIdentity_left (s : TestPass.state) (id : nat) (x : Value) :
  (equalsInt x 0 = false ->
   TestPass.AlgebraicIdentityPass.visit
     (BinaryOperator id Add (ConstantInt 0) x) s = Ok s) /\
  (equalsInt x 1 = false ->
   TestPass.AlgebraicIdentityPass.visit
     (BinaryOperator id Mul (ConstantInt 1) x) s = Ok s).
Proof. split; intros E; simpl; now rewrite E. Qed.

(** part_000, lines 66-81. *)
Lemma Part000_StrengthReduction_mul_15_step (f : Function) (b : nat)
  (pre suf : BasicBlock) (ins : Instruction) (id : nat) (x : Value) :
  NoDup (all_ids f) ->
  getBlock f b = pre ++ ins :: suf ->
  ins = BinaryOperator id Mul x (ConstantInt 15) \/
  ins = BinaryOperator id Mul (ConstantInt 15) x ->
  exists f' shifted result,
    ~ In shifted (all_ids f) /\ ~ In result (all_ids f) /\ shifted <> result /\
    Part000.StrengthReductionPass.visit ins f = Ok f' /\
    rewritten_at f f' b pre
      [BinaryOperator shifted Shl x (ConstantInt 4);
       BinaryOperator result Sub (InstRef shifted) x]
      suf id (InstRef result).
Proof.
  intros Hnd Hblk Hform.
  assert (Hid : getId ins = id) by (destruct Hform as [-> | ->]; reflexivity).
  assert (Hin : In id (all_ids f)).
  { rewrite <- Hid. eapply in_block_all_ids; eauto. }
  destruct (@twice_inserted_replaced_and_erased_at f b pre suf ins
              Shl Sub x (ConstantInt 4) x Hnd Hblk) as (F1 & F2 & F3 & Hr).
  rewrite Hid in Hr. rewrite Hid in F2. rewrite Hid in F3.
  eexists. exists (freshId f). eexists.
  split; [exact F1|]. split; [exact F2|]. split; [exact F3|].
  split; [|exact Hr].
  assert (Hne : InstRef (freshId (insertBefore f (getId ins)
                   (BinaryOperator (freshId f) Shl x (ConstantInt 4))))
                <> InstRef id).
  { apply fresh_not_visited. now apply insertBefore_keeps. }
  rewrite Hid in Hne.
  destruct Hform as [-> | ->]; simpl.
  - destruct (equalsInt x 15) eqn:E.
    + apply equalsInt_true in E. subst x. simpl.
      now apply replace_erase_returns.
    + now apply replace_erase_returns.
  - now apply replace_erase_returns.
Qed.

(** TestPass.cpp, lines 133-144, on an operand that is not a constant. *)
Lemma TestPass_StrengthReduction_mul_15_step (bits : Z) (s : TestPass.state)
  (b : nat) (pre suf : BasicBlock) (id : nat) (x : Value) :
  NoDup (all_ids (fst s)) ->
  getBlock (fst s) b = pre ++ BinaryOperator id Mul x (ConstantInt 15) :: suf ->
  isConstant x = false ->
  exists f' shifted result,
    ~ In shifted (all_ids (fst s)) /\ ~ In result (all_ids (fst s)) /\
    shifted <> result /\
    TestPass.StrengthReductionPass.visit bits
      (BinaryOperator id Mul x (ConstantInt 15)) s = Ok (f', true) /\
    rewritten_at (fst s) f' b pre
      [BinaryOperator shifted Shl x (ConstantInt 4);
       BinaryOperator result Sub (InstRef shifted) x]
      suf id (InstRef result).
Proof.
  intros Hnd Hblk Hx.
  set (ins := BinaryOperator id Mul x (ConstantInt 15)) in *.
  assert (Hin : In id (all_ids (fst s))).
  { change id with (getId ins). eapply in_block_all_ids; eauto. }
  destruct (@twice_inserted_replaced_and_erased_at (fst s) b pre suf ins
              Shl Sub x (ConstantInt 4) x Hnd Hblk) as (F1 & F2 & F3 & Hr).
  change (getId ins) with id in Hr, F2, F3.
  eexists. exists (freshId (fst s)). eexists.
  split; [exact F1|]. split; [exact F2|]. split; [exact F3|].
  split; [|exact Hr].
  unfold ins. simpl. unfold TestPass.IRBuilder_Create. rewrite Hx. simpl.
  apply TestPass_replace_erase_returns.
  apply fresh_not_visited. now apply insertBefore_keeps.
Qed.

(** TestPass.cpp matches the 15 as second operand only. *)
Lemma TestPass_StrengthReduction_mul_15_left (bits : Z) (s : TestPass.state)
  (id : nat) (x : Value) :
  equalsInt x 15 = false ->
  TestPass.StrengthReductionPass.visit bits
    (BinaryOperator id Mul (ConstantInt 15) x) s = Ok s.
Proof. intros E. simpl. now rewrite E. Qed.

(** TestPass.cpp, lines 155-165, on an operand that is not a constant:
    a logical shift for both divisions. *)
Lemma TestPass_StrengthReduction_div_8_step (bits : Z) (s : TestPass.state)
  (b : nat) (pre suf : BasicBlock) (id : nat) (opc : BinaryOps) (x : Value) :
  NoDup (all_ids (fst s)) ->
  getBlock (fst s) b = pre ++ BinaryOperator id opc x (ConstantInt 8) :: suf ->
  opc = SDiv \/ opc = UDiv ->
  isConstant x = false ->
  exists f' shifted,
    ~ In shifted (all_ids (fst s)) /\
    TestPass.StrengthReductionPass.visit bits
      (BinaryOperator id opc x (ConstantInt 8)) s = Ok (f', true) /\
    rewritten_at (fst s) f' b pre
      [BinaryOperator shifted LShr x (ConstantInt 3)] suf id (InstRef shifted).
Proof.
  intros Hnd Hblk Hopc Hx.
  set (ins := BinaryOperator id opc x (ConstantInt 8)) in *.
  assert (Hin : In id (all_ids (fst s))).
  { change id with (getId ins). eapply in_block_all_ids; eauto. }
  assert (Hv : InstRef (freshId (fst s)) <> InstRef (getId ins))
    by now apply fresh_not_visited.
  destruct (@inserted_replaced_and_erased_at (fst s) b pre suf ins LShr
              x (ConstantInt 3) _ Hnd Hblk Hv) as (_ & _ & _ & Hr).
  change (getId ins) with id in Hr, Hv.
  eexists. exists (freshId (fst s)).
  split; [apply freshId_fresh|]. split; [|exact Hr].
  unfold ins. destruct Hopc as [-> | ->]; simpl;
    unfold TestPass.IRBuilder_Create; rewrite Hx; simpl;
    now apply TestPass_replace_erase_returns.
Qed.

(** part_000, lines 82-93: an arithmetic shift, for the signed division. *)
Lemma Part000_StrengthReduction_sdiv_8_step (f : Function) (b : nat)
  (pre suf : BasicBlock) (id : nat) (x : Value) :
  NoDup (all_ids f) ->
  getBlock f b = pre ++ BinaryOperator id SDiv x (ConstantInt 8) :: suf ->
  exists f' shifted,
    ~ In shifted (all_ids f) /\
    Part000.StrengthReductionPass.visit
      (BinaryOperator id SDiv x (ConstantInt 8)) f = Ok f' /\
    rewritten_at f f' b pre
      [BinaryOperator shifted AShr x (ConstantInt 3)] suf id (InstRef shifted).
Proof.
  intros Hnd Hblk.
  set (ins := BinaryOperator id SDiv x (ConstantInt 8)) in *.
  assert (Hin : In id (all_ids f)).
  { change id with (getId ins). eapply in_block_all_ids; eauto. }
  assert (Hv : InstRef (freshId f) <> InstRef (getId ins))
    by now apply fresh_not_visited.
  destruct (@inserted_replaced_and_erased_at f b pre suf ins AShr
              x (ConstantInt 3) _ Hnd Hblk Hv) as (_ & _ & _ & Hr).
  change (getId ins) with id in Hr, Hv.
  eexists. exists (freshId f).
  split; [apply freshId_fresh|]. split; [|exact Hr].
  unfold ins. simpl. now apply replace_erase_returns.
Qed.

(** part_000 has no case for the unsigned division. *)
Lemma Part000_StrengthReduction_udiv (f : Function) (id : nat) (x c : Value) :
  Part000.StrengthReductionPass.visit (BinaryOperator id UDiv x c) f = Ok f.
Proof. reflexivity. Qed.

(* ------------------------------------------------------------------------- *)
(** ** What a scan leaves behind *)
(* ------------------------------------------------------------------------- *)

Section Settling.

Variable St : Type.
Variable fn : St -> Function.
Variable body : nat -> iterator -> Instruction -> St -> outcome St.

(** [Inv V s]: an invariant of the scan in which [V] lists, in the order of
    the scan, the instructions that are still to be visited. *)
Variable Inv : list nat -> St -> Prop.

Hypothesis Inv_ids : forall V s, Inv V s -> NoDup (all_ids (fn s)).

Hypothesis body_ids :
  forall b it ins s s',
    NoDup (all_ids (fn s)) -> In (getId ins) (all_ids (fn s)) ->
    body b it ins s = Ok s' ->
    ids_step (getId ins) (fn s) (fn s').

(** The visit of [ins], with the iterator on its successor. *)
Hypothesis body_inv :
  forall b ins s s' V p rest,
    Inv (getId ins :: V) s -> In ins (getBlock (fn s) b) ->
    ids (getBlock (fn s) b) = p ++ getId ins :: rest ->
    body b (begin_ids rest) ins s = Ok s' -> Inv V s'.

Lemma visit_ids_settles (b : nat) (todo : list nat) :
  forall s p s' V,
    Inv (todo ++ V) s ->
    ids (getBlock (fn s) b) = p ++ todo ->
    visit_ids fn body b todo s = Ok s' ->
    Inv V s'.
Proof.
  induction todo as [|id rest IH]; intros s p s' V Hs Hids H.
  - injection H as <-. exact Hs.
  - assert (Hnd := Inv_ids Hs).
    destruct (@head_of_todo St fn b s p id rest Hnd Hids)
      as (ins & Hid & Hin & Hd & Hn).
    simpl in H. rewrite Hd in H. simpl in H.
    apply bind_Ok in H. destruct H as (s1 & Hbody & H).
    apply deref_In in Hd. destruct Hd as [Hins _].
    assert (Hs1 : Inv (rest ++ V) s1).
    { apply (@body_inv b ins s s1 (rest ++ V) p rest);
        rewrite ?Hid; auto. }
    assert (Hstep : ids_step id (fn s) (fn s1)).
    { rewrite <- Hid. eapply body_ids; eauto. now rewrite Hid. }
    destruct (@ids_step_blocks id b (fn s) (fn s1) p rest Hnd Hids Hstep)
      as (_ & (p' & Hp') & _).
    exact (IH s1 p' s' V Hs1 Hp' H).
Qed.

Lemma visit_blocks_settles (L0 : list (list nat)) (bs : list nat) :
  forall s s',
    NoDup bs ->
    Inv (concat (map (fun b => nth b L0 []) bs)) s ->
    (forall b, In b bs -> ids (getBlock (fn s) b) = nth b L0 []) ->
    visit_blocks fn body L0 bs s = Ok s' ->
    Inv [] s'.
Proof.
  induction bs as [|b r IH]; intros s s' Hbs Hs Hids H.
  - injection H as <-. exact Hs.
  - simpl in H. apply bind_Ok in H. destruct H as (s1 & Hv & H).
    inversion Hbs as [|? ? Hb Hr]; subst.
    assert (Hblk := Hids b (or_introl eq_refl)).
    simpl in Hs.
    assert (Hs1 := @visit_ids_settles b (nth b L0 []) s [] s1 _ Hs Hblk Hv).
    destruct (@visit_ids_blocks St fn body body_ids
                b (nth b L0 []) s [] s1 (Inv_ids Hs) Hblk Hv) as [_ Hother].
    apply (IH s1 s' Hr Hs1); [|exact H].
    intros b' Hb'. rewrite Hother.
    + apply Hids. now right.
    + intros ->. contradiction.
Qed.

End Settling.

Lemma map_nth_seq {A} (L : list A) (d : A) :
  map (fun b => nth b L d) (seq 0 (length L)) = L.
Proof.
  apply nth_ext with (d := d) (d' := d).
  - now rewrite length_map, length_seq.
  - intros n Hn. rewrite length_map, length_seq in Hn.
    rewrite (nth_indep _ d (nth 0 L d)) by now rewrite length_map, length_seq.
    rewrite (map_nth (fun b => nth b L d)).
    now rewrite seq_nth.
Qed.

(** *** Layout of the function after an insertion and after an erasure *)

Lemma insertBefore_notin (f : Function) (pos : nat) (N : Instruction) :
  ~ In pos (all_ids f) -> insertBefore f pos N = f.
Proof.
  unfold insertBefore, all_ids. induction f as [|blk r IH]; simpl; intros H.
  - reflexivity.
  - rewrite insert_before_notin, IH; auto;
      intros Hin; apply H; apply in_or_app; auto.
Qed.

Lemma concat_insertBefore (f : Function) :
  forall A B ins N,
    NoDup (all_ids f) ->
    concat f = A ++ ins :: B ->
    concat (insertBefore f (getId ins) N) = A ++ N :: ins :: B.
Proof.
  induction f as [|blk r IH]; intros A B ins N Hnd H.
  - destruct A; discriminate.
  - change (all_ids (blk :: r)) with (ids blk ++ all_ids r) in Hnd.
    assert (Hr : NoDup (all_ids r)) by (eapply NoDup_app_remove_l; eauto).
    change (concat (insertBefore (blk :: r) (getId ins) N))
      with (insert_before (getId ins) N blk
              ++ concat (insertBefore r (getId ins) N)).
    simpl in H. apply app_eq_app in H.
    destruct H as (l & [[H1 H2]|[H1 H2]]).
    + destruct l as [|y l'].
      * rewrite app_nil_r in H1. subst blk. simpl in H2.
        rewrite insert_before_notin.
        -- now rewrite (IH [] B ins N Hr (eq_sym H2)).
        -- intros Hin. eapply NoDup_app_disjoint; [exact Hnd | exact Hin|].
           rewrite all_ids_flat, <- H2. now left.
      * injection H2 as <- ->. subst blk.
        rewrite insert_before_split; [|
          apply NoDup_app_remove_r in Hnd; rewrite ids_app in Hnd;
          now apply NoDup_app_head in Hnd | reflexivity].
        rewrite insertBefore_notin.
        -- now rewrite <- !app_assoc.
        -- intros Hin. eapply NoDup_app_disjoint; [exact Hnd | | exact Hin].
           rewrite ids_app. apply in_or_app. right. now left.
    + subst A. rewrite insert_before_notin.
      * rewrite (IH l B ins N Hr H2). now rewrite <- app_assoc.
      * intros Hin. eapply NoDup_app_disjoint; [exact Hnd | exact Hin|].
        rewrite all_ids_flat, H2, map_app. apply in_or_app. right. now left.
Qed.

Lemma all_ids_remove (f : Function) (id : nat) (v : Value) :
  all_ids (replaced_and_erased f id v)
  = filter (fun i => negb (Nat.eqb i id)) (all_ids f).
Proof.
  rewrite !all_ids_flat, concat_replaced_and_erased.
  unfold remove_id. induction (concat f) as [|x l IH]; simpl; [reflexivity|].
  rewrite getId_mapOperands.
  destruct (Nat.eqb (getId x) id); simpl; [exact IH|].
  now rewrite getId_mapOperands, IH.
Qed.

Lemma NoDup_replaced_and_erased (f : Function) (id : nat) (v : Value) :
  NoDup (all_ids f) -> NoDup (all_ids (replaced_and_erased f id v)).
Proof. intros H. rewrite all_ids_remove. now apply NoDup_filter. Qed.

(** An instruction put before [ins] keeps the order when its operands are
    defined before [ins]. *)
Lemma ssa_order_insertBefore (f : Function) (A B : list Instruction)
  (ins N : Instruction) :
  NoDup (all_ids f) -> ssa_order f ->
  concat f = A ++ ins :: B ->
  (forall j, In (InstRef j) (operand_values N) -> In j (ids A)) ->
  ssa_order (insertBefore f (getId ins) N).
Proof.
  intros Hnd Hssa Hsplit HN. unfold ssa_order in *.
  rewrite (@concat_insertBefore f A B ins N Hnd Hsplit).
  rewrite Hsplit in Hssa. apply defs_before_uses_app in Hssa.
  destruct Hssa as [HA HB]. apply defs_before_uses_app. split; [exact HA|].
  change ((forall j, In (InstRef j) (operand_values N) ->
                     In j (rev (ids A) ++ [])) /\
          defs_before_uses (getId N :: rev (ids A) ++ []) (ins :: B)).
  split.
  - intros j Hj. apply in_or_app. left. rewrite <- in_rev. now apply HN.
  - eapply defs_before_uses_incl; [|exact HB]. intros j Hj. now right.
Qed.

(** *** The part of the function a scan has passed *)

(** [settled m V f]: [f] is laid out definitions before uses, the
    instructions still to be visited are its last ones, in the order [V],
    and no instruction before them is one that [m] selects. *)
Definition settled (m : Function -> Instruction -> bool) (V : list nat)
  (f : Function) : Prop :=
  NoDup (all_ids f) /\ ssa_order f /\
  exists A B,
    concat f = A ++ B /\ ids B = V /\ forall x, In x A -> m f x = false.

Lemma settled_start (m : Function -> Instruction -> bool) (F : Function) :
  NoDup (all_ids F) -> ssa_order F -> settled m (all_ids F) F.
Proof.
  intros Hnd Hssa. split; [exact Hnd|]. split; [exact Hssa|].
  exists [], (concat F). split; [reflexivity|]. split.
  - symmetry. apply all_ids_flat.
  - intros x [].
Qed.

Lemma settled_head (m : Function -> Instruction -> bool) (V : list nat)
  (f : Function) (ins : Instruction) :
  settled m (getId ins :: V) f -> In ins (concat f) ->
  exists A B,
    concat f = A ++ ins :: B /\ ids B = V /\ forall x, In x A -> m f x = false.
Proof.
  intros (Hnd & _ & A & B & Hsplit & Hids & HA) Hin.
  destruct B as [|y B']; [discriminate|]. injection Hids as Hy HB.
  assert (y = ins) as ->.
  { apply (@same_id_same_inst f); auto.
    rewrite Hsplit. apply in_or_app. right. now left. }
  exists A, B'. auto.
Qed.

(** The visited instruction stays, and is none that [m] selects. *)
Lemma settled_keep (m : Function -> Instruction -> bool) (V : list nat)
  (f : Function) (ins : Instruction) :
  settled m (getId ins :: V) f -> In ins (concat f) -> m f ins = false ->
  settled m V f.
Proof.
  intros Hs Hin Hm.
  destruct (@settled_head m V f ins Hs Hin) as (A & B & Hsplit & Hids & HA).
  destruct Hs as (Hnd & Hssa & _). split; [exact Hnd|]. split; [exact Hssa|].
  exists (A ++ [ins]), B. split; [now rewrite <- app_assoc|]. split; [exact Hids|].
  intros x Hx. apply in_app_or in Hx. destruct Hx as [Hx|[<-|[]]]; auto.
Qed.

Lemma settled_end (m : Function -> Instruction -> bool) (f : Function) :
  settled m [] f -> forall x, In x (concat f) -> m f x = false.
Proof.
  intros (_ & _ & A & B & Hsplit & Hids & HA) x Hx.
  destruct B; [|discriminate]. rewrite app_nil_r in Hsplit.
  apply HA. now rewrite <- Hsplit.
Qed.

(** The visited instruction gives way to [v], a value defined before it. *)
Lemma settled_erase (m : Function -> Instruction -> bool) (V : list nat)
  (f : Function) (A B : list Instruction) (ins : Instruction) (v : Value) :
  NoDup (all_ids f) -> ssa_order f ->
  concat f = A ++ ins :: B -> ids B = V ->
  (forall j, v = InstRef j -> In j (ids A)) ->
  (forall x, In x A -> m (replaced_and_erased f (getId ins) v) x = false) ->
  concat (replaced_and_erased f (getId ins) v)
  = A ++ map (mapOperands (subst (getId ins) v)) B /\
  settled m V (replaced_and_erased f (getId ins) v).
Proof.
  intros Hnd Hssa Hsplit Hids Hv Hm.
  destruct (@ssa_order_replaced_and_erased f A B ins v Hnd Hssa Hsplit Hv)
    as [_ Hssa'].
  assert (Hn : NoDup (ids (A ++ ins :: B))).
  { unfold ids. rewrite <- Hsplit, <- all_ids_flat. exact Hnd. }
  rewrite ids_app in Hn. simpl in Hn.
  destruct (NoDup_app_head _ _ _ Hn) as [HiA HiB].
  assert (Hc : concat (replaced_and_erased f (getId ins) v)
               = A ++ map (mapOperands (subst (getId ins) v)) B).
  { rewrite concat_replaced_and_erased, Hsplit, map_app. simpl.
    rewrite remove_id_app. simpl. rewrite getId_mapOperands, Nat.eqb_refl.
    simpl. rewrite !remove_id_notin by (rewrite ids_map_operands; assumption).
    f_equal. unfold ssa_order in Hssa. rewrite Hsplit in Hssa.
    apply defs_before_uses_app in Hssa. destruct Hssa as [HA _].
    eapply defs_before_uses_unused; eauto. }
  split; [exact Hc|].
  split; [now apply NoDup_replaced_and_erased|]. split; [exact Hssa'|].
  eexists. eexists. split; [exact Hc|]. split; [|exact Hm].
  now rewrite ids_map_operands.
Qed.

Lemma inserted_layout (f : Function) (A B : list Instruction)
  (ins : Instruction) (opc : BinaryOps) (l r : Value) :
  NoDup (all_ids f) -> ssa_order f ->
  concat f = A ++ ins :: B ->
  (forall j, In (InstRef j) [l; r] -> In j (ids A)) ->
  let N := BinaryOperator (freshId f) opc l r in
  let f1 := insertBefore f (getId ins) N in
  NoDup (all_ids f1) /\ ssa_order f1 /\ concat f1 = (A ++ [N]) ++ ins :: B.
Proof.
  intros Hnd Hssa Hsplit Hops N f1.
  assert (Hin : In (getId ins) (all_ids f)).
  { rewrite all_ids_flat, Hsplit. apply in_map. apply in_or_app. right. now left. }
  split; [|split].
  - eapply ids_step_NoDup; [exact Hnd|]. now apply fresh_insert_ids_step.
  - eapply ssa_order_insertBefore; eauto.
  - unfold f1. rewrite (@concat_insertBefore f A B ins N Hnd Hsplit).
    now rewrite <- app_assoc.
Qed.

Section SettledInsertion.

Variable m : Instruction -> bool.
Variable V : list nat.
Variable f : Function.
Variables A B : list Instruction.
Variable ins : Instruction.
Hypothesis f_ids : NoDup (all_ids f).
Hypothesis f_order : ssa_order f.
Hypothesis f_split : concat f = A ++ ins :: B.
Hypothesis B_ids : ids B = V.
Hypothesis A_settled : forall x, In x A -> m x = false.

(** One instruction is put before the visited one, which gives way to it. *)
Lemma settled_inserted (opc : BinaryOps) (l r : Value) :
  (forall j, In (InstRef j) [l; r] -> In j (ids A)) ->
  m (BinaryOperator (freshId f) opc l r) = false ->
  settled (fun _ => m) V
    (replaced_and_erased
       (insertBefore f (getId ins) (BinaryOperator (freshId f) opc l r))
       (getId ins) (InstRef (freshId f))).
Proof.
  intros Hops HmN.
  destruct (@inserted_layout f A B ins opc l r f_ids f_order f_split Hops)
    as (N1 & O1 & C1).
  apply (@settled_erase (fun _ => m) V _ _ B ins _ N1 O1 C1 B_ids).
  - intros j [= <-]. rewrite ids_app. apply in_or_app. right. now left.
  - intros x Hx. apply in_app_or in Hx. destruct Hx as [Hx|[<-|[]]]; auto.
Qed.

(** Two instructions are put before the visited one, the second using the
    first, and the visited one gives way to the second. *)
Lemma settled_twice_inserted (opc1 opc2 : BinaryOps) (l1 r1 r2 : Value) :
  (forall j, In (InstRef j) [l1; r1; r2] -> In j (ids A)) ->
  (forall id a b, m (BinaryOperator id opc1 a b) = false) ->
  (forall id a b, m (BinaryOperator id opc2 a b) = false) ->
  let N1 := BinaryOperator (freshId f) opc1 l1 r1 in
  let f1 := insertBefore f (getId ins) N1 in
  let N2 := BinaryOperator (freshId f1) opc2 (InstRef (freshId f)) r2 in
  settled (fun _ => m) V
    (replaced_and_erased (insertBefore f1 (getId ins) N2)
       (getId ins) (InstRef (freshId f1))).
Proof.
  intros Hops Hm1 Hm2 N1 f1 N2.
  destruct (@inserted_layout f A B ins opc1 l1 r1 f_ids f_order f_split)
    as (Nd1 & O1 & C1).
  { intros j [E|[E|[]]]; apply Hops; simpl; auto. }
  fold N1 in Nd1, O1, C1. fold f1 in Nd1, O1, C1.
  destruct (@inserted_layout f1 (A ++ [N1]) B ins opc2
              (InstRef (freshId f)) r2 Nd1 O1 C1) as (Nd2 & O2 & C2).
  { intros j [E|[E|[]]]; rewrite ids_app; apply in_or_app.
    - injection E as <-. right. now left.
    - left. apply Hops. simpl. auto. }
  fold N2 in Nd2, O2, C2.
  apply (@settled_erase (fun _ => m) V _ _ B ins _ Nd2 O2 C2 B_ids).
  - intros j [= <-]. rewrite ids_app. apply in_or_app. right. now left.
  - intros x Hx. apply in_app_or in Hx. destruct Hx as [Hx|[<-|[]]].
    + apply in_app_or in Hx. destruct Hx as [Hx|[<-|[]]]; auto.
      apply Hm1.
    + apply Hm2.
Qed.

(** The operands of the visited instruction are defined before it. *)
Lemma visited_operands (j : nat) :
  In (InstRef j) (operand_values ins) -> In j (ids A).
Proof. intros H. eapply ssa_order_operand; eauto. Qed.

End SettledInsertion.

(** *** The instructions each pass rewrites *)

(** part_000, strength reduction: a product with 15 on either side, a signed
    quotient by 8. *)
Definition Part000_reduces (ins : Instruction) : bool :=
  match ins with
  | BinaryOperator _ Mul a b => equalsInt a 15 || equalsInt b 15
  | BinaryOperator _ SDiv _ b => equalsInt b 8
  | _ => false
  end.

(** TestPass.cpp, algebraic identities: the constant on the right. *)
Definition TestPass_is_identity (ins : Instruction) : bool :=
  match ins with
  | BinaryOperator _ Add _ b => equalsInt b 0
  | BinaryOperator _ Mul _ b => equalsInt b 1
  | _ => false
  end.

(** TestPass.cpp, strength reduction: a product with 15 on the right, a
    quotient by 8 of either signedness. *)
Definition TestPass_reduces (ins : Instruction) : bool :=
  match ins with
  | BinaryOperator _ Mul _ b => equalsInt b 15
  | BinaryOperator _ SDiv _ b | BinaryOperator _ UDiv _ b => equalsInt b 8
  | _ => false
  end.

(** TestPass.cpp, combiner: a [Sub(a, 1)] whose [a] is an [Add(_, 1)] of the
    function. *)
Definition TestPass_combines (f : Function) (ins : Instruction) : bool :=
  match ins with
  | BinaryOperator _ Sub (InstRef a) c =>
      equalsInt c 1 &&
      match find_inst f a with
      | Some (BinaryOperator _ Add _ c2) => equalsInt c2 1
      | _ => false
      end
  | _ => false
  end.

Lemma Part000_AlgebraicIdentity_settles_visit (V : list nat)
  (ins : Instruction) (f f' : Function) :
  settled (fun _ => is_identity) (getId ins :: V) f ->
  In ins (concat f) ->
  Part000.AlgebraicIdentityPass.visit ins f = Ok f' ->
  settled (fun _ => is_identity) V f'.
Proof.
  intros Hs Hin Hv. rewrite Part000_AlgebraicIdentity_visit_identity in Hv.
  destruct (is_identity ins) eqn:Hid.
  - apply replace_erase_value in Hv. destruct Hv as [_ ->].
    destruct (@settled_head _ V f ins Hs Hin) as (A & B & Hsplit & Hids & HA).
    destruct Hs as (Hnd & Hssa & _).
    apply (@settled_erase (fun _ => is_identity) V f A B ins _
             Hnd Hssa Hsplit Hids); [|exact HA].
    intros j Hj. apply (@visited_operands f A B ins Hssa Hsplit).
    rewrite <- Hj. now apply other_operand_in.
  - injection Hv as <-. now apply (@settled_keep _ V f ins).
Qed.

Lemma Part000_StrengthReduction_settles_visit (V : list nat)
  (ins : Instruction) (f f' : Function) :
  settled (fun _ => Part000_reduces) (getId ins :: V) f ->
  In ins (concat f) ->
  Part000.StrengthReductionPass.visit ins f = Ok f' ->
  settled (fun _ => Part000_reduces) V f'.
Proof.
  intros Hs Hin Hv.
  destruct (@settled_head _ V f ins Hs Hin) as (A & B & Hsplit & Hids & HA).
  assert (Hkeep : Part000_reduces ins = false -> f' = f ->
                  settled (fun _ => Part000_reduces) V f').
  { intros Hm ->. now apply (@settled_keep _ V f ins). }
  destruct Hs as (Hnd & Hssa & _).
  assert (Hops := @visited_operands f A B ins Hssa Hsplit).
  destruct ins as [id opc a b| |]; try (injection Hv as <-; now apply Hkeep).
  destruct opc; try (injection Hv as <-; now apply Hkeep); simpl in Hv.
  - (* Mul *)
    destruct (equalsInt a 15) eqn:Ea.
    + assert (a = ConstantInt 15) as -> by now apply equalsInt_true.
      simpl in Hv. apply replace_erase_value in Hv. destruct Hv as [_ ->].
      apply (@settled_twice_inserted Part000_reduces V f A B
               (BinaryOperator id Mul (ConstantInt 15) b)
               Hnd Hssa Hsplit Hids HA Shl Sub b (ConstantInt 4) b);
        try reflexivity.
      intros j [E|[E|[E|[]]]]; try discriminate; apply Hops; simpl; auto.
    + destruct (equalsInt b 15) eqn:Eb.
      * apply replace_erase_value in Hv. destruct Hv as [_ ->].
        apply (@settled_twice_inserted Part000_reduces V f A B
                 (BinaryOperator id Mul a b)
                 Hnd Hssa Hsplit Hids HA Shl Sub a (ConstantInt 4) a);
          try reflexivity.
        intros j [E|[E|[E|[]]]]; try discriminate; apply Hops; simpl; auto.
      * injection Hv as <-. apply Hkeep; [|reflexivity].
        simpl. now rewrite Ea, Eb.
  - (* SDiv *)
    destruct (equalsInt b 8) eqn:Eb.
    + apply replace_erase_value in Hv. destruct Hv as [_ ->].
      apply (@settled_inserted Part000_reduces V f A B
               (BinaryOperator id SDiv a b)
               Hnd Hssa Hsplit Hids HA AShr a (ConstantInt 3));
        try reflexivity.
      intros j [E|[E|[]]]; try discriminate; apply Hops; simpl; auto.
    + injection Hv as <-. apply Hkeep; [|reflexivity]. simpl. exact Eb.
Qed.

Lemma TestPass_replace_erase_value (f : Function) (id : nat) (v : Value)
  (s' : TestPass.state) :
  (f1 <- replaceAllUsesWith f id v ;;
   f2 <- eraseFromParent f1 id ;;
   Ok (f2, true)) = Ok s' ->
  v <> InstRef id /\ s' = (replaced_and_erased f id v, true).
Proof.
  intros H. destruct (Value_eqb_spec v (InstRef id)) as [E|Hne].
  - unfold replaceAllUsesWith in H. subst v. rewrite Value_eqb_refl in H.
    discriminate.
  - split; [exact Hne|]. rewrite TestPass_replace_erase_returns in H by exact Hne.
    now injection H as <-.
Qed.

Lemma isConstant_ConstantFold (bits : Z) (opc : BinaryOps) (a b : Value) :
  isConstant (Sem.ConstantFold bits opc a b) = true.
Proof.
  unfold Sem.ConstantFold. destruct a, b; try reflexivity.
  now destruct (Sem.eval_binop bits opc v v0).
Qed.

Lemma TestPass_StrengthReduction_settles_visit (bits : Z) (V : list nat)
  (ins : Instruction) (s s' : TestPass.state) :
  settled (fun _ => TestPass_reduces) (getId ins :: V) (fst s) ->
  In ins (concat (fst s)) ->
  TestPass.StrengthReductionPass.visit bits ins s = Ok s' ->
  settled (fun _ => TestPass_reduces) V (fst s').
Proof.
  intros Hs Hin Hv.
  destruct (@settled_head _ V (fst s) ins Hs Hin)
    as (A & B & Hsplit & Hids & HA).
  assert (Hkeep : TestPass_reduces ins = false -> s' = s ->
                  settled (fun _ => TestPass_reduces) V (fst s')).
  { intros Hm ->. now apply (@settled_keep _ V (fst s) ins). }
  destruct Hs as (Hnd & Hssa & _).
  assert (Hops := @visited_operands (fst s) A B ins Hssa Hsplit).
  assert (Hfold : forall v,
            (forall id, v <> InstRef id) ->
            settled (fun _ => TestPass_reduces) V
              (replaced_and_erased (fst s) (getId ins) v)).
  { intros v Hc.
    apply (@settled_erase (fun _ => TestPass_reduces) V (fst s) A B ins v
             Hnd Hssa Hsplit Hids); [|exact HA].
    intros j E. exfalso. now apply (Hc j). }
  destruct ins as [id opc X C| |]; try (injection Hv as <-; now apply Hkeep).
  destruct opc; try (injection Hv as <-; now apply Hkeep); simpl in Hv.
  - (* Mul *)
    destruct (equalsInt C 15) eqn:EC;
      [|injection Hv as <-; apply Hkeep; [exact EC | reflexivity]].
    unfold TestPass.IRBuilder_Create in Hv. simpl in Hv.
    rewrite andb_true_r in Hv. destruct (isConstant X) eqn:HX.
    + rewrite isConstant_ConstantFold in Hv. simpl in Hv.
      apply TestPass_replace_erase_value in Hv. destruct Hv as [_ ->].
      apply Hfold. intros j. apply ConstantFold_not_inst.
    + simpl in Hv.
      apply TestPass_replace_erase_value in Hv. destruct Hv as [_ ->].
      apply (@settled_twice_inserted TestPass_reduces V (fst s) A B
               (BinaryOperator id Mul X C)
               Hnd Hssa Hsplit Hids HA Shl Sub X (ConstantInt 4) X);
        try reflexivity.
      intros j [E|[E|[E|[]]]]; try discriminate; apply Hops; simpl; auto.
  - (* SDiv *)
    destruct (equalsInt C 8) eqn:EC;
      [|injection Hv as <-; apply Hkeep; [exact EC | reflexivity]].
    unfold TestPass.IRBuilder_Create in Hv. simpl in Hv.
    rewrite andb_true_r in Hv. destruct (isConstant X) eqn:HX.
    + apply TestPass_replace_erase_value in Hv. destruct Hv as [_ ->].
      apply Hfold. intros j. apply ConstantFold_not_inst.
    + apply TestPass_replace_erase_value in Hv. destruct Hv as [_ ->].
      apply (@settled_inserted TestPass_reduces V (fst s) A B
               (BinaryOperator id SDiv X C)
               Hnd Hssa Hsplit Hids HA LShr X (ConstantInt 3));
        try reflexivity.
      intros j [E|[E|[]]]; try discriminate; apply Hops; simpl; auto.
  - (* UDiv *)
    destruct (equalsInt C 8) eqn:EC;
      [|injection Hv as <-; apply Hkeep; [exact EC | reflexivity]].
    unfold TestPass.IRBuilder_Create in Hv. simpl in Hv.
    rewrite andb_true_r in Hv. destruct (isConstant X) eqn:HX.
    + apply TestPass_replace_erase_value in Hv. destruct Hv as [_ ->].
      apply Hfold. intros j. apply ConstantFold_not_inst.
    + apply TestPass_replace_erase_value in Hv. destruct Hv as [_ ->].
      apply (@settled_inserted TestPass_reduces V (fst s) A B
               (BinaryOperator id UDiv X C)
               Hnd Hssa Hsplit Hids HA LShr X (ConstantInt 3));
        try reflexivity.
      intros j [E|[E|[]]]; try discriminate; apply Hops; simpl; auto.
Qed.

Lemma find_in_block_found (bb : BasicBlock) (id : nat) :
  find_in_block bb id = None -> ~ In id (ids bb).
Proof.
  induction bb as [|x r IH]; simpl; [tauto|].
  destruct (Nat.eqb_spec (getId x) id) as [E|Hne]; [discriminate|].
  intros H [Hx|Hr]; [contradiction | now apply IH].
Qed.

Lemma find_inst_found (f : Function) (id : nat) :
  find_inst f id = None -> ~ In id (all_ids f).
Proof.
  induction f as [|bb r IH]; simpl; [tauto|].
  change (all_ids (bb :: r)) with (ids bb ++ all_ids r).
  destruct (find_in_block bb id) eqn:E; [discriminate|].
  intros H Hin. apply in_app_or in Hin. destruct Hin as [Hin|Hin].
  - now apply (find_in_block_found _ _ E).
  - now apply IH.
Qed.

(** [dyn_cast<Instruction>] finds the one instruction with the identity. *)
Lemma find_inst_complete (f : Function) (d : Instruction) :
  NoDup (all_ids f) -> In d (concat f) -> find_inst f (getId d) = Some d.
Proof.
  intros Hnd Hin. destruct (find_inst f (getId d)) as [d'|] eqn:E.
  - apply find_inst_in in E. destruct E as [Hd' Hid]. f_equal.
    now apply (@same_id_same_inst f).
  - exfalso. apply (find_inst_found _ _ E). rewrite all_ids_flat.
    now apply in_map.
Qed.

(** What the combiner of TestPass.cpp sees of an instruction depends on the
    instructions before it only. *)
Lemma TestPass_combines_stable (f f' : Function) (A R R' : list Instruction)
  (x : Instruction) :
  NoDup (all_ids f) -> NoDup (all_ids f') -> ssa_order f ->
  concat f = A ++ R -> concat f' = A ++ R' -> In x A ->
  TestPass_combines f' x = TestPass_combines f x.
Proof.
  intros Hnd Hnd' Hssa Hc Hc' Hx.
  destruct x as [i opc a c| |]; try reflexivity.
  destruct opc; try reflexivity. destruct a as [| | |a]; try reflexivity.
  simpl. f_equal.
  destruct (in_split _ _ Hx) as (X1 & X2 & ->).
  assert (Ha : In a (ids X1)).
  { apply (@ssa_order_operand f X1 (X2 ++ R)
             (BinaryOperator i Sub (InstRef a) c) a Hssa).
    - rewrite Hc, <- app_assoc. reflexivity.
    - simpl. auto. }
  unfold ids in Ha. apply in_map_iff in Ha. destruct Ha as (d & <- & Hd).
  rewrite !find_inst_complete; auto.
  - rewrite Hc. apply in_or_app. left. apply in_or_app. now left.
  - rewrite Hc'. apply in_or_app. left. apply in_or_app. now left.
Qed.

Lemma TestPass_MultiInstruction_settles_visit (V : list nat)
  (ins : Instruction) (s s' : TestPass.state) :
  settled TestPass_combines (getId ins :: V) (fst s) ->
  In ins (concat (fst s)) ->
  TestPass.MultiInstructionOptPass.visit ins s = Ok s' ->
  settled TestPass_combines V (fst s').
Proof.
  intros Hs Hin Hv.
  destruct (@settled_head _ V (fst s) ins Hs Hin)
    as (A & B & Hsplit & Hids & HA).
  assert (Hkeep : TestPass_combines (fst s) ins = false -> s' = s ->
                  settled TestPass_combines V (fst s')).
  { intros Hm ->. now apply (@settled_keep _ V (fst s) ins). }
  destruct Hs as (Hnd & Hssa & _).
  destruct ins as [id opc a c| |]; try (injection Hv as <-; now apply Hkeep).
  destruct opc; try (injection Hv as <-; now apply Hkeep); simpl in Hv.
  destruct (equalsInt c 1) eqn:Ec.
  2:{ injection Hv as <-. apply Hkeep; [|reflexivity].
      destruct a; try reflexivity. simpl. now rewrite Ec. }
  destruct a as [| | |AddOp]; try (injection Hv as <-; now apply Hkeep).
  destruct (find_inst (fst s) AddOp) as [[a' opc' Bv C2| |]|] eqn:Hdef;
    try (injection Hv as <-; apply Hkeep; [|reflexivity];
         simpl; rewrite Hdef; apply andb_false_r).
  destruct opc';
    try (injection Hv as <-; apply Hkeep; [|reflexivity];
         simpl; rewrite Hdef; apply andb_false_r).
  destruct (equalsInt C2 1) eqn:E2.
  2:{ injection Hv as <-. apply Hkeep; [|reflexivity].
      simpl. rewrite Hdef, E2. apply andb_false_r. }
  apply TestPass_replace_erase_value in Hv. destruct Hv as [_ ->].
  apply find_inst_in in Hdef. destruct Hdef as [Hdef Ha']. simpl in Ha'.
  subst a'.
  destruct (@ssa_order_definition (fst s) A B
              (BinaryOperator id Sub (InstRef AddOp) c)
              (BinaryOperator AddOp Add Bv C2) Hnd Hssa Hsplit)
    as (A1 & A2 & HA0); [simpl; auto | exact Hdef |].
  assert (HB : forall j, Bv = InstRef j -> In j (ids A)).
  { intros j Hj. subst A. rewrite ids_app. apply in_or_app. left.
    eapply (@ssa_order_operand (fst s) A1
              (A2 ++ BinaryOperator id Sub (InstRef AddOp) c :: B)
              (BinaryOperator AddOp Add Bv C2)); eauto.
    - rewrite Hsplit, <- app_assoc. reflexivity.
    - simpl. left. now symmetry. }
  simpl fst.
  destruct (@settled_erase (fun _ _ => false) V (fst s) A B
              (BinaryOperator id Sub (InstRef AddOp) c) Bv
              Hnd Hssa Hsplit Hids HB (fun _ _ => eq_refl))
    as (Hc & Hnd' & Hssa' & _).
  apply (@settled_erase TestPass_combines V (fst s) A B
           (BinaryOperator id Sub (InstRef AddOp) c) Bv
           Hnd Hssa Hsplit Hids HB).
  intros x Hx.
  rewrite (@TestPass_combines_stable (fst s) _ A _ _ x
             Hnd Hnd' Hssa Hsplit Hc Hx).
  now apply HA.
Qed.

(** *** A scan leaves nothing it would rewrite *)

Section ScanSettles.

Variable St : Type.
Variable fn : St -> Function.
Variable body : nat -> iterator -> Instruction -> St -> outcome St.
Variable m : Function -> Instruction -> bool.

Hypothesis body_ids :
  forall b it ins s s',
    NoDup (all_ids (fn s)) -> In (getId ins) (all_ids (fn s)) ->
    body b it ins s = Ok s' ->
    ids_step (getId ins) (fn s) (fn s').

Hypothesis body_settles :
  forall b it ins s s' V,
    settled m (getId ins :: V) (fn s) -> In ins (concat (fn s)) ->
    body b it ins s = Ok s' -> settled m V (fn s').

Hypothesis body_keeps :
  forall b it ins s, m (fn s) ins = false -> body b it ins s = Ok s.

Lemma visit_blocks_settled (s s' : St) :
  NoDup (all_ids (fn s)) -> ssa_order (fn s) ->
  visit_blocks fn body (map ids (fn s)) (seq 0 (length (fn s))) s = Ok s' ->
  NoDup (all_ids (fn s')) /\ ssa_order (fn s') /\
  forall x, In x (concat (fn s')) -> m (fn s') x = false.
Proof.
  intros Hnd Hssa Hv.
  assert (Hs : settled m [] (fn s')).
  { apply (@visit_blocks_settles St fn body
             (fun V s0 => settled m V (fn s0)))
      with (L0 := map ids (fn s)) (bs := seq 0 (length (fn s))) (s := s).
    - intros V s0 H. apply H.
    - exact body_ids.
    - intros b ins s0 s1 V p rest HI Hin _ Hb.
      eapply body_settles; eauto. eapply in_getBlock; eauto.
    - apply seq_NoDup.
    - rewrite <- (length_map ids (fn s)), map_nth_seq.
      now apply settled_start.
    - intros b _. apply getBlock_ids.
    - exact Hv. }
  split; [apply Hs|]. split; [apply Hs|]. now apply settled_end.
Qed.

Lemma settled_quiet (s : St) :
  (forall x, In x (concat (fn s)) -> m (fn s) x = false) ->
  quiet fn body s.
Proof.
  intros H b.
  assert (Hb : forall x, In x (getBlock (fn s) b) -> m (fn s) x = false).
  { intros x Hx. apply H. eapply in_getBlock; eauto. }
  induction (getBlock (fn s) b) as [|x r IH]; simpl; [exact Logic.I|]. split.
  - apply body_keeps. apply Hb. now left.
  - apply IH. intros y Hy. apply Hb. now right.
Qed.

End ScanSettles.

Lemma Part000_StrengthReduction_keeps (ins : Instruction) (f : Function) :
  Part000_reduces ins = false ->
  Part000.StrengthReductionPass.visit ins f = Ok f.
Proof.
  destruct ins as [id opc a b| |]; try reflexivity.
  destruct opc; try reflexivity; simpl; intros H.
  - apply orb_false_elim in H. destruct H as [-> ->]. reflexivity.
  - now rewrite H.
Qed.

Lemma TestPass_StrengthReduction_keeps (bits : Z) (ins : Instruction)
  (s : TestPass.state) :
  TestPass_reduces ins = false ->
  TestPass.StrengthReductionPass.visit bits ins s = Ok s.
Proof.
  destruct ins as [id opc a b| |]; try reflexivity.
  destruct opc; try reflexivity; simpl; intros ->; reflexivity.
Qed.

Lemma TestPass_MultiInstruction_keeps (ins : Instruction) (s : TestPass.state) :
  TestPass_combines (fst s) ins = false ->
  TestPass.MultiInstructionOptPass.visit ins s = Ok s.
Proof.
  destruct ins as [id opc a c| |]; try reflexivity.
  destruct opc; try reflexivity. simpl.
  destruct (equalsInt c 1); [|reflexivity].
  destruct a as [| | |AddOp]; try reflexivity. simpl.
  destruct (find_inst (fst s) AddOp) as [[a' opc' Bv C2| |]|]; try reflexivity.
  destruct opc'; try reflexivity. now intros ->.
Qed.

Lemma TestPass_AlgebraicIdentity_keeps (ins : Instruction) (s : TestPass.state) :
  TestPass_is_identity ins = false ->
  TestPass.AlgebraicIdentityPass.visit ins s = Ok s.
Proof.
  destruct ins as [id opc a b| |]; try reflexivity.
  destruct opc; try reflexivity; simpl; intros ->; reflexivity.
Qed.

(** After one run of the strength-reduction pass of TestPass.cpp on a
    function that defines before it uses, no product by 15 on the right and
    no quotient by 8 is left. *)
Lemma TestPass_StrengthReduction_settles (bits : Z) (fuel : nat) (F : Function) :
  NoDup (all_ids F) -> ssa_order F -> length (all_ids F) <= fuel ->
  exists F' pa,
    TestPass.StrengthReductionPass.run bits fuel F = Ok (F', pa) /\
    NoDup (all_ids F') /\ ssa_order F' /\
    forall x, In x (concat F') -> TestPass_reduces x = false.
Proof.
  intros Hnd Hssa Hfuel.
  destruct (@TestPass_StrengthReduction_reports bits fuel F Hnd Hfuel)
    as (F' & pa & Hrun & _).
  exists F', pa. split; [exact Hrun|].
  destruct (@advancing_scans_visit_each_instruction_once bits fuel F Hnd Hfuel)
    as (E & _).
  rewrite E in Hrun. apply bind_Ok in Hrun. destruct Hrun as (s & Hv & Hrep).
  injection Hrep as <- _.
  apply (@visit_blocks_settled TestPass.state fst
           (fun _ _ => TestPass.StrengthReductionPass.visit bits)
           (fun _ => TestPass_reduces)) with (s := (F, false)); auto.
  - intros b it ins s0 s1. apply TestPass_StrengthReduction_visit_ids.
  - intros b it ins s0 s1 V. apply TestPass_StrengthReduction_settles_visit.
Qed.

(** So for the combiner of TestPass.cpp: no [Sub(a, 1)] with [a = Add(_, 1)]
    is left. *)
Lemma TestPass_MultiInstruction_settles (fuel : nat) (F : Function) :
  NoDup (all_ids F) -> ssa_order F -> length (all_ids F) <= fuel ->
  exists F' pa,
    TestPass.MultiInstructionOptPass.run fuel F = Ok (F', pa) /\
    NoDup (all_ids F') /\ ssa_order F' /\
    forall x, In x (concat F') -> TestPass_combines F' x = false.
Proof.
  intros Hnd Hssa Hfuel.
  destruct (@TestPass_MultiInstruction_reports fuel F Hnd Hssa Hfuel)
    as (F' & pa & Hrun & _).
  exists F', pa. split; [exact Hrun|].
  destruct (@advancing_scans_visit_each_instruction_once 0%Z fuel F Hnd Hfuel)
    as (_ & E & _).
  rewrite E in Hrun. apply bind_Ok in Hrun. destruct Hrun as (s & Hv & Hrep).
  injection Hrep as <- _.
  apply (@visit_blocks_settled TestPass.state fst
           (fun _ _ => TestPass.MultiInstructionOptPass.visit)
           TestPass_combines) with (s := (F, false)); auto.
  - intros b it ins s0 s1 _ _. apply TestPass_MultiInstruction_visit_ids.
  - intros b it ins s0 s1 V. apply TestPass_MultiInstruction_settles_visit.
Qed.

(** So for the algebraic-identity pass of part_000: no identity is left. *)
Lemma Part000_AlgebraicIdentity_settles (fuel : nat) (F : Function) :
  NoDup (all_ids F) -> ssa_order F -> length (all_ids F) <= fuel ->
  exists F',
    Part000.AlgebraicIdentityPass.run fuel F = Ok (F', PA_none) /\
    NoDup (all_ids F') /\ ssa_order F' /\
    forall x, In x (concat F') -> is_identity x = false.
Proof.
  intros Hnd Hssa Hfuel.
  destruct (@Part000_AlgebraicIdentity_returns fuel F Hnd Hssa Hfuel)
    as (F' & Hrun).
  exists F'. split; [exact Hrun|].
  destruct (@advancing_scans_visit_each_instruction_once 0%Z fuel F Hnd Hfuel)
    as (_ & _ & E & _).
  rewrite E in Hrun. apply bind_Ok in Hrun. destruct Hrun as (s & Hv & Hrep).
  injection Hrep as <-.
  apply (@visit_blocks_settled Function Part000.fn
           (fun _ _ => Part000.AlgebraicIdentityPass.visit)
           (fun _ => is_identity)) with (s := F); auto.
  - intros b it ins s0 s1 _ Hi Hb. unfold Part000.fn in *.
    now apply Part000_AlgebraicIdentity_visit_ids.
  - intros b it ins s0 s1 V. apply Part000_AlgebraicIdentity_settles_visit.
Qed.

(** So for the strength-reduction pass of part_000: no product by 15 and no
    signed quotient by 8 is left. *)
Lemma Part000_StrengthReduction_settles (fuel : nat) (F : Function) :
  NoDup (all_ids F) -> ssa_order F -> length (all_ids F) <= fuel ->
  exists F',
    Part000.StrengthReductionPass.run fuel F = Ok (F', PA_none) /\
    NoDup (all_ids F') /\ ssa_order F' /\
    forall x, In x (concat F') -> Part000_reduces x = false.
Proof.
  intros Hnd Hssa Hfuel.
  destruct (@Part000_StrengthReduction_returns fuel F Hnd Hfuel)
    as (F' & Hrun).
  exists F'. split; [exact Hrun|].
  destruct (@advancing_scans_visit_each_instruction_once 0%Z fuel F Hnd Hfuel)
    as (_ & _ & _ & E & _).
  rewrite E in Hrun. apply bind_Ok in Hrun. destruct Hrun as (s & Hv & Hrep).
  injection Hrep as <-.
  apply (@visit_blocks_settled Function Part000.fn
           (fun _ _ => Part000.StrengthReductionPass.visit)
           (fun _ => Part000_reduces)) with (s := F); auto.
  - intros b it ins s0 s1 Hn Hi Hb. unfold Part000.fn in *.
    now apply Part000_StrengthReduction_visit_ids.
  - intros b it ins s0 s1 V. apply Part000_StrengthReduction_settles_visit.
Qed.

(* ------------------------------------------------------------------------- *)
(** ** The strength reduction of part_000 on any layout *)
(* ------------------------------------------------------------------------- *)

(** The rewrites of part_000 put instruction references where instruction
    references were, so no operand becomes a constant: an instruction can be
    rewritten after the pass only if it could be when the pass came to it.
    The invariant of the scan is that every instruction that can still be
    rewritten is among those still to be visited. *)

Lemma in_insert_before_inv (pos : nat) (N x : Instruction) (bb : BasicBlock) :
  In x (insert_before pos N bb) -> x = N \/ In x bb.
Proof.
  induction bb as [|y r IH]; simpl; [tauto|].
  destruct (Nat.eqb (getId y) pos); simpl; intuition.
Qed.

Lemma in_insertBefore_inv (f : Function) (pos : nat) (N x : Instruction) :
  In x (concat (insertBefore f pos N)) -> x = N \/ In x (concat f).
Proof.
  unfold insertBefore. intros H. apply in_concat in H.
  destruct H as (bb' & Hbb & Hx). apply in_map_iff in Hbb.
  destruct Hbb as (bb & <- & Hbb). apply in_insert_before_inv in Hx.
  destruct Hx as [->|Hx]; [now left|right]. apply in_concat. eauto.
Qed.

Lemma Part000_reduces_redirected (id n : nat) (x : Instruction) :
  Part000_reduces (mapOperands (subst id (InstRef n)) x) = Part000_reduces x.
Proof.
  assert (E : forall o c, equalsInt (subst id (InstRef n) o) c = equalsInt o c).
  { intros [| | |j] c; try reflexivity. simpl. now destruct (Nat.eqb j id). }
  destruct x as [i opc a b| |]; try reflexivity.
  destruct opc; try reflexivity; simpl; now rewrite ?E.
Qed.

Definition reducible_ahead (V : list nat) (f : Function) : Prop :=
  NoDup (all_ids f) /\
  forall x, In x (concat f) -> Part000_reduces x = true -> In (getId x) V.

Lemma reducible_ahead_erase (V : list nat) (f g : Function) (id n : nat) :
  reducible_ahead (id :: V) f ->
  NoDup (all_ids (replaced_and_erased g id (InstRef n))) ->
  (forall x, In x (concat g) -> Part000_reduces x = true -> In x (concat f)) ->
  reducible_ahead V (replaced_and_erased g id (InstRef n)).
Proof.
  intros [_ Hf] Hnd Hg. split; [exact Hnd|]. intros x' Hx' Hr.
  apply in_replaced_and_erased in Hx'. destruct Hx' as (x & Hx & Hne & ->).
  rewrite Part000_reduces_redirected in Hr. rewrite getId_mapOperands.
  destruct (Hf x (Hg x Hx Hr) Hr) as [E|Hin]; [|exact Hin].
  exfalso. now apply Hne.
Qed.

Lemma Part000_StrengthReduction_reducible_ahead (V : list nat)
  (ins : Instruction) (f f' : Function) :
  reducible_ahead (getId ins :: V) f ->
  In ins (concat f) ->
  Part000.StrengthReductionPass.visit ins f = Ok f' ->
  reducible_ahead V f'.
Proof.
  intros Hs Hin Hv.
  assert (Hnd : NoDup (all_ids f)) by apply Hs.
  assert (Hid : In (getId ins) (all_ids f)).
  { rewrite all_ids_flat. now apply in_map. }
  assert (Hnd' : NoDup (all_ids f')).
  { eapply ids_step_NoDup; [exact Hnd|].
    eapply Part000_StrengthReduction_visit_ids; eauto. }
  assert (Hkeep : Part000_reduces ins = false -> f' = f -> reducible_ahead V f').
  { intros Hm ->. split; [exact Hnd|]. intros x Hx Hr.
    destruct Hs as [_ Hs]. destruct (Hs x Hx Hr) as [E|H]; [|exact H].
    assert (x = ins) by (eapply same_id_same_inst; eauto). subst x.
    rewrite Hm in Hr. discriminate. }
  destruct ins as [id opc a b| |]; try (injection Hv as <-; now apply Hkeep).
  destruct opc; try (injection Hv as <-; now apply Hkeep); simpl in Hv.
  - (* Mul *)
    assert (Hins : forall op0 g,
      Part000.replace_erase
        (insertBefore
           (insertBefore f id (BinaryOperator (freshId f) Shl op0 (ConstantInt 4)))
           id (BinaryOperator g Sub (InstRef (freshId f)) op0))
        id (InstRef g) = Ok f' -> reducible_ahead V f').
    { intros op0 g H. apply replace_erase_value in H. destruct H as [_ ->].
      apply reducible_ahead_erase with (f := f); auto.
      intros x Hx Hr. apply in_insertBefore_inv in Hx.
      destruct Hx as [->|Hx]; [discriminate|].
      apply in_insertBefore_inv in Hx.
      destruct Hx as [->|Hx]; [discriminate|exact Hx]. }
    destruct (equalsInt a 15) eqn:Ea.
    + assert (a = ConstantInt 15) as -> by now apply equalsInt_true.
      simpl in Hv. eapply Hins; exact Hv.
    + destruct (equalsInt b 15) eqn:Eb.
      * eapply Hins; exact Hv.
      * injection Hv as <-. apply Hkeep; [|reflexivity].
        simpl. now rewrite Ea, Eb.
  - (* SDiv *)
    destruct (equalsInt b 8) eqn:Eb.
    + apply replace_erase_value in Hv. destruct Hv as [_ ->].
      apply reducible_ahead_erase with (f := f); auto.
      intros x Hx Hr. apply in_insertBefore_inv in Hx.
      destruct Hx as [->|Hx]; [discriminate|exact Hx].
    + injection Hv as <-. apply Hkeep; [|reflexivity]. simpl. exact Eb.
Qed.

(** The strength-reduction pass of part_000 leaves no product by 15 and no
    signed quotient by 8, whatever the order of definitions and uses. *)
Lemma Part000_StrengthReduction_settles_any_layout (fuel : nat) (F : Function) :
  NoDup (all_ids F) -> length (all_ids F) <= fuel ->
  exists F',
    Part000.StrengthReductionPass.run fuel F = Ok (F', PA_none) /\
    NoDup (all_ids F') /\
    forall x, In x (concat F') -> Part000_reduces x = false.
Proof.
  intros Hnd Hfuel.
  destruct (@Part000_StrengthReduction_returns fuel F Hnd Hfuel)
    as (F' & Hrun).
  exists F'. split; [exact Hrun|].
  destruct (@advancing_scans_visit_each_instruction_once 0%Z fuel F Hnd Hfuel)
    as (_ & _ & _ & E & _).
  rewrite E in Hrun. apply bind_Ok in Hrun. destruct Hrun as (s & Hv & Hrep).
  injection Hrep as <-.
  assert (Hs : reducible_ahead [] s).
  { apply (@visit_blocks_settles Function Part000.fn
             (fun _ _ => Part000.StrengthReductionPass.visit) reducible_ahead)
      with (L0 := map ids F) (bs := seq 0 (length F)) (s := F).
    - intros V s0 H. apply H.
    - intros b it ins s0 s1 Hn Hi Hb. unfold Part000.fn in *.
      now apply Part000_StrengthReduction_visit_ids.
    - intros b ins s0 s1 V p rest HI Hin _ Hb. unfold Part000.fn in *.
      eapply Part000_StrengthReduction_reducible_ahead; eauto.
      eapply in_getBlock; eauto.
    - apply seq_NoDup.
    - rewrite <- (length_map ids F), map_nth_seq. split; [exact Hnd|].
      intros x Hx _. change (concat (map ids F)) with (all_ids F).
      rewrite all_ids_flat. now apply in_map.
    - intros b _. apply getBlock_ids.
    - exact Hv. }
  split; [apply Hs|]. intros x Hx.
  destruct (Part000_reduces x) eqn:Hr; [|reflexivity].
  destruct Hs as [_ Hs]. destruct (Hs x Hx Hr).
Qed.

(* ------------------------------------------------------------------------- *)
(** ** Constant operands and first operands *)
(* ------------------------------------------------------------------------- *)

(** TestPass.cpp, lines 136-146, on a constant operand: both calls of the
    builder fold, nothing is inserted, and the uses of the product are
    redirected to the folded constant. *)
Lemma TestPass_StrengthReduction_mul_15_folds (bits : Z) (s : TestPass.state)
  (b : nat) (pre suf : BasicBlock) (id : nat) (x : Value) :
  NoDup (all_ids (fst s)) ->
  getBlock (fst s) b = pre ++ BinaryOperator id Mul x (ConstantInt 15) :: suf ->
  isConstant x = true ->
  exists f' v,
    v = Sem.ConstantFold bits Sub
          (Sem.ConstantFold bits Shl x (ConstantInt 4)) x /\
    isConstant v = true /\
    TestPass.StrengthReductionPass.visit bits
      (BinaryOperator id Mul x (ConstantInt 15)) s = Ok (f', true) /\
    rewritten_at (fst s) f' b pre [] suf id v.
Proof.
  intros Hnd Hblk Hx.
  set (ins := BinaryOperator id Mul x (ConstantInt 15)) in *.
  set (v := Sem.ConstantFold bits Sub
              (Sem.ConstantFold bits Shl x (ConstantInt 4)) x).
  assert (Hv : v <> InstRef (getId ins)) by apply ConstantFold_not_inst.
  exists (replaced_and_erased (fst s) id v), v.
  split; [reflexivity|]. split; [apply isConstant_ConstantFold|]. split.
  - unfold ins. simpl. unfold TestPass.IRBuilder_Create. rewrite Hx. simpl.
    rewrite isConstant_ConstantFold. simpl.
    now apply TestPass_replace_erase_returns.
  - exact (@replaced_and_erased_at (fst s) b pre suf ins v Hnd Hblk Hv).
Qed.

(** TestPass.cpp, lines 155-165, on a constant operand. *)
Lemma TestPass_StrengthReduction_div_8_folds (bits : Z) (s : TestPass.state)
  (b : nat) (pre suf : BasicBlock) (id : nat) (opc : BinaryOps) (x : Value) :
  NoDup (all_ids (fst s)) ->
  getBlock (fst s) b = pre ++ BinaryOperator id opc x (ConstantInt 8) :: suf ->
  opc = SDiv \/ opc = UDiv ->
  isConstant x = true ->
  exists f' v,
    v = Sem.ConstantFold bits LShr x (ConstantInt 3) /\
    isConstant v = true /\
    TestPass.StrengthReductionPass.visit bits
      (BinaryOperator id opc x (ConstantInt 8)) s = Ok (f', true) /\
    rewritten_at (fst s) f' b pre [] suf id v.
Proof.
  intros Hnd Hblk Hopc Hx.
  set (ins := BinaryOperator id opc x (ConstantInt 8)) in *.
  set (v := Sem.ConstantFold bits LShr x (ConstantInt 3)).
  assert (Hv : v <> InstRef (getId ins)) by apply ConstantFold_not_inst.
  exists (replaced_and_erased (fst s) id v), v.
  split; [reflexivity|]. split; [apply isConstant_ConstantFold|]. split.
  - unfold ins. destruct Hopc as [-> | ->]; simpl;
      unfold TestPass.IRBuilder_Create; rewrite Hx; simpl;
      now apply TestPass_replace_erase_returns.
  - exact (@replaced_and_erased_at (fst s) b pre suf ins v Hnd Hblk Hv).
Qed.

(** part_000 looks for the constant in the first operand too: with 0, 1 or
    15 there, the instructions above are rewritten and erased. *)
Definition first_operand_visits (f : Function) (id : nat) : Prop :=
  Part000.AlgebraicIdentityPass.visit
    (BinaryOperator id Add (ConstantInt 0) (ConstantInt 2)) f
    = Ok (replaced_and_erased f id (ConstantInt 2)) /\
  Part000.AlgebraicIdentityPass.visit
    (BinaryOperator id Mul (ConstantInt 1) (ConstantInt 3)) f
    = Ok (replaced_and_erased f id (ConstantInt 3)) /\
  (In id (all_ids f) ->
   exists f',
     Part000.StrengthReductionPass.visit
       (BinaryOperator id Mul (ConstantInt 15) (ConstantInt 3)) f = Ok f' /\
     ~ In id (all_ids f')) /\
  forall v, ~ In id (all_ids (replaced_and_erased f id v)).

Lemma first_operand_visits_hold (f : Function) (id : nat) :
  first_operand_visits f id.
Proof.
  split; [|split; [|split]].
  - simpl. apply replace_erase_returns. discriminate.
  - simpl. apply replace_erase_returns. discriminate.
  - intros Hin. simpl. eexists. split.
    + apply replace_erase_returns. apply fresh_not_visited.
      now apply insertBefore_keeps.
    + apply replaced_and_erased_gone.
  - intros v. apply replaced_and_erased_gone.
Qed.

(* ------------------------------------------------------------------------- *)
(** ** What the combiner of part_000 leaves behind *)
(* ------------------------------------------------------------------------- *)

Lemma NoDup_map_split {A B} (g : A -> B) (p1 : list A) :
  forall p2 s1 s2 x y,
    NoDup (map g (p1 ++ x :: s1)) ->
    p1 ++ x :: s1 = p2 ++ y :: s2 -> g x = g y ->
    p1 = p2 /\ x = y /\ s1 = s2.
Proof.
  induction p1 as [|a p1 IH]; intros [|c p2] s1 s2 x y Hnd E Hg; simpl in *.
  - injection E as -> ->. auto.
  - injection E as -> ->. exfalso. inversion Hnd as [|? ? Hn _]; subst.
    apply Hn. rewrite Hg, map_app. apply in_or_app. right. now left.
  - injection E as -> <-. exfalso. inversion Hnd as [|? ? Hn _]; subst.
    apply Hn. rewrite <- Hg, map_app. apply in_or_app. right. now left.
  - injection E as -> E. inversion Hnd as [|? ? _ Hr]; subst.
    destruct (IH p2 s1 s2 x y Hr E Hg) as (-> & -> & ->). auto.
Qed.

(** An instruction has one place in the function. *)
Lemma position_unique (f : Function) (b1 b2 : nat) (p1 p2 s1 s2 : BasicBlock)
  (x y : Instruction) :
  NoDup (all_ids f) ->
  getBlock f b1 = p1 ++ x :: s1 ->
  getBlock f b2 = p2 ++ y :: s2 ->
  getId x = getId y ->
  b1 = b2 /\ p1 = p2 /\ x = y /\ s1 = s2.
Proof.
  intros Hnd H1 H2 E.
  assert (b1 = b2) as <-.
  { apply (@NoDup_concat_disjoint _ (map ids f) (getId x)); [exact Hnd| |].
    - rewrite <- getBlock_ids, H1, ids_app. apply in_or_app. right. now left.
    - rewrite <- getBlock_ids, H2, ids_app, E. apply in_or_app. right. now left. }
  split; [reflexivity|].
  apply (@NoDup_map_split _ _ getId p1 p2 s1 s2 x y); auto.
  - fold (ids (p1 ++ x :: s1)). rewrite <- H1. now apply block_NoDup.
  - now rewrite <- H1, <- H2.
Qed.

Lemma set_operand0_other (id : nat) (v : Value) (x : Instruction) :
  getId x <> id -> set_operand0 id v x = x.
Proof.
  intros H. unfold set_operand0.
  destruct (Nat.eqb_spec (getId x) id); [contradiction | reflexivity].
Qed.

Lemma getId_set_operand0 (id : nat) (v : Value) (x : Instruction) :
  getId (set_operand0 id v x) = getId x.
Proof.
  unfold set_operand0. destruct (Nat.eqb (getId x) id); [destruct x|]; reflexivity.
Qed.

Lemma getBlock_setOperand0 (f : Function) (id : nat) (v : Value) (b : nat) :
  getBlock (setOperand0 f id v) b = map (set_operand0 id v) (getBlock f b).
Proof. unfold setOperand0. now rewrite getBlock_map. Qed.

Lemma all_ids_setOperand0 (f : Function) (id : nat) (v : Value) :
  all_ids (setOperand0 f id v) = all_ids f.
Proof. apply all_ids_of_ids. apply setOperand0_ids. Qed.

Lemma set_operand0_twice (id : nat) (v : Value) (x : Instruction) :
  set_operand0 id v (set_operand0 id v x) = set_operand0 id v x.
Proof.
  unfold set_operand0 at 2. destruct (Nat.eqb_spec (getId x) id) as [E|Hne].
  - unfold set_operand0. destruct x; simpl in *; subst;
      rewrite Nat.eqb_refl; reflexivity.
  - reflexivity.
Qed.

Lemma setOperand0_twice (f : Function) (id : nat) (v : Value) :
  setOperand0 (setOperand0 f id v) id v = setOperand0 f id v.
Proof.
  unfold setOperand0. rewrite map_map. apply map_ext. intros bb.
  rewrite map_map. apply map_ext. intros x. apply set_operand0_twice.
Qed.

Lemma set_operand0_swap (id1 id2 : nat) (v1 v2 : Value) (x : Instruction) :
  id1 <> id2 ->
  set_operand0 id2 v2 (set_operand0 id1 v1 x)
  = set_operand0 id1 v1 (set_operand0 id2 v2 x).
Proof.
  intros Hne.
  destruct (Nat.eq_dec (getId x) id1) as [E1|N1];
    destruct (Nat.eq_dec (getId x) id2) as [E2|N2].
  - congruence.
  - rewrite (@set_operand0_other id2 v2 x N2).
    apply set_operand0_other. now rewrite getId_set_operand0.
  - rewrite (@set_operand0_other id1 v1 x N1).
    symmetry. apply set_operand0_other. now rewrite getId_set_operand0.
  - rewrite (@set_operand0_other id1 v1 x N1), (@set_operand0_other id2 v2 x N2),
      (@set_operand0_other id1 v1 x N1).
    reflexivity.
Qed.

Lemma setOperand0_swap (f : Function) (id1 id2 : nat) (v1 v2 : Value) :
  id1 <> id2 ->
  setOperand0 (setOperand0 f id1 v1) id2 v2
  = setOperand0 (setOperand0 f id2 v2) id1 v1.
Proof.
  intros Hne. unfold setOperand0. rewrite !map_map. apply map_ext. intros bb.
  rewrite !map_map. apply map_ext. intros x. now apply set_operand0_swap.
Qed.

Section CombinerSettles.

Import Part000.MultiInstructionOptimizationPass.

Lemma chain_window_after_binop (x : Instruction) (i : nat) (opc : BinaryOps)
  (a b : Value) (R : BasicBlock) :
  chain_window x (BinaryOperator i opc a b :: R) = None.
Proof.
  destruct x as [j o p q| |]; try reflexivity.
  destruct o; try reflexivity. simpl. now destruct (base_of_add p q).
Qed.

Lemma chain_window_second_binop (x s : Instruction) (i : nat) (opc : BinaryOps)
  (a b : Value) (R : BasicBlock) :
  chain_window x (s :: BinaryOperator i opc a b :: R) = None.
Proof.
  destruct x as [j o p q| |]; try reflexivity.
  destruct o; try reflexivity. simpl. destruct (base_of_add p q); [|reflexivity].
  destruct s as [| k val ptr|]; try reflexivity.
  now destruct (Value_eqb val (InstRef j)).
Qed.

Lemma chain_window_three (x s l y : Instruction) (r r' : BasicBlock) :
  chain_window x (s :: l :: y :: r) = chain_window x (s :: l :: y :: r').
Proof. destruct x as [j o p q| |]; reflexivity. Qed.

(** Overwriting the first operand of a [Sub] that is not the fourth
    instruction of the window leaves the window as it was. *)
Lemma chain_window_set_operand0 (subId : nat) (bv s0 c : Value)
  (x0 : Instruction) (suf0 : BasicBlock) :
  (forall y, In y (x0 :: suf0) -> getId y = subId ->
             y = BinaryOperator subId Sub s0 c) ->
  (forall y, nth_error suf0 2 = Some y -> getId y <> subId) ->
  chain_window (set_operand0 subId bv x0) (map (set_operand0 subId bv) suf0)
  = chain_window x0 suf0.
Proof.
  intros Hsub H3.
  assert (Hg : forall y, In y (x0 :: suf0) ->
                 set_operand0 subId bv y = y \/
                 (y = BinaryOperator subId Sub s0 c /\
                  set_operand0 subId bv y = BinaryOperator subId Sub bv c)).
  { intros y Hy. destruct (Nat.eq_dec (getId y) subId) as [E|Hne].
    - right. rewrite (Hsub y Hy E). split; [reflexivity|].
      unfold set_operand0. simpl. now rewrite Nat.eqb_refl.
    - left. now apply set_operand0_other. }
  destruct (Hg x0) as [E|[E1 E2]]; [now left| |].
  2:{ rewrite E2, E1. reflexivity. }
  rewrite E. destruct suf0 as [|y0 r0]; [reflexivity|]. simpl map.
  destruct (Hg y0) as [E0|[E01 E02]]; [right; now left| |].
  2:{ rewrite E02, E01, !chain_window_after_binop. reflexivity. }
  rewrite E0. destruct r0 as [|y1 r1]; [reflexivity|]. simpl map.
  destruct (Hg y1) as [E1|[E11 E12]]; [right; right; now left| |].
  2:{ rewrite E12, E11, !chain_window_second_binop. reflexivity. }
  rewrite E1. destruct r1 as [|y2 r2]; [reflexivity|]. simpl map.
  rewrite (@set_operand0_other subId bv y2 (H3 y2 eq_refl)).
  apply chain_window_three.
Qed.

(** [windows_applied V f]: at every instruction outside [V], what the
    look-ahead would write is already there. *)
Definition windows_applied (V : list nat) (f : Function) : Prop :=
  NoDup (all_ids f) /\
  forall blk pre x suf,
    getBlock f blk = pre ++ x :: suf -> ~ In (getId x) V ->
    apply_window f (chain_window x suf) = f.

Lemma windows_applied_start (F : Function) :
  NoDup (all_ids F) -> windows_applied (all_ids F) F.
Proof.
  intros Hnd. split; [exact Hnd|]. intros blk pre x suf Hb Hx.
  exfalso. apply Hx. eapply in_block_all_ids; eauto.
Qed.

Lemma block_split_of_ids (f : Function) (b : nat) (ins : Instruction)
  (p rest : list nat) :
  NoDup (all_ids f) ->
  In ins (getBlock f b) ->
  ids (getBlock f b) = p ++ getId ins :: rest ->
  exists pre suf, getBlock f b = pre ++ ins :: suf /\ ids suf = rest.
Proof.
  intros Hnd Hin Hids. destruct (in_split _ _ Hin) as (pre & suf & Hb).
  exists pre, suf. split; [exact Hb|].
  assert (Hd := block_NoDup f b Hnd).
  rewrite Hb, ids_app in Hids. simpl in Hids.
  rewrite Hb, ids_app in Hd. simpl in Hd.
  rewrite <- (map_id (ids pre ++ getId ins :: ids suf)) in Hd.
  now destruct (@NoDup_map_split _ _ (fun i : nat => i) (ids pre) p (ids suf)
                  rest (getId ins) (getId ins) Hd Hids eq_refl)
    as (_ & _ & H).
Qed.

End CombinerSettles.

Section CombinerScan.

Import Part000.MultiInstructionOptimizationPass.

Lemma Part000_MultiInstruction_settles_visit (V : list nat) (b : nat)
  (ins : Instruction) (f f' : Function) (p rest : list nat) :
  windows_applied (getId ins :: V) f ->
  In ins (getBlock f b) ->
  ids (getBlock f b) = p ++ getId ins :: rest ->
  visit b (begin_ids rest) ins f = Ok f' ->
  windows_applied V f'.
Proof.
  intros [Hnd Hw] Hin Hids Hv.
  destruct (@block_split_of_ids f b ins p rest Hnd Hin Hids)
    as (pre & suf & Hb & Hsuf).
  rewrite <- Hsuf, begin_ids_ids in Hv.
  rewrite (@Part000_MultiInstruction_visit_window f b pre ins suf Hnd Hb) in Hv.
  injection Hv as <-.
  destruct (chain_window ins suf) as [[subId bv]|] eqn:W; simpl.
  2:{ split; [exact Hnd|]. intros blk pre' x suf' Hb' Hx.
      destruct (Nat.eq_dec (getId x) (getId ins)) as [E|Hne].
      - destruct (@position_unique f blk b pre' pre suf' suf x ins Hnd Hb' Hb E)
          as (_ & _ & -> & ->).
        now rewrite W.
      - apply (Hw blk pre' x suf' Hb'). intros [E|HV]; [congruence | contradiction]. }
  destruct (chain_window_Some _ _ W)
    as (addInst & op0 & op1 & sid & slot & loadId & rest' & -> & Hbase & ->).
  set (theSub := BinaryOperator subId Sub (InstRef loadId) (ConstantInt 1)) in *.
  set (theAdd := BinaryOperator addInst Add op0 op1) in *.
  assert (Hb3 : getBlock f b
                = (pre ++ [theAdd; StoreInst sid (InstRef addInst) slot;
                           LoadInst loadId slot]) ++ theSub :: rest').
  { rewrite Hb, <- app_assoc. reflexivity. }
  assert (HS : forall blk y, In y (getBlock f blk) -> getId y = subId ->
                             y = theSub).
  { intros blk y Hy E. apply (@same_id_same_inst f); auto.
    - eapply in_getBlock; eauto.
    - apply (@in_getBlock f b). rewrite Hb3. apply in_or_app. right. now left. }
  assert (Hadd : addInst <> subId).
  { assert (Hd := block_NoDup f b Hnd). rewrite Hb3, ids_app in Hd.
    simpl in Hd. apply NoDup_app_head in Hd. destruct Hd as [Hd _].
    intros E. apply Hd. rewrite ids_app, <- E. apply in_or_app. right. now left. }
  split; [now rewrite all_ids_setOperand0|].
  intros blk pre' x' suf' Hb' Hx'.
  rewrite getBlock_setOperand0 in Hb'.
  apply map_eq_app in Hb'. destruct Hb' as (pre0 & tl & Hb0 & <- & Htl).
  apply map_eq_cons in Htl. destruct Htl as (x0 & suf0 & -> & <- & <-).
  rewrite getId_set_operand0 in Hx'.
  destruct (Nat.eq_dec (getId x0) addInst) as [E|Hne].
  - (* the addition just visited *)
    destruct (@position_unique f blk b pre0 pre suf0 _ x0 theAdd Hnd Hb0 Hb E)
      as (_ & _ & -> & ->).
    rewrite (@set_operand0_other subId bv theAdd Hadd).
    assert (Hd := block_NoDup f b Hnd). rewrite Hb3, ids_app in Hd.
    simpl in Hd. apply NoDup_app_head in Hd. destruct Hd as [Hd _].
    rewrite ids_app in Hd. simpl in Hd.
    assert (Hsid : sid <> subId).
    { intros E'. apply Hd. apply in_or_app. right. rewrite <- E'. simpl. auto. }
    assert (Hld : loadId <> subId).
    { intros E'. apply Hd. apply in_or_app. right. rewrite <- E'. simpl. auto. }
    simpl map.
    rewrite (@set_operand0_other subId bv (StoreInst sid (InstRef addInst) slot))
      by exact Hsid.
    rewrite (@set_operand0_other subId bv (LoadInst loadId slot)) by exact Hld.
    assert (Eg : set_operand0 subId bv theSub
                 = BinaryOperator subId Sub bv (ConstantInt 1)).
    { unfold set_operand0, theSub. simpl. now rewrite Nat.eqb_refl. }
    rewrite Eg. unfold theAdd.
    cbn -[Value_eqb apply_window base_of_add]. rewrite Hbase.
    cbn -[Value_eqb apply_window base_of_add]. rewrite !Value_eqb_refl.
    destruct (Value_eqb bv (InstRef loadId)); simpl; [|reflexivity].
    apply setOperand0_twice.
  - (* an instruction visited before *)
    assert (Hx0 : ~ In (getId x0) (addInst :: V)).
    { intros [E|HV]; [now apply Hne | contradiction]. }
    assert (Hw0 := Hw blk pre0 x0 suf0 Hb0 Hx0).
    assert (H3 : forall y, nth_error suf0 2 = Some y -> getId y <> subId).
    { intros y Hy E.
      destruct suf0 as [|y0 [|y1 [|y2 r2]]]; try discriminate.
      injection Hy as ->.
      assert (Hb03 : getBlock f blk = (pre0 ++ [x0; y0; y1]) ++ y :: r2).
      { rewrite Hb0, <- app_assoc. reflexivity. }
      destruct (@position_unique f blk b _ _ r2 rest' y theSub Hnd Hb03 Hb3 E)
        as (_ & Hp & _ & _).
      assert (Hp' : ((pre0 ++ [x0]) ++ [y0]) ++ [y1]
                    = ((pre ++ [theAdd]) ++ [StoreInst sid (InstRef addInst) slot])
                        ++ [LoadInst loadId slot])
        by (rewrite <- !app_assoc; exact Hp).
      apply app_inj_tail in Hp'. destruct Hp' as [Hp' _].
      apply app_inj_tail in Hp'. destruct Hp' as [Hp' _].
      apply app_inj_tail in Hp'. destruct Hp' as [_ ->].
      now apply Hne. }
    assert (Hsub : forall y, In y (x0 :: suf0) -> getId y = subId -> y = theSub).
    { intros y Hy. apply (HS blk). rewrite Hb0. apply in_or_app. now right. }
    rewrite (@chain_window_set_operand0 subId bv _ _ x0 suf0 Hsub H3).
    destruct (chain_window x0 suf0) as [[sub0 b0]|] eqn:W0; simpl in *;
      [|reflexivity].
    assert (Hs0 : sub0 <> subId).
    { destruct (chain_window_Some _ _ W0)
        as (? & ? & ? & ? & ? & ? & ? & _ & _ & ->).
      intros E. now apply (H3 _ eq_refl). }
    rewrite setOperand0_swap by (intros E; now apply Hs0).
    now rewrite Hw0.
Qed.

Lemma windows_applied_quiet (f : Function) (blk : nat) :
  windows_applied [] f ->
  forall suf pre, getBlock f blk = pre ++ suf ->
                  quiet_block (visit blk) f suf.
Proof.
  intros [Hnd Hw]. induction suf as [|ins r IH]; intros pre Hblk; simpl; auto.
  split.
  - rewrite (@Part000_MultiInstruction_visit_window f blk pre ins r Hnd Hblk).
    rewrite (Hw blk pre ins r Hblk); [reflexivity | intros []].
  - apply (IH (pre ++ [ins])). now rewrite <- app_assoc.
Qed.

End CombinerScan.

(** After one run of the combiner of part_000, every look-ahead finds what
    it would write already written. *)
Lemma Part000_MultiInstruction_settles (fuel : nat) (F : Function) :
  NoDup (all_ids F) -> length (all_ids F) <= fuel ->
  exists F',
    Part000.MultiInstructionOptimizationPass.run fuel F = Ok (F', PA_none) /\
    NoDup (all_ids F') /\
    quiet Part000.fn Part000.MultiInstructionOptimizationPass.visit F'.
Proof.
  intros Hnd Hfuel.
  destruct (@Part000_MultiInstruction_run_frame fuel F Hnd Hfuel)
    as (F' & Hrun & _).
  exists F'. split; [exact Hrun|].
  destruct (@advancing_scans_visit_each_instruction_once 0%Z fuel F Hnd Hfuel)
    as (_ & _ & _ & _ & E).
  rewrite E in Hrun. apply bind_Ok in Hrun. destruct Hrun as (s & Hv & Hrep).
  injection Hrep as <-.
  assert (Hs : windows_applied [] s).
  { apply (@visit_blocks_settles Function Part000.fn
             Part000.MultiInstructionOptimizationPass.visit windows_applied)
      with (L0 := map ids F) (bs := seq 0 (length F)) (s := F).
    - intros V s0 H. apply H.
    - intros b it ins s0 s1 _ _. apply Part000_MultiInstruction_visit_ids_step.
    - intros b ins s0 s1 V p rest. apply Part000_MultiInstruction_settles_visit.
    - apply seq_NoDup.
    - rewrite <- (length_map ids F), map_nth_seq.
      now apply windows_applied_start.
    - intros b _. apply getBlock_ids.
    - exact Hv. }
  split; [apply Hs|].
  intros blk. now apply (@windows_applied_quiet s blk Hs _ []).
Qed.

(** *** A run on a function in which nothing is left to rewrite *)

Definition nothing_left (m : Function -> Instruction -> bool) (F : Function)
  : Prop :=
  forall x, In x (concat F) -> m F x = false.

Section NothingLeft.

Variable bits : Z.
Variable fuel : nat.
Variable F : Function.
Hypothesis F_ids : NoDup (all_ids F).
Hypothesis enough : length (all_ids F) <= fuel.

Lemma TestPass_AlgebraicIdentity_nothing_left :
  nothing_left (fun _ => TestPass_is_identity) F ->
  TestPass.AlgebraicIdentityPass.run fuel F = Ok (F, PA_all).
Proof.
  intros H. apply TestPass_AlgebraicIdentity_quiet; auto.
  apply (@settled_quiet TestPass.state fst _ (fun _ => TestPass_is_identity));
    [|exact H].
  intros b it ins s. apply TestPass_AlgebraicIdentity_keeps.
Qed.

Lemma TestPass_StrengthReduction_nothing_left :
  nothing_left (fun _ => TestPass_reduces) F ->
  TestPass.StrengthReductionPass.run bits fuel F = Ok (F, PA_all).
Proof.
  intros H. apply TestPass_StrengthReduction_quiet; auto.
  apply (@settled_quiet TestPass.state fst _ (fun _ => TestPass_reduces));
    [|exact H].
  intros b it ins s. apply TestPass_StrengthReduction_keeps.
Qed.

Lemma TestPass_MultiInstruction_nothing_left :
  nothing_left TestPass_combines F ->
  TestPass.MultiInstructionOptPass.run fuel F = Ok (F, PA_all).
Proof.
  intros H. apply TestPass_MultiInstruction_quiet; auto.
  apply (@settled_quiet TestPass.state fst _ TestPass_combines); [|exact H].
  intros b it ins s. apply TestPass_MultiInstruction_keeps.
Qed.

Lemma Part000_AlgebraicIdentity_nothing_left :
  nothing_left (fun _ => is_identity) F ->
  Part000.AlgebraicIdentityPass.run fuel F = Ok (F, PA_none).
Proof.
  intros H. apply Part000_AlgebraicIdentity_quiet; auto.
  apply (@settled_quiet Function Part000.fn _ (fun _ => is_identity));
    [|exact H].
  intros b it ins s Hm.
  now rewrite Part000_AlgebraicIdentity_visit_identity, Hm.
Qed.

Lemma Part000_StrengthReduction_nothing_left :
  nothing_left (fun _ => Part000_reduces) F ->
  Part000.StrengthReductionPass.run fuel F = Ok (F, PA_none).
Proof.
  intros H. apply Part000_StrengthReduction_quiet; auto.
  apply (@settled_quiet Function Part000.fn _ (fun _ => Part000_reduces));
    [|exact H].
  intros b it ins s. apply Part000_StrengthReduction_keeps.
Qed.

End NothingLeft.

(* ------------------------------------------------------------------------- *)
(** ** The rewrites of the two files *)
(* ------------------------------------------------------------------------- *)

(** C2, as amended.  part_000: a run on a function that defines before it
    uses returns a function without any [Add(x, 0)], [Add(0, x)],
    [Mul(x, 1)] or [Mul(1, x)], and those of the input are gone and unused;
    the visit of one of them redirects its uses to the other operand and
    erases it.  TestPass.cpp: the visit does so for [Add(x, 0)] and
    [Mul(x, 1)], and leaves [Add(0, x)] and [Mul(1, x)] in place. *)
Theorem AlgebraicIdentity_removes_identities
  (fuel : nat) (F f : Function) (s : TestPass.state) (b : nat)
  (pre suf : BasicBlock) (ins : Instruction) (id : nat) (x : Value) :
  (NoDup (all_ids F) -> ssa_order F -> length (all_ids F) <= fuel ->
   exists F',
     Part000.AlgebraicIdentityPass.run fuel F = Ok (F', PA_none) /\
     nothing_left (fun _ => is_identity) F' /\
     forall i, In i (concat F) -> is_identity i = true ->
               ~ In (getId i) (all_ids F') /\ use_empty F' (getId i) = true) /\
  (NoDup (all_ids f) -> getBlock f b = pre ++ ins :: suf ->
   is_identity ins = true -> other_operand ins <> InstRef (getId ins) ->
   exists f',
     Part000.AlgebraicIdentityPass.visit ins f = Ok f' /\
     rewritten_at f f' b pre [] suf (getId ins) (other_operand ins)) /\
  (NoDup (all_ids (fst s)) -> getBlock (fst s) b = pre ++ ins :: suf ->
   ins = BinaryOperator id Add x (ConstantInt 0) \/
   ins = BinaryOperator id Mul x (ConstantInt 1) ->
   x <> InstRef id ->
   exists f',
     TestPass.AlgebraicIdentityPass.visit ins s = Ok (f', true) /\
     rewritten_at (fst s) f' b pre [] suf id x) /\
  (equalsInt x 0 = false ->
   TestPass.AlgebraicIdentityPass.visit
     (BinaryOperator id Add (ConstantInt 0) x) s = Ok s) /\
  (equalsInt x 1 = false ->
   TestPass.AlgebraicIdentityPass.visit
     (BinaryOperator id Mul (ConstantInt 1) x) s = Ok s).
Proof.
  split; [|split; [|split]].
  - intros Hnd Hssa Hfuel.
    destruct (@Part000_AlgebraicIdentity_settles fuel F Hnd Hssa Hfuel)
      as (F' & Hrun & _ & _ & Hleft).
    exists F'. split; [exact Hrun|]. split; [exact Hleft|]. intros i Hi Hid.
    eapply Part000_AlgebraicIdentity_removes_identities; eauto.
  - apply Part000_AlgebraicIdentity_step.
  - apply TestPass_AlgebraicIdentity_step.
  - apply TestPass_AlgebraicIdentity_left.
Qed.

(** C9, as amended.  A pass whose visits rewrite nothing on the function
    returns it unchanged.  TestPass.cpp rewrites none of [Add(x,2)],
    [Mul(x,3)], [SDiv(x,7)] and [Sub(a,2)]; part_000 rewrites neither
    [SDiv(x,7)] nor [Sub(a,2)], leaves [Add(x,2)] for [x] other than the
    constant 0 and [Mul(x,3)] for [x] other than the constant 1 (identities)
    and 15 (strength reduction), and rewrites and erases [Add(0,2)],
    [Mul(1,3)] and [Mul(15,3)].  The combiner of part_000 is triggered only
    by an addition immediately followed by the store, the load and the
    subtraction by 1, so an interleaved instruction or a longer span leaves
    the function unchanged. *)
Theorem near_miss_left_unchanged
  (bits : Z) (fuel : nat) (F : Function)
  (s : TestPass.state) (id i j k subId : nat) (x a v p q c b : Value)
  (opc : BinaryOps) (blk : nat) (it : iterator)
  (ins : Instruction) (suf rest : BasicBlock) :
  NoDup (all_ids F) ->
  length (all_ids F) <= fuel ->
  ((quiet fst (fun _ _ => TestPass.AlgebraicIdentityPass.visit) (F, false) ->
    TestPass.AlgebraicIdentityPass.run fuel F = Ok (F, PA_all)) /\
   (quiet fst (fun _ _ => TestPass.StrengthReductionPass.visit bits) (F, false) ->
    TestPass.StrengthReductionPass.run bits fuel F = Ok (F, PA_all)) /\
   (quiet fst (fun _ _ => TestPass.MultiInstructionOptPass.visit) (F, false) ->
    TestPass.MultiInstructionOptPass.run fuel F = Ok (F, PA_all)) /\
   (quiet Part000.fn (fun _ _ => Part000.AlgebraicIdentityPass.visit) F ->
    Part000.AlgebraicIdentityPass.run fuel F = Ok (F, PA_none)) /\
   (quiet Part000.fn (fun _ _ => Part000.StrengthReductionPass.visit) F ->
    Part000.StrengthReductionPass.run fuel F = Ok (F, PA_none)) /\
   (no_window F ->
    Part000.MultiInstructionOptimizationPass.run fuel F = Ok (F, PA_none))) /\
  near_miss_visits bits s F id x a blk it /\
  first_operand_visits F id /\
  near_miss_windows ins rest i j k a v p q c opc /\
  (chain_window ins suf = Some (subId, b) ->
   exists addInst op0 op1 sid slot loadId rest',
     ins = BinaryOperator addInst Add op0 op1 /\
     Part000.MultiInstructionOptimizationPass.base_of_add op0 op1 = Some b /\
     suf = StoreInst sid (InstRef addInst) slot
             :: LoadInst loadId slot
             :: BinaryOperator subId Sub (InstRef loadId) (ConstantInt 1)
             :: rest').
Proof.
  intros Hnd Hfuel. split; [|split; [|split; [|split]]].
  - repeat split.
    + now apply TestPass_AlgebraicIdentity_quiet.
    + now apply TestPass_StrengthReduction_quiet.
    + now apply TestPass_MultiInstruction_quiet.
    + now apply Part000_AlgebraicIdentity_quiet.
    + now apply Part000_StrengthReduction_quiet.
    + now apply Part000_MultiInstruction_quiet.
  - apply near_miss_visits_hold.
  - apply first_operand_visits_hold.
  - apply near_miss_windows_hold.
  - apply chain_window_Some.
Qed.

(** C9 at [near_misses]: all six passes return it unchanged; the visits of
    part_000 at [%x] and at the constant 15 as first operand. *)
Lemma near_miss_left_unchanged_witness :
  NoDup (all_ids Examples.near_misses) /\
  length (all_ids Examples.near_misses) <= 10 /\
  TestPass.AlgebraicIdentityPass.run 10 Examples.near_misses
    = Ok (Examples.near_misses, PA_all) /\
  TestPass.StrengthReductionPass.run 32 10 Examples.near_misses
    = Ok (Examples.near_misses, PA_all) /\
  TestPass.MultiInstructionOptPass.run 10 Examples.near_misses
    = Ok (Examples.near_misses, PA_all) /\
  Part000.AlgebraicIdentityPass.run 10 Examples.near_misses
    = Ok (Examples.near_misses, PA_none) /\
  Part000.StrengthReductionPass.run 10 Examples.near_misses
    = Ok (Examples.near_misses, PA_none) /\
  Part000.MultiInstructionOptimizationPass.run 10 Examples.near_misses
    = Ok (Examples.near_misses, PA_none) /\
  Part000.AlgebraicIdentityPass.visit
    (BinaryOperator 1 Add (Argument 0) (ConstantInt 2)) Examples.near_misses
    = Ok Examples.near_misses /\
  Part000.AlgebraicIdentityPass.visit
    (BinaryOperator 1 Mul (Argument 0) (ConstantInt 3)) Examples.near_misses
    = Ok Examples.near_misses /\
  Part000.StrengthReductionPass.visit
    (BinaryOperator 1 Mul (Argument 0) (ConstantInt 3)) Examples.near_misses
    = Ok Examples.near_misses /\
  exists f',
    Part000.StrengthReductionPass.visit
      (BinaryOperator 1 Mul (ConstantInt 15) (ConstantInt 3))
      Examples.near_misses = Ok f' /\
    ~ In 1 (all_ids f').
Proof.
  destruct (@near_miss_left_unchanged 32 10 Examples.near_misses
              (Examples.near_misses, false) 1 0 0 0 0
              (Argument 0) PoisonValue PoisonValue PoisonValue PoisonValue
              PoisonValue PoisonValue Add 0 End
              (LoadInst 0 PoisonValue) [] []
              near_misses_ids near_misses_length)
    as [(H1 & H2 & H3 & H4 & H5 & H6) (NM & FO & _)].
  unfold near_miss_visits in NM. unfold first_operand_visits in FO.
  destruct NM as (_ & _ & _ & _ & _ & N1 & N2 & N3 & _).
  destruct FO as (_ & _ & F3 & _).
  split; [exact near_misses_ids|].
  split; [exact near_misses_length|].
  split; [apply H1; quiet_one_block|].
  split; [apply H2; quiet_one_block|].
  split; [apply H3; quiet_one_block|].
  split; [apply H4; quiet_one_block|].
  split; [apply H5; quiet_one_block|].
  split; [apply H6; exact near_misses_no_window|].
  split; [apply N1; reflexivity|].
  split; [apply N2; reflexivity|].
  split; [apply N3; reflexivity|].
  apply F3. vm_compute. tauto.
Defined.

(** C3, as amended.  part_000: the visit of [Mul(x, 15)] or [Mul(15, x)] puts
    [shifted = Shl(x, 4)] and [result = Sub(shifted, x)] where the product
    was, redirects the uses of the product to [result] and erases it, and
    a run leaves no such product, whatever the order of definitions and
    uses.  TestPass.cpp: the visit does so for [Mul(x, 15)] with [x] not a
    constant; for a constant [x] the builder folds [(x << 4) - x], nothing
    is inserted, and the uses of the product are redirected to the folded
    constant; a run on a function that defines before it uses leaves no
    [Mul(x, 15)]; and [Mul(15, x)] with [x] other than the constant 15
    stays in place.  At every width above 4, [(x << 4) - x] is [x * 15];
    for [x = 3] both are 45. *)
Theorem StrengthReduction_mul_15_becomes_shift_and_sub
  (bits w x15 : Z) (fuel : nat) (F f : Function) (s : TestPass.state) (b : nat)
  (pre suf : BasicBlock) (ins : Instruction) (id : nat) (x : Value) :
  (NoDup (all_ids F) -> length (all_ids F) <= fuel ->
   exists F',
     Part000.StrengthReductionPass.run fuel F = Ok (F', PA_none) /\
     nothing_left (fun _ => Part000_reduces) F') /\
  (NoDup (all_ids F) -> ssa_order F -> length (all_ids F) <= fuel ->
   exists F' pa,
     TestPass.StrengthReductionPass.run bits fuel F = Ok (F', pa) /\
     nothing_left (fun _ => TestPass_reduces) F') /\
  (NoDup (all_ids f) -> getBlock f b = pre ++ ins :: suf ->
   ins = BinaryOperator id Mul x (ConstantInt 15) \/
   ins = BinaryOperator id Mul (ConstantInt 15) x ->
   exists f' shifted result,
     ~ In shifted (all_ids f) /\ ~ In result (all_ids f) /\ shifted <> result /\
     Part000.StrengthReductionPass.visit ins f = Ok f' /\
     rewritten_at f f' b pre
       [BinaryOperator shifted Shl x (ConstantInt 4);
        BinaryOperator result Sub (InstRef shifted) x]
       suf id (InstRef result)) /\
  (NoDup (all_ids (fst s)) ->
   getBlock (fst s) b = pre ++ BinaryOperator id Mul x (ConstantInt 15) :: suf ->
   isConstant x = false ->
   exists f' shifted result,
     ~ In shifted (all_ids (fst s)) /\ ~ In result (all_ids (fst s)) /\
     shifted <> result /\
     TestPass.StrengthReductionPass.visit bits
       (BinaryOperator id Mul x (ConstantInt 15)) s = Ok (f', true) /\
     rewritten_at (fst s) f' b pre
       [BinaryOperator shifted Shl x (ConstantInt 4);
        BinaryOperator result Sub (InstRef shifted) x]
       suf id (InstRef result)) /\
  (NoDup (all_ids (fst s)) ->
   getBlock (fst s) b = pre ++ BinaryOperator id Mul x (ConstantInt 15) :: suf ->
   isConstant x = true ->
   exists f' v,
     v = Sem.ConstantFold bits Sub
           (Sem.ConstantFold bits Shl x (ConstantInt 4)) x /\
     isConstant v = true /\
     TestPass.StrengthReductionPass.visit bits
       (BinaryOperator id Mul x (ConstantInt 15)) s = Ok (f', true) /\
     rewritten_at (fst s) f' b pre [] suf id v) /\
  (equalsInt x 15 = false ->
   TestPass.StrengthReductionPass.visit bits
     (BinaryOperator id Mul (ConstantInt 15) x) s = Ok s) /\
  ((4 < w)%Z ->
   exists shifted,
     Sem.eval_binop w Shl x15 4 = Some shifted /\
     Sem.eval_binop w Sub shifted x15 = Sem.eval_binop w Mul x15 15) /\
  Sem.eval_binop 32 Mul 3 15 = Some 45%Z /\
  Sem.eval_binop 32 Shl 3 4 = Some 48%Z /\
  Sem.eval_binop 32 Sub 48 3 = Some 45%Z.
Proof.
  split; [|split; [|split; [|split; [|split; [|split; [|split]]]]]].
  - intros Hnd Hfuel.
    destruct (@Part000_StrengthReduction_settles_any_layout fuel F Hnd Hfuel)
      as (F' & Hrun & _ & Hleft).
    now exists F'.
  - intros Hnd Hssa Hfuel.
    destruct (@TestPass_StrengthReduction_settles bits fuel F Hnd Hssa Hfuel)
      as (F' & pa & Hrun & _ & _ & Hleft).
    now exists F', pa.
  - apply Part000_StrengthReduction_mul_15_step.
  - apply TestPass_StrengthReduction_mul_15_step.
  - apply TestPass_StrengthReduction_mul_15_folds.
  - apply TestPass_StrengthReduction_mul_15_left.
  - apply mul_15_shift_sub.
  - apply mul_15_at_3.
Qed.

(** C4, as amended.  TestPass.cpp: the visit of [SDiv(x, 8)] or [UDiv(x, 8)]
    with [x] not a constant puts [LShr(x, 3)] where the quotient was,
    redirects the uses of the quotient to it and erases the quotient; for a
    constant [x] the builder folds [LShr(x, 3)], nothing is inserted, and
    the uses of the quotient are redirected to the folded constant; a run
    on a function that defines before it uses leaves no such quotient.
    part_000: the visit does so for [SDiv(x, 8)], with [AShr(x, 3)], a run
    leaves no [SDiv(x, 8)], whatever the order of definitions and uses, and
    [UDiv(x, 8)] stays in place.  The unsigned quotient is the logical
    shift, and on a non-negative dividend the signed quotient is both
    shifts, at every width above 3; for [x = 40] all are 5. *)
Theorem StrengthReduction_div_8_becomes_shift
  (bits w n : Z) (fuel : nat) (F f : Function) (s : TestPass.state) (b : nat)
  (pre suf : BasicBlock) (id : nat) (opc : BinaryOps) (x c : Value) :
  (NoDup (all_ids F) -> ssa_order F -> length (all_ids F) <= fuel ->
   exists F' pa,
     TestPass.StrengthReductionPass.run bits fuel F = Ok (F', pa) /\
     nothing_left (fun _ => TestPass_reduces) F') /\
  (NoDup (all_ids F) -> length (all_ids F) <= fuel ->
   exists F',
     Part000.StrengthReductionPass.run fuel F = Ok (F', PA_none) /\
     nothing_left (fun _ => Part000_reduces) F') /\
  (NoDup (all_ids (fst s)) ->
   getBlock (fst s) b = pre ++ BinaryOperator id opc x (ConstantInt 8) :: suf ->
   opc = SDiv \/ opc = UDiv ->
   isConstant x = false ->
   exists f' shifted,
     ~ In shifted (all_ids (fst s)) /\
     TestPass.StrengthReductionPass.visit bits
       (BinaryOperator id opc x (ConstantInt 8)) s = Ok (f', true) /\
     rewritten_at (fst s) f' b pre
       [BinaryOperator shifted LShr x (ConstantInt 3)] suf id (InstRef shifted)) /\
  (NoDup (all_ids (fst s)) ->
   getBlock (fst s) b = pre ++ BinaryOperator id opc x (ConstantInt 8) :: suf ->
   opc = SDiv \/ opc = UDiv ->
   isConstant x = true ->
   exists f' v,
     v = Sem.ConstantFold bits LShr x (ConstantInt 3) /\
     isConstant v = true /\
     TestPass.StrengthReductionPass.visit bits
       (BinaryOperator id opc x (ConstantInt 8)) s = Ok (f', true) /\
     rewritten_at (fst s) f' b pre [] suf id v) /\
  (NoDup (all_ids f) ->
   getBlock f b = pre ++ BinaryOperator id SDiv x (ConstantInt 8) :: suf ->
   exists f' shifted,
     ~ In shifted (all_ids f) /\
     Part000.StrengthReductionPass.visit
       (BinaryOperator id SDiv x (ConstantInt 8)) f = Ok f' /\
     rewritten_at f f' b pre
       [BinaryOperator shifted AShr x (ConstantInt 3)] suf id (InstRef shifted)) /\
  Part000.StrengthReductionPass.visit (BinaryOperator id UDiv x c) f = Ok f /\
  ((3 < w)%Z -> Sem.eval_binop w UDiv n 8 = Sem.eval_binop w LShr n 3) /\
  ((3 < w)%Z -> (0 <= n < 2 ^ (w - 1))%Z ->
   Sem.eval_binop w SDiv n 8 = Sem.eval_binop w LShr n 3 /\
   Sem.eval_binop w SDiv n 8 = Sem.eval_binop w AShr n 3) /\
  Sem.eval_binop 32 UDiv 40 8 = Some 5%Z /\
  Sem.eval_binop 32 SDiv 40 8 = Some 5%Z /\
  Sem.eval_binop 32 LShr 40 3 = Some 5%Z /\
  Sem.eval_binop 32 AShr 40 3 = Some 5%Z.
Proof.
  split; [|split; [|split; [|split; [|split; [|split; [|split; [|split]]]]]]].
  - intros Hnd Hssa Hfuel.
    destruct (@TestPass_StrengthReduction_settles bits fuel F Hnd Hssa Hfuel)
      as (F' & pa & Hrun & _ & _ & Hleft).
    now exists F', pa.
  - intros Hnd Hfuel.
    destruct (@Part000_StrengthReduction_settles_any_layout fuel F Hnd Hfuel)
      as (F' & Hrun & _ & Hleft).
    now exists F'.
  - apply TestPass_StrengthReduction_div_8_step.
  - apply TestPass_StrengthReduction_div_8_folds.
  - apply Part000_StrengthReduction_sdiv_8_step.
  - apply Part000_StrengthReduction_udiv.
  - apply udiv_8_lshr.
  - apply sdiv_8_shift.
  - apply div_8_at_40.
Qed.




(** C8, as amended.  On a function in which a pass finds nothing left to
    rewrite, a run of that pass rewrites nothing; one run on a function that
    defines before it uses leaves such a function, so a second run in a row
    returns what the first returned (for the combiner of part_000, on every
    function).  The passes of TestPass.cpp then report all analyses
    preserved, the passes of part_000 report none preserved, as they always
    do. *)
Theorem second_run_rewrites_nothing (bits : Z) (fuel fuel' : nat) (F : Function) :
  NoDup (all_ids F) ->
  length (all_ids F) <= fuel ->
  ((nothing_left (fun _ => TestPass_is_identity) F ->
    TestPass.AlgebraicIdentityPass.run fuel F = Ok (F, PA_all)) /\
   (nothing_left (fun _ => TestPass_reduces) F ->
    TestPass.StrengthReductionPass.run bits fuel F = Ok (F, PA_all)) /\
   (nothing_left TestPass_combines F ->
    TestPass.MultiInstructionOptPass.run fuel F = Ok (F, PA_all)) /\
   (nothing_left (fun _ => is_identity) F ->
    Part000.AlgebraicIdentityPass.run fuel F = Ok (F, PA_none)) /\
   (nothing_left (fun _ => Part000_reduces) F ->
    Part000.StrengthReductionPass.run fuel F = Ok (F, PA_none)) /\
   (no_window F ->
    Part000.MultiInstructionOptimizationPass.run fuel F = Ok (F, PA_none))) /\
  (ssa_order F ->
   (exists F' pa,
      TestPass.StrengthReductionPass.run bits fuel F = Ok (F', pa) /\
      (length (all_ids F') <= fuel' ->
       TestPass.StrengthReductionPass.run bits fuel' F' = Ok (F', PA_all))) /\
   (exists F' pa,
      TestPass.MultiInstructionOptPass.run fuel F = Ok (F', pa) /\
      (length (all_ids F') <= fuel' ->
       TestPass.MultiInstructionOptPass.run fuel' F' = Ok (F', PA_all))) /\
   (exists F',
      Part000.AlgebraicIdentityPass.run fuel F = Ok (F', PA_none) /\
      (length (all_ids F') <= fuel' ->
       Part000.AlgebraicIdentityPass.run fuel' F' = Ok (F', PA_none))) /\
   (exists F',
      Part000.StrengthReductionPass.run fuel F = Ok (F', PA_none) /\
      (length (all_ids F') <= fuel' ->
       Part000.StrengthReductionPass.run fuel' F' = Ok (F', PA_none)))) /\
  (exists F',
     Part000.MultiInstructionOptimizationPass.run fuel F = Ok (F', PA_none) /\
     (length (all_ids F') <= fuel' ->
      Part000.MultiInstructionOptimizationPass.run fuel' F' = Ok (F', PA_none))).
Proof.
  intros Hnd Hfuel. split; [|split].
  - repeat split.
    + now apply TestPass_AlgebraicIdentity_nothing_left.
    + now apply TestPass_StrengthReduction_nothing_left.
    + now apply TestPass_MultiInstruction_nothing_left.
    + now apply Part000_AlgebraicIdentity_nothing_left.
    + now apply Part000_StrengthReduction_nothing_left.
    + now apply Part000_MultiInstruction_quiet.
  - intros Hssa. split; [|split; [|split]].
    + destruct (@TestPass_StrengthReduction_settles bits fuel F Hnd Hssa Hfuel)
        as (F' & pa & Hrun & Hnd' & _ & Hleft).
      exists F', pa. split; [exact Hrun|]. intros Hlen.
      now apply TestPass_StrengthReduction_nothing_left.
    + destruct (@TestPass_MultiInstruction_settles fuel F Hnd Hssa Hfuel)
        as (F' & pa & Hrun & Hnd' & _ & Hleft).
      exists F', pa. split; [exact Hrun|]. intros Hlen.
      now apply TestPass_MultiInstruction_nothing_left.
    + destruct (@Part000_AlgebraicIdentity_settles fuel F Hnd Hssa Hfuel)
        as (F' & Hrun & Hnd' & _ & Hleft).
      exists F'. split; [exact Hrun|]. intros Hlen.
      now apply Part000_AlgebraicIdentity_nothing_left.
    + destruct (@Part000_StrengthReduction_settles fuel F Hnd Hssa Hfuel)
        as (F' & Hrun & Hnd' & _ & Hleft).
      exists F'. split; [exact Hrun|]. intros Hlen.
      now apply Part000_StrengthReduction_nothing_left.
  - destruct (@Part000_MultiInstruction_settles fuel F Hnd Hfuel)
      as (F' & Hrun & Hnd' & Hq).
    exists F'. split; [exact Hrun|]. intros Hlen.
    unfold Part000.MultiInstructionOptimizationPass.run.
    now rewrite quiet_scan_post_increment.
Qed.

(* ------------------------------------------------------------------------- *)
(** ** The rewrites on concrete functions *)
(* ------------------------------------------------------------------------- *)

Lemma ssa_orderb_sound (f : Function) :
  defs_before_usesb [] (concat f) = true -> ssa_order f.
Proof. apply defs_before_usesb_sound. Defined.

Lemma nothing_leftb (m : Function -> Instruction -> bool) (F : Function) :
  forallb (fun x => negb (m F x)) (concat F) = true -> nothing_left m F.
Proof.
  intros H x Hx. rewrite forallb_forall in H. apply negb_true_iff. now apply H.
Defined.

(** C2 at [%1 = add %x, 0; %2 = mul %1, %1] and at the identities with the
    constant on the left. *)
Lemma AlgebraicIdentity_removes_identities_witness :
  (exists F',
     Part000.AlgebraicIdentityPass.run 3 Examples.left_identities
       = Ok (F', PA_none) /\
     nothing_left (fun _ => is_identity) F' /\
     forall i, In i (concat Examples.left_identities) ->
               is_identity i = true ->
               ~ In (getId i) (all_ids F') /\ use_empty F' (getId i) = true) /\
  (exists f',
     Part000.AlgebraicIdentityPass.visit
       (BinaryOperator 1 Add (Argument 0) (ConstantInt 0)) Examples.add_zero
       = Ok f' /\
     rewritten_at Examples.add_zero f' 0 []
       [] [BinaryOperator 2 Mul (InstRef 1) (InstRef 1)] 1 (Argument 0)) /\
  (exists f',
     TestPass.AlgebraicIdentityPass.visit
       (BinaryOperator 1 Add (Argument 0) (ConstantInt 0))
       (Examples.add_zero, false) = Ok (f', true) /\
     rewritten_at Examples.add_zero f' 0 []
       [] [BinaryOperator 2 Mul (InstRef 1) (InstRef 1)] 1 (Argument 0)) /\
  TestPass.AlgebraicIdentityPass.visit
    (BinaryOperator 1 Add (ConstantInt 0) (Argument 0))
    (Examples.add_zero, false) = Ok (Examples.add_zero, false) /\
  TestPass.AlgebraicIdentityPass.visit
    (BinaryOperator 1 Mul (ConstantInt 1) (Argument 0))
    (Examples.add_zero, false) = Ok (Examples.add_zero, false).
Proof.
  destruct (@AlgebraicIdentity_removes_identities
              3 Examples.left_identities Examples.add_zero
              (Examples.add_zero, false) 0 []
              [BinaryOperator 2 Mul (InstRef 1) (InstRef 1)]
              (BinaryOperator 1 Add (Argument 0) (ConstantInt 0))
              1 (Argument 0))
    as (H1 & H2 & H3 & H4 & H5).
  split; [|split; [|split; [|split]]].
  - apply H1.
    + apply nodupb_NoDup. vm_compute. reflexivity.
    + apply ssa_orderb_sound. vm_compute. reflexivity.
    + vm_compute. lia.
  - apply H2.
    + apply nodupb_NoDup. vm_compute. reflexivity.
    + reflexivity.
    + reflexivity.
    + discriminate.
  - apply H3.
    + apply nodupb_NoDup. vm_compute. reflexivity.
    + reflexivity.
    + left. reflexivity.
    + discriminate.
  - apply H4. reflexivity.
  - apply H5. reflexivity.
Defined.

(** C3 at [%1 = mul %x, 15; %2 = add %1, %1], width 32; the run of part_000
    on a function that uses [%1] in a block before the one that defines it,
    the folding on [%1 = mul 3, 15]. *)
Lemma StrengthReduction_mul_15_becomes_shift_and_sub_witness :
  (exists F',
     Part000.StrengthReductionPass.run 2 Examples.use_before_def
       = Ok (F', PA_none) /\
     nothing_left (fun _ => Part000_reduces) F') /\
  (exists F' pa,
     TestPass.StrengthReductionPass.run 32 2 Examples.mul_15 = Ok (F', pa) /\
     nothing_left (fun _ => TestPass_reduces) F') /\
  (exists f' shifted result,
     ~ In shifted (all_ids Examples.mul_15) /\
     ~ In result (all_ids Examples.mul_15) /\ shifted <> result /\
     Part000.StrengthReductionPass.visit
       (BinaryOperator 1 Mul (Argument 0) (ConstantInt 15)) Examples.mul_15
       = Ok f' /\
     rewritten_at Examples.mul_15 f' 0 []
       [BinaryOperator shifted Shl (Argument 0) (ConstantInt 4);
        BinaryOperator result Sub (InstRef shifted) (Argument 0)]
       [BinaryOperator 2 Add (InstRef 1) (InstRef 1)] 1 (InstRef result)) /\
  (exists f' shifted result,
     ~ In shifted (all_ids Examples.mul_15) /\
     ~ In result (all_ids Examples.mul_15) /\ shifted <> result /\
     TestPass.StrengthReductionPass.visit 32
       (BinaryOperator 1 Mul (Argument 0) (ConstantInt 15))
       (Examples.mul_15, false) = Ok (f', true) /\
     rewritten_at Examples.mul_15 f' 0 []
       [BinaryOperator shifted Shl (Argument 0) (ConstantInt 4);
        BinaryOperator result Sub (InstRef shifted) (Argument 0)]
       [BinaryOperator 2 Add (InstRef 1) (InstRef 1)] 1 (InstRef result)) /\
  (exists f' v,
     v = Sem.ConstantFold 32 Sub
           (Sem.ConstantFold 32 Shl (ConstantInt 3) (ConstantInt 4))
           (ConstantInt 3) /\
     isConstant v = true /\
     TestPass.StrengthReductionPass.visit 32
       (BinaryOperator 1 Mul (ConstantInt 3) (ConstantInt 15))
       (Examples.mul_3_15, false) = Ok (f', true) /\
     rewritten_at Examples.mul_3_15 f' 0 [] []
       [BinaryOperator 2 Add (InstRef 1) (InstRef 1)] 1 v) /\
  TestPass.StrengthReductionPass.visit 32
    (BinaryOperator 1 Mul (ConstantInt 15) (Argument 0))
    (Examples.mul_15, false) = Ok (Examples.mul_15, false) /\
  (exists shifted,
     Sem.eval_binop 32 Shl 7 4 = Some shifted /\
     Sem.eval_binop 32 Sub shifted 7 = Sem.eval_binop 32 Mul 7 15).
Proof.
  destruct (@StrengthReduction_mul_15_becomes_shift_and_sub
              32 32 7 2 Examples.mul_15 Examples.mul_15
              (Examples.mul_15, false) 0 []
              [BinaryOperator 2 Add (InstRef 1) (InstRef 1)]
              (BinaryOperator 1 Mul (Argument 0) (ConstantInt 15))
              1 (Argument 0))
    as (_ & H0 & H1 & H2 & _ & H3 & H4 & _).
  destruct (@StrengthReduction_mul_15_becomes_shift_and_sub
              32 32 7 2 Examples.use_before_def Examples.mul_3_15
              (Examples.mul_3_15, false) 0 []
              [BinaryOperator 2 Add (InstRef 1) (InstRef 1)]
              (BinaryOperator 1 Mul (ConstantInt 3) (ConstantInt 15))
              1 (ConstantInt 3))
    as (P0 & _ & _ & _ & K & _).
  split; [|split; [|split; [|split; [|split; [|split]]]]].
  - apply P0.
    + apply nodupb_NoDup. vm_compute. reflexivity.
    + vm_compute. lia.
  - apply H0.
    + apply nodupb_NoDup. vm_compute. reflexivity.
    + apply ssa_orderb_sound. vm_compute. reflexivity.
    + vm_compute. lia.
  - apply H1.
    + apply nodupb_NoDup. vm_compute. reflexivity.
    + reflexivity.
    + left. reflexivity.
  - apply H2.
    + apply nodupb_NoDup. vm_compute. reflexivity.
    + reflexivity.
    + reflexivity.
  - apply K.
    + apply nodupb_NoDup. vm_compute. reflexivity.
    + reflexivity.
    + reflexivity.
  - apply H3. reflexivity.
  - apply H4. lia.
Defined.

(** C4 at [%1 = sdiv %x, 8; %2 = add %1, %1] and at [udiv], width 32; the
    folding on [%1 = udiv 40, 8]. *)
Lemma StrengthReduction_div_8_becomes_shift_witness :
  (exists F' pa,
     TestPass.StrengthReductionPass.run 32 2 Examples.sdiv_8 = Ok (F', pa) /\
     nothing_left (fun _ => TestPass_reduces) F') /\
  (exists F',
     Part000.StrengthReductionPass.run 2 Examples.sdiv_8 = Ok (F', PA_none) /\
     nothing_left (fun _ => Part000_reduces) F') /\
  (exists f' shifted,
     ~ In shifted (all_ids Examples.sdiv_8) /\
     TestPass.StrengthReductionPass.visit 32
       (BinaryOperator 1 SDiv (Argument 0) (ConstantInt 8))
       (Examples.sdiv_8, false) = Ok (f', true) /\
     rewritten_at Examples.sdiv_8 f' 0 []
       [BinaryOperator shifted LShr (Argument 0) (ConstantInt 3)]
       [BinaryOperator 2 Add (InstRef 1) (InstRef 1)] 1 (InstRef shifted)) /\
  (exists f' shifted,
     ~ In shifted (all_ids Examples.udiv_8) /\
     TestPass.StrengthReductionPass.visit 32
       (BinaryOperator 1 UDiv (Argument 0) (ConstantInt 8))
       (Examples.udiv_8, false) = Ok (f', true) /\
     rewritten_at Examples.udiv_8 f' 0 []
       [BinaryOperator shifted LShr (Argument 0) (ConstantInt 3)]
       [BinaryOperator 2 Add (InstRef 1) (InstRef 1)] 1 (InstRef shifted)) /\
  (exists f' v,
     v = Sem.ConstantFold 32 LShr (ConstantInt 40) (ConstantInt 3) /\
     isConstant v = true /\
     TestPass.StrengthReductionPass.visit 32
       (BinaryOperator 1 UDiv (ConstantInt 40) (ConstantInt 8))
       (Examples.udiv_40_8, false) = Ok (f', true) /\
     rewritten_at Examples.udiv_40_8 f' 0 [] []
       [BinaryOperator 2 Add (InstRef 1) (InstRef 1)] 1 v) /\
  (exists f' shifted,
     ~ In shifted (all_ids Examples.sdiv_8) /\
     Part000.StrengthReductionPass.visit
       (BinaryOperator 1 SDiv (Argument 0) (ConstantInt 8)) Examples.sdiv_8
       = Ok f' /\
     rewritten_at Examples.sdiv_8 f' 0 []
       [BinaryOperator shifted AShr (Argument 0) (ConstantInt 3)]
       [BinaryOperator 2 Add (InstRef 1) (InstRef 1)] 1 (InstRef shifted)) /\
  Sem.eval_binop 32 UDiv 100 8 = Sem.eval_binop 32 LShr 100 3 /\
  Sem.eval_binop 32 SDiv 100 8 = Sem.eval_binop 32 LShr 100 3 /\
  Sem.eval_binop 32 SDiv 100 8 = Sem.eval_binop 32 AShr 100 3.
Proof.
  destruct (@StrengthReduction_div_8_becomes_shift
              32 32 100 2 Examples.sdiv_8 Examples.sdiv_8
              (Examples.sdiv_8, false) 0 []
              [BinaryOperator 2 Add (InstRef 1) (InstRef 1)]
              1 SDiv (Argument 0) (ConstantInt 8))
    as (H0 & P0 & H1 & _ & H2 & _ & H4 & H5 & _).
  destruct (@StrengthReduction_div_8_becomes_shift
              32 32 100 2 Examples.udiv_8 Examples.udiv_8
              (Examples.udiv_8, false) 0 []
              [BinaryOperator 2 Add (InstRef 1) (InstRef 1)]
              1 UDiv (Argument 0) (ConstantInt 8))
    as (_ & _ & U1 & _).
  destruct (@StrengthReduction_div_8_becomes_shift
              32 32 100 2 Examples.udiv_40_8 Examples.udiv_40_8
              (Examples.udiv_40_8, false) 0 []
              [BinaryOperator 2 Add (InstRef 1) (InstRef 1)]
              1 UDiv (ConstantInt 40) (ConstantInt 8))
    as (_ & _ & _ & K & _).
  split; [|split; [|split; [|split; [|split; [|split; [|split]]]]]].
  - apply H0.
    + apply nodupb_NoDup. vm_compute. reflexivity.
    + apply ssa_orderb_sound. vm_compute. reflexivity.
    + vm_compute. lia.
  - apply P0.
    + apply nodupb_NoDup. vm_compute. reflexivity.
    + vm_compute. lia.
  - apply H1.
    + apply nodupb_NoDup. vm_compute. reflexivity.
    + reflexivity.
    + left. reflexivity.
    + reflexivity.
  - apply U1.
    + apply nodupb_NoDup. vm_compute. reflexivity.
    + reflexivity.
    + right. reflexivity.
    + reflexivity.
  - apply K.
    + apply nodupb_NoDup. vm_compute. reflexivity.
    + reflexivity.
    + right. reflexivity.
    + reflexivity.
  - apply H2.
    + apply nodupb_NoDup. vm_compute. reflexivity.
    + reflexivity.
  - apply H4. lia.
  - apply H5; [lia|]. split; [lia|]. vm_compute. reflexivity.
Defined.


(** C8 at [%3 = lshr %x, 3; %2 = add %3, %3], in which nothing is left for
    any pass, and at two runs in a row on [%1 = mul %x, 15; %2 = add %1, %1]. *)
Lemma second_run_rewrites_nothing_witness :
  (TestPass.AlgebraicIdentityPass.run 2 Examples.udiv_8_after
     = Ok (Examples.udiv_8_after, PA_all) /\
   TestPass.StrengthReductionPass.run 32 2 Examples.udiv_8_after
     = Ok (Examples.udiv_8_after, PA_all) /\
   TestPass.MultiInstructionOptPass.run 2 Examples.udiv_8_after
     = Ok (Examples.udiv_8_after, PA_all) /\
   Part000.AlgebraicIdentityPass.run 2 Examples.udiv_8_after
     = Ok (Examples.udiv_8_after, PA_none) /\
   Part000.StrengthReductionPass.run 2 Examples.udiv_8_after
     = Ok (Examples.udiv_8_after, PA_none) /\
   Part000.MultiInstructionOptimizationPass.run 2 Examples.udiv_8_after
     = Ok (Examples.udiv_8_after, PA_none)) /\
  ((exists F' pa,
      TestPass.StrengthReductionPass.run 32 2 Examples.mul_15 = Ok (F', pa) /\
      (length (all_ids F') <= 3 ->
       TestPass.StrengthReductionPass.run 32 3 F' = Ok (F', PA_all))) /\
   (exists F' pa,
      TestPass.MultiInstructionOptPass.run 2 Examples.mul_15 = Ok (F', pa) /\
      (length (all_ids F') <= 3 ->
       TestPass.MultiInstructionOptPass.run 3 F' = Ok (F', PA_all))) /\
   (exists F',
      Part000.AlgebraicIdentityPass.run 2 Examples.mul_15 = Ok (F', PA_none) /\
      (length (all_ids F') <= 3 ->
       Part000.AlgebraicIdentityPass.run 3 F' = Ok (F', PA_none))) /\
   (exists F',
      Part000.StrengthReductionPass.run 2 Examples.mul_15 = Ok (F', PA_none) /\
      (length (all_ids F') <= 3 ->
       Part000.StrengthReductionPass.run 3 F' = Ok (F', PA_none)))) /\
  (exists F',
     Part000.MultiInstructionOptimizationPass.run 2 Examples.mul_15
       = Ok (F', PA_none) /\
     (length (all_ids F') <= 3 ->
      Part000.MultiInstructionOptimizationPass.run 3 F' = Ok (F', PA_none))).
Proof.
  assert (Hnd : NoDup (all_ids Examples.udiv_8_after))
    by (apply nodupb_NoDup; vm_compute; reflexivity).
  assert (Hlen : length (all_ids Examples.udiv_8_after) <= 2)
    by (vm_compute; lia).
  destruct (@second_run_rewrites_nothing 32 2 3 Examples.udiv_8_after Hnd Hlen)
    as ((H1 & H2 & H3 & H4 & H5 & H6) & _).
  assert (Hnd' : NoDup (all_ids Examples.mul_15))
    by (apply nodupb_NoDup; vm_compute; reflexivity).
  assert (Hlen' : length (all_ids Examples.mul_15) <= 2) by (vm_compute; lia).
  assert (Hssa : ssa_order Examples.mul_15)
    by (apply ssa_orderb_sound; vm_compute; reflexivity).
  destruct (@second_run_rewrites_nothing 32 2 3 Examples.mul_15 Hnd' Hlen')
    as (_ & T & P).
  split; [|split; [exact (T Hssa) | exact P]].
  split; [apply H1; apply nothing_leftb; vm_compute; reflexivity|].
  split; [apply H2; apply nothing_leftb; vm_compute; reflexivity|].
  split; [apply H3; apply nothing_leftb; vm_compute; reflexivity|].
  split; [apply H4; apply nothing_leftb; vm_compute; reflexivity|].
  split; [apply H5; apply nothing_leftb; vm_compute; reflexivity|].
  apply H6. apply no_windowb_no_window. vm_compute. reflexivity.
Defined.

(* ------------------------------------------------------------------------- *)
(** ** The range-based scan of TestPass.cpp *)
(* ------------------------------------------------------------------------- *)

Definition scan_failure (e : error) : Prop :=
  e = DanglingIterator \/ e = SelfReplace.

Lemma not_in_function_not_in_block (f : Function) (id b : nat) :
  ~ In id (all_ids f) -> ~ In id (ids (getBlock f b)).
Proof.
  intros H Hin. apply H. rewrite getBlock_ids in Hin.
  unfold all_ids. eapply in_nth_concat; eauto.
Qed.

(** An [Add(x, 0)] or [Mul(x, 1)] met by the range-based loop ends the
    scan: either the replacement asserts, or the loop advances the
    iterator of the node it has erased. *)
Lemma range_for_loop_fails_at_match (b : nat) (s : TestPass.state) :
  NoDup (ids (getBlock (fst s) b)) ->
  forall suf pre fuel,
    getBlock (fst s) b = pre ++ suf ->
    length suf <= fuel ->
    existsb TestPass_is_identity suf = true ->
    exists e,
      range_for_loop fst TestPass.AlgebraicIdentityPass.visit fuel b (begin suf) s
      = Fail e /\ scan_failure e.
Proof.
  intros Hnd. induction suf as [|ins r IH]; intros pre fuel Hblk Hfuel Hm.
  - discriminate.
  - destruct fuel as [|fuel]; [simpl in Hfuel; lia|].
    destruct (deref_next_at pre ins r Hnd Hblk) as [Hd Hn].
    simpl. rewrite Hd. simpl.
    destruct (TestPass_is_identity ins) eqn:Hi.
    + assert (Hv : exists x,
                TestPass.AlgebraicIdentityPass.visit ins s
                = (f1 <- replaceAllUsesWith (fst s) (getId ins) x ;;
                   f2 <- eraseFromParent f1 (getId ins) ;;
                   Ok (f2, true))).
      { destruct ins as [id opc x y| |]; try discriminate.
        destruct opc; try discriminate; simpl in Hi |- *; rewrite Hi; eauto. }
      destruct Hv as (x & Hv). rewrite Hv.
      destruct (Value_eqb_spec x (InstRef (getId ins))) as [E|Hne].
      * exists SelfReplace. split; [|now right].
        unfold replaceAllUsesWith. rewrite E, Value_eqb_refl. reflexivity.
      * rewrite TestPass_replace_erase_returns by exact Hne. simpl.
        rewrite next_missing.
        -- exists DanglingIterator. split; [reflexivity | now left].
        -- apply not_in_function_not_in_block. apply replaced_and_erased_gone.
    + rewrite TestPass_AlgebraicIdentity_keeps by exact Hi. simpl.
      rewrite Hn. simpl.
      apply (IH (pre ++ [ins]) fuel).
      * now rewrite <- app_assoc.
      * simpl in Hfuel. lia.
      * simpl in Hm. now rewrite Hi in Hm.
Qed.

Lemma range_for_loop_passes (b : nat) (s : TestPass.state) (fuel : nat) :
  NoDup (ids (getBlock (fst s) b)) ->
  length (getBlock (fst s) b) <= fuel ->
  existsb TestPass_is_identity (getBlock (fst s) b) = false ->
  range_for_loop fst TestPass.AlgebraicIdentityPass.visit fuel b
    (begin (getBlock (fst s) b)) s = Ok s.
Proof.
  intros Hnd Hfuel Hm.
  apply (@quiet_range_for_loop TestPass.state fst
           TestPass.AlgebraicIdentityPass.visit b s Hnd _ []); auto.
  assert (H : forall x, In x (getBlock (fst s) b) ->
                        TestPass_is_identity x = false).
  { intros x Hx. destruct (TestPass_is_identity x) eqn:E; [|reflexivity].
    assert (existsb TestPass_is_identity (getBlock (fst s) b) = true);
      [|congruence].
    apply existsb_exists. eauto. }
  clear Hm Hfuel Hnd.
  induction (getBlock (fst s) b) as [|x r IH]; simpl; [exact Logic.I|]. split.
  - apply TestPass_AlgebraicIdentity_keeps. apply H. now left.
  - apply IH. intros y Hy. apply H. now right.
Qed.

Lemma for_blocks_fails_at_match (F : Function) (fuel : nat) :
  NoDup (all_ids F) -> length (all_ids F) <= fuel ->
  forall bs,
    (exists b, In b bs /\
               existsb TestPass_is_identity (getBlock F b) = true) ->
    exists e,
      for_blocks fst
        (range_for_loop fst TestPass.AlgebraicIdentityPass.visit fuel)
        bs (F, false) = Fail e /\ scan_failure e.
Proof.
  intros Hnd Hfuel. induction bs as [|b r IH]; intros (b0 & Hb0 & Hm).
  - destruct Hb0.
  - assert (Hlen : length (getBlock F b) <= fuel).
    { etransitivity; [|exact Hfuel].
      rewrite <- (length_map getId). apply block_length_le. }
    simpl for_blocks.
    destruct (existsb TestPass_is_identity (getBlock F b)) eqn:Hb.
    + destruct (@range_for_loop_fails_at_match b (F, false)
                  (block_NoDup F b Hnd) (getBlock F b) [] fuel
                  eq_refl Hlen Hb) as (e & He & Hs).
      exists e. simpl fst in *. rewrite He. auto.
    + pose proof (@range_for_loop_passes b (F, false) fuel
                    (block_NoDup F b Hnd) Hlen Hb) as Hp.
      simpl fst in Hp. simpl fst. rewrite Hp.
      simpl. apply IH. destruct Hb0 as [<-|Hb0]; [congruence|]. eauto.
Qed.

(** X1.  The algebraic-identity pass of TestPass.cpp returns exactly on
    the functions without [Add(x, 0)] and [Mul(x, 1)], and then returns
    its input and all analyses preserved; on every other function the
    range-based loop runs into the node it has erased (or the replacement
    of a value by itself asserts), with as many iterations as there are
    instructions or more. *)
Theorem TestPass_AlgebraicIdentity_returns_iff_nothing_matches
  (fuel : nat) (F : Function) :
  NoDup (all_ids F) ->
  length (all_ids F) <= fuel ->
  (nothing_left (fun _ => TestPass_is_identity) F ->
   TestPass.AlgebraicIdentityPass.run fuel F = Ok (F, PA_all)) /\
  (forall ins,
     In ins (concat F) -> TestPass_is_identity ins = true ->
     exists e,
       TestPass.AlgebraicIdentityPass.run fuel F = Fail e /\ scan_failure e) /\
  (forall F' pa,
     TestPass.AlgebraicIdentityPass.run fuel F = Ok (F', pa) ->
     F' = F /\ pa = PA_all /\ nothing_left (fun _ => TestPass_is_identity) F).
Proof.
  intros Hnd Hfuel.
  assert (Hfail : forall ins,
            In ins (concat F) -> TestPass_is_identity ins = true ->
            exists e,
              TestPass.AlgebraicIdentityPass.run fuel F = Fail e /\
              scan_failure e).
  { intros ins Hin Hi.
    destruct (in_concat_nth _ _ Hin) as (b & Hb & Hx).
    destruct (@for_blocks_fails_at_match F fuel Hnd Hfuel (seq 0 (length F)))
      as (e & He & Hs).
    - exists b. split; [apply in_seq; split; [apply Nat.le_0_l | exact Hb]|].
      apply existsb_exists. exists ins. split; [exact Hx | exact Hi].
    - exists e. split; [|exact Hs].
      unfold TestPass.AlgebraicIdentityPass.run, for_each_block. simpl fst.
      now rewrite He. }
  split; [|split].
  - now apply TestPass_AlgebraicIdentity_nothing_left.
  - exact Hfail.
  - intros F' pa Hrun.
    destruct (@TestPass_AlgebraicIdentity_returns_unchanged fuel F F' pa Hnd Hrun)
      as [-> ->].
    split; [reflexivity|]. split; [reflexivity|].
    intros x Hx. destruct (TestPass_is_identity x) eqn:E; [|reflexivity].
    destruct (Hfail x Hx E) as (e & He & _). congruence.
Qed.

Lemma TestPass_AlgebraicIdentity_returns_iff_nothing_matches_witness :
  exists e,
    TestPass.AlgebraicIdentityPass.run 2 Examples.add_zero = Fail e /\
    scan_failure e.
Proof.
  destruct (@TestPass_AlgebraicIdentity_returns_iff_nothing_matches
              2 Examples.add_zero) as (_ & H & _).
  - apply nodupb_NoDup. vm_compute. reflexivity.
  - vm_compute. lia.
  - apply (H (BinaryOperator 1 Add (Argument 0) (ConstantInt 0))).
    + simpl. left. reflexivity.
    + reflexivity.
Defined.

(* ------------------------------------------------------------------------- *)
(** ** Execution before and after a rewrite *)
(* ------------------------------------------------------------------------- *)

(** The instructions of the function are executed in layout order, block
    after block (the model has no branch), from a machine that holds the
    values computed so far. *)

Section Execution.

Import Sem.
Local Open Scope Z_scope.

Variable bits : Z.
Variable args : nat -> Z.
Hypothesis bits_pos : 0 < bits.

(** Registers and memory cells hold integers of the type. *)
Definition in_range (m : machine) : Prop :=
  (forall k z, lookup_reg (regs m) k = Some z -> 0 <= z < 2 ^ bits) /\
  (forall a z, lookup_mem (mem m) a = Some z -> 0 <= z < 2 ^ bits).

Lemma wrap_range (z : Z) : 0 <= wrap bits z < 2 ^ bits.
Proof. unfold wrap. apply Z.mod_pos_bound. apply Z.pow_pos_nonneg; lia. Qed.

Lemma wrap_small (z : Z) : 0 <= z < 2 ^ bits -> wrap bits z = z.
Proof. intros H. unfold wrap. now apply Z.mod_small. Qed.

Lemma eval_value_range (m : machine) (v : Value) (z : Z) :
  in_range m -> eval_value bits args m v = Some z -> 0 <= z < 2 ^ bits.
Proof.
  intros [Hr _]. destruct v as [c| |n|k]; simpl; intros H.
  - injection H as <-. apply wrap_range.
  - discriminate.
  - injection H as <-. apply wrap_range.
  - eauto.
Qed.

Lemma eval_binop_range (opc : BinaryOps) (x y z : Z) :
  0 <= x < 2 ^ bits -> 0 <= y < 2 ^ bits ->
  eval_binop bits opc x y = Some z -> 0 <= z < 2 ^ bits.
Proof.
  intros Hx Hy. destruct opc; simpl; intros H;
    try (injection H as <-; apply wrap_range).
  - destruct (y =? 0); [discriminate|].
    destruct ((signed bits x =? - 2 ^ (bits - 1)) && (signed bits y =? -1));
      [discriminate|].
    injection H as <-. apply wrap_range.
  - destruct (Z.eqb_spec y 0); [discriminate|]. injection H as <-. split.
    + apply Z.div_pos; lia.
    + apply Z.le_lt_trans with x; [|lia]. apply Z.div_le_upper_bound; nia.
  - destruct (y <? bits); [|discriminate]. injection H as <-. apply wrap_range.
  - destruct (y <? bits); [|discriminate]. injection H as <-.
    rewrite Z.shiftr_div_pow2 by lia.
    assert (0 < 2 ^ y) by (apply Z.pow_pos_nonneg; lia). split.
    + apply Z.div_pos; lia.
    + apply Z.le_lt_trans with x; [|lia]. apply Z.div_le_upper_bound; nia.
  - destruct (y <? bits); [|discriminate]. injection H as <-. apply wrap_range.
Qed.

Lemma exec_inst_range (m m' : machine) (ins : Instruction) :
  in_range m -> exec_inst bits args m ins = Some m' -> in_range m'.
Proof.
  intros Hm. assert (Hm' := Hm). destruct Hm' as [Hr Hmem].
  destruct ins as [id opc a b|id v p|id p]; simpl.
  - destruct (eval_value bits args m a) as [x|] eqn:Ea; [|discriminate].
    destruct (eval_value bits args m b) as [y|] eqn:Eb; [|discriminate].
    destruct (eval_binop bits opc x y) as [z|] eqn:Ez; [|discriminate].
    intros [= <-]. split; [|exact Hmem]. simpl. intros k z0.
    destruct (Nat.eqb id k); [|apply Hr]. intros [= <-].
    eapply eval_binop_range; [| |exact Ez]; eapply eval_value_range; eauto.
  - destruct (eval_value bits args m v) as [x|] eqn:Ea; [|discriminate].
    destruct (eval_value bits args m p) as [y|] eqn:Eb; [|discriminate].
    intros [= <-]. split; [exact Hr|]. simpl. intros k z0.
    destruct (y =? k); [|apply Hmem]. intros [= <-].
    eapply eval_value_range; eauto.
  - destruct (eval_value bits args m p) as [y|] eqn:Eb; [|discriminate].
    destruct (lookup_mem (mem m) y) as [x|] eqn:Ex; [|discriminate].
    intros [= <-]. split; [|exact Hmem]. simpl. intros k z0.
    destruct (Nat.eqb id k); [|apply Hr]. intros [= <-]. eauto.
Qed.

Lemma exec_block_range (bb : list Instruction) :
  forall m m',
    in_range m -> exec_block bits args bb m = Some m' -> in_range m'.
Proof.
  induction bb as [|ins r IH]; simpl; intros m m' Hm H.
  - now injection H as <-.
  - destruct (exec_inst bits args m ins) as [m1|] eqn:E; [|discriminate].
    eapply IH; [|exact H]. eapply exec_inst_range; eauto.
Qed.

Lemma exec_block_app (A B : list Instruction) :
  forall m,
    exec_block bits args (A ++ B) m
    = match exec_block bits args A m with
      | Some m' => exec_block bits args B m'
      | None => None
      end.
Proof.
  induction A as [|ins r IH]; simpl; intros m; [reflexivity|].
  destruct (exec_inst bits args m ins); [apply IH | reflexivity].
Qed.

(** An instruction writes the register of its own identity at most. *)
Lemma exec_inst_regs (m m' : machine) (ins : Instruction) (k : nat) :
  exec_inst bits args m ins = Some m' -> k <> getId ins ->
  lookup_reg (regs m') k = lookup_reg (regs m) k.
Proof.
  destruct ins as [id opc a b|id v p|id p]; simpl; intros H Hk.
  - destruct (eval_value bits args m a); [|discriminate].
    destruct (eval_value bits args m b); [|discriminate].
    destruct (eval_binop bits opc z z0); [|discriminate].
    injection H as <-. simpl.
    destruct (Nat.eqb_spec id k); [congruence | reflexivity].
  - destruct (eval_value bits args m v); [|discriminate].
    destruct (eval_value bits args m p); [|discriminate].
    now injection H as <-.
  - destruct (eval_value bits args m p); [|discriminate].
    destruct (lookup_mem (mem m) z); [|discriminate].
    injection H as <-. simpl.
    destruct (Nat.eqb_spec id k); [congruence | reflexivity].
Qed.

Lemma exec_block_regs (bb : list Instruction) (k : nat) :
  forall m m',
    exec_block bits args bb m = Some m' -> ~ In k (ids bb) ->
    lookup_reg (regs m') k = lookup_reg (regs m) k.
Proof.
  induction bb as [|ins r IH]; simpl; intros m m' H Hk.
  - now injection H as <-.
  - destruct (exec_inst bits args m ins) as [m1|] eqn:E; [|discriminate].
    rewrite (IH m1 m' H) by tauto.
    eapply exec_inst_regs; eauto.
Qed.

(** A value keeps what it evaluates to while the instruction it refers to is
    not executed again. *)
Lemma eval_value_regs (m m' : machine) (v : Value) :
  (forall k, v = InstRef k -> lookup_reg (regs m') k = lookup_reg (regs m) k) ->
  eval_value bits args m' v = eval_value bits args m v.
Proof. destruct v; simpl; auto. Qed.

(** *** The instructions after the rewritten one *)

(** [m1] belongs to the function before the rewrite, [m2] to the function
    after it: the register [id] of the first is the value [v] of the second,
    and the registers outside [id] and [hidden] are the same. *)
Definition agree (id : nat) (v : Value) (hidden : list nat)
  (m1 m2 : machine) : Prop :=
  mem m2 = mem m1 /\
  (forall k, k <> id -> ~ In k hidden ->
             lookup_reg (regs m2) k = lookup_reg (regs m1) k) /\
  eval_value bits args m2 v = lookup_reg (regs m1) id.

Lemma agree_eval (id : nat) (v : Value) (hidden : list nat)
  (m1 m2 : machine) (o : Value) :
  agree id v hidden m1 m2 ->
  (forall j, o = InstRef j -> ~ In j hidden) ->
  eval_value bits args m2 (subst id v o) = eval_value bits args m1 o.
Proof.
  intros (_ & Hr & Hv) Ho. destruct o as [c| |n|j]; try reflexivity.
  simpl. destruct (Nat.eqb_spec j id) as [->|Hne]; [exact Hv|].
  simpl. apply Hr; auto.
Qed.

Lemma agree_write (id : nat) (v : Value) (hidden : list nat)
  (m1 m2 : machine) (j : nat) (z : Z) :
  agree id v hidden m1 m2 -> j <> id -> v <> InstRef j ->
  agree id v hidden
    {| regs := (j, z) :: regs m1; mem := mem m1 |}
    {| regs := (j, z) :: regs m2; mem := mem m2 |}.
Proof.
  intros (Hm & Hr & Hv) Hj Hvj. split; [exact Hm|]. split.
  - intros k Hk Hh. simpl. destruct (Nat.eqb j k); auto.
  - simpl. destruct (Nat.eqb_spec j id); [contradiction|].
    rewrite <- Hv. apply eval_value_regs. intros k ->. simpl.
    destruct (Nat.eqb_spec j k); [congruence | reflexivity].
Qed.

Lemma exec_inst_subst (id : nat) (v : Value) (hidden : list nat)
  (m1 m2 m1' : machine) (i : Instruction) :
  agree id v hidden m1 m2 ->
  getId i <> id -> v <> InstRef (getId i) ->
  (forall j, In (InstRef j) (operand_values i) -> ~ In j hidden) ->
  exec_inst bits args m1 i = Some m1' ->
  exists m2',
    exec_inst bits args m2 (mapOperands (subst id v) i) = Some m2' /\
    agree id v hidden m1' m2'.
Proof.
  intros Ha Hi Hv Ho.
  assert (He : forall o, In o (operand_values i) ->
                 eval_value bits args m2 (subst id v o)
                 = eval_value bits args m1 o).
  { intros o Hin. apply (@agree_eval id v hidden m1 m2 o Ha). intros j ->. now apply Ho. }
  destruct i as [j opc a b|j x p|j p]; simpl in *.
  - rewrite !He by auto.
    destruct (eval_value bits args m1 a); [|discriminate].
    destruct (eval_value bits args m1 b); [|discriminate].
    destruct (eval_binop bits opc z z0); [|discriminate].
    intros [= <-]. eexists. split; [reflexivity|]. now apply agree_write.
  - rewrite !He by auto.
    destruct (eval_value bits args m1 x); [|discriminate].
    destruct (eval_value bits args m1 p); [|discriminate].
    intros [= <-]. eexists. split; [reflexivity|].
    destruct Ha as (Hm & Hr & Hval). split; [simpl; now rewrite Hm|].
    split; [exact Hr | exact Hval].
  - rewrite !He by auto.
    destruct (eval_value bits args m1 p); [|discriminate].
    destruct Ha as (Hm & Hr & Hval). rewrite Hm.
    destruct (lookup_mem (mem m1) z) as [x0|]; [|discriminate].
    intros [= <-]. eexists. split; [reflexivity|].
    assert (W := @agree_write id v hidden m1 m2 j x0
                   (conj Hm (conj Hr Hval)) Hi Hv).
    rewrite Hm in W. exact W.
Qed.

Lemma exec_block_subst (id : nat) (v : Value) (hidden : list nat)
  (B : list Instruction) :
  (forall i, In i B ->
     getId i <> id /\ v <> InstRef (getId i) /\
     forall j, In (InstRef j) (operand_values i) -> ~ In j hidden) ->
  forall m1 m2 m1',
    agree id v hidden m1 m2 ->
    exec_block bits args B m1 = Some m1' ->
    exists m2',
      exec_block bits args (map (mapOperands (subst id v)) B) m2 = Some m2' /\
      agree id v hidden m1' m2'.
Proof.
  induction B as [|i r IH]; intros HB m1 m2 m1' Ha H; simpl in *.
  - injection H as <-. eauto.
  - destruct (exec_inst bits args m1 i) as [m1a|] eqn:E; [|discriminate].
    destruct (HB i (or_introl eq_refl)) as (H1 & H2 & H3).
    destruct (@exec_inst_subst id v hidden m1 m2 m1a i Ha H1 H2 H3 E)
      as (m2a & E2 & Ha2).
    rewrite E2. apply (IH (fun i0 Hi0 => HB i0 (or_intror Hi0)) _ _ _ Ha2 H).
Qed.

(** *** One rewrite *)

Lemma defs_before_uses_refs (L : list Instruction) :
  forall seen i j,
    defs_before_uses seen L -> In i L ->
    In (InstRef j) (operand_values i) -> In j seen \/ In j (ids L).
Proof.
  induction L as [|x r IH]; intros seen i j H Hi Hj; [destruct Hi|].
  destruct H as [H1 H2]. destruct Hi as [->|Hi].
  - left. now apply H1.
  - destruct (IH _ i j H2 Hi Hj) as [[<-|Hs]|Hr]; simpl; auto.
Qed.

(** The instruction [ins] gives way to the instructions [new] and to the
    value [v]: whatever the layout before the rewrite computes, the layout
    after it computes, the registers of [ins] and of [new] apart. *)
Lemma rewrite_preserves (A B new : list Instruction) (ins : Instruction)
  (v : Value) :
  NoDup (ids (A ++ ins :: B)) ->
  defs_before_uses [] (A ++ ins :: B) ->
  (forall k, In k (ids new) -> ~ In k (ids (A ++ ins :: B))) ->
  (forall j, v = InstRef j -> In j (ids A) \/ In j (ids new)) ->
  (forall m0 m m1,
      in_range m0 -> exec_block bits args A m0 = Some m ->
      exec_inst bits args m ins = Some m1 ->
      exists m2, exec_block bits args new m = Some m2 /\
                 agree (getId ins) v (ids new) m1 m2) ->
  forall m0 m1,
    in_range m0 ->
    exec_block bits args (A ++ ins :: B) m0 = Some m1 ->
    exists m2,
      exec_block bits args
        (A ++ new ++ map (mapOperands (subst (getId ins) v)) B) m0 = Some m2 /\
      mem m2 = mem m1 /\
      forall k, ~ In k (getId ins :: ids new) ->
                lookup_reg (regs m2) k = lookup_reg (regs m1) k.
Proof.
  intros Hnd Hord Hnew Hv Hfront m0 m1 Hm0 Hex.
  rewrite exec_block_app in Hex.
  destruct (exec_block bits args A m0) as [m|] eqn:EA; [|discriminate].
  simpl in Hex.
  destruct (exec_inst bits args m ins) as [ma|] eqn:Ei; [|discriminate].
  destruct (Hfront m0 m ma Hm0 EA Ei) as (mb & En & Hag).
  assert (Hn := Hnd). rewrite ids_app in Hn. simpl in Hn.
  apply NoDup_app_head in Hn. destruct Hn as [HiA HiB].
  destruct (@exec_block_subst (getId ins) v (ids new) B) with
    (m1 := ma) (m2 := mb) (m1' := m1) as (m2 & E2 & Hag2); auto.
  - intros i Hi. split; [|split].
    + intros E. apply HiB. rewrite <- E. now apply in_map.
    + intros ->. destruct (Hv _ eq_refl) as [Hj|Hj].
      * rewrite ids_app in Hnd.
        apply (@NoDup_app_disjoint _ _ _ (getId i) Hnd Hj).
        right. now apply in_map.
      * apply (Hnew _ Hj). rewrite ids_app. apply in_or_app. right. right.
        now apply in_map.
    + intros j Hj Hh. apply (Hnew _ Hh).
      destruct (@defs_before_uses_refs _ [] i j Hord) as [[]|H]; auto.
      apply in_or_app. right. now right.
  - exists m2. rewrite exec_block_app, EA, exec_block_app, En.
    split; [exact E2|]. destruct Hag2 as (Hmem & Hr & _).
    split; [exact Hmem|]. intros k Hk. apply Hr; simpl in Hk; intuition congruence.
Qed.

(** *** The function before and after *)

(** Whatever the layout of [F] computes from a machine, the layout of [f]
    computes from it: the same memory, and the same registers outside
    [hidden]. *)
Definition refines (hidden : list nat) (F f : Function) : Prop :=
  forall m0 m1,
    in_range m0 -> exec_block bits args (concat F) m0 = Some m1 ->
    exists m2,
      exec_block bits args (concat f) m0 = Some m2 /\
      mem m2 = mem m1 /\
      forall k, ~ In k hidden ->
                lookup_reg (regs m2) k = lookup_reg (regs m1) k.

Lemma refines_refl (F : Function) : refines [] F F.
Proof. intros m0 m1 _ H. exists m1. auto. Qed.

Lemma refines_trans (H1 H2 : list nat) (F f f' : Function) :
  refines H1 F f -> refines H2 f f' -> refines (H1 ++ H2) F f'.
Proof.
  intros R1 R2 m0 m1 Hm0 Hex.
  destruct (R1 m0 m1 Hm0 Hex) as (m2 & E2 & Hmem2 & Hr2).
  destruct (R2 m0 m2 Hm0 E2) as (m3 & E3 & Hmem3 & Hr3).
  exists m3. split; [exact E3|]. split; [congruence|].
  intros k Hk. rewrite Hr3, Hr2; auto; intros Hin; apply Hk; apply in_or_app; auto.
Qed.

Lemma layout_refines (f f' : Function) (A B new : list Instruction)
  (ins : Instruction) (v : Value) :
  NoDup (all_ids f) -> ssa_order f ->
  concat f = A ++ ins :: B ->
  concat f' = A ++ new ++ map (mapOperands (subst (getId ins) v)) B ->
  (forall k, In k (ids new) -> ~ In k (all_ids f)) ->
  (forall j, v = InstRef j -> In j (ids A) \/ In j (ids new)) ->
  (forall m0 m m1,
      in_range m0 -> exec_block bits args A m0 = Some m ->
      exec_inst bits args m ins = Some m1 ->
      exists m2, exec_block bits args new m = Some m2 /\
                 agree (getId ins) v (ids new) m1 m2) ->
  refines (getId ins :: ids new) f f'.
Proof.
  intros Hnd Hssa Hsplit Hsplit' Hnew Hv Hfront m0 m1 Hm0 Hex.
  rewrite all_ids_flat in Hnd, Hnew. fold (ids (concat f)) in Hnd, Hnew.
  unfold ssa_order in Hssa. rewrite Hsplit in Hnd, Hssa, Hnew, Hex.
  rewrite Hsplit'.
  exact (@rewrite_preserves A B new ins v Hnd Hssa Hnew Hv Hfront m0 m1 Hm0 Hex).
Qed.

(** *** What the rewrites compute *)

Lemma wrap_0 : wrap bits 0 = 0.
Proof. apply wrap_small. split; [lia|]. apply Z.pow_pos_nonneg; lia. Qed.

Lemma pow2_bits_ge (n : Z) : 0 <= n <= bits -> 2 ^ n <= 2 ^ bits.
Proof. intros H. apply Z.pow_le_mono_r; lia. Qed.

Lemma wrap_1 : wrap bits 1 = 1.
Proof.
  apply wrap_small. assert (H := @pow2_bits_ge 1). change (2 ^ 1) with 2 in H. lia.
Qed.

Lemma exec_binop_inv (id : nat) (opc : BinaryOps) (a b : Value)
  (m m1 : machine) :
  exec_inst bits args m (BinaryOperator id opc a b) = Some m1 ->
  exists x y z,
    eval_value bits args m a = Some x /\
    eval_value bits args m b = Some y /\
    eval_binop bits opc x y = Some z /\
    m1 = {| regs := (id, z) :: regs m; mem := mem m |}.
Proof.
  simpl. destruct (eval_value bits args m a) as [x|]; [|discriminate].
  destruct (eval_value bits args m b) as [y|]; [|discriminate].
  destruct (eval_binop bits opc x y) as [z|] eqn:E; [|discriminate].
  intros [= <-]. exists x, y, z. auto.
Qed.

Lemma exec_binop_intro (id : nat) (opc : BinaryOps) (a b : Value)
  (m : machine) (x y z : Z) :
  eval_value bits args m a = Some x ->
  eval_value bits args m b = Some y ->
  eval_binop bits opc x y = Some z ->
  exec_inst bits args m (BinaryOperator id opc a b)
  = Some {| regs := (id, z) :: regs m; mem := mem m |}.
Proof. simpl. now intros -> -> ->. Qed.

(** The machine after [id] has been given the value [z], and a machine in
    which [v] has this value. *)
Lemma agree_front (id : nat) (v : Value) (hidden : list nat)
  (m m2 : machine) (z : Z) :
  mem m2 = mem m ->
  (forall k, ~ In k hidden -> lookup_reg (regs m2) k = lookup_reg (regs m) k) ->
  eval_value bits args m2 v = Some z ->
  agree id v hidden {| regs := (id, z) :: regs m; mem := mem m |} m2.
Proof.
  intros Hm Hr Hv. split; [exact Hm|]. split.
  - intros k Hk Hh. simpl. destruct (Nat.eqb_spec id k); [congruence|].
    now apply Hr.
  - simpl. now rewrite Nat.eqb_refl.
Qed.

(** [x + 0], [0 + x], [x * 1], [1 * x] are [x]. *)
Lemma identity_front (ins : Instruction) (m m1 : machine) :
  is_identity ins = true -> in_range m ->
  exec_inst bits args m ins = Some m1 ->
  agree (getId ins) (other_operand ins) [] m1 m.
Proof.
  intros Hid Hm Hex.
  destruct ins as [id opc a b| |]; try discriminate.
  apply exec_binop_inv in Hex.
  destruct Hex as (x & y & z & Ex & Ey & Ez & ->).
  assert (Hx := eval_value_range _ Hm Ex).
  assert (Hy := eval_value_range _ Hm Ey).
  apply agree_front; auto. simpl in Hid |- *.
  destruct opc; try discriminate; simpl in Ez; injection Ez as <-.
  - destruct (equalsInt b 0) eqn:Eb.
    + apply equalsInt_true in Eb. subst b. simpl in Ey. injection Ey as <-.
      rewrite wrap_0, Z.add_0_r, wrap_small; auto.
    + simpl in Hid. apply equalsInt_true in Hid. subst a. simpl in Ex.
      injection Ex as <-. rewrite wrap_0, Z.add_0_l, wrap_small; auto.
  - destruct (equalsInt b 1) eqn:Eb.
    + apply equalsInt_true in Eb. subst b. simpl in Ey. injection Ey as <-.
      rewrite wrap_1, Z.mul_1_r, wrap_small; auto.
    + simpl in Hid. apply equalsInt_true in Hid. subst a. simpl in Ex.
      injection Ex as <-. rewrite wrap_1, Z.mul_1_l, wrap_small; auto.
Qed.

End Execution.

(** *** A property every visit keeps *)

Section ScanKeeps.

Variable St : Type.
Variable fn : St -> Function.
Variable body : nat -> iterator -> Instruction -> St -> outcome St.
Variable m : Function -> Instruction -> bool.
Variable P : Function -> Prop.

Hypothesis body_ids :
  forall b it ins s s',
    NoDup (all_ids (fn s)) -> In (getId ins) (all_ids (fn s)) ->
    body b it ins s = Ok s' ->
    ids_step (getId ins) (fn s) (fn s').

Hypothesis body_settles :
  forall b it ins s s' V,
    settled m (getId ins :: V) (fn s) -> In ins (concat (fn s)) ->
    body b it ins s = Ok s' -> settled m V (fn s').

Hypothesis body_keeps :
  forall b it ins s s' A B,
    NoDup (all_ids (fn s)) -> ssa_order (fn s) ->
    concat (fn s) = A ++ ins :: B ->
    P (fn s) -> body b it ins s = Ok s' -> P (fn s').

Lemma visit_blocks_keeps (s s' : St) :
  NoDup (all_ids (fn s)) -> ssa_order (fn s) -> P (fn s) ->
  visit_blocks fn body (map ids (fn s)) (seq 0 (length (fn s))) s = Ok s' ->
  P (fn s').
Proof.
  intros Hnd Hssa HP Hv.
  apply (@visit_blocks_settles St fn body
           (fun V s0 => settled m V (fn s0) /\ P (fn s0)))
    with (L0 := map ids (fn s)) (bs := seq 0 (length (fn s))) (s := s).
  - intros V s0 H. apply H.
  - exact body_ids.
  - intros b ins s0 s1 V p rest [HI HP0] Hin _ Hb.
    assert (Hc : In ins (concat (fn s0))) by (eapply in_getBlock; eauto).
    split; [eapply body_settles; eauto|].
    destruct (@settled_head m V (fn s0) ins HI Hc) as (A & B & Hsplit & _).
    destruct HI as (Hnd0 & Hssa0 & _).
    exact (@body_keeps b _ ins s0 s1 A B Hnd0 Hssa0 Hsplit HP0 Hb).
  - apply seq_NoDup.
  - split; [|exact HP].
    rewrite <- (length_map ids (fn s)), map_nth_seq. now apply settled_start.
  - intros b _. apply getBlock_ids.
  - exact Hv.
Qed.

End ScanKeeps.

(** *** The algebraic-identity pass of part_000 *)

(** The hidden registers are those of instructions that are gone. *)
Definition refines_survivors (bits : Z) (args : nat -> Z) (F f : Function)
  : Prop :=
  exists hidden,
    refines bits args hidden F f /\
    forall k, In k hidden -> ~ In k (all_ids f).

Lemma refines_survivors_erase (bits : Z) (args : nat -> Z)
  (F f : Function) (id : nat) (v : Value) :
  refines_survivors bits args F f ->
  refines bits args [id] f (replaced_and_erased f id v) ->
  refines_survivors bits args F (replaced_and_erased f id v).
Proof.
  intros (hidden & R & Hh) R1. exists (hidden ++ [id]). split.
  - eapply refines_trans; eauto.
  - intros k Hk Hin. apply all_ids_replaced_and_erased in Hin.
    destruct Hin as [Hin Hne]. apply in_app_or in Hk.
    destruct Hk as [Hk|[Hk|[]]]; [now apply (Hh k) | congruence].
Qed.

Lemma Part000_AlgebraicIdentity_visit_refines (bits : Z) (args : nat -> Z)
  (F f f' : Function) (A B : list Instruction) (ins : Instruction) :
  (0 < bits)%Z ->
  NoDup (all_ids f) -> ssa_order f -> concat f = A ++ ins :: B ->
  refines_survivors bits args F f ->
  Part000.AlgebraicIdentityPass.visit ins f = Ok f' ->
  refines_survivors bits args F f'.
Proof.
  intros Hbits Hnd Hssa Hsplit HP Hv.
  rewrite Part000_AlgebraicIdentity_visit_identity in Hv.
  destruct (is_identity ins) eqn:Hid; [|now injection Hv as <-].
  apply replace_erase_value in Hv. destruct Hv as [_ ->].
  assert (Hx : forall j, other_operand ins = InstRef j -> In j (ids A)).
  { intros j Hj. apply (@ssa_order_operand f A B ins j Hssa Hsplit).
    rewrite <- Hj. now apply other_operand_in. }
  destruct (@settled_erase (fun _ _ => false) (ids B) f A B ins
              (other_operand ins) Hnd Hssa Hsplit eq_refl Hx
              (fun _ _ => eq_refl)) as (Hc & _).
  apply refines_survivors_erase; [exact HP|].
  apply (@layout_refines bits args f _ A B [] ins (other_operand ins)
           Hnd Hssa Hsplit Hc).
  - intros k [].
  - intros j Hj. left. now apply Hx.
  - intros m0 m m1 Hm0 EA Ei. exists m. split; [reflexivity|].
    apply identity_front; auto. eapply exec_block_range; eauto.
Qed.

(** X2.  The algebraic-identity pass of part_000 keeps what the function
    computes.  On a function whose instructions are distinct and defined
    before they are used the run returns, and whenever the instructions of
    the function, executed in layout order from a machine whose registers
    and memory hold integers of the type, reach a machine, so do the
    instructions of the returned function: with the same memory, and the
    same result for every instruction that is left. *)
Theorem Part000_AlgebraicIdentity_preserves_execution
  (bits : Z) (args : nat -> Z) (fuel : nat) (F : Function) :
  (0 < bits)%Z ->
  NoDup (all_ids F) -> ssa_order F -> length (all_ids F) <= fuel ->
  exists F',
    Part000.AlgebraicIdentityPass.run fuel F = Ok (F', PA_none) /\
    forall m0 m1,
      in_range bits m0 ->
      Sem.exec_block bits args (concat F) m0 = Some m1 ->
      exists m2,
        Sem.exec_block bits args (concat F') m0 = Some m2 /\
        Sem.mem m2 = Sem.mem m1 /\
        forall k, In k (all_ids F') ->
                  Sem.lookup_reg (Sem.regs m2) k
                  = Sem.lookup_reg (Sem.regs m1) k.
Proof.
  intros Hbits Hnd Hssa Hfuel.
  destruct (@Part000_AlgebraicIdentity_returns fuel F Hnd Hssa Hfuel)
    as (F' & Hrun).
  exists F'. split; [exact Hrun|].
  destruct (@advancing_scans_visit_each_instruction_once 0%Z fuel F Hnd Hfuel)
    as (_ & _ & E & _).
  rewrite E in Hrun. apply bind_Ok in Hrun. destruct Hrun as (s & Hv & Hrep).
  injection Hrep as <-.
  assert (HP : refines_survivors bits args F s).
  { apply (@visit_blocks_keeps Function Part000.fn
             (fun _ _ => Part000.AlgebraicIdentityPass.visit)
             (fun _ => is_identity) (refines_survivors bits args F))
      with (s := F); auto.
    - intros b it ins s0 s1 _ Hi Hb. unfold Part000.fn in *.
      now apply Part000_AlgebraicIdentity_visit_ids.
    - intros b it ins s0 s1 V. apply Part000_AlgebraicIdentity_settles_visit.
    - intros b it ins s0 s1 A B. unfold Part000.fn.
      now apply Part000_AlgebraicIdentity_visit_refines.
    - exists []. split; [apply refines_refl | intros k []]. }
  destruct HP as (hidden & R & Hh). intros m0 m1 Hm0 Hex.
  destruct (R m0 m1 Hm0 Hex) as (m2 & E2 & Hmem & Hr).
  exists m2. split; [exact E2|]. split; [exact Hmem|].
  intros k Hk. apply Hr. intros Hin. now apply (Hh k).
Qed.

(** *** The strength-reduction pass of part_000 *)

Section ExecutionOfShifts.

Import Sem.
Local Open Scope Z_scope.

Variable bits : Z.
Variable args : nat -> Z.
Hypothesis bits_wide : 4 < bits.

Lemma wrap_const (c : Z) : 0 <= c < 16 -> wrap bits c = c.
Proof.
  intros H. apply wrap_small.
  assert (H16 : 2 ^ 4 <= 2 ^ bits) by (apply Z.pow_le_mono_r; lia).
  change (2 ^ 4) with 16 in H16. lia.
Qed.

(** [x * 15] and [15 * x] are [(x << 4) - x]. *)
Lemma mul_15_front (id n1 n2 : nat) (x : Value) (ins : Instruction)
  (m m1 : machine) :
  ins = BinaryOperator id Mul x (ConstantInt 15) \/
  ins = BinaryOperator id Mul (ConstantInt 15) x ->
  n1 <> n2 -> x <> InstRef n1 ->
  exec_inst bits args m ins = Some m1 ->
  exists m2,
    exec_block bits args
      [BinaryOperator n1 Shl x (ConstantInt 4);
       BinaryOperator n2 Sub (InstRef n1) x] m = Some m2 /\
    agree bits args id (InstRef n2) [n1; n2] m1 m2.
Proof.
  intros Hform Hn Hx Hex.
  assert (H : exists xv,
            eval_value bits args m x = Some xv /\
            m1 = {| regs := (id, wrap bits (xv * 15)) :: regs m;
                    mem := mem m |}).
  { destruct Hform as [-> | ->]; apply exec_binop_inv in Hex;
      destruct Hex as (a & b & z & Ea & Eb & Ez & ->); simpl in Ea, Eb, Ez.
    - injection Eb as <-. injection Ez as <-. rewrite (@wrap_const 15) by lia.
      eauto.
    - injection Ea as <-. injection Ez as <-. rewrite (@wrap_const 15) by lia.
      rewrite Z.mul_comm. eauto. }
  destruct H as (xv & Ex & ->).
  destruct (@mul_15_shift_sub bits xv bits_wide) as (sh & Esh & Esub).
  set (ma := {| regs := (n1, sh) :: regs m; mem := mem m |}).
  assert (E1 : exec_inst bits args m (BinaryOperator n1 Shl x (ConstantInt 4))
               = Some ma).
  { apply exec_binop_intro with (x := xv) (y := 4); auto.
    simpl. now rewrite (@wrap_const 4) by lia. }
  assert (E2 : exec_inst bits args ma (BinaryOperator n2 Sub (InstRef n1) x)
               = Some {| regs := (n2, wrap bits (xv * 15)) :: regs ma;
                         mem := mem ma |}).
  { apply exec_binop_intro with (x := sh) (y := xv).
    - simpl. now rewrite Nat.eqb_refl.
    - rewrite <- Ex. apply eval_value_regs. intros k ->. simpl.
      destruct (Nat.eqb_spec n1 k); [congruence | reflexivity].
    - rewrite Esub. reflexivity. }
  eexists. split.
  - cbn [exec_block]. rewrite E1, E2. reflexivity.
  - apply agree_front.
    + reflexivity.
    + intros k Hk. simpl.
      destruct (Nat.eqb_spec n2 k); [exfalso; apply Hk; simpl; auto|].
      destruct (Nat.eqb_spec n1 k); [exfalso; apply Hk; simpl; auto|].
      reflexivity.
    + simpl. now rewrite Nat.eqb_refl.
Qed.

(** A quotient by 8 and the shift by 3 that has the same value. *)
Lemma shift_front (id n : nat) (opc opc' : BinaryOps) (x : Value)
  (m m1 : machine) :
  (forall xv, eval_value bits args m x = Some xv ->
              eval_binop bits opc xv 8 = eval_binop bits opc' xv 3) ->
  exec_inst bits args m (BinaryOperator id opc x (ConstantInt 8)) = Some m1 ->
  exists m2,
    exec_block bits args [BinaryOperator n opc' x (ConstantInt 3)] m
    = Some m2 /\
    agree bits args id (InstRef n) [n] m1 m2.
Proof.
  intros Hsame Hex. apply exec_binop_inv in Hex.
  destruct Hex as (xv & b & z & Ex & Eb & Ez & ->). simpl in Eb.
  injection Eb as <-. rewrite (@wrap_const 8) in Ez by lia.
  rewrite (Hsame _ Ex) in Ez.
  eexists. split.
  - cbn [exec_block].
    rewrite (@exec_binop_intro bits args n opc' x (ConstantInt 3) m xv 3 z);
      auto.
    simpl. now rewrite (@wrap_const 3) by lia.
  - apply agree_front.
    + reflexivity.
    + intros k Hk. simpl.
      destruct (Nat.eqb_spec n k); [exfalso; apply Hk; simpl; auto|].
      reflexivity.
    + simpl. now rewrite Nat.eqb_refl.
Qed.

End ExecutionOfShifts.

(** The layout after an insertion and the erasure. *)
Lemma inserted_erased_layout (f : Function) (A B : list Instruction)
  (ins : Instruction) (opc : BinaryOps) (l r : Value) :
  NoDup (all_ids f) -> ssa_order f ->
  concat f = A ++ ins :: B ->
  (forall j, In (InstRef j) [l; r] -> In j (ids A)) ->
  let N := BinaryOperator (freshId f) opc l r in
  concat (replaced_and_erased (insertBefore f (getId ins) N)
            (getId ins) (InstRef (freshId f)))
  = A ++ [N] ++ map (mapOperands (subst (getId ins) (InstRef (freshId f)))) B.
Proof.
  intros Hnd Hssa Hsplit Hops N.
  destruct (@inserted_layout f A B ins opc l r Hnd Hssa Hsplit Hops)
    as (N1 & O1 & C1).
  destruct (@settled_erase (fun _ _ => false) (ids B) _ _ B ins
              (InstRef (freshId f)) N1 O1 C1 eq_refl) as (Hc & _).
  - intros j [= <-]. rewrite ids_app. apply in_or_app. right. now left.
  - reflexivity.
  - rewrite <- app_assoc in Hc. exact Hc.
Qed.

Lemma twice_inserted_erased_layout (f : Function) (A B : list Instruction)
  (ins : Instruction) (opc1 opc2 : BinaryOps) (l1 r1 r2 : Value) :
  NoDup (all_ids f) -> ssa_order f ->
  concat f = A ++ ins :: B ->
  (forall j, In (InstRef j) [l1; r1; r2] -> In j (ids A)) ->
  let N1 := BinaryOperator (freshId f) opc1 l1 r1 in
  let f1 := insertBefore f (getId ins) N1 in
  let N2 := BinaryOperator (freshId f1) opc2 (InstRef (freshId f)) r2 in
  ~ In (freshId f1) (all_ids f) /\
  freshId f < freshId f1 /\
  concat (replaced_and_erased (insertBefore f1 (getId ins) N2)
            (getId ins) (InstRef (freshId f1)))
  = A ++ [N1; N2]
      ++ map (mapOperands (subst (getId ins) (InstRef (freshId f1)))) B.
Proof.
  intros Hnd Hssa Hsplit Hops N1 f1 N2.
  destruct (@inserted_layout f A B ins opc1 l1 r1 Hnd Hssa Hsplit)
    as (Nd1 & O1 & C1).
  { intros j [E|[E|[]]]; apply Hops; simpl; auto. }
  fold N1 in Nd1, O1, C1. fold f1 in Nd1, O1, C1.
  destruct (@inserted_layout f1 (A ++ [N1]) B ins opc2
              (InstRef (freshId f)) r2 Nd1 O1 C1) as (Nd2 & O2 & C2).
  { intros j [E|[E|[]]]; rewrite ids_app; apply in_or_app.
    - injection E as <-. right. now left.
    - left. apply Hops. simpl. auto. }
  fold N2 in Nd2, O2, C2.
  assert (Hin1 : forall k, In k (all_ids f) -> In k (all_ids f1)).
  { intros k Hk. rewrite all_ids_flat. fold (ids (concat f1)). rewrite C1.
    rewrite all_ids_flat in Hk. fold (ids (concat f)) in Hk.
    rewrite Hsplit in Hk. rewrite !ids_app in *. simpl in *.
    apply in_app_or in Hk. apply in_or_app. destruct Hk as [Hk|Hk].
    - left. apply in_or_app. now left.
    - now right. }
  assert (HN1 : In (freshId f) (all_ids f1)).
  { rewrite all_ids_flat. fold (ids (concat f1)). rewrite C1.
    rewrite !ids_app. apply in_or_app. left. apply in_or_app. right. now left. }
  split; [|split].
  - intros H. apply (freshId_fresh f1). now apply Hin1.
  - now apply freshId_above.
  - destruct (@settled_erase (fun _ _ => false) (ids B) _ _ B ins
                (InstRef (freshId f1)) Nd2 O2 C2 eq_refl) as (Hc & _).
    + intros j [= <-]. rewrite ids_app. apply in_or_app. right. now left.
    + reflexivity.
    + rewrite <- !app_assoc in Hc. exact Hc.
Qed.

(** No signed quotient by the constant 8. *)
Definition no_sdiv_8 (f : Function) : Prop :=
  forall id a b,
    In (BinaryOperator id SDiv a b) (concat f) -> equalsInt b 8 = false.

Lemma equalsInt_subst_ref (id n : nat) (o : Value) (c : Z) :
  equalsInt (subst id (InstRef n) o) c = equalsInt o c.
Proof.
  destruct o as [| | |j]; try reflexivity. simpl.
  now destruct (Nat.eqb j id).
Qed.

Lemma no_sdiv_8_layout (f f' : Function) (A B new : list Instruction)
  (ins : Instruction) (n : nat) :
  no_sdiv_8 f ->
  concat f = A ++ ins :: B ->
  concat f' = A ++ new ++ map (mapOperands (subst (getId ins) (InstRef n))) B ->
  (forall id a b, ~ In (BinaryOperator id SDiv a b) new) ->
  no_sdiv_8 f'.
Proof.
  intros H Hsplit Hsplit' Hnew id a b Hin. rewrite Hsplit' in Hin.
  apply in_app_or in Hin. destruct Hin as [Hin|Hin].
  - apply (H id a b). rewrite Hsplit. apply in_or_app. now left.
  - apply in_app_or in Hin. destruct Hin as [Hin|Hin]; [now apply Hnew in Hin|].
    apply in_map_iff in Hin. destruct Hin as (x & Hx & HxB).
    destruct x as [i o p q| |]; try discriminate. simpl in Hx.
    injection Hx as -> -> <- <-. rewrite equalsInt_subst_ref.
    apply (H id p q). rewrite Hsplit. apply in_or_app. right. now right.
Qed.

(** The hidden registers are those of instructions that are gone for good,
    and of instructions the pass has made. *)
Definition hidden_apart (F f : Function) (hidden : list nat) : Prop :=
  (forall k, In k (all_ids F) -> In k (all_ids f) \/ In k hidden) /\
  (forall k, In k hidden -> k < freshId f) /\
  (forall k, In k hidden -> In k (all_ids F) -> ~ In k (all_ids f)).

Lemma hidden_apart_start (F : Function) : hidden_apart F F [].
Proof. split; [auto|]. split; intros k []. Qed.

Lemma hidden_apart_step (F f f' : Function) (A B : list Instruction)
  (ins : Instruction) (n1 n2 : nat) (v : Value) (N1 N2 : Instruction)
  (hidden : list nat) :
  hidden_apart F f hidden ->
  concat f = A ++ ins :: B ->
  concat f' = A ++ [N1; N2] ++ map (mapOperands (subst (getId ins) v)) B ->
  getId N1 = freshId f -> getId N2 = n2 -> freshId f < n2 ->
  ~ In (getId ins) (ids A) -> ~ In (getId ins) (ids B) ->
  hidden_apart F f' (hidden ++ [getId ins; freshId f; n2]).
Proof.
  intros (I1 & I2 & I3) Hsplit Hsplit' E1 E2 Hlt HiA HiB.
  assert (Hf : forall k, In k (all_ids f) <->
                         In k (ids A) \/ k = getId ins \/ In k (ids B)).
  { intros k. rewrite all_ids_flat. fold (ids (concat f)).
    rewrite Hsplit, ids_app. simpl. rewrite in_app_iff. simpl.
    intuition congruence. }
  assert (Hf' : forall k, In k (all_ids f') <->
                          In k (ids A) \/ k = freshId f \/ k = n2 \/
                          In k (ids B)).
  { intros k. rewrite all_ids_flat. fold (ids (concat f')).
    rewrite Hsplit', ids_app. simpl. rewrite ids_map_operands, E1, E2.
    rewrite in_app_iff. simpl. intuition congruence. }
  assert (Hid : getId ins < freshId f).
  { apply freshId_above. apply Hf. auto. }
  assert (Hn2 : n2 < freshId f').
  { apply freshId_above. apply Hf'. auto. }
  assert (Hfresh : ~ In (freshId f) (all_ids f)) by apply freshId_fresh.
  split; [|split].
  - intros k Hk. rewrite in_app_iff. simpl.
    destruct (I1 k Hk) as [H|H]; [|auto].
    apply Hf in H. rewrite Hf'. intuition.
  - intros k Hk. apply in_app_or in Hk.
    destruct Hk as [Hk|[<-|[<-|[<-|[]]]]]; try lia.
    apply I2 in Hk. lia.
  - intros k Hk HF Hin. apply Hf' in Hin. apply in_app_or in Hk.
    assert (Hold : In k hidden -> False).
    { intros Hh. assert (Hlow := I2 k Hh). apply (I3 k Hh HF). apply Hf.
      destruct Hin as [H|[H|[H|H]]]; auto; lia. }
    destruct Hk as [Hk|[<-|[<-|[<-|[]]]]]; auto.
    + destruct Hin as [H|[H|[H|H]]]; auto; lia.
    + destruct (I1 _ HF) as [H|H]; [now apply Hfresh|].
      apply I2 in H. lia.
    + destruct (I1 _ HF) as [H|H].
      * apply freshId_above in H. lia.
      * apply I2 in H. lia.
Qed.

Definition Part000_StrengthReduction_inv (bits : Z) (args : nat -> Z)
  (F f : Function) : Prop :=
  no_sdiv_8 f /\
  exists hidden, refines bits args hidden F f /\ hidden_apart F f hidden.

Lemma Part000_StrengthReduction_visit_refines (bits : Z) (args : nat -> Z)
  (F f f' : Function) (A B : list Instruction) (ins : Instruction) :
  (4 < bits)%Z ->
  NoDup (all_ids f) -> ssa_order f -> concat f = A ++ ins :: B ->
  Part000_StrengthReduction_inv bits args F f ->
  Part000.StrengthReductionPass.visit ins f = Ok f' ->
  Part000_StrengthReduction_inv bits args F f'.
Proof.
  intros Hbits Hnd Hssa Hsplit [Hno (hidden & R & Hh)] Hv.
  assert (Hops := @ssa_order_operand f A B ins).
  assert (Hkeep : Part000_StrengthReduction_inv bits args F f).
  { split; [exact Hno|]. exists hidden. auto. }
  assert (Hmul : forall id x,
            ins = BinaryOperator id Mul x (ConstantInt 15) \/
            ins = BinaryOperator id Mul (ConstantInt 15) x ->
            Part000.replace_erase
              (insertBefore
                 (insertBefore f id
                    (BinaryOperator (freshId f) Shl x (ConstantInt 4))) id
                 (BinaryOperator
                    (freshId (insertBefore f id
                       (BinaryOperator (freshId f) Shl x (ConstantInt 4))))
                    Sub (InstRef (freshId f)) x)) id
              (InstRef
                 (freshId (insertBefore f id
                    (BinaryOperator (freshId f) Shl x (ConstantInt 4)))))
            = Ok f' ->
            Part000_StrengthReduction_inv bits args F f').
  { intros id x Hform Hre.
    assert (Hid : getId ins = id) by (destruct Hform as [-> | ->]; reflexivity).
    assert (Hx : forall j, x = InstRef j -> In j (ids A)).
    { intros j ->. apply (Hops j Hssa Hsplit).
      destruct Hform as [-> | ->]; simpl; auto. }
    subst id.
    apply replace_erase_value in Hre. destruct Hre as [_ ->].
    destruct (@twice_inserted_erased_layout f A B ins Shl Sub
                x (ConstantInt 4) x Hnd Hssa Hsplit) as (F2 & F3 & Hc).
    { intros j [E|[E|[E|[]]]]; try discriminate; now apply Hx. }
    assert (Hn := Hnd). rewrite all_ids_flat in Hn. fold (ids (concat f)) in Hn.
    rewrite Hsplit, ids_app in Hn. simpl in Hn.
    apply NoDup_app_head in Hn. destruct Hn as [HiA HiB].
    split.
    - apply (@no_sdiv_8_layout f _ A B _ ins _ Hno Hsplit Hc).
      intros i a b [E|[E|[]]]; discriminate.
    - eexists. split.
      + eapply refines_trans; [exact R|].
        apply (@layout_refines bits args f _ A B _ ins _ Hnd Hssa Hsplit Hc).
        * intros k [<-|[<-|[]]]; [apply freshId_fresh | exact F2].
        * intros j [= <-]. right. simpl. auto.
        * intros m0 m m1 Hm0 EA Ei.
          apply (@mul_15_front bits args Hbits (getId ins) _ _ x ins m m1);
            auto; [lia|].
          intros ->. apply (freshId_fresh f).
          rewrite all_ids_flat. fold (ids (concat f)). rewrite Hsplit, ids_app.
          apply in_or_app. left. now apply Hx.
      + apply (@hidden_apart_step F f _ A B ins (freshId f) _ _ _ _ hidden
                 Hh Hsplit Hc); auto. }
  destruct ins as [id opc a b| |];
    try (injection Hv as <-; exact Hkeep).
  destruct opc; try (injection Hv as <-; exact Hkeep); simpl in Hv.
  - (* Mul *)
    destruct (equalsInt a 15) eqn:Ea.
    + assert (a = ConstantInt 15) as -> by now apply equalsInt_true.
      simpl in Hv. apply (Hmul id b); auto.
    + destruct (equalsInt b 15) eqn:Eb.
      * assert (b = ConstantInt 15) as -> by now apply equalsInt_true.
        apply (Hmul id a); auto.
      * injection Hv as <-. exact Hkeep.
  - (* SDiv *)
    rewrite (Hno id a b) in Hv.
    + injection Hv as <-. exact Hkeep.
    + rewrite Hsplit. apply in_or_app. right. now left.
Qed.

(** X3.  The strength-reduction pass of part_000 keeps what the function
    computes, at every width above 4, when the function has no signed
    quotient by the constant 8 (so that [Mul(x, 15)] and [Mul(15, x)] are
    all it rewrites): the run returns, and whenever the instructions of the
    function, executed in layout order, reach a machine, so do the
    instructions of the returned function, with the same memory and the
    same result for every instruction of the function that is left. *)
Theorem Part000_StrengthReduction_preserves_execution
  (bits : Z) (args : nat -> Z) (fuel : nat) (F : Function) :
  (4 < bits)%Z ->
  NoDup (all_ids F) -> ssa_order F -> length (all_ids F) <= fuel ->
  no_sdiv_8 F ->
  exists F',
    Part000.StrengthReductionPass.run fuel F = Ok (F', PA_none) /\
    forall m0 m1,
      in_range bits m0 ->
      Sem.exec_block bits args (concat F) m0 = Some m1 ->
      exists m2,
        Sem.exec_block bits args (concat F') m0 = Some m2 /\
        Sem.mem m2 = Sem.mem m1 /\
        forall k, In k (all_ids F) -> In k (all_ids F') ->
                  Sem.lookup_reg (Sem.regs m2) k
                  = Sem.lookup_reg (Sem.regs m1) k.
Proof.
  intros Hbits Hnd Hssa Hfuel Hno.
  destruct (@Part000_StrengthReduction_returns fuel F Hnd Hfuel)
    as (F' & Hrun).
  exists F'. split; [exact Hrun|].
  destruct (@advancing_scans_visit_each_instruction_once 0%Z fuel F Hnd Hfuel)
    as (_ & _ & _ & E & _).
  rewrite E in Hrun. apply bind_Ok in Hrun. destruct Hrun as (s & Hv & Hrep).
  injection Hrep as <-.
  assert (HP : Part000_StrengthReduction_inv bits args F s).
  { apply (@visit_blocks_keeps Function Part000.fn
             (fun _ _ => Part000.StrengthReductionPass.visit)
             (fun _ => Part000_reduces)
             (Part000_StrengthReduction_inv bits args F))
      with (s := F); auto.
    - intros b it ins s0 s1 Hn Hi Hb. unfold Part000.fn in *.
      now apply Part000_StrengthReduction_visit_ids.
    - intros b it ins s0 s1 V. apply Part000_StrengthReduction_settles_visit.
    - intros b it ins s0 s1 A B. unfold Part000.fn.
      now apply Part000_StrengthReduction_visit_refines.
    - split; [exact Hno|]. exists []. split;
        [apply refines_refl | apply hidden_apart_start]. }
  destruct HP as (_ & hidden & R & _ & _ & I3). intros m0 m1 Hm0 Hex.
  destruct (R m0 m1 Hm0 Hex) as (m2 & E2 & Hmem & Hr).
  exists m2. split; [exact E2|]. split; [exact Hmem|].
  intros k HF HF'. apply Hr. intros Hh. now apply (I3 k Hh HF).
Qed.

(** *** The combiner of TestPass.cpp *)

(** [(b + 1) - 1] is [b], when [b + 1] was computed before. *)
Lemma combiner_front (bits : Z) (args : nat -> Z)
  (A1 A2 : list Instruction) (a id : nat) (Bv C2 c : Value)
  (m0 m m1 : Sem.machine) :
  (0 < bits)%Z ->
  NoDup (ids (A1 ++ BinaryOperator a Add Bv C2 :: A2)) ->
  (forall j, Bv = InstRef j -> In j (ids A1)) ->
  equalsInt C2 1 = true -> equalsInt c 1 = true ->
  in_range bits m0 ->
  Sem.exec_block bits args (A1 ++ BinaryOperator a Add Bv C2 :: A2) m0
  = Some m ->
  Sem.exec_inst bits args m (BinaryOperator id Sub (InstRef a) c) = Some m1 ->
  agree bits args id Bv [] m1 m.
Proof.
  intros Hbits Hnd HB EC2 Ec Hm0 EA Ei.
  apply equalsInt_true in EC2. apply equalsInt_true in Ec. subst C2 c.
  rewrite exec_block_app in EA.
  destruct (Sem.exec_block bits args A1 m0) as [ma|] eqn:E1; [|discriminate].
  cbn [Sem.exec_block] in EA.
  destruct (Sem.exec_inst bits args ma (BinaryOperator a Add Bv (ConstantInt 1)))
    as [mb|] eqn:Eadd; [|discriminate].
  assert (Hma : in_range bits ma) by (eapply exec_block_range; eauto).
  apply exec_binop_inv in Eadd.
  destruct Eadd as (x & y & za & Ex & Ey & Eza & ->).
  assert (Hx := @eval_value_range bits args Hbits ma Bv x Hma Ex).
  rewrite ids_app in Hnd. simpl in Hnd.
  assert (Hd : forall k, In k (ids A1) -> ~ In k (ids A2) /\ k <> a).
  { intros k Hk. split.
    - intros Hk2. apply (@NoDup_app_disjoint _ _ _ k Hnd Hk). now right.
    - intros ->. apply (@NoDup_app_disjoint _ _ _ a Hnd Hk). now left. }
  apply NoDup_app_head in Hnd. destruct Hnd as [_ Ha2].
  assert (Ha : Sem.lookup_reg (Sem.regs m) a = Some za).
  { rewrite (@exec_block_regs bits args A2 a _ m EA Ha2). simpl.
    now rewrite Nat.eqb_refl. }
  assert (HBm : Sem.eval_value bits args m Bv = Some x).
  { rewrite <- Ex. apply eval_value_regs. intros k ->.
    destruct (Hd k (HB k eq_refl)) as [Hk2 Hka].
    rewrite (@exec_block_regs bits args A2 k _ m EA Hk2). simpl.
    destruct (Nat.eqb_spec a k); [congruence | reflexivity]. }
  apply exec_binop_inv in Ei.
  destruct Ei as (x' & y' & z & Ex' & Ey' & Ez & ->).
  simpl in Ex'. rewrite Ha in Ex'. injection Ex' as <-.
  simpl in Ey, Ey'. injection Ey as <-. injection Ey' as <-.
  destruct (@add_1_sub_1 bits x Hx) as (a0 & Ea0 & Es0).
  rewrite Eza in Ea0. injection Ea0 as <-. rewrite Ez in Es0.
  injection Es0 as ->.
  apply agree_front; auto.
Qed.

Lemma TestPass_MultiInstruction_visit_refines (bits : Z) (args : nat -> Z)
  (F : Function) (s s' : TestPass.state) (A B : list Instruction)
  (ins : Instruction) :
  (0 < bits)%Z ->
  NoDup (all_ids (fst s)) -> ssa_order (fst s) ->
  concat (fst s) = A ++ ins :: B ->
  refines_survivors bits args F (fst s) ->
  TestPass.MultiInstructionOptPass.visit ins s = Ok s' ->
  refines_survivors bits args F (fst s').
Proof.
  intros Hbits Hnd Hssa Hsplit HP Hv.
  destruct ins as [id opc a c| |]; try (now injection Hv as <-).
  destruct opc; try (now injection Hv as <-); simpl in Hv.
  destruct (equalsInt c 1) eqn:Ec; [|now injection Hv as <-].
  destruct a as [| | |AddOp]; try (now injection Hv as <-).
  destruct (find_inst (fst s) AddOp) as [[a' opc' Bv C2| |]|] eqn:Hdef;
    try (now injection Hv as <-).
  destruct opc'; try (now injection Hv as <-).
  destruct (equalsInt C2 1) eqn:E2; [|now injection Hv as <-].
  apply TestPass_replace_erase_value in Hv. destruct Hv as [_ ->].
  apply find_inst_in in Hdef. destruct Hdef as [Hdef Ha']. simpl in Ha'.
  subst a'.
  destruct (@ssa_order_definition (fst s) A B
              (BinaryOperator id Sub (InstRef AddOp) c)
              (BinaryOperator AddOp Add Bv C2) Hnd Hssa Hsplit)
    as (A1 & A2 & HA0); [simpl; auto | exact Hdef |].
  assert (HB1 : forall j, Bv = InstRef j -> In j (ids A1)).
  { intros j Hj. subst A.
    eapply (@ssa_order_operand (fst s) A1
              (A2 ++ BinaryOperator id Sub (InstRef AddOp) c :: B)
              (BinaryOperator AddOp Add Bv C2)); eauto.
    - rewrite Hsplit, <- app_assoc. reflexivity.
    - simpl. left. now symmetry. }
  assert (HB : forall j, Bv = InstRef j -> In j (ids A)).
  { intros j Hj. subst A. rewrite ids_app. apply in_or_app. left. auto. }
  simpl fst.
  destruct (@settled_erase (fun _ _ => false) (ids B) (fst s) A B
              (BinaryOperator id Sub (InstRef AddOp) c) Bv
              Hnd Hssa Hsplit eq_refl HB (fun _ _ => eq_refl))
    as (Hc & _).
  apply (@refines_survivors_erase bits args F (fst s) id Bv HP).
  apply (@layout_refines bits args (fst s) _ A B []
           (BinaryOperator id Sub (InstRef AddOp) c) Bv Hnd Hssa Hsplit Hc).
  - intros k [].
  - intros j Hj. left. now apply HB.
  - intros m0 m m1 Hm0 EA Ei. exists m. split; [reflexivity|].
    assert (HndA : NoDup (ids A)).
    { rewrite all_ids_flat in Hnd. fold (ids (concat (fst s))) in Hnd.
      rewrite Hsplit, ids_app in Hnd. now apply NoDup_app_remove_r in Hnd. }
    subst A.
    exact (@combiner_front bits args A1 A2 AddOp id Bv C2 c m0 m m1
             Hbits HndA HB1 E2 Ec Hm0 EA Ei).
Qed.

(** X4.  The combiner of TestPass.cpp keeps what the function computes:
    [Sub(a, 1)] with [a = Add(b, 1)] has the value of [b].  On a function
    whose instructions are distinct and defined before they are used the
    run returns, and whenever the instructions of the function, executed in
    layout order, reach a machine, so do the instructions of the returned
    function, with the same memory and the same result for every
    instruction that is left. *)
Theorem TestPass_MultiInstruction_preserves_execution
  (bits : Z) (args : nat -> Z) (fuel : nat) (F : Function) :
  (0 < bits)%Z ->
  NoDup (all_ids F) -> ssa_order F -> length (all_ids F) <= fuel ->
  exists F' pa,
    TestPass.MultiInstructionOptPass.run fuel F = Ok (F', pa) /\
    forall m0 m1,
      in_range bits m0 ->
      Sem.exec_block bits args (concat F) m0 = Some m1 ->
      exists m2,
        Sem.exec_block bits args (concat F') m0 = Some m2 /\
        Sem.mem m2 = Sem.mem m1 /\
        forall k, In k (all_ids F') ->
                  Sem.lookup_reg (Sem.regs m2) k
                  = Sem.lookup_reg (Sem.regs m1) k.
Proof.
  intros Hbits Hnd Hssa Hfuel.
  destruct (@TestPass_MultiInstruction_reports fuel F Hnd Hssa Hfuel)
    as (F' & pa & Hrun & _).
  exists F', pa. split; [exact Hrun|].
  destruct (@advancing_scans_visit_each_instruction_once 0%Z fuel F Hnd Hfuel)
    as (_ & E & _).
  rewrite E in Hrun. apply bind_Ok in Hrun. destruct Hrun as (s & Hv & Hrep).
  injection Hrep as <- _.
  assert (HP : refines_survivors bits args F (fst s)).
  { apply (@visit_blocks_keeps TestPass.state fst
             (fun _ _ => TestPass.MultiInstructionOptPass.visit)
             TestPass_combines (refines_survivors bits args F))
      with (s := (F, false)); auto.
    - intros b it ins s0 s1 _ _. apply TestPass_MultiInstruction_visit_ids.
    - intros b it ins s0 s1 V. apply TestPass_MultiInstruction_settles_visit.
    - intros b it ins s0 s1 A B.
      now apply TestPass_MultiInstruction_visit_refines.
    - exists []. split; [apply refines_refl | intros k []]. }
  destruct HP as (hidden & R & Hh). intros m0 m1 Hm0 Hex.
  destruct (R m0 m1 Hm0 Hex) as (m2 & E2 & Hmem & Hr).
  exists m2. split; [exact E2|]. split; [exact Hmem|].
  intros k Hk. apply Hr. intros Hin. now apply (Hh k).
Qed.

(** *** The strength-reduction pass of TestPass.cpp *)

(** No signed quotient. *)
Definition no_sdiv (f : Function) : Prop :=
  forall id a b, ~ In (BinaryOperator id SDiv a b) (concat f).

(** The integer constants are integers of the type. *)
Definition consts_in_range (bits : Z) (f : Function) : Prop :=
  forall x c,
    In x (concat f) -> In (ConstantInt c) (operand_values x) ->
    (0 <= c < 2 ^ bits)%Z.

Lemma no_sdiv_layout (f f' : Function) (A B new : list Instruction)
  (ins : Instruction) (v : Value) :
  no_sdiv f ->
  concat f = A ++ ins :: B ->
  concat f' = A ++ new ++ map (mapOperands (subst (getId ins) v)) B ->
  (forall id a b, ~ In (BinaryOperator id SDiv a b) new) ->
  no_sdiv f'.
Proof.
  intros H Hsplit Hsplit' Hnew id a b Hin. rewrite Hsplit' in Hin.
  apply in_app_or in Hin. destruct Hin as [Hin|Hin].
  - apply (H id a b). rewrite Hsplit. apply in_or_app. now left.
  - apply in_app_or in Hin. destruct Hin as [Hin|Hin]; [now apply Hnew in Hin|].
    apply in_map_iff in Hin. destruct Hin as (x & Hx & HxB).
    destruct x as [i o p q| |]; try discriminate. simpl in Hx.
    injection Hx as -> -> _ _.
    apply (H id p q). rewrite Hsplit. apply in_or_app. right. now right.
Qed.

Lemma consts_in_range_layout (bits : Z) (f f' : Function)
  (A B new : list Instruction) (ins : Instruction) (v : Value) :
  consts_in_range bits f ->
  concat f = A ++ ins :: B ->
  concat f' = A ++ new ++ map (mapOperands (subst (getId ins) v)) B ->
  (forall x c, In x new -> In (ConstantInt c) (operand_values x) ->
               (0 <= c < 2 ^ bits)%Z) ->
  (forall c, v = ConstantInt c -> (0 <= c < 2 ^ bits)%Z) ->
  consts_in_range bits f'.
Proof.
  intros H Hsplit Hsplit' Hnew Hv x c Hin Hc. rewrite Hsplit' in Hin.
  apply in_app_or in Hin. destruct Hin as [Hin|Hin].
  - apply (H x c); [|exact Hc]. rewrite Hsplit. apply in_or_app. now left.
  - apply in_app_or in Hin. destruct Hin as [Hin|Hin]; [now apply (Hnew x c)|].
    apply in_map_iff in Hin. destruct Hin as (y & <- & HyB).
    rewrite operand_values_map in Hc. apply in_map_iff in Hc.
    destruct Hc as (o & Ho & Hin).
    assert (Hy : In y (concat f)).
    { rewrite Hsplit. apply in_or_app. right. now right. }
    destruct o as [c0| | |j]; simpl in Ho; try discriminate.
    + injection Ho as ->. now apply (H y c).
    + destruct (Nat.eqb j (getId ins)); [now apply Hv | discriminate].
Qed.

Definition TestPass_StrengthReduction_inv (bits : Z) (args : nat -> Z)
  (F f : Function) : Prop :=
  no_sdiv f /\ consts_in_range bits f /\
  exists hidden, refines bits args hidden F f.

Section TestPassStrengthReduction.

Import Sem.
Local Open Scope Z_scope.

Variable bits : Z.
Variable args : nat -> Z.
Hypothesis bits_wide : 4 < bits.

(** What the folder makes of [(c << 4) - c] and of [c >> 3]. *)
Lemma fold_mul_15 (c : Z) :
  ConstantFold bits Sub
    (ConstantFold bits Shl (ConstantInt c) (ConstantInt 4)) (ConstantInt c)
  = ConstantInt (wrap bits (c * 15)).
Proof.
  destruct (@mul_15_shift_sub bits c bits_wide) as (sh & Esh & Esub).
  unfold ConstantFold at 2. rewrite Esh. unfold ConstantFold.
  rewrite Esub. reflexivity.
Qed.

Lemma fold_lshr_3 (c : Z) :
  ConstantFold bits LShr (ConstantInt c) (ConstantInt 3)
  = ConstantInt (Z.shiftr c 3).
Proof.
  assert (E : eval_binop bits LShr c 3 = Some (Z.shiftr c 3)).
  { unfold eval_binop.
    assert (E3 : (3 <? bits) = true) by (apply Z.ltb_lt; lia). rewrite E3.
    reflexivity. }
  unfold ConstantFold. now rewrite E.
Qed.

Lemma ConstantFold_poison (opc : BinaryOps) (b : Value) :
  ConstantFold bits opc PoisonValue b = PoisonValue.
Proof. reflexivity. Qed.

Variable F : Function.
Variable s : TestPass.state.
Variables A B : list Instruction.
Variable ins : Instruction.
Hypothesis f_ids : NoDup (all_ids (fst s)).
Hypothesis f_order : ssa_order (fst s).
Hypothesis f_split : concat (fst s) = A ++ ins :: B.
Hypothesis f_inv : TestPass_StrengthReduction_inv bits args F (fst s).

Lemma visited_const (c : Z) :
  In (ConstantInt c) (operand_values ins) -> 0 <= c < 2 ^ bits.
Proof.
  destruct f_inv as (_ & Hc & _). apply Hc. rewrite f_split.
  apply in_or_app. right. now left.
Qed.

(** The visited instruction gives way to a constant of the same value. *)
Lemma folded_keeps (v : Value) :
  (forall j, v <> InstRef j) ->
  (forall c, v = ConstantInt c -> 0 <= c < 2 ^ bits) ->
  (forall m m1, in_range bits m -> exec_inst bits args m ins = Some m1 ->
                agree bits args (getId ins) v [] m1 m) ->
  TestPass_StrengthReduction_inv bits args F
    (replaced_and_erased (fst s) (getId ins) v).
Proof.
  intros Hv Hrange Hval. destruct f_inv as (Hno & Hc & hidden & R).
  destruct (@settled_erase (fun _ _ => false) (ids B) (fst s) A B ins v
              f_ids f_order f_split eq_refl) as (Hl & _).
  { intros j E. exfalso. now apply (Hv j). }
  { reflexivity. }
  split; [|split].
  - apply (@no_sdiv_layout (fst s) _ A B [] ins v Hno f_split Hl).
    intros id a b [].
  - apply (@consts_in_range_layout bits (fst s) _ A B [] ins v Hc f_split Hl);
      auto.
    intros x c [].
  - eexists. eapply refines_trans; [exact R|].
    apply (@layout_refines bits args (fst s) _ A B [] ins v
             f_ids f_order f_split Hl).
    + intros k [].
    + intros j E. exfalso. now apply (Hv j).
    + intros m0 m m1 Hm0 EA Ei. exists m. split; [reflexivity|].
      assert (Hpos : 0 < bits) by lia.
      assert (Hm := @exec_block_range bits args Hpos A m0 m Hm0 EA).
      now apply Hval.
Qed.


Lemma visited_operand (x : Value) (j : nat) :
  In x (operand_values ins) -> x = InstRef j -> In j (ids A).
Proof.
  intros Hin ->. eapply ssa_order_operand; eauto.
Qed.

Lemma visited_fresh (x : Value) :
  In x (operand_values ins) -> x <> InstRef (freshId (fst s)).
Proof.
  intros Hin ->. apply (freshId_fresh (fst s)).
  rewrite all_ids_flat. fold (ids (concat (fst s))). rewrite f_split, ids_app.
  apply in_or_app. left. now apply (@visited_operand _ _ Hin).
Qed.

(** [x * 15] gives way to [(x << 4) - x]. *)
Lemma mul_15_keeps (id : nat) (x : Value) :
  ins = BinaryOperator id Mul x (ConstantInt 15) ->
  let N1 := BinaryOperator (freshId (fst s)) Shl x (ConstantInt 4) in
  let f1 := insertBefore (fst s) id N1 in
  let N2 := BinaryOperator (freshId f1) Sub (InstRef (freshId (fst s))) x in
  TestPass_StrengthReduction_inv bits args F
    (replaced_and_erased (insertBefore f1 id N2) id (InstRef (freshId f1))).
Proof.
  intros Hins N1 f1 N2. destruct f_inv as (Hno & Hc & hidden & R).
  assert (Hid : id = getId ins) by now subst ins.
  assert (Hx : In x (operand_values ins)) by (subst ins; simpl; auto).
  destruct (@twice_inserted_erased_layout (fst s) A B ins Shl Sub
              x (ConstantInt 4) x f_ids f_order f_split) as (F2 & F3 & Hl).
  { intros j [E|[E|[E|[]]]]; try discriminate;
      now apply (@visited_operand x j Hx). }
  rewrite <- Hid in F2, F3, Hl. fold N1 in F2, F3, Hl. fold f1 in F2, F3, Hl.
  fold N2 in Hl. rewrite Hid in Hl. rewrite Hid.
  assert (H4 : 0 <= 4 < 2 ^ bits).
  { rewrite <- (@wrap_const bits bits_wide 4) by lia. apply wrap_range. lia. }
  split; [|split].
  - apply (@no_sdiv_layout (fst s) _ A B _ ins _ Hno f_split Hl).
    intros i a b [E|[E|[]]]; discriminate.
  - apply (@consts_in_range_layout bits (fst s) _ A B _ ins _ Hc f_split Hl).
    + intros y c [<-|[<-|[]]] [E|[E|[]]]; try discriminate.
      * apply visited_const. now rewrite E in Hx.
      * now injection E as <-.
      * apply visited_const. now rewrite E in Hx.
    + discriminate.
  - eexists. eapply refines_trans; [exact R|].
    apply (@layout_refines bits args (fst s) _ A B _ ins _
             f_ids f_order f_split Hl).
    + intros k [<-|[<-|[]]]; [apply freshId_fresh | exact F2].
    + intros j [= <-]. right. simpl. auto.
    + intros m0 m m1 Hm0 EA Ei. rewrite <- Hid.
      apply (@mul_15_front bits args bits_wide id _ _ x ins m m1); auto.
      * lia.
      * now apply visited_fresh.
Qed.

(** [x / 8], unsigned, gives way to [x >> 3]. *)
Lemma udiv_8_keeps (id : nat) (x : Value) :
  ins = BinaryOperator id UDiv x (ConstantInt 8) ->
  TestPass_StrengthReduction_inv bits args F
    (replaced_and_erased
       (insertBefore (fst s) id
          (BinaryOperator (freshId (fst s)) LShr x (ConstantInt 3)))
       id (InstRef (freshId (fst s)))).
Proof.
  intros Hins. destruct f_inv as (Hno & Hc & hidden & R).
  assert (Hid : id = getId ins) by now subst ins.
  assert (Hx : In x (operand_values ins)) by (subst ins; simpl; auto).
  assert (Hl := @inserted_erased_layout (fst s) A B ins LShr
              x (ConstantInt 3) f_ids f_order f_split).
  cbv zeta in Hl. rewrite <- Hid in Hl. rewrite Hid in Hl at 3.
  assert (H3 : 0 <= 3 < 2 ^ bits).
  { rewrite <- (@wrap_const bits bits_wide 3) by lia. apply wrap_range. lia. }
  assert (Hops : forall j, In (InstRef j) [x; ConstantInt 3] -> In j (ids A)).
  { intros j [E|[E|[]]]; try discriminate.
    now apply (@visited_operand x j Hx). }
  specialize (Hl Hops).
  split; [|split].
  - apply (@no_sdiv_layout (fst s) _ A B _ ins _ Hno f_split Hl).
    intros i a b [E|[]]; discriminate.
  - apply (@consts_in_range_layout bits (fst s) _ A B _ ins _ Hc f_split Hl).
    + intros y c [<-|[]] [E|[E|[]]]; try discriminate.
      * apply visited_const. now rewrite E in Hx.
      * now injection E as <-.
    + discriminate.
  - eexists. eapply refines_trans; [exact R|].
    apply (@layout_refines bits args (fst s) _ A B _ ins _
             f_ids f_order f_split Hl).
    + intros k [<-|[]]. apply freshId_fresh.
    + intros j [= <-]. right. simpl. auto.
    + intros m0 m m1 Hm0 EA Ei. rewrite <- Hid. rewrite Hins in Ei.
      apply (@shift_front bits args bits_wide id _ UDiv LShr x m m1); auto.
      intros xv _. apply udiv_8_lshr. lia.
Qed.

(** The two on a constant operand. *)
Lemma mul_15_folded_keeps (id : nat) (x : Value) :
  ins = BinaryOperator id Mul x (ConstantInt 15) ->
  isConstant x = true ->
  TestPass_StrengthReduction_inv bits args F
    (replaced_and_erased (fst s) id
       (ConstantFold bits Sub
          (ConstantFold bits Shl x (ConstantInt 4)) x)).
Proof.
  intros Hins Hx.
  assert (Hid : id = getId ins) by now subst ins.
  assert (Hpos : 0 < bits) by lia.
  rewrite Hid. apply folded_keeps.
  - intros j. apply ConstantFold_not_inst.
  - destruct x as [c| | |]; try discriminate.
    rewrite fold_mul_15. intros c0 [= <-]. now apply wrap_range.
  - intros m m1 Hm Ei. rewrite Hins in Ei. apply exec_binop_inv in Ei.
    destruct Ei as (xv & y & z & Ex & Ey & Ez & ->).
    destruct x as [c| | |]; try discriminate.
    rewrite Hins. simpl getId. apply agree_front; auto.
    rewrite fold_mul_15. simpl in Ex, Ey, Ez |- *.
    injection Ex as <-. injection Ey as <-. injection Ez as <-.
    rewrite (@wrap_const bits bits_wide 15) by lia.
    rewrite (@wrap_small bits c).
    + f_equal. apply wrap_small. now apply wrap_range.
    + apply visited_const. rewrite Hins. simpl. auto.
Qed.

Lemma udiv_8_folded_keeps (id : nat) (x : Value) :
  ins = BinaryOperator id UDiv x (ConstantInt 8) ->
  isConstant x = true ->
  TestPass_StrengthReduction_inv bits args F
    (replaced_and_erased (fst s) id
       (ConstantFold bits LShr x (ConstantInt 3))).
Proof.
  intros Hins Hx.
  assert (Hid : id = getId ins) by now subst ins.
  assert (Hpos : 0 < bits) by lia.
  assert (Hshift : forall c, In (ConstantInt c) (operand_values ins) ->
                     0 <= Z.shiftr c 3 < 2 ^ bits).
  { intros c Hc. apply visited_const in Hc.
    apply (@eval_binop_range bits Hpos LShr c 3 (Z.shiftr c 3) Hc).
    - rewrite <- (@wrap_const bits bits_wide 3) by lia. now apply wrap_range.
    - unfold eval_binop.
      assert (E3 : (3 <? bits) = true) by (apply Z.ltb_lt; lia).
      now rewrite E3. }
  rewrite Hid. apply folded_keeps.
  - intros j. apply ConstantFold_not_inst.
  - destruct x as [c| | |]; try discriminate.
    rewrite fold_lshr_3. intros c0 [= <-]. apply Hshift.
    rewrite Hins. simpl. auto.
  - intros m m1 Hm Ei. rewrite Hins in Ei. apply exec_binop_inv in Ei.
    destruct Ei as (xv & y & z & Ex & Ey & Ez & ->).
    destruct x as [c| | |]; try discriminate.
    rewrite Hins. simpl getId. apply agree_front; auto.
    rewrite fold_lshr_3. simpl in Ex, Ey |- *.
    injection Ex as <-. injection Ey as <-.
    rewrite (@wrap_const bits bits_wide 8) in Ez by lia.
    rewrite (@wrap_small bits c) in Ez
      by (apply visited_const; rewrite Hins; simpl; auto).
    rewrite udiv_8_lshr in Ez by lia.
    assert (E : eval_binop bits LShr c 3 = Some (Z.shiftr c 3)).
    { unfold eval_binop.
      assert (E3 : (3 <? bits) = true) by (apply Z.ltb_lt; lia).
      now rewrite E3. }
    rewrite E in Ez. injection Ez as <-. f_equal. apply wrap_small.
    apply Hshift. rewrite Hins. simpl. auto.
Qed.

End TestPassStrengthReduction.

Lemma TestPass_StrengthReduction_visit_refines (bits : Z) (args : nat -> Z)
  (F : Function) (s s' : TestPass.state) (A B : list Instruction)
  (ins : Instruction) :
  (4 < bits)%Z ->
  NoDup (all_ids (fst s)) -> ssa_order (fst s) ->
  concat (fst s) = A ++ ins :: B ->
  TestPass_StrengthReduction_inv bits args F (fst s) ->
  TestPass.StrengthReductionPass.visit bits ins s = Ok s' ->
  TestPass_StrengthReduction_inv bits args F (fst s').
Proof.
  intros Hbits Hnd Hssa Hsplit HP Hv.
  destruct ins as [id opc X C| |]; try (now injection Hv as <-).
  destruct opc; try (now injection Hv as <-); simpl in Hv.
  - (* Mul *)
    destruct (equalsInt C 15) eqn:EC; [|now injection Hv as <-].
    apply equalsInt_true in EC. subst C.
    unfold TestPass.IRBuilder_Create in Hv. simpl in Hv.
    rewrite andb_true_r in Hv. destruct (isConstant X) eqn:HX.
    + rewrite isConstant_ConstantFold in Hv. simpl in Hv.
      apply TestPass_replace_erase_value in Hv. destruct Hv as [_ ->].
      now apply (@mul_15_folded_keeps bits args Hbits F s A B _
                   Hnd Hssa Hsplit HP id X).
    + simpl in Hv.
      apply TestPass_replace_erase_value in Hv. destruct Hv as [_ ->].
      now apply (@mul_15_keeps bits args Hbits F s A B _
                   Hnd Hssa Hsplit HP id X).
  - (* SDiv *)
    exfalso. destruct HP as (Hno & _). apply (Hno id X C).
    rewrite Hsplit. apply in_or_app. right. now left.
  - (* UDiv *)
    destruct (equalsInt C 8) eqn:EC; [|now injection Hv as <-].
    apply equalsInt_true in EC. subst C.
    unfold TestPass.IRBuilder_Create in Hv. simpl in Hv.
    rewrite andb_true_r in Hv. destruct (isConstant X) eqn:HX.
    + apply TestPass_replace_erase_value in Hv. destruct Hv as [_ ->].
      now apply (@udiv_8_folded_keeps bits args Hbits F s A B _
                   Hnd Hssa Hsplit HP id X).
    + apply TestPass_replace_erase_value in Hv. destruct Hv as [_ ->].
      now apply (@udiv_8_keeps bits args Hbits F s A B _
                   Hnd Hssa Hsplit HP id X).
Qed.

(** X5.  The strength-reduction pass of TestPass.cpp keeps the memory the
    function leaves, at every width above 4, when the function has no
    signed quotient and its constants are integers of the type: the run
    returns, and whenever the instructions of the function, executed in
    layout order, reach a machine, the instructions of the returned
    function reach one with the same memory.  This covers the constants
    the [IRBuilder] folds as well as the shifts it inserts. *)
Theorem TestPass_StrengthReduction_preserves_execution
  (bits : Z) (args : nat -> Z) (fuel : nat) (F : Function) :
  (4 < bits)%Z ->
  NoDup (all_ids F) -> ssa_order F -> length (all_ids F) <= fuel ->
  no_sdiv F -> consts_in_range bits F ->
  exists F' pa,
    TestPass.StrengthReductionPass.run bits fuel F = Ok (F', pa) /\
    forall m0 m1,
      in_range bits m0 ->
      Sem.exec_block bits args (concat F) m0 = Some m1 ->
      exists m2,
        Sem.exec_block bits args (concat F') m0 = Some m2 /\
        Sem.mem m2 = Sem.mem m1.
Proof.
  intros Hbits Hnd Hssa Hfuel Hno Hc.
  destruct (@TestPass_StrengthReduction_reports bits fuel F Hnd Hfuel)
    as (F' & pa & Hrun & _).
  exists F', pa. split; [exact Hrun|].
  destruct (@advancing_scans_visit_each_instruction_once bits fuel F Hnd Hfuel)
    as (E & _).
  rewrite E in Hrun. apply bind_Ok in Hrun. destruct Hrun as (s & Hv & Hrep).
  injection Hrep as <- _.
  assert (HP : TestPass_StrengthReduction_inv bits args F (fst s)).
  { apply (@visit_blocks_keeps TestPass.state fst
             (fun _ _ => TestPass.StrengthReductionPass.visit bits)
             (fun _ => TestPass_reduces)
             (TestPass_StrengthReduction_inv bits args F))
      with (s := (F, false)); auto.
    - intros b it ins s0 s1. apply TestPass_StrengthReduction_visit_ids.
    - intros b it ins s0 s1 V. apply TestPass_StrengthReduction_settles_visit.
    - intros b it ins s0 s1 A B.
      now apply TestPass_StrengthReduction_visit_refines.
    - split; [exact Hno|]. split; [exact Hc|]. exists []. apply refines_refl. }
  destruct HP as (_ & _ & hidden & R). intros m0 m1 Hm0 Hex.
  destruct (R m0 m1 Hm0 Hex) as (m2 & E2 & Hmem & _).
  exists m2. auto.
Qed.

(** *** The combiner of part_000 *)

Lemma concat_block_split (f : Function) :
  forall b, b < length f ->
            exists L R, concat f = L ++ getBlock f b ++ R.
Proof.
  unfold getBlock. induction f as [|bb r IH]; intros b Hb; [simpl in Hb; lia|].
  destruct b as [|b].
  - exists [], (concat r). reflexivity.
  - destruct (IH b) as (L & R & E); [simpl in Hb; lia|].
    exists (bb ++ L), R. simpl. rewrite E. now rewrite <- app_assoc.
Qed.

Lemma getBlock_length (f : Function) (b : nat) (x : Instruction) :
  In x (getBlock f b) -> b < length f.
Proof.
  unfold getBlock. intros H. destruct (Nat.lt_ge_cases b (length f)); [assumption|].
  rewrite nth_overflow in H by assumption. destruct H.
Qed.

(** The operands of an instruction refer to nothing at or after it. *)
Lemma ssa_order_block_operand (f : Function) (blk : nat)
  (pre suf : BasicBlock) (ins : Instruction) (j : nat) :
  NoDup (all_ids f) -> ssa_order f ->
  getBlock f blk = pre ++ ins :: suf ->
  In (InstRef j) (operand_values ins) ->
  ~ In j (ids (ins :: suf)).
Proof.
  intros Hnd Hssa Hblk Hj.
  destruct (@concat_block_split f blk) as (L & R & Hc).
  { apply (@getBlock_length f blk ins). rewrite Hblk.
    apply in_or_app. right. now left. }
  rewrite Hblk in Hc.
  assert (Hsplit : concat f = (L ++ pre) ++ ins :: (suf ++ R)).
  { rewrite Hc, <- !app_assoc. reflexivity. }
  assert (HA := @ssa_order_operand f (L ++ pre) (suf ++ R) ins j
                  Hssa Hsplit Hj).
  rewrite all_ids_flat in Hnd. fold (ids (concat f)) in Hnd.
  rewrite Hsplit, ids_app in Hnd.
  intros Hin. apply (@NoDup_app_disjoint _ _ _ j Hnd HA).
  change (In j (ids ((ins :: suf) ++ R))). rewrite ids_app.
  apply in_or_app. now left.
Qed.

Lemma base_of_add_value (bits : Z) (args : nat -> Z) (op0 op1 b : Value)
  (m : Sem.machine) (x y : Z) :
  (0 < bits)%Z ->
  Part000.MultiInstructionOptimizationPass.base_of_add op0 op1 = Some b ->
  Sem.eval_value bits args m op0 = Some x ->
  Sem.eval_value bits args m op1 = Some y ->
  In b [op0; op1] /\
  exists bv,
    Sem.eval_value bits args m b = Some bv /\
    Sem.eval_binop bits Add x y = Sem.eval_binop bits Add bv (Sem.wrap bits 1).
Proof.
  intros Hbits Hb Ex Ey.
  unfold Part000.MultiInstructionOptimizationPass.base_of_add in Hb.
  destruct (isConstantInt op1).
  - destruct (equalsInt op1 1) eqn:E1; [|discriminate]. injection Hb as <-.
    apply equalsInt_true in E1. subst op1. simpl in Ey. injection Ey as <-.
    split; [simpl; auto|]. exists x. auto.
  - destruct (isConstantInt op0); [|discriminate].
    destruct (equalsInt op0 1) eqn:E0; [|discriminate]. injection Hb as <-.
    apply equalsInt_true in E0. subst op0. simpl in Ex. injection Ex as <-.
    split; [simpl; auto|]. exists y. split; [exact Ey|].
    simpl. now rewrite Z.add_comm.
Qed.

(** X8.  part_000, lines 109-148.  When the window matches, the
    subtraction computed [b] before the visit: what was stored and loaded
    again is [b + 1].  After the visit it computes [b - 1], which is
    another value at every width. *)
Theorem Part000_MultiInstruction_result_is_one_less
  (bits : Z) (args : nat -> Z) (f : Function) (blk : nat)
  (pre suf : BasicBlock) (ins : Instruction) (subId : nat) (b : Value) :
  (0 < bits)%Z ->
  NoDup (all_ids f) -> ssa_order f ->
  getBlock f blk = pre ++ ins :: suf ->
  chain_window ins suf = Some (subId, b) ->
  exists f' store load subOp rest,
    Part000.MultiInstructionOptimizationPass.visit blk (begin suf) ins f
    = Ok f' /\
    getBlock f blk = pre ++ [ins; store; load; subOp] ++ rest /\
    getBlock f' blk
    = pre ++ [ins; store; load; set_operand0 subId b subOp] ++ rest /\
    forall m0 m1,
      in_range bits m0 ->
      Sem.exec_block bits args (pre ++ [ins; store; load; subOp]) m0
      = Some m1 ->
      exists bv m2,
        Sem.eval_value bits args m1 b = Some bv /\
        Sem.lookup_reg (Sem.regs m1) subId = Some bv /\
        Sem.exec_block bits args
          (pre ++ [ins; store; load; set_operand0 subId b subOp]) m0
        = Some m2 /\
        Sem.lookup_reg (Sem.regs m2) subId
        = Sem.eval_binop bits Sub bv (Sem.wrap bits 1) /\
        Sem.lookup_reg (Sem.regs m2) subId <> Some bv.
Proof.
  intros Hbits Hnd Hssa Hblk Hw.
  destruct (@Part000_MultiInstruction_keeps_the_constant f blk pre suf ins
              subId b Hnd Hblk Hw)
    as (sid & slot & loadId & rest & Hsuf & Hvisit & Hblk').
  destruct (chain_window_Some _ _ Hw)
    as (addInst & op0 & op1 & sid' & slot' & loadId' & rest' & Hins & Hbase & _).
  subst ins suf.
  exists (setOperand0 f subId b),
    (StoreInst sid (InstRef addInst) slot), (LoadInst loadId slot),
    (BinaryOperator subId Sub (InstRef loadId) (ConstantInt 1)), rest.
  split; [exact Hvisit|]. split; [exact Hblk|].
  assert (Hsub : set_operand0 subId b
                   (BinaryOperator subId Sub (InstRef loadId) (ConstantInt 1))
                 = BinaryOperator subId Sub b (ConstantInt 1)).
  { unfold set_operand0. simpl. now rewrite Nat.eqb_refl. }
  rewrite Hsub. split; [exact Hblk'|].
  intros m0 m1 Hm0 Hex.
  rewrite exec_block_app in Hex. rewrite exec_block_app.
  destruct (Sem.exec_block bits args pre m0) as [mp|] eqn:Epre; [|discriminate].
  assert (Hmp := @exec_block_range bits args Hbits pre m0 mp Hm0 Epre).
  cbn [Sem.exec_block] in Hex |- *.
  destruct (Sem.exec_inst bits args mp (BinaryOperator addInst Add op0 op1))
    as [ma|] eqn:Eadd; [|discriminate].
  apply exec_binop_inv in Eadd.
  destruct Eadd as (x & y & za & Ex & Ey & Eza & ->).
  destruct (@base_of_add_value bits args op0 op1 b mp x y Hbits Hbase Ex Ey)
    as (Hbin & bv & Ebv & Esum).
  rewrite Esum in Eza.
  assert (Hbr := @eval_value_range bits args Hbits mp b bv Hmp Ebv).
  assert (Hfar : forall j, b = InstRef j ->
                   j <> addInst /\ j <> loadId /\ j <> subId).
  { intros j ->.
    assert (Hn := @ssa_order_block_operand f blk pre _ _ j Hnd Hssa Hblk Hbin).
    simpl in Hn. intuition congruence. }
  simpl Sem.exec_inst in Hex |- *. rewrite Nat.eqb_refl in Hex |- *.
  destruct (Sem.eval_value bits args
              {| Sem.regs := (addInst, za) :: Sem.regs mp;
                 Sem.mem := Sem.mem mp |} slot) as [p|] eqn:Eslot;
    [|discriminate].
  assert (Eslot' :
    Sem.eval_value bits args
      {| Sem.regs := (addInst, za) :: Sem.regs mp;
         Sem.mem := (p, za) :: Sem.mem mp |} slot = Some p).
  { rewrite <- Eslot. now apply eval_value_regs. }
  rewrite Eslot' in Hex |- *. simpl Sem.lookup_mem in Hex |- *.
  rewrite Z.eqb_refl in Hex |- *. simpl Sem.regs in Hex |- *.
  simpl Sem.lookup_reg in Hex. rewrite Nat.eqb_refl in Hex.
  destruct (@add_1_sub_1 bits bv Hbr) as (a0 & Ea0 & Es0).
  rewrite Eza in Ea0. injection Ea0 as <-.
  simpl Sem.eval_value in Hex. simpl in Es0. injection Es0 as Es0.
  rewrite Es0 in Hex. cbn [Sem.mem] in Hex. injection Hex as <-.
  assert (Eb : forall r M,
            Sem.eval_value bits args
              {| Sem.regs := (loadId, za) :: (addInst, za) :: Sem.regs mp;
                 Sem.mem := M |} b = Some bv /\
            Sem.eval_value bits args
              {| Sem.regs := (subId, r) :: (loadId, za) :: (addInst, za)
                               :: Sem.regs mp;
                 Sem.mem := M |} b = Some bv).
  { intros r M. rewrite <- Ebv. split; apply eval_value_regs; intros j Hj;
      destruct (Hfar j Hj) as (H1 & H2 & H3); simpl;
      repeat match goal with
             | |- context [Nat.eqb ?a j] =>
                 destruct (Nat.eqb_spec a j); [congruence|]
             end; reflexivity. }
  exists bv. eexists.
  split; [apply Eb|]. split; [simpl; now rewrite Nat.eqb_refl|].
  destruct (Eb 0%Z ((p, za) :: Sem.mem mp)) as [Eb1 _].
  cbn [Sem.mem]. rewrite Eb1.
  split; [reflexivity|]. cbn [Sem.regs Sem.lookup_reg]. rewrite Nat.eqb_refl.
  split; [reflexivity|].
  exact (@sub_1_changes bits bv Hbits Hbr).
Qed.

(** *** The quotient by 8 of a negative dividend *)

Section SignedQuotient.

Import Sem.
Local Open Scope Z_scope.

Variable bits : Z.
Hypothesis bits_wide : 4 < bits.

Ltac euclid_8 t :=
  let H := fresh "Hdiv" in
  let H' := fresh "Hmod" in
  assert (H : t = 8 * (t / 8) + t mod 8) by (apply Z.div_mod; lia);
  assert (H' : 0 <= t mod 8 < 8) by (apply Z.mod_pos_bound; lia).

Lemma pow2_bits_split :
  2 ^ bits = 2 * 2 ^ (bits - 1) /\ 2 ^ bits = 8 * 2 ^ (bits - 3) /\
  16 <= 2 ^ (bits - 1) /\ 0 < 2 ^ (bits - 3).
Proof.
  split; [|split; [|split]].
  - replace bits with (Z.succ (bits - 1)) at 1 by lia.
    apply Z.pow_succ_r. lia.
  - replace bits with (3 + (bits - 3)) at 1 by lia.
    rewrite Z.pow_add_r by lia. reflexivity.
  - change 16 with (2 ^ 4). apply Z.pow_le_mono_r; lia.
  - apply Z.pow_pos_nonneg; lia.
Qed.

Lemma wrap_opp (k : Z) : 0 < k <= 2 ^ bits -> wrap bits (- k) = 2 ^ bits - k.
Proof.
  intros Hk. unfold wrap. symmetry.
  apply (Z.mod_unique_pos (- k) (2 ^ bits) (-1) (2 ^ bits - k)); lia.
Qed.

(** The three values on a negative dividend [x], read unsigned: the
    quotient rounds towards zero, the arithmetic shift towards minus
    infinity, and the logical shift is a positive number. *)
Lemma div_8_negative_values (x : Z) :
  2 ^ (bits - 1) <= x < 2 ^ bits ->
  eval_binop bits SDiv x 8 = Some (wrap bits (- ((2 ^ bits - x) / 8))) /\
  eval_binop bits LShr x 3 = Some (x / 8) /\
  eval_binop bits AShr x 3 = Some (2 ^ bits + (x - 2 ^ bits) / 8).
Proof.
  intros Hx. destruct pow2_bits_split as (HM & HM8 & HP & HK).
  assert (E3 : (3 <? bits) = true) by (apply Z.ltb_lt; lia).
  assert (Sx : signed bits x = x - 2 ^ bits).
  { unfold signed.
    assert (E : (x <? 2 ^ (bits - 1)) = false) by (apply Z.ltb_ge; lia).
    now rewrite E. }
  assert (S8 : signed bits 8 = 8) by (apply signed_small; lia).
  unfold eval_binop. rewrite E3, Sx, S8.
  change (8 =? 0) with false. change (8 =? -1) with false.
  rewrite andb_false_r. cbv iota.
  split; [|split].
  - f_equal. f_equal.
    replace (x - 2 ^ bits) with (- (2 ^ bits - x)) by lia.
    rewrite Z.quot_opp_l by lia. rewrite Z.quot_div_nonneg by lia.
    reflexivity.
  - rewrite Z.shiftr_div_pow2 by lia. reflexivity.
  - f_equal. rewrite Z.shiftr_div_pow2 by lia. change (2 ^ 3) with 8.
    unfold wrap. symmetry.
    euclid_8 (x - 2 ^ bits).
    apply (Z.mod_unique_pos _ (2 ^ bits) (-1)); lia.
Qed.

(** The logical shift is the quotient on no negative dividend. *)
Lemma sdiv_8_lshr_negative (x z z' : Z) :
  2 ^ (bits - 1) <= x < 2 ^ bits ->
  eval_binop bits SDiv x 8 = Some z ->
  eval_binop bits LShr x 3 = Some z' ->
  z' <> z.
Proof.
  intros Hx Ez Ez'. destruct pow2_bits_split as (HM & HM8 & HP & HK).
  destruct (div_8_negative_values Hx) as (E1 & E2 & _).
  rewrite E1 in Ez. rewrite E2 in Ez'. injection Ez as <-. injection Ez' as <-.
  euclid_8 (2 ^ bits - x). euclid_8 x.
  destruct (Z.eq_dec ((2 ^ bits - x) / 8) 0) as [E|Hq].
  - rewrite E. change (- 0) with 0. unfold wrap. rewrite Z.mod_0_l by lia. lia.
  - rewrite wrap_opp by lia. lia.
Qed.

(** The arithmetic shift is the quotient on the multiples of 8 only. *)
Lemma sdiv_8_ashr_negative (x z z' : Z) :
  2 ^ (bits - 1) <= x < 2 ^ bits ->
  eval_binop bits SDiv x 8 = Some z ->
  eval_binop bits AShr x 3 = Some z' ->
  z' = z <-> x mod 8 = 0.
Proof.
  intros Hx Ez Ez'. destruct pow2_bits_split as (HM & HM8 & HP & HK).
  destruct (div_8_negative_values Hx) as (E1 & _ & E3).
  rewrite E1 in Ez. rewrite E3 in Ez'. injection Ez as <-. injection Ez' as <-.
  euclid_8 (2 ^ bits - x). euclid_8 x. euclid_8 (x - 2 ^ bits).
  destruct (Z.eq_dec ((2 ^ bits - x) / 8) 0) as [E|Hq].
  - rewrite E. change (- 0) with 0. unfold wrap. rewrite Z.mod_0_l by lia. lia.
  - rewrite wrap_opp by lia. lia.
Qed.

End SignedQuotient.

(** The quotient by 8 and the two shifts by 3 of every dividend. *)
Lemma sdiv_8_and_shifts (bits xv : Z) :
  (4 < bits)%Z -> (0 <= xv < 2 ^ bits)%Z ->
  exists z zl za,
    Sem.eval_binop bits SDiv xv 8 = Some z /\
    Sem.eval_binop bits LShr xv 3 = Some zl /\
    Sem.eval_binop bits AShr xv 3 = Some za /\
    (zl = z <-> (xv < 2 ^ (bits - 1))%Z) /\
    (za = z <-> (xv < 2 ^ (bits - 1))%Z \/ (xv mod 8 = 0)%Z).
Proof.
  intros Hbits Hx.
  assert (El : Sem.eval_binop bits LShr xv 3 = Some (Z.shiftr xv 3)).
  { unfold Sem.eval_binop.
    assert (E3 : (3 <? bits)%Z = true) by (apply Z.ltb_lt; lia).
    now rewrite E3. }
  destruct (Z.lt_ge_cases xv (2 ^ (bits - 1))) as [Hs|Hn].
  - destruct (@sdiv_8_shift bits xv) as [E1 E2]; [lia | lia |].
    exists (Z.shiftr xv 3), (Z.shiftr xv 3), (Z.shiftr xv 3).
    rewrite <- E2, E1. repeat split; auto.
  - destruct (@div_8_negative_values bits Hbits xv) as (E1 & E2 & E3); [lia|].
    do 3 eexists. split; [exact E1|]. split; [exact E2|]. split; [exact E3|].
    assert (Hl := @sdiv_8_lshr_negative bits Hbits xv _ _ (conj Hn (proj2 Hx))
                    E1 E2).
    assert (Ha := @sdiv_8_ashr_negative bits Hbits xv _ _ (conj Hn (proj2 Hx))
                    E1 E3).
    split; split; try lia; try tauto.
Qed.

Lemma exec_quotient (bits : Z) (args : nat -> Z) (m : Sem.machine)
  (id : nat) (opc : BinaryOps) (x : Value) (c xv z : Z) :
  (4 < bits)%Z -> (0 <= c < 16)%Z ->
  Sem.eval_value bits args m x = Some xv ->
  Sem.eval_binop bits opc xv c = Some z ->
  Sem.exec_inst bits args m (BinaryOperator id opc x (ConstantInt c))
  = Some {| Sem.regs := (id, z) :: Sem.regs m; Sem.mem := Sem.mem m |}.
Proof.
  intros Hbits Hc Ex Ez. apply exec_binop_intro with (x := xv) (y := c); auto.
  simpl. now rewrite (@wrap_const bits Hbits c Hc).
Qed.

(** X6.  TestPass.cpp, lines 149-168, on a signed quotient by 8 of an
    operand that is no constant: the visit puts [LShr(x, 3)] in its place,
    and the shift has the value of the quotient exactly when the dividend
    is not negative. *)
Theorem TestPass_StrengthReduction_sdiv_8_logical_shift
  (bits : Z) (args : nat -> Z) (s : TestPass.state) (b : nat)
  (pre suf : BasicBlock) (id : nat) (x : Value) (m : Sem.machine) (xv : Z) :
  (4 < bits)%Z ->
  NoDup (all_ids (fst s)) ->
  getBlock (fst s) b = pre ++ BinaryOperator id SDiv x (ConstantInt 8) :: suf ->
  isConstant x = false ->
  Sem.eval_value bits args m x = Some xv -> (0 <= xv < 2 ^ bits)%Z ->
  exists f' shifted z z',
    TestPass.StrengthReductionPass.visit bits
      (BinaryOperator id SDiv x (ConstantInt 8)) s = Ok (f', true) /\
    rewritten_at (fst s) f' b pre
      [BinaryOperator shifted LShr x (ConstantInt 3)] suf id (InstRef shifted) /\
    Sem.exec_inst bits args m (BinaryOperator id SDiv x (ConstantInt 8))
    = Some {| Sem.regs := (id, z) :: Sem.regs m; Sem.mem := Sem.mem m |} /\
    Sem.exec_inst bits args m (BinaryOperator shifted LShr x (ConstantInt 3))
    = Some {| Sem.regs := (shifted, z') :: Sem.regs m; Sem.mem := Sem.mem m |} /\
    (z' = z <-> (xv < 2 ^ (bits - 1))%Z).
Proof.
  intros Hbits Hnd Hblk Hx Ex Hxv.
  destruct (@TestPass_StrengthReduction_div_8_step bits s b pre suf id SDiv x
              Hnd Hblk (or_introl eq_refl) Hx) as (f' & shifted & _ & Hv & Hr).
  destruct (@sdiv_8_and_shifts bits xv Hbits Hxv)
    as (z & zl & za & E1 & E2 & _ & Hl & _).
  exists f', shifted, z, zl.
  split; [exact Hv|]. split; [exact Hr|].
  split; [|split; [|exact Hl]]; eapply exec_quotient; eauto; lia.
Qed.

(** X7.  part_000, lines 82-93: the visit of a signed quotient by 8 puts
    [AShr(x, 3)] in its place, and the shift has the value of the quotient
    exactly when the dividend is not negative or is a multiple of 8 (the
    quotient rounds towards zero, the shift towards minus infinity). *)
Theorem Part000_StrengthReduction_sdiv_8_arithmetic_shift
  (bits : Z) (args : nat -> Z) (f : Function) (b : nat)
  (pre suf : BasicBlock) (id : nat) (x : Value) (m : Sem.machine) (xv : Z) :
  (4 < bits)%Z ->
  NoDup (all_ids f) ->
  getBlock f b = pre ++ BinaryOperator id SDiv x (ConstantInt 8) :: suf ->
  Sem.eval_value bits args m x = Some xv -> (0 <= xv < 2 ^ bits)%Z ->
  exists f' shifted z z',
    Part000.StrengthReductionPass.visit
      (BinaryOperator id SDiv x (ConstantInt 8)) f = Ok f' /\
    rewritten_at f f' b pre
      [BinaryOperator shifted AShr x (ConstantInt 3)] suf id (InstRef shifted) /\
    Sem.exec_inst bits args m (BinaryOperator id SDiv x (ConstantInt 8))
    = Some {| Sem.regs := (id, z) :: Sem.regs m; Sem.mem := Sem.mem m |} /\
    Sem.exec_inst bits args m (BinaryOperator shifted AShr x (ConstantInt 3))
    = Some {| Sem.regs := (shifted, z') :: Sem.regs m; Sem.mem := Sem.mem m |} /\
    (z' = z <-> (xv < 2 ^ (bits - 1))%Z \/ (xv mod 8 = 0)%Z).
Proof.
  intros Hbits Hnd Hblk Ex Hxv.
  destruct (@Part000_StrengthReduction_sdiv_8_step f b pre suf id x Hnd Hblk)
    as (f' & shifted & _ & Hv & Hr).
  destruct (@sdiv_8_and_shifts bits xv Hbits Hxv)
    as (z & zl & za & E1 & _ & E3 & _ & Ha).
  exists f', shifted, z, za.
  split; [exact Hv|]. split; [exact Hr|].
  split; [|split; [|exact Ha]]; eapply exec_quotient; eauto; lia.
Qed.

(** *** The function a pass returns is laid out as the one it was given *)

Lemma ids_step_length (id : nat) (f f' : Function) :
  ids_step id f f' -> length f' = length f.
Proof.
  intros (repl & _ & E). apply (f_equal (@length _)) in E.
  now rewrite !length_map in E.
Qed.

Section ScanLength.

Variable St : Type.
Variable fn : St -> Function.
Variable body : nat -> iterator -> Instruction -> St -> outcome St.

Hypothesis body_ids :
  forall b it ins s s',
    NoDup (all_ids (fn s)) -> In (getId ins) (all_ids (fn s)) ->
    body b it ins s = Ok s' ->
    ids_step (getId ins) (fn s) (fn s').

Lemma visit_blocks_length (s s' : St) :
  NoDup (all_ids (fn s)) ->
  visit_blocks fn body (map ids (fn s)) (seq 0 (length (fn s))) s = Ok s' ->
  length (fn s') = length (fn s).
Proof.
  intros Hnd Hv.
  apply (@visit_blocks_settles St fn body
           (fun _ s0 => NoDup (all_ids (fn s0)) /\
                        length (fn s0) = length (fn s)))
    with (L0 := map ids (fn s)) (bs := seq 0 (length (fn s))) (s := s).
  - intros V s0 H. apply H.
  - exact body_ids.
  - intros b ins s0 s1 V p rest [Hn Hl] Hin _ Hb.
    assert (Hi : In (getId ins) (all_ids (fn s0))).
    { rewrite all_ids_flat. apply in_map. eapply in_getBlock; eauto. }
    assert (Hstep := @body_ids b _ ins s0 s1 Hn Hi Hb).
    split; [eapply ids_step_NoDup; eauto|].
    rewrite <- Hl. eapply ids_step_length; eauto.
  - apply seq_NoDup.
  - auto.
  - intros b _. apply getBlock_ids.
  - exact Hv.
Qed.

End ScanLength.

Lemma base_of_add_operand (op0 op1 b : Value) :
  Part000.MultiInstructionOptimizationPass.base_of_add op0 op1 = Some b ->
  In b [op0; op1].
Proof.
  unfold Part000.MultiInstructionOptimizationPass.base_of_add.
  destruct (isConstantInt op1).
  - destruct (equalsInt op1 1); [|discriminate]. intros [= <-]. simpl. auto.
  - destruct (isConstantInt op0); [|discriminate].
    destruct (equalsInt op0 1); [|discriminate]. intros [= <-]. simpl. auto.
Qed.

(** The subtraction of a window gets an operand of the addition, which is
    defined before both. *)
Lemma ssa_order_apply_window (f : Function) (blk : nat)
  (pre suf : BasicBlock) (ins : Instruction) :
  NoDup (all_ids f) -> ssa_order f ->
  getBlock f blk = pre ++ ins :: suf ->
  ssa_order (apply_window f (chain_window ins suf)).
Proof.
  intros Hnd Hssa Hblk.
  destruct (chain_window ins suf) as [[subId b]|] eqn:W; [|exact Hssa].
  destruct (chain_window_Some _ _ W)
    as (addInst & op0 & op1 & sid & slot & loadId & rest & -> & Hbase & ->).
  simpl.
  destruct (@concat_block_split f blk) as (L & R & Hc).
  { apply (@getBlock_length f blk (BinaryOperator addInst Add op0 op1)).
    rewrite Hblk. apply in_or_app. right. now left. }
  rewrite Hblk in Hc.
  set (theAdd := BinaryOperator addInst Add op0 op1) in *.
  set (theSub := BinaryOperator subId Sub (InstRef loadId) (ConstantInt 1)) in *.
  set (A := L ++ pre).
  set (M := [theAdd; StoreInst sid (InstRef addInst) slot; LoadInst loadId slot]).
  assert (Hsplit : concat f = (A ++ M) ++ theSub :: (rest ++ R)).
  { rewrite Hc. unfold A, M. rewrite <- !app_assoc. reflexivity. }
  assert (Hsplit0 : concat f = A ++ theAdd :: (tl M ++ theSub :: rest ++ R)).
  { rewrite Hc. unfold A, M. rewrite <- !app_assoc. reflexivity. }
  assert (Hn := Hnd). rewrite all_ids_flat in Hn. fold (ids (concat f)) in Hn.
  rewrite Hsplit, ids_app in Hn. simpl in Hn.
  apply NoDup_app_head in Hn. destruct Hn as [HsA HsB].
  unfold ssa_order, setOperand0. rewrite <- concat_map, Hsplit, map_app.
  simpl map. rewrite !set_operand0_notin by assumption.
  assert (Eg : set_operand0 subId b theSub
               = BinaryOperator subId Sub b (ConstantInt 1)).
  { unfold set_operand0, theSub. simpl. now rewrite Nat.eqb_refl. }
  rewrite Eg. unfold ssa_order in Hssa. rewrite Hsplit in Hssa.
  apply defs_before_uses_app in Hssa. destruct Hssa as [H1 [H2 H3]].
  apply defs_before_uses_app. split; [exact H1|]. split; [|exact H3].
  intros j [E|[E|[]]]; [|discriminate]. subst b.
  apply in_or_app. left. rewrite <- in_rev, ids_app. apply in_or_app. left.
  apply (@ssa_order_operand f A (tl M ++ theSub :: rest ++ R) theAdd j).
  - unfold ssa_order. rewrite Hsplit. apply defs_before_uses_app.
    split; [exact H1 | split; [exact H2 | exact H3]].
  - exact Hsplit0.
  - now apply base_of_add_operand.
Qed.

Lemma Part000_MultiInstruction_keeps_order (fuel : nat) (F F' : Function)
  (pa : PreservedAnalyses) :
  NoDup (all_ids F) -> ssa_order F -> length (all_ids F) <= fuel ->
  Part000.MultiInstructionOptimizationPass.run fuel F = Ok (F', pa) ->
  NoDup (all_ids F') /\ ssa_order F'.
Proof.
  intros Hnd Hssa Hfuel Hrun.
  destruct (@advancing_scans_visit_each_instruction_once 0%Z fuel F Hnd Hfuel)
    as (_ & _ & _ & _ & E).
  rewrite E in Hrun. apply bind_Ok in Hrun. destruct Hrun as (s & Hv & Hrep).
  injection Hrep as <- _.
  apply (@visit_blocks_settles Function Part000.fn
           Part000.MultiInstructionOptimizationPass.visit
           (fun _ f => NoDup (all_ids f) /\ ssa_order f))
    with (L0 := map ids F) (bs := seq 0 (length F)) (s := F).
  - intros V s0 H. apply H.
  - intros b it ins s0 s1 _ _. apply Part000_MultiInstruction_visit_ids_step.
  - intros b ins s0 s1 V p rest [Hn Ho] Hin Hids Hb. unfold Part000.fn in *.
    destruct (@block_split_of_ids s0 b ins p rest Hn Hin Hids)
      as (pre & suf & Hblk & Hsuf).
    rewrite <- Hsuf, begin_ids_ids in Hb.
    rewrite (@Part000_MultiInstruction_visit_window s0 b pre ins suf Hn Hblk)
      in Hb.
    injection Hb as <-. split.
    + destruct (chain_window ins suf) as [[subId bv]|]; simpl; [|exact Hn].
      now rewrite all_ids_setOperand0.
    + now apply (@ssa_order_apply_window s0 b pre suf ins).
  - apply seq_NoDup.
  - auto.
  - intros b _. apply getBlock_ids.
  - exact Hv.
Qed.

(** What a pass returns is laid out as what it was given. *)
Definition same_layout (F F' : Function) : Prop :=
  NoDup (all_ids F') /\ ssa_order F' /\ length F' = length F.

(** X9.  On a function whose instructions are distinct and defined before
    they are used, each of the five passes that advance their iterator
    before they erase returns a function of this kind again, and one that
    has as many blocks. *)
Theorem passes_keep_the_layout (bits : Z) (fuel : nat) (F : Function) :
  NoDup (all_ids F) -> ssa_order F -> length (all_ids F) <= fuel ->
  (exists F' pa,
     TestPass.StrengthReductionPass.run bits fuel F = Ok (F', pa) /\
     same_layout F F') /\
  (exists F' pa,
     TestPass.MultiInstructionOptPass.run fuel F = Ok (F', pa) /\
     same_layout F F') /\
  (exists F',
     Part000.AlgebraicIdentityPass.run fuel F = Ok (F', PA_none) /\
     same_layout F F') /\
  (exists F',
     Part000.StrengthReductionPass.run fuel F = Ok (F', PA_none) /\
     same_layout F F') /\
  (exists F',
     Part000.MultiInstructionOptimizationPass.run fuel F = Ok (F', PA_none) /\
     same_layout F F').
Proof.
  intros Hnd Hssa Hfuel.
  destruct (@advancing_scans_visit_each_instruction_once bits fuel F Hnd Hfuel)
    as (E1 & E2 & E3 & E4 & E5).
  split; [|split; [|split; [|split]]].
  - destruct (@TestPass_StrengthReduction_settles bits fuel F Hnd Hssa Hfuel)
      as (F' & pa & Hrun & Hn & Ho & _).
    exists F', pa. split; [exact Hrun|]. split; [exact Hn|]. split; [exact Ho|].
    rewrite E1 in Hrun. apply bind_Ok in Hrun.
    destruct Hrun as (s & Hv & Hrep). injection Hrep as <- _.
    apply (@visit_blocks_length TestPass.state fst
             (fun _ _ => TestPass.StrengthReductionPass.visit bits))
      with (s := (F, false)); auto.
    intros b it ins s0 s1. apply TestPass_StrengthReduction_visit_ids.
  - destruct (@TestPass_MultiInstruction_settles fuel F Hnd Hssa Hfuel)
      as (F' & pa & Hrun & Hn & Ho & _).
    exists F', pa. split; [exact Hrun|]. split; [exact Hn|]. split; [exact Ho|].
    rewrite E2 in Hrun. apply bind_Ok in Hrun.
    destruct Hrun as (s & Hv & Hrep). injection Hrep as <- _.
    apply (@visit_blocks_length TestPass.state fst
             (fun _ _ => TestPass.MultiInstructionOptPass.visit))
      with (s := (F, false)); auto.
    intros b it ins s0 s1 _ _. apply TestPass_MultiInstruction_visit_ids.
  - destruct (@Part000_AlgebraicIdentity_settles fuel F Hnd Hssa Hfuel)
      as (F' & Hrun & Hn & Ho & _).
    exists F'. split; [exact Hrun|]. split; [exact Hn|]. split; [exact Ho|].
    rewrite E3 in Hrun. apply bind_Ok in Hrun.
    destruct Hrun as (s & Hv & Hrep). injection Hrep as <-.
    apply (@visit_blocks_length Function Part000.fn
             (fun _ _ => Part000.AlgebraicIdentityPass.visit))
      with (s := F); auto.
    intros b it ins s0 s1 _ Hi Hb. unfold Part000.fn in *.
    now apply Part000_AlgebraicIdentity_visit_ids.
  - destruct (@Part000_StrengthReduction_settles fuel F Hnd Hssa Hfuel)
      as (F' & Hrun & Hn & Ho & _).
    exists F'. split; [exact Hrun|]. split; [exact Hn|]. split; [exact Ho|].
    rewrite E4 in Hrun. apply bind_Ok in Hrun.
    destruct Hrun as (s & Hv & Hrep). injection Hrep as <-.
    apply (@visit_blocks_length Function Part000.fn
             (fun _ _ => Part000.StrengthReductionPass.visit))
      with (s := F); auto.
    intros b it ins s0 s1 Hn0 Hi Hb. unfold Part000.fn in *.
    now apply Part000_StrengthReduction_visit_ids.
  - destruct (@Part000_MultiInstruction_settles fuel F Hnd Hfuel)
      as (F' & Hrun & _).
    exists F'. split; [exact Hrun|].
    destruct (@Part000_MultiInstruction_keeps_order fuel F F' PA_none
                Hnd Hssa Hfuel Hrun) as [Hn Ho].
    split; [exact Hn|]. split; [exact Ho|].
    rewrite E5 in Hrun. apply bind_Ok in Hrun.
    destruct Hrun as (s & Hv & Hrep). injection Hrep as <-.
    apply (@visit_blocks_length Function Part000.fn
             Part000.MultiInstructionOptimizationPass.visit)
      with (s := F); auto.
    intros b it ins s0 s1 _ _. apply Part000_MultiInstruction_visit_ids_step.
Qed.

(** *** The two rewriting passes of part_000, one after the other *)

Lemma is_identity_subst_ref (id n : nat) (y : Instruction) :
  is_identity (mapOperands (subst id (InstRef n)) y) = is_identity y.
Proof.
  destruct y as [i opc a b| |]; try reflexivity.
  destruct opc; try reflexivity; simpl; now rewrite !equalsInt_subst_ref.
Qed.

Lemma identities_layout (f f' : Function) (A B new : list Instruction)
  (ins : Instruction) (n : nat) :
  nothing_left (fun _ => is_identity) f ->
  concat f = A ++ ins :: B ->
  concat f' = A ++ new ++ map (mapOperands (subst (getId ins) (InstRef n))) B ->
  (forall x, In x new -> is_identity x = false) ->
  nothing_left (fun _ => is_identity) f'.
Proof.
  intros H Hsplit Hsplit' Hnew x Hin. rewrite Hsplit' in Hin.
  apply in_app_or in Hin. destruct Hin as [Hin|Hin].
  - apply H. rewrite Hsplit. apply in_or_app. now left.
  - apply in_app_or in Hin. destruct Hin as [Hin|Hin]; [now apply Hnew|].
    apply in_map_iff in Hin. destruct Hin as (y & <- & HyB).
    rewrite is_identity_subst_ref. apply H. rewrite Hsplit.
    apply in_or_app. right. now right.
Qed.

(** The strength reduction of part_000 makes no identity. *)
Lemma Part000_StrengthReduction_visit_identities (f f' : Function)
  (A B : list Instruction) (ins : Instruction) :
  NoDup (all_ids f) -> ssa_order f -> concat f = A ++ ins :: B ->
  nothing_left (fun _ => is_identity) f ->
  Part000.StrengthReductionPass.visit ins f = Ok f' ->
  nothing_left (fun _ => is_identity) f'.
Proof.
  intros Hnd Hssa Hsplit Hno Hv.
  assert (Hops := @ssa_order_operand f A B ins).
  destruct ins as [id opc a b| |]; try (now injection Hv as <-).
  destruct opc; try (now injection Hv as <-); simpl in Hv.
  - (* Mul *)
    assert (Hmul : forall x,
              (forall j, x = InstRef j -> In j (ids A)) ->
              Part000.replace_erase
                (insertBefore
                   (insertBefore f id
                      (BinaryOperator (freshId f) Shl x (ConstantInt 4))) id
                   (BinaryOperator
                      (freshId (insertBefore f id
                         (BinaryOperator (freshId f) Shl x (ConstantInt 4))))
                      Sub (InstRef (freshId f)) x)) id
                (InstRef
                   (freshId (insertBefore f id
                      (BinaryOperator (freshId f) Shl x (ConstantInt 4)))))
              = Ok f' ->
              nothing_left (fun _ => is_identity) f').
    { intros x Hx Hre.
      apply replace_erase_value in Hre. destruct Hre as [_ ->].
      destruct (@twice_inserted_erased_layout f A B
                  (BinaryOperator id Mul a b) Shl Sub
                  x (ConstantInt 4) x Hnd Hssa Hsplit) as (_ & _ & Hc).
      { intros j [E|[E|[E|[]]]]; try discriminate; now apply Hx. }
      apply (@identities_layout f _ A B _ (BinaryOperator id Mul a b) _
               Hno Hsplit Hc).
      intros y [<-|[<-|[]]]; reflexivity. }
    destruct (equalsInt a 15) eqn:Ea.
    + rewrite Ea in Hv. apply (Hmul b); [|exact Hv].
      intros j ->. apply (Hops j Hssa Hsplit). simpl. auto.
    + destruct (equalsInt b 15) eqn:Eb; [|now injection Hv as <-].
      apply (Hmul a); [|exact Hv].
      intros j ->. apply (Hops j Hssa Hsplit). simpl. auto.
  - (* SDiv *)
    destruct (equalsInt b 8) eqn:Eb; [|now injection Hv as <-].
    apply replace_erase_value in Hv. destruct Hv as [_ ->].
    assert (Hc := @inserted_erased_layout f A B (BinaryOperator id SDiv a b)
                    AShr a (ConstantInt 3) Hnd Hssa Hsplit).
    cbv zeta in Hc.
    assert (Ho : forall j, In (InstRef j) [a; ConstantInt 3] -> In j (ids A)).
    { intros j [E|[E|[]]]; try discriminate.
      apply (Hops j Hssa Hsplit). simpl. auto. }
    specialize (Hc Ho).
    apply (@identities_layout f _ A B _ (BinaryOperator id SDiv a b) _
             Hno Hsplit Hc).
    intros y [<-|[]]. reflexivity.
Qed.

(** The algebraic-identity pass of part_000 then its strength-reduction
    pass: the strength reduction makes no identity, so the function the two
    leave is one that neither of them rewrites. *)
Lemma Part000_identities_then_strength_reduction
  (fuel fuel' fuel'' : nat) (F : Function) :
  NoDup (all_ids F) -> ssa_order F -> length (all_ids F) <= fuel ->
  exists F1,
    Part000.AlgebraicIdentityPass.run fuel F = Ok (F1, PA_none) /\
    (length (all_ids F1) <= fuel' ->
     exists F2,
       Part000.StrengthReductionPass.run fuel' F1 = Ok (F2, PA_none) /\
       nothing_left (fun _ => is_identity) F2 /\
       nothing_left (fun _ => Part000_reduces) F2 /\
       (length (all_ids F2) <= fuel'' ->
        Part000.AlgebraicIdentityPass.run fuel'' F2 = Ok (F2, PA_none) /\
        Part000.StrengthReductionPass.run fuel'' F2 = Ok (F2, PA_none))).
Proof.
  intros Hnd Hssa Hfuel.
  destruct (@Part000_AlgebraicIdentity_settles fuel F Hnd Hssa Hfuel)
    as (F1 & Hrun1 & Hnd1 & Hssa1 & Hno1).
  exists F1. split; [exact Hrun1|]. intros Hfuel'.
  destruct (@Part000_StrengthReduction_settles fuel' F1 Hnd1 Hssa1 Hfuel')
    as (F2 & Hrun2 & Hnd2 & Hssa2 & Hno2).
  exists F2. split; [exact Hrun2|].
  assert (Hid2 : nothing_left (fun _ => is_identity) F2).
  { destruct (@advancing_scans_visit_each_instruction_once 0%Z fuel' F1
                Hnd1 Hfuel') as (_ & _ & _ & E & _).
    rewrite E in Hrun2. apply bind_Ok in Hrun2.
    destruct Hrun2 as (s & Hv & Hrep). injection Hrep as <-.
    apply (@visit_blocks_keeps Function Part000.fn
             (fun _ _ => Part000.StrengthReductionPass.visit)
             (fun _ => Part000_reduces)
             (nothing_left (fun _ => is_identity)))
      with (s := F1); auto.
    - intros b it ins s0 s1 Hn Hi Hb. unfold Part000.fn in *.
      now apply Part000_StrengthReduction_visit_ids.
    - intros b it ins s0 s1 V. apply Part000_StrengthReduction_settles_visit.
    - intros b it ins s0 s1 A B. unfold Part000.fn.
      now apply Part000_StrengthReduction_visit_identities. }
  split; [exact Hid2|]. split; [exact Hno2|]. intros Hfuel''. split.
  - now apply Part000_AlgebraicIdentity_nothing_left.
  - now apply Part000_StrengthReduction_nothing_left.
Qed.

(* ------------------------------------------------------------------------- *)
(** ** Registration of the passes *)
(* ------------------------------------------------------------------------- *)

Module Plugin.

Import String.StringSyntax.

(** The pass objects of the two files. *)
Inductive FunctionPass : Type :=
| TestPass_AlgebraicIdentityPass
| TestPass_StrengthReductionPass
| TestPass_MultiInstructionOptPass
| Part000_AlgebraicIdentityPass
| Part000_StrengthReductionPass
| Part000_MultiInstructionOptimizationPass.

(** A [FunctionPassManager] holds the passes in the order they were added. *)
Definition FunctionPassManager : Type := list FunctionPass.

Definition addPass (FPM : FunctionPassManager) (P : FunctionPass)
  : FunctionPassManager := FPM ++ [P].

(** src/TestPass.cpp, lines 263-276: the callback given to
    [registerPipelineParsingCallback]; the manager after the call and the
    value returned. *)
Definition TestPass_callback (Name : String.string) (FPM : FunctionPassManager)
  : FunctionPassManager * bool :=
  if String.eqb Name "algebraic-id-pass" then
    (addPass FPM TestPass_AlgebraicIdentityPass, true)
  else if String.eqb Name "strength-reduction-pass" then
    (addPass FPM TestPass_StrengthReductionPass, true)
  else if String.eqb Name "multi-instr-pass" then
    (addPass FPM TestPass_MultiInstructionOptPass, true)
  else (FPM, false).

(** src/unnamed/part_000, lines 163-179. *)
Definition Part000_callback (Name : String.string) (FPM : FunctionPassManager)
  : FunctionPassManager * bool :=
  if String.eqb Name "algebraic-identity" then
    (addPass FPM Part000_AlgebraicIdentityPass, true)
  else if String.eqb Name "strength-reduction" then
    (addPass FPM Part000_StrengthReductionPass, true)
  else if String.eqb Name "multi-instruction" then
    (addPass FPM Part000_MultiInstructionOptimizationPass, true)
  else (FPM, false).

(** The file a pass object comes from. *)
Definition of_TestPass (P : FunctionPass) : bool :=
  match P with
  | TestPass_AlgebraicIdentityPass | TestPass_StrengthReductionPass
  | TestPass_MultiInstructionOptPass => true
  | _ => false
  end.

End Plugin.

(** X12.  Every name is refused by one of the two callbacks at least; a
    callback that accepts a name adds one pass of its own file behind the
    passes the manager holds, and a callback that refuses it leaves the
    manager as it is. *)
Theorem callbacks_share_no_name (Name : String.string)
  (FPM : Plugin.FunctionPassManager) :
  (snd (Plugin.TestPass_callback Name FPM) = false \/
   snd (Plugin.Part000_callback Name FPM) = false) /\
  (if snd (Plugin.TestPass_callback Name FPM)
   then exists P, fst (Plugin.TestPass_callback Name FPM) = FPM ++ [P] /\
                  Plugin.of_TestPass P = true
   else fst (Plugin.TestPass_callback Name FPM) = FPM) /\
  (if snd (Plugin.Part000_callback Name FPM)
   then exists P, fst (Plugin.Part000_callback Name FPM) = FPM ++ [P] /\
                  Plugin.of_TestPass P = false
   else fst (Plugin.Part000_callback Name FPM) = FPM).
Proof.
  unfold Plugin.TestPass_callback, Plugin.Part000_callback, Plugin.addPass.
  repeat match goal with
         | |- context [String.eqb Name ?s] =>
             destruct (String.eqb_spec Name s) as [->|?]
         end;
    simpl; repeat split; eauto; try (right; reflexivity); try (left; reflexivity);
    try congruence.
Qed.

(* ------------------------------------------------------------------------- *)
(** ** The properties at concrete functions *)
(* ------------------------------------------------------------------------- *)

Module Programs.

Local Open Scope Z_scope.

(** [%1 = add 0, %x; %2 = mul %1, 1; store %2, %p] *)
Definition stored_identities : Function :=
  [[BinaryOperator 1 Add (ConstantInt 0) (Argument 0);
    BinaryOperator 2 Mul (InstRef 1) (ConstantInt 1);
    StoreInst 3 (InstRef 2) (Argument 1)]].

(** [%1 = mul %x, 15; %2 = mul 15, %1; store %2, %p] *)
Definition stored_products : Function :=
  [[BinaryOperator 1 Mul (Argument 0) (ConstantInt 15);
    BinaryOperator 2 Mul (ConstantInt 15) (InstRef 1);
    StoreInst 3 (InstRef 2) (Argument 1)]].

(** Two blocks: [%1 = add %x, 1] and [%2 = sub %1, 1; store %2, %p] *)
Definition stored_chain : Function :=
  [[BinaryOperator 1 Add (Argument 0) (ConstantInt 1)];
   [BinaryOperator 2 Sub (InstRef 1) (ConstantInt 1);
    StoreInst 3 (InstRef 2) (Argument 1)]].

(** [%1 = mul 3, 15; %2 = udiv %x, 8; %3 = mul %2, 15; %4 = add %1, %3;
     store %4, %p] *)
Definition stored_reductions : Function :=
  [[BinaryOperator 1 Mul (ConstantInt 3) (ConstantInt 15);
    BinaryOperator 2 UDiv (Argument 0) (ConstantInt 8);
    BinaryOperator 3 Mul (InstRef 2) (ConstantInt 15);
    BinaryOperator 4 Add (InstRef 1) (InstRef 3);
    StoreInst 5 (InstRef 4) (Argument 1)]].

(** [%1 = add %x, 0; %2 = mul %1, 15; %3 = sdiv %2, 8; store %3, %p] *)
Definition stored_pipeline : Function :=
  [[BinaryOperator 1 Add (Argument 0) (ConstantInt 0);
    BinaryOperator 2 Mul (InstRef 1) (ConstantInt 15);
    BinaryOperator 3 SDiv (InstRef 2) (ConstantInt 8);
    StoreInst 4 (InstRef 3) (Argument 1)]].

(** [x = -12], read unsigned at width 32. *)
Definition args_minus_12 (n : nat) : Z :=
  match n with
  | O => 2 ^ 32 - 12
  | _ => 4096
  end.

(** No register and no memory cell is set. *)
Definition start : Sem.machine := {| Sem.regs := []; Sem.mem := [] |}.

End Programs.

Definition no_sdiv_8b (f : Function) : bool :=
  forallb (fun x => match x with
                    | BinaryOperator _ SDiv _ b => negb (equalsInt b 8)
                    | _ => true
                    end) (concat f).

Lemma no_sdiv_8b_sound (f : Function) : no_sdiv_8b f = true -> no_sdiv_8 f.
Proof.
  intros H id a b Hin. unfold no_sdiv_8b in H. rewrite forallb_forall in H.
  specialize (H _ Hin). simpl in H. now apply negb_true_iff.
Defined.

Definition no_sdivb (f : Function) : bool :=
  forallb (fun x => match x with
                    | BinaryOperator _ SDiv _ _ => false
                    | _ => true
                    end) (concat f).

Lemma no_sdivb_sound (f : Function) : no_sdivb f = true -> no_sdiv f.
Proof.
  intros H id a b Hin. unfold no_sdivb in H. rewrite forallb_forall in H.
  specialize (H _ Hin). discriminate.
Defined.

Definition consts_in_rangeb (bits : Z) (f : Function) : bool :=
  forallb (fun x =>
             forallb (fun o => match o with
                               | ConstantInt c => (0 <=? c)%Z && (c <? 2 ^ bits)%Z
                               | _ => true
                               end) (operand_values x)) (concat f).

Lemma consts_in_rangeb_sound (bits : Z) (f : Function) :
  consts_in_rangeb bits f = true -> consts_in_range bits f.
Proof.
  intros H x c Hin Hc. unfold consts_in_rangeb in H.
  rewrite forallb_forall in H. specialize (H _ Hin).
  rewrite forallb_forall in H. specialize (H _ Hc). simpl in H.
  apply andb_prop in H. destruct H as [H1 H2].
  apply Z.leb_le in H1. apply Z.ltb_lt in H2. split; assumption.
Defined.

Lemma in_range_start (bits : Z) : in_range bits Programs.start.
Proof. split; intros k z H; discriminate. Defined.

Lemma Part000_AlgebraicIdentity_preserves_execution_witness :
  exists F' m2,
    Part000.AlgebraicIdentityPass.run 3 Programs.stored_identities
    = Ok (F', PA_none) /\
    Sem.exec_block 32 Examples.args_b10 (concat F') Programs.start = Some m2 /\
    Sem.mem m2 = [(4096, 10)%Z].
Proof.
  destruct (@Part000_AlgebraicIdentity_preserves_execution
              32 Examples.args_b10 3 Programs.stored_identities)
    as (F' & Hrun & H).
  - lia.
  - apply nodupb_NoDup. vm_compute. reflexivity.
  - apply ssa_orderb_sound. vm_compute. reflexivity.
  - vm_compute. lia.
  - destruct (H Programs.start
                {| Sem.regs := [(2, 10%Z); (1, 10%Z)];
                   Sem.mem := [(4096, 10)%Z] |})
      as (m2 & E2 & Hmem & _).
    + apply in_range_start.
    + vm_compute. reflexivity.
    + exists F', m2. split; [exact Hrun|]. split; [exact E2 | exact Hmem].
Defined.

Lemma Part000_StrengthReduction_preserves_execution_witness :
  exists F' m2,
    Part000.StrengthReductionPass.run 3 Programs.stored_products
    = Ok (F', PA_none) /\
    Sem.exec_block 32 Examples.args_b10 (concat F') Programs.start = Some m2 /\
    Sem.mem m2 = [(4096, 2250)%Z].
Proof.
  destruct (@Part000_StrengthReduction_preserves_execution
              32 Examples.args_b10 3 Programs.stored_products)
    as (F' & Hrun & H).
  - lia.
  - apply nodupb_NoDup. vm_compute. reflexivity.
  - apply ssa_orderb_sound. vm_compute. reflexivity.
  - vm_compute. lia.
  - apply no_sdiv_8b_sound. vm_compute. reflexivity.
  - destruct (H Programs.start
                {| Sem.regs := [(2, 2250%Z); (1, 150%Z)];
                   Sem.mem := [(4096, 2250)%Z] |})
      as (m2 & E2 & Hmem & _).
    + apply in_range_start.
    + vm_compute. reflexivity.
    + exists F', m2. split; [exact Hrun|]. split; [exact E2 | exact Hmem].
Defined.

Lemma TestPass_MultiInstruction_preserves_execution_witness :
  exists F' pa m2,
    TestPass.MultiInstructionOptPass.run 3 Programs.stored_chain
    = Ok (F', pa) /\
    Sem.exec_block 32 Examples.args_b10 (concat F') Programs.start = Some m2 /\
    Sem.mem m2 = [(4096, 10)%Z].
Proof.
  destruct (@TestPass_MultiInstruction_preserves_execution
              32 Examples.args_b10 3 Programs.stored_chain)
    as (F' & pa & Hrun & H).
  - lia.
  - apply nodupb_NoDup. vm_compute. reflexivity.
  - apply ssa_orderb_sound. vm_compute. reflexivity.
  - vm_compute. lia.
  - destruct (H Programs.start
                {| Sem.regs := [(2, 10%Z); (1, 11%Z)];
                   Sem.mem := [(4096, 10)%Z] |})
      as (m2 & E2 & Hmem & _).
    + apply in_range_start.
    + vm_compute. reflexivity.
    + exists F', pa, m2. split; [exact Hrun|]. split; [exact E2 | exact Hmem].
Defined.

Lemma TestPass_StrengthReduction_preserves_execution_witness :
  exists F' pa m2,
    TestPass.StrengthReductionPass.run 32 5 Programs.stored_reductions
    = Ok (F', pa) /\
    Sem.exec_block 32 Examples.args_b10 (concat F') Programs.start = Some m2 /\
    Sem.mem m2 = [(4096, 60)%Z].
Proof.
  destruct (@TestPass_StrengthReduction_preserves_execution
              32 Examples.args_b10 5 Programs.stored_reductions)
    as (F' & pa & Hrun & H).
  - lia.
  - apply nodupb_NoDup. vm_compute. reflexivity.
  - apply ssa_orderb_sound. vm_compute. reflexivity.
  - vm_compute. lia.
  - apply no_sdivb_sound. vm_compute. reflexivity.
  - apply consts_in_rangeb_sound. vm_compute. reflexivity.
  - destruct (H Programs.start
                {| Sem.regs := [(4, 60%Z); (3, 15%Z); (2, 1%Z); (1, 45%Z)];
                   Sem.mem := [(4096, 60)%Z] |})
      as (m2 & E2 & Hmem).
    + apply in_range_start.
    + vm_compute. reflexivity.
    + exists F', pa, m2. split; [exact Hrun|]. split; [exact E2 | exact Hmem].
Defined.

Lemma TestPass_StrengthReduction_sdiv_8_logical_shift_witness :
  exists f' shifted z z',
    TestPass.StrengthReductionPass.visit 32
      (BinaryOperator 1 SDiv (Argument 0) (ConstantInt 8))
      (Examples.sdiv_8, false) = Ok (f', true) /\
    rewritten_at Examples.sdiv_8 f' 0 []
      [BinaryOperator shifted LShr (Argument 0) (ConstantInt 3)]
      [BinaryOperator 2 Add (InstRef 1) (InstRef 1)] 1 (InstRef shifted) /\
    Sem.exec_inst 32 Programs.args_minus_12 Programs.start
      (BinaryOperator 1 SDiv (Argument 0) (ConstantInt 8))
    = Some {| Sem.regs := [(1, z)]; Sem.mem := [] |} /\
    Sem.exec_inst 32 Programs.args_minus_12 Programs.start
      (BinaryOperator shifted LShr (Argument 0) (ConstantInt 3))
    = Some {| Sem.regs := [(shifted, z')]; Sem.mem := [] |} /\
    (z' = z <-> (2 ^ 32 - 12 < 2 ^ (32 - 1))%Z).
Proof.
  apply (@TestPass_StrengthReduction_sdiv_8_logical_shift
           32 Programs.args_minus_12 (Examples.sdiv_8, false) 0 []
           [BinaryOperator 2 Add (InstRef 1) (InstRef 1)] 1 (Argument 0)
           Programs.start (2 ^ 32 - 12)%Z).
  - lia.
  - apply nodupb_NoDup. vm_compute. reflexivity.
  - reflexivity.
  - reflexivity.
  - reflexivity.
  - vm_compute. split; [discriminate | reflexivity].
Defined.

Lemma Part000_StrengthReduction_sdiv_8_arithmetic_shift_witness :
  exists f' shifted z z',
    Part000.StrengthReductionPass.visit
      (BinaryOperator 1 SDiv (Argument 0) (ConstantInt 8)) Examples.sdiv_8
    = Ok f' /\
    rewritten_at Examples.sdiv_8 f' 0 []
      [BinaryOperator shifted AShr (Argument 0) (ConstantInt 3)]
      [BinaryOperator 2 Add (InstRef 1) (InstRef 1)] 1 (InstRef shifted) /\
    Sem.exec_inst 32 Programs.args_minus_12 Programs.start
      (BinaryOperator 1 SDiv (Argument 0) (ConstantInt 8))
    = Some {| Sem.regs := [(1, z)]; Sem.mem := [] |} /\
    Sem.exec_inst 32 Programs.args_minus_12 Programs.start
      (BinaryOperator shifted AShr (Argument 0) (ConstantInt 3))
    = Some {| Sem.regs := [(shifted, z')]; Sem.mem := [] |} /\
    (z' = z <-> (2 ^ 32 - 12 < 2 ^ (32 - 1))%Z \/
                ((2 ^ 32 - 12) mod 8 = 0)%Z).
Proof.
  apply (@Part000_StrengthReduction_sdiv_8_arithmetic_shift
           32 Programs.args_minus_12 Examples.sdiv_8 0 []
           [BinaryOperator 2 Add (InstRef 1) (InstRef 1)] 1 (Argument 0)
           Programs.start (2 ^ 32 - 12)%Z).
  - lia.
  - apply nodupb_NoDup. vm_compute. reflexivity.
  - reflexivity.
  - reflexivity.
  - vm_compute. split; [discriminate | reflexivity].
Defined.

Lemma Part000_MultiInstruction_result_is_one_less_witness :
  exists bv m2,
    Sem.lookup_reg
      (Sem.regs {| Sem.regs := [(4, 10%Z); (3, 11%Z); (1, 11%Z)];
                   Sem.mem := [(4096, 11)%Z] |}) 4 = Some bv /\
    Sem.exec_block 32 Examples.args_b10
      (concat Examples.round_trip_chain_after) Programs.start = Some m2 /\
    Sem.lookup_reg (Sem.regs m2) 4 <> Some bv.
Proof.
  destruct (@Part000_MultiInstruction_result_is_one_less
              32 Examples.args_b10 Examples.round_trip_chain 0 []
              [StoreInst 2 (InstRef 1) (Argument 1);
               LoadInst 3 (Argument 1);
               BinaryOperator 4 Sub (InstRef 3) (ConstantInt 1)]
              (BinaryOperator 1 Add (Argument 0) (ConstantInt 1))
              4 (Argument 0))
    as (f' & store & load & subOp & rest & Hv & Hb & Hb' & H).
  - lia.
  - apply nodupb_NoDup. vm_compute. reflexivity.
  - apply ssa_orderb_sound. vm_compute. reflexivity.
  - reflexivity.
  - reflexivity.
  - injection Hb as <- <- <- <-.
    destruct (H Programs.start
                {| Sem.regs := [(4, 10%Z); (3, 11%Z); (1, 11%Z)];
                   Sem.mem := [(4096, 11)%Z] |})
      as (bv & m2 & _ & E1 & E2 & _ & Hne).
    + apply in_range_start.
    + vm_compute. reflexivity.
    + exists bv, m2. split; [exact E1|]. split; [exact E2 | exact Hne].
Defined.

Lemma passes_keep_the_layout_witness :
  exists F',
    Part000.MultiInstructionOptimizationPass.run 4 Examples.round_trip_chain
    = Ok (F', PA_none) /\
    same_layout Examples.round_trip_chain F'.
Proof.
  apply (@passes_keep_the_layout 32 4 Examples.round_trip_chain).
  - apply nodupb_NoDup. vm_compute. reflexivity.
  - apply ssa_orderb_sound. vm_compute. reflexivity.
  - vm_compute. lia.
Defined.

Lemma TestPass_MultiInstruction_rewrites_chain_witness :
  exists f',
    TestPass.MultiInstructionOptPass.visit
      (BinaryOperator 2 Sub (InstRef 1) (ConstantInt 1))
      (Programs.stored_chain, false) = Ok (f', true) /\
    getBlock f' 1
    = map (mapOperands (subst 2 (Argument 0)))
        ([] ++ [StoreInst 3 (InstRef 2) (Argument 1)]) /\
    (forall b', b' <> 1 ->
       getBlock f' b'
       = map (mapOperands (subst 2 (Argument 0)))
           (getBlock Programs.stored_chain b')) /\
    use_empty f' 2 = true.
Proof.
  apply (@TestPass_MultiInstruction_rewrites_chain
           (Programs.stored_chain, false) 1 []
           [StoreInst 3 (InstRef 2) (Argument 1)] 2 1 1 (Argument 0)).
  - apply nodupb_NoDup. vm_compute. reflexivity.
  - reflexivity.
  - reflexivity.
  - discriminate.
Defined.

(* ------------------------------------------------------------------------- *)
(** ** How a run can fail *)
(* ------------------------------------------------------------------------- *)

Section ScanFails.

Variable St : Type.
Variable fn : St -> Function.
Variable body : nat -> iterator -> Instruction -> St -> outcome St.
Variable Bad : error -> Prop.

Hypothesis body_ids :
  forall b it ins s s',
    NoDup (all_ids (fn s)) -> In (getId ins) (all_ids (fn s)) ->
    body b it ins s = Ok s' ->
    ids_step (getId ins) (fn s) (fn s').

Hypothesis body_fails :
  forall b it ins s e, body b it ins s = Fail e -> Bad e.

Lemma visit_ids_fails (b : nat) (todo : list nat) :
  forall s p e,
    NoDup (all_ids (fn s)) ->
    ids (getBlock (fn s) b) = p ++ todo ->
    visit_ids fn body b todo s = Fail e -> Bad e.
Proof.
  induction todo as [|id rest IH]; intros s p e Hnd Hids H; [discriminate|].
  destruct (@head_of_todo St fn b s p id rest Hnd Hids)
    as (ins & Hid & Hin & Hd & Hn).
  simpl in H. rewrite Hd in H. simpl in H.
  destruct (body b (begin_ids rest) ins s) as [s1|e1] eqn:Hb; simpl in H.
  - rewrite <- Hid in Hin.
    assert (Hstep := @body_ids _ _ _ _ _ Hnd Hin Hb). rewrite Hid in Hstep.
    destruct (@ids_step_blocks _ _ _ _ _ _ Hnd Hids Hstep)
      as (Hnd' & (p' & Hp') & _).
    exact (IH s1 p' e Hnd' Hp' H).
  - injection H as <-. eapply body_fails; eauto.
Qed.

Lemma visit_blocks_fails (L0 : list (list nat)) (bs : list nat) :
  forall s e,
    NoDup bs ->
    NoDup (all_ids (fn s)) ->
    (forall b, In b bs -> ids (getBlock (fn s) b) = nth b L0 []) ->
    visit_blocks fn body L0 bs s = Fail e -> Bad e.
Proof.
  induction bs as [|b r IH]; intros s e Hbs Hnd Hids H; [discriminate|].
  inversion Hbs as [|? ? Hb Hr]; subst.
  assert (Hblk := Hids b (or_introl eq_refl)).
  simpl in H.
  destruct (visit_ids fn body b (nth b L0 []) s) as [s1|e1] eqn:Hv; simpl in H.
  - destruct (@visit_ids_blocks St fn body body_ids b (nth b L0 []) s [] s1
                Hnd Hblk Hv) as [Hnd' Hother].
    apply (IH s1 e Hr Hnd'); [|exact H].
    intros b' Hb'. rewrite Hother; [apply Hids; now right|].
    intros ->. contradiction.
  - injection H as <-. exact (@visit_ids_fails b _ s [] e1 Hnd Hblk Hv).
Qed.

(** A scan that advances before it visits fails by a failure of a visit
    only. *)
Lemma scan_fails (fuel : nat) (s : St) (e : error) :
  NoDup (all_ids (fn s)) ->
  length (all_ids (fn s)) <= fuel ->
  for_each_block fn (post_increment_loop fn body fuel) s = Fail e -> Bad e.
Proof.
  intros Hnd Hfuel H.
  rewrite (@scan_visits_each_instruction_once St fn body body_ids fuel s
             Hnd Hfuel) in H.
  apply (@visit_blocks_fails (map ids (fn s)) (seq 0 (length (fn s))) s e);
    auto.
  - apply seq_NoDup.
  - intros b _. apply getBlock_ids.
Qed.

End ScanFails.

Lemma replace_erase_fails (f : Function) (id : nat) (v : Value) (e : error) :
  Part000.replace_erase f id v = Fail e -> e = SelfReplace.
Proof.
  unfold Part000.replace_erase.
  destruct (replaceAllUsesWith f id v) as [f1|e1] eqn:E; simpl.
  - rewrite (replace_then_erase _ _ _ E). discriminate.
  - intros [= <-]. eapply replaceAllUsesWith_Fail; eauto.
Qed.

Lemma TestPass_replace_erase_fails (f : Function) (id : nat) (v : Value)
  (e : error) :
  (f1 <- replaceAllUsesWith f id v ;;
   f2 <- eraseFromParent f1 id ;;
   Ok (f2, true)) = Fail e -> e = SelfReplace.
Proof.
  destruct (replaceAllUsesWith f id v) as [f1|e1] eqn:E; simpl.
  - rewrite (replace_then_erase _ _ _ E). discriminate.
  - intros [= <-]. eapply replaceAllUsesWith_Fail; eauto.
Qed.

(** X13.  With distinct instructions and as many iterations as
    instructions, the strength reduction of both files and the combiner of
    part_000 always return; the algebraic-identity pass of part_000 and the
    combiner of TestPass.cpp return or stop in [replaceAllUsesWith] asked
    to replace a value by itself.  None of the five reads or advances the
    iterator of an erased instruction, destroys an instruction that has a
    use, or needs more iterations. *)
Theorem advancing_passes_fail_by_self_replacement_only
  (bits : Z) (fuel : nat) (F : Function) (e : error) :
  NoDup (all_ids F) ->
  length (all_ids F) <= fuel ->
  TestPass.StrengthReductionPass.run bits fuel F <> Fail e /\
  Part000.StrengthReductionPass.run fuel F <> Fail e /\
  Part000.MultiInstructionOptimizationPass.run fuel F <> Fail e /\
  (Part000.AlgebraicIdentityPass.run fuel F = Fail e -> e = SelfReplace) /\
  (TestPass.MultiInstructionOptPass.run fuel F = Fail e -> e = SelfReplace).
Proof.
  intros Hnd Hfuel. split; [|split; [|split; [|split]]].
  - destruct (@TestPass_StrengthReduction_reports bits fuel F Hnd Hfuel)
      as (F' & pa & Hrun & _).
    rewrite Hrun. discriminate.
  - destruct (@Part000_StrengthReduction_returns fuel F Hnd Hfuel)
      as (F' & Hrun).
    rewrite Hrun. discriminate.
  - destruct (@Part000_MultiInstruction_run_frame fuel F Hnd Hfuel)
      as (F' & Hrun & _).
    rewrite Hrun. discriminate.
  - unfold Part000.AlgebraicIdentityPass.run. intros H.
    destruct (for_each_block Part000.fn
                (post_increment_loop Part000.fn
                   (fun _ _ => Part000.AlgebraicIdentityPass.visit) fuel) F)
      as [f|e1] eqn:E; [discriminate|].
    injection H as <-.
    apply (@scan_fails Function Part000.fn
             (fun _ _ => Part000.AlgebraicIdentityPass.visit)
             (fun e0 => e0 = SelfReplace)) with (fuel := fuel) (s := F); auto.
    + intros b it ins s s' _ Hi Hb. unfold Part000.fn in *.
      now apply Part000_AlgebraicIdentity_visit_ids.
    + intros b it ins s e0.
      rewrite Part000_AlgebraicIdentity_visit_identity.
      destruct (is_identity ins); [apply replace_erase_fails | discriminate].
  - unfold TestPass.MultiInstructionOptPass.run. intros H.
    destruct (for_each_block fst
                (post_increment_loop fst
                   (fun _ _ => TestPass.MultiInstructionOptPass.visit) fuel)
                (F, false))
      as [s|e1] eqn:E; [discriminate|].
    injection H as <-.
    apply (@scan_fails TestPass.state fst
             (fun _ _ => TestPass.MultiInstructionOptPass.visit)
             (fun e0 => e0 = SelfReplace)) with (fuel := fuel) (s := (F, false));
      auto.
    + intros b it ins s s' _ _. apply TestPass_MultiInstruction_visit_ids.
    + intros b it ins s e0.
      destruct ins as [id opc a c| |]; try discriminate.
      destruct opc; try discriminate. simpl.
      destruct (equalsInt c 1); [|discriminate].
      destruct a as [| | |AddOp]; try discriminate.
      destruct (find_inst (fst s) AddOp) as [[a' opc' Bv C2| |]|];
        try discriminate.
      destruct opc'; try discriminate.
      destruct (equalsInt C2 1); [|discriminate].
      apply TestPass_replace_erase_fails.
Qed.

Lemma advancing_passes_fail_by_self_replacement_only_witness :
  Part000.AlgebraicIdentityPass.run 1
    [[BinaryOperator 1 Add (InstRef 1) (ConstantInt 0)]] = Fail SelfReplace /\
  forall e,
    Part000.AlgebraicIdentityPass.run 1
      [[BinaryOperator 1 Add (InstRef 1) (ConstantInt 0)]] = Fail e ->
    e = SelfReplace.
Proof.
  split; [reflexivity|]. intros e.
  destruct (@advancing_passes_fail_by_self_replacement_only 32 1
              [[BinaryOperator 1 Add (InstRef 1) (ConstantInt 0)]] e)
    as (_ & _ & _ & H & _).
  - apply nodupb_NoDup. vm_compute. reflexivity.
  - vm_compute. lia.
  - exact H.
Defined.

(* ------------------------------------------------------------------------- *)
(** ** The product by 15 at width 4 *)
(* ------------------------------------------------------------------------- *)

(** X14.  At width 4, where 15 is still an integer of the type, the shift
    by 4 that both files put in the place of [Mul(x, 15)] is poison
    whatever [x] is, while the product has a value: the bound on the width
    in the strength-reduction results above cannot be dropped. *)
Theorem StrengthReduction_mul_15_at_width_4
  (args : nat -> Z) (f : Function) (b : nat) (pre suf : BasicBlock)
  (id : nat) (x : Value) (m : Sem.machine) (xv : Z) :
  NoDup (all_ids f) ->
  getBlock f b = pre ++ BinaryOperator id Mul x (ConstantInt 15) :: suf ->
  Sem.eval_value 4 args m x = Some xv ->
  (exists f' shifted result,
     Part000.StrengthReductionPass.visit
       (BinaryOperator id Mul x (ConstantInt 15)) f = Ok f' /\
     rewritten_at f f' b pre
       [BinaryOperator shifted Shl x (ConstantInt 4);
        BinaryOperator result Sub (InstRef shifted) x]
       suf id (InstRef result) /\
     Sem.exec_inst 4 args m (BinaryOperator shifted Shl x (ConstantInt 4))
     = None) /\
  (isConstant x = false ->
   exists f' shifted result,
     TestPass.StrengthReductionPass.visit 4
       (BinaryOperator id Mul x (ConstantInt 15)) (f, false) = Ok (f', true) /\
     rewritten_at f f' b pre
       [BinaryOperator shifted Shl x (ConstantInt 4);
        BinaryOperator result Sub (InstRef shifted) x]
       suf id (InstRef result) /\
     Sem.exec_inst 4 args m (BinaryOperator shifted Shl x (ConstantInt 4))
     = None) /\
  Sem.exec_inst 4 args m (BinaryOperator id Mul x (ConstantInt 15))
  = Some {| Sem.regs := (id, Sem.wrap 4 (xv * 15)) :: Sem.regs m;
            Sem.mem := Sem.mem m |}.
Proof.
  intros Hnd Hblk Ex.
  assert (Hshl : forall n,
            Sem.exec_inst 4 args m (BinaryOperator n Shl x (ConstantInt 4))
            = None).
  { intros n. simpl. rewrite Ex. reflexivity. }
  split; [|split].
  - destruct (@Part000_StrengthReduction_mul_15_step f b pre suf _ id x
                Hnd Hblk (or_introl eq_refl))
      as (f' & shifted & result & _ & _ & _ & Hv & Hr).
    exists f', shifted, result. auto.
  - intros Hx.
    destruct (@TestPass_StrengthReduction_mul_15_step 4 (f, false) b pre suf
                id x Hnd Hblk Hx)
      as (f' & shifted & result & _ & _ & _ & Hv & Hr).
    exists f', shifted, result. auto.
  - simpl. rewrite Ex. reflexivity.
Qed.

Lemma StrengthReduction_mul_15_at_width_4_witness :
  Sem.exec_inst 4 Examples.args_b10 Programs.start
    (BinaryOperator 1 Mul (Argument 0) (ConstantInt 15))
  = Some {| Sem.regs := [(1, 6%Z)]; Sem.mem := [] |} /\
  exists f' shifted result,
    Part000.StrengthReductionPass.visit
      (BinaryOperator 1 Mul (Argument 0) (ConstantInt 15)) Examples.mul_15
    = Ok f' /\
    rewritten_at Examples.mul_15 f' 0 []
      [BinaryOperator shifted Shl (Argument 0) (ConstantInt 4);
       BinaryOperator result Sub (InstRef shifted) (Argument 0)]
      [BinaryOperator 2 Add (InstRef 1) (InstRef 1)] 1 (InstRef result) /\
    Sem.exec_inst 4 Examples.args_b10 Programs.start
      (BinaryOperator shifted Shl (Argument 0) (ConstantInt 4)) = None.
Proof.
  destruct (@StrengthReduction_mul_15_at_width_4
              Examples.args_b10 Examples.mul_15 0 []
              [BinaryOperator 2 Add (InstRef 1) (InstRef 1)] 1 (Argument 0)
              Programs.start 10%Z) as (H1 & _ & H3).
  - apply nodupb_NoDup. vm_compute. reflexivity.
  - reflexivity.
  - reflexivity.
  - split; [exact H3 | exact H1].
Defined.

(* ------------------------------------------------------------------------- *)
(** ** The three passes of part_000, one after the other *)
(* ------------------------------------------------------------------------- *)

Section ScanKeepsMatches.

Variable St : Type.
Variable fn : St -> Function.
Variable body : nat -> iterator -> Instruction -> St -> outcome St.
Variable P : Function -> Prop.

Hypothesis body_ids :
  forall b it ins s s',
    NoDup (all_ids (fn s)) -> In (getId ins) (all_ids (fn s)) ->
    body b it ins s = Ok s' ->
    ids_step (getId ins) (fn s) (fn s').

Hypothesis body_keeps :
  forall b ins s s' p rest,
    NoDup (all_ids (fn s)) -> In ins (getBlock (fn s) b) ->
    ids (getBlock (fn s) b) = p ++ getId ins :: rest ->
    P (fn s) -> body b (begin_ids rest) ins s = Ok s' -> P (fn s').

Lemma visit_blocks_keeps_matches (s s' : St) :
  NoDup (all_ids (fn s)) -> P (fn s) ->
  visit_blocks fn body (map ids (fn s)) (seq 0 (length (fn s))) s = Ok s' ->
  P (fn s').
Proof.
  intros Hnd HP Hv.
  apply (@visit_blocks_settles St fn body
           (fun _ s0 => NoDup (all_ids (fn s0)) /\ P (fn s0)))
    with (L0 := map ids (fn s)) (bs := seq 0 (length (fn s))) (s := s).
  - intros V s0 H. apply H.
  - exact body_ids.
  - intros b ins s0 s1 V p rest [Hn HP0] Hin Hids Hb.
    assert (Hi : In (getId ins) (all_ids (fn s0))).
    { rewrite all_ids_flat. apply in_map. eapply in_getBlock; eauto. }
    split.
    + eapply ids_step_NoDup; [exact Hn|]. eapply body_ids; eauto.
    + eapply body_keeps; eauto.
  - apply seq_NoDup.
  - auto.
  - intros b _. apply getBlock_ids.
  - exact Hv.
Qed.

End ScanKeepsMatches.

(** The combiner of part_000 touches a subtraction, which is nothing the
    other two passes rewrite. *)
Lemma Part000_MultiInstruction_visit_matches (m : Instruction -> bool)
  (f f' : Function) (b : nat) (ins : Instruction) (p rest : list nat) :
  (forall id x y, m (BinaryOperator id Sub x y) = false) ->
  NoDup (all_ids f) -> In ins (getBlock f b) ->
  ids (getBlock f b) = p ++ getId ins :: rest ->
  nothing_left (fun _ => m) f ->
  Part000.MultiInstructionOptimizationPass.visit b (begin_ids rest) ins f
  = Ok f' ->
  nothing_left (fun _ => m) f'.
Proof.
  intros Hm Hnd Hin Hids Hno Hv.
  destruct (@block_split_of_ids f b ins p rest Hnd Hin Hids)
    as (pre & suf & Hblk & Hsuf).
  rewrite <- Hsuf, begin_ids_ids in Hv.
  rewrite (@Part000_MultiInstruction_visit_window f b pre ins suf Hnd Hblk)
    in Hv.
  injection Hv as <-.
  destruct (chain_window ins suf) as [[subId bv]|] eqn:W; simpl; [|exact Hno].
  destruct (chain_window_Some _ _ W)
    as (addInst & op0 & op1 & sid & slot & loadId & rest' & -> & Hbase & ->).
  intros x' Hx'. unfold setOperand0 in Hx'. rewrite <- concat_map in Hx'.
  apply in_map_iff in Hx'. destruct Hx' as (x & <- & Hx).
  destruct (Nat.eq_dec (getId x) subId) as [E|Hne].
  - assert (x = BinaryOperator subId Sub (InstRef loadId) (ConstantInt 1))
      as ->.
    { apply (@same_id_same_inst f); auto.
      apply (@in_getBlock f b). rewrite Hblk.
      apply in_or_app. right. simpl. auto. }
    unfold set_operand0. simpl. rewrite Nat.eqb_refl. apply Hm.
  - rewrite set_operand0_other by exact Hne. now apply Hno.
Qed.

Lemma Part000_MultiInstruction_keeps_matches (m : Instruction -> bool)
  (fuel : nat) (F F' : Function) (pa : PreservedAnalyses) :
  (forall id x y, m (BinaryOperator id Sub x y) = false) ->
  NoDup (all_ids F) -> length (all_ids F) <= fuel ->
  nothing_left (fun _ => m) F ->
  Part000.MultiInstructionOptimizationPass.run fuel F = Ok (F', pa) ->
  nothing_left (fun _ => m) F'.
Proof.
  intros Hm Hnd Hfuel Hno Hrun.
  destruct (@advancing_scans_visit_each_instruction_once 0%Z fuel F Hnd Hfuel)
    as (_ & _ & _ & _ & E).
  rewrite E in Hrun. apply bind_Ok in Hrun. destruct Hrun as (s & Hv & Hrep).
  injection Hrep as <- _.
  apply (@visit_blocks_keeps_matches Function Part000.fn
           Part000.MultiInstructionOptimizationPass.visit
           (nothing_left (fun _ => m))) with (s := F); auto.
  - intros b it ins s0 s1 _ _. apply Part000_MultiInstruction_visit_ids_step.
  - intros b ins s0 s1 p rest. unfold Part000.fn.
    now apply Part000_MultiInstruction_visit_matches.
Qed.

(** X11.  The three passes of part_000 in the order of their registration:
    the strength reduction makes no identity and the combiner makes
    nothing the other two rewrite, so the function the three leave is one
    that none of them changes. *)
Theorem Part000_pipeline_settles (fuel1 fuel2 fuel3 fuel4 : nat)
  (F : Function) :
  NoDup (all_ids F) -> ssa_order F -> length (all_ids F) <= fuel1 ->
  exists F1,
    Part000.AlgebraicIdentityPass.run fuel1 F = Ok (F1, PA_none) /\
    (length (all_ids F1) <= fuel2 ->
     exists F2,
       Part000.StrengthReductionPass.run fuel2 F1 = Ok (F2, PA_none) /\
       (length (all_ids F2) <= fuel3 ->
        exists F3,
          Part000.MultiInstructionOptimizationPass.run fuel3 F2
          = Ok (F3, PA_none) /\
          nothing_left (fun _ => is_identity) F3 /\
          nothing_left (fun _ => Part000_reduces) F3 /\
          (length (all_ids F3) <= fuel4 ->
           Part000.AlgebraicIdentityPass.run fuel4 F3 = Ok (F3, PA_none) /\
           Part000.StrengthReductionPass.run fuel4 F3 = Ok (F3, PA_none) /\
           Part000.MultiInstructionOptimizationPass.run fuel4 F3
           = Ok (F3, PA_none)))).
Proof.
  intros Hnd Hssa Hfuel1.
  destruct (@Part000_identities_then_strength_reduction fuel1 fuel2 0 F
              Hnd Hssa Hfuel1) as (F1 & Hrun1 & H1).
  exists F1. split; [exact Hrun1|]. intros Hfuel2.
  destruct (H1 Hfuel2) as (F2 & Hrun2 & Hid2 & Hred2 & _).
  exists F2. split; [exact Hrun2|]. intros Hfuel3.
  assert (Hnd2 : NoDup (all_ids F2)).
  { destruct (@Part000_AlgebraicIdentity_settles fuel1 F Hnd Hssa Hfuel1)
      as (F1' & R1 & Hn1 & Ho1 & _).
    rewrite Hrun1 in R1. injection R1 as <-.
    destruct (@Part000_StrengthReduction_settles fuel2 F1 Hn1 Ho1 Hfuel2)
      as (F2' & R2 & Hn2 & _).
    rewrite Hrun2 in R2. now injection R2 as <-. }
  destruct (@Part000_MultiInstruction_settles fuel3 F2 Hnd2 Hfuel3)
    as (F3 & Hrun3 & Hnd3 & Hq3).
  exists F3. split; [exact Hrun3|].
  assert (Hid3 : nothing_left (fun _ => is_identity) F3).
  { apply (@Part000_MultiInstruction_keeps_matches is_identity fuel3 F2 F3
             PA_none); auto. }
  assert (Hred3 : nothing_left (fun _ => Part000_reduces) F3).
  { apply (@Part000_MultiInstruction_keeps_matches Part000_reduces fuel3 F2 F3
             PA_none); auto. }
  split; [exact Hid3|]. split; [exact Hred3|]. intros Hfuel4.
  split; [|split].
  - now apply Part000_AlgebraicIdentity_nothing_left.
  - now apply Part000_StrengthReduction_nothing_left.
  - unfold Part000.MultiInstructionOptimizationPass.run.
    rewrite (@quiet_scan_post_increment Function Part000.fn
               Part000.MultiInstructionOptimizationPass.visit fuel4 F3
               Hnd3 Hfuel4 Hq3).
    reflexivity.
Qed.

Lemma Part000_pipeline_settles_witness :
  exists F1 F2 F3,
    Part000.AlgebraicIdentityPass.run 4 Programs.stored_pipeline
    = Ok (F1, PA_none) /\
    Part000.StrengthReductionPass.run 4 F1 = Ok (F2, PA_none) /\
    Part000.MultiInstructionOptimizationPass.run 6 F2 = Ok (F3, PA_none) /\
    Part000.AlgebraicIdentityPass.run 6 F3 = Ok (F3, PA_none) /\
    Part000.StrengthReductionPass.run 6 F3 = Ok (F3, PA_none) /\
    Part000.MultiInstructionOptimizationPass.run 6 F3 = Ok (F3, PA_none).
Proof.
  destruct (@Part000_pipeline_settles 4 4 6 6 Programs.stored_pipeline)
    as (F1 & Hrun1 & H1).
  - apply nodupb_NoDup. vm_compute. reflexivity.
  - apply ssa_orderb_sound. vm_compute. reflexivity.
  - vm_compute. lia.
  - assert (E1 : F1 = [[BinaryOperator 2 Mul (Argument 0) (ConstantInt 15);
                        BinaryOperator 3 SDiv (InstRef 2) (ConstantInt 8);
                        StoreInst 4 (InstRef 3) (Argument 1)]]).
    { vm_compute in Hrun1. now injection Hrun1 as <-. }
    destruct H1 as (F2 & Hrun2 & H2); [rewrite E1; vm_compute; lia|].
    assert (E2 : length (all_ids F2) <= 6).
    { rewrite E1 in Hrun2. vm_compute in Hrun2. injection Hrun2 as <-.
      vm_compute. lia. }
    destruct (H2 E2) as (F3 & Hrun3 & _ & _ & H3).
    assert (E3 : length (all_ids F3) <= 6).
    { rewrite E1 in Hrun2. vm_compute in Hrun2. injection Hrun2 as <-.
      vm_compute in Hrun3. injection Hrun3 as <-. vm_compute. lia. }
    destruct (H3 E3) as (R1 & R2 & R3).
    exists F1, F2, F3. auto 10.
Defined.
